(** * Greedy-Algorithm-Visualizer: the step-trace engines

    A shallow embedding of [utils/graph-utils.js], the Kruskal route,
    [routes/prim.js] and [routes/dijkstra.js], as Node runs them.

    Conventions of the embedding.
    - A JS string is a [string]; it is falsy exactly when it is empty.
    - A JS number is a double, a [Num]: [Fin n] is the finite double
      [n * 2^-1074] (every finite double is a whole multiple of the
      smallest positive one), [Inf] and [NInf] are the two infinities and
      [NaN] is [NaN].  Sums are rounded as IEEE 754 rounds them and go to
      [Inf] when they overflow.  The sign of a zero is not kept: no
      comparison, sum or JSON text shows it.
    - The graph is typed: [nodes] and [edges] are arrays, every node has a
      string [id] (the empty string when it has none) and every edge has
      strings [from] and [to] and a number [weight], which may be negative,
      infinite or [NaN].
    - A JS array is a [list]; a [Set] is a duplicate-free list in insertion
      order.  An object used as a dictionary is the [gmap] of its own
      properties; reading a key it does not own gives what the object
      inherits from [Object.prototype] when the key is one of
      [prototype_names], and [undefined] otherwise.
    - A thrown [Error] or [TypeError] is [Throw msg] with its message, in
      the wording of V8.  [Stuck] is a run that the embedding does not
      follow to its end: one that would not return, or one that assigns to
      the key [__proto__] of a dictionary and so replaces its prototype.
    - Kruskal looks the two ends of an edge up in [nodeMap] and takes an
      end that is no own key as unknown.  For an end that names an
      inherited property the source goes on with the inherited value in
      place of an index, and a node whose id is [__proto__] gets no own
      entry; what is proved of graphs with such names is proved under
      [plain_ids].
    - The [description] strings of the steps are narration assembled from
      the other fields and are not part of the records. *)

From stdpp Require Import gmap strings list fin_maps sorting.
From Stdlib Require Import ZArith Lia.

Local Open Scope string_scope.
Local Open Scope list_scope.
Local Open Scope Z_scope.

(** ** Outcomes *)

Inductive result (A : Type) : Type :=
| Ok (a : A)
| Throw (msg : string)
| Stuck.
Arguments Ok {A} a.
Arguments Throw {A} msg.
Arguments Stuck {A}.

Definition rbind {A B} (r : result A) (k : A → result B) : result B :=
  match r with
  | Ok a => k a
  | Throw m => Throw m
  | Stuck => Stuck
  end.

Definition of_option {A} (o : option A) : result A :=
  match o with Some a => Ok a | None => Stuck end.

(** [catch prefix r] is the [try { ... } catch (error) { throw new
    Error(prefix + error.message) }] wrapper around each engine. *)
Definition rethrow {A} (prefix : string) (r : result A) : result A :=
  match r with
  | Throw m => Throw (prefix +:+ m)
  | other => other
  end.

(** [xs.forEach(x => { acc = f(acc, x) })] where [f] may throw. *)
Fixpoint rfold {A B} (f : B → A → result B) (b : B) (l : list A) : result B :=
  match l with
  | [] => Ok b
  | x :: l' => rbind (f b x) (λ b', rfold f b' l')
  end.

(** ** Numbers *)

Inductive Num := Fin (n : Z) | Inf | NInf | NaN.

Global Instance Num_eq_dec : EqDecision Num.
Proof. solve_decision. Defined.

(** The double of the integer [k]. *)
Definition int (k : Z) : Num := Fin (k * 2 ^ 1074).

(** [n / 2^k] rounded to the nearest integer, a tie to the even one. *)
Definition round_even (n k : Z) : Z :=
  let q := n / 2 ^ k in
  let r := n mod 2 ^ k in
  let half := 2 ^ (k - 1) in
  if r <? half then q
  else if half <? r then q + 1
  else if Z.even q then q else q + 1.

(** The nearest number with 53 significant bits to [n >= 0]. *)
Definition round53 (n : Z) : Z :=
  let k := Z.log2 n - 52 in
  if k <=? 0 then n else round_even n k * 2 ^ k.

(** The double nearest to [n * 2^-1074]; from [2^1024] on it is infinite. *)
Definition to_double (n : Z) : Num :=
  let r := round53 (Z.abs n) in
  if 2 ^ 2098 <=? r then (if n <? 0 then NInf else Inf)
  else Fin (Z.sgn n * r).

(** [a + b] *)
Definition num_add (a b : Num) : Num :=
  match a, b with
  | NaN, _ | _, NaN => NaN
  | Inf, NInf | NInf, Inf => NaN
  | Inf, _ | _, Inf => Inf
  | NInf, _ | _, NInf => NInf
  | Fin x, Fin y => to_double (x + y)
  end.

Definition num_neg (a : Num) : Num :=
  match a with
  | Fin x => Fin (- x)
  | Inf => NInf
  | NInf => Inf
  | NaN => NaN
  end.

(** [a - b] *)
Definition num_sub (a b : Num) : Num := num_add a (num_neg b).

(** [a < b] *)
Definition num_lt (a b : Num) : bool :=
  match a, b with
  | NaN, _ | _, NaN => false
  | Fin x, Fin y => x <? y
  | _, NInf => false
  | NInf, _ => true
  | Inf, _ => false
  | _, Inf => true
  end.

(** [a || 0]: [NaN] and zero are falsy. *)
Definition or0 (a : Num) : Num :=
  match a with NaN => Fin 0 | _ => a end.

(** What [sort] makes of the value [d] of a comparator [(a, b) => ...]:
    [a] stays before [b] unless [d > 0]; a [NaN] counts as [0]. *)
Definition keeps_order (d : Num) : bool := negb (num_lt (Fin 0) d).

(** ** Objects used as dictionaries *)

(** The properties of [Object.prototype], which every object made by
    [{}] inherits. *)
Definition prototype_names : list string :=
  ["constructor"; "__defineGetter__"; "__defineSetter__"; "hasOwnProperty";
   "__lookupGetter__"; "__lookupSetter__"; "isPrototypeOf";
   "propertyIsEnumerable"; "toString"; "valueOf"; "__proto__";
   "toLocaleString"].

Definition inherited (k : string) : bool := bool_decide (k ∈ prototype_names).

(** [o[k]] is truthy: [k] is an own key (the values stored here are
    arrays, which are truthy) or an inherited one (a function, or
    [Object.prototype] itself for [__proto__]). *)
Definition has_truthy {A} (m : gmap string A) (k : string) : bool :=
  bool_decide (is_Some (m !! k)) || inherited k.

(** ** The graph *)

Record Node := { nid : string }.

Record Edge := {
  eid : option string;
  from : string;
  to : string;
  weight : Num;
  directed : bool
}.

Record Graph := { nodes : list Node; edges : list Edge }.

Definition truthy (s : string) : bool := negb (String.eqb s EmptyString).

Definition truthy_opt (o : option string) : bool :=
  match o with Some s => truthy s | None => false end.

Global Instance Edge_eq_dec : EqDecision Edge.
Proof. solve_decision. Defined.

(** ** utils/graph-utils.js *)

Module UnionFind.

Record t := { parent : list nat; rank : list nat }.

(** [new UnionFind(n)] *)
Definition make (n : nat) : t :=
  {| parent := seq 0 n; rank := replicate n 0%nat |}.

Definition set_parent (u : t) (x p : nat) : t :=
  {| parent := <[x := p]> (parent u); rank := rank u |}.

Definition set_rank (u : t) (x r : nat) : t :=
  {| parent := parent u; rank := <[x := r]> (rank u) |}.

(** [find(x)]: the recursion of the source, [fuel] deep at most.  [None]
    when the recursion is deeper or an index is outside the arrays. *)
Fixpoint find_rec (fuel : nat) (u : t) (x : nat) : option (t * nat) :=
  match fuel with
  | O => None
  | S fuel' =>
      p ← parent u !! x;
      if decide (p ≠ x) then
        '(u1, r) ← find_rec fuel' u p;
        let u2 := set_parent u1 x r in
        r' ← parent u2 !! x;
        Some (u2, r')
      else Some (u, p)
  end.

(** A chain of parents through an array of [n] cells that ends in a root
    has at most [n] cells, so [n] nested calls are enough. *)
Definition find (u : t) (x : nat) : option (t * nat) :=
  find_rec (length (parent u)) u x.

Definition union (u : t) (x y : nat) : option (t * bool) :=
  '(u1, rootX) ← find u x;
  '(u2, rootY) ← find u1 y;
  if decide (rootX = rootY) then Some (u2, false)
  else
    rx ← rank u2 !! rootX;
    ry ← rank u2 !! rootY;
    if decide (rx < ry)%nat then Some (set_parent u2 rootX rootY, true)
    else if decide (ry < rx)%nat then Some (set_parent u2 rootY rootX, true)
    else Some (set_rank (set_parent u2 rootY rootX) rootX (S rx), true).

Definition connected (u : t) (x y : nat) : option (t * bool) :=
  '(u1, rx) ← find u x;
  '(u2, ry) ← find u1 y;
  Some (u2, bool_decide (rx = ry)).

End UnionFind.

(** [validateGraph]: the typed [Graph] already has both arrays, and every
    weight is a number; what is left are the emptiness test and the checks
    of each edge.  [edge.weight < 0] is false for [NaN]. *)
Definition edge_ok (e : Edge) : result unit :=
  if negb (truthy (from e)) || negb (truthy (to e)) then
    Throw "Each edge must have from, to, and weight properties"
  else if num_lt (weight e) (Fin 0) then
    Throw "Edge weights must be non-negative numbers"
  else Ok tt.

Fixpoint edges_ok (es : list Edge) : result unit :=
  match es with
  | [] => Ok tt
  | e :: es' => rbind (edge_ok e) (λ _, edges_ok es')
  end.

Definition validateGraph (g : Graph) : result unit :=
  if decide (length (nodes g) = 0%nat) then
    Throw "Graph must have at least one node"
  else edges_ok (edges g).

Record AdjEntry := { adj_to : string; adj_weight : Num; adj_edgeId : string }.

(** [edge.id || `${edge.from}-${edge.to}`] *)
Definition edge_id_or (o : option string) (a b : string) : string :=
  if truthy_opt o then default EmptyString o else a +:+ "-" +:+ b.

(** [{to: target, weight: edge.weight || 0, edgeId: edge.id || ...}] *)
Definition arc_entry (e : Edge) (target : string) : AdjEntry :=
  {| adj_to := target; adj_weight := or0 (weight e);
     adj_edgeId := edge_id_or (eid e) (from e) (to e) |}.

(** [adjList[k].push(x)], where [adjList[k]] is known to be truthy and
    [what] is the text of [adjList[k]] in the source: what is not an own
    key is inherited, and the function found there has no [push]. *)
Definition adj_push (what : string) (k : string) (x : AdjEntry)
    (m : gmap string (list AdjEntry)) : result (gmap string (list AdjEntry)) :=
  match m !! k with
  | Some l => Ok (<[k := l ++ [x]]> m)
  | None => Throw (what +:+ ".push is not a function")
  end.

(** The callback of [graph.edges.forEach(edge => ...)]. *)
Definition adj_add_edge (m : gmap string (list AdjEntry)) (e : Edge)
  : result (gmap string (list AdjEntry)) :=
  if truthy (from e) && truthy (to e)
     && has_truthy m (from e) && has_truthy m (to e)
  then
    rbind (adj_push "adjList[edge.from]" (from e) (arc_entry e (to e)) m)
      (λ m1,
         if negb (directed e) then
           adj_push "adjList[edge.to]" (to e) (arc_entry e (from e)) m1
         else Ok m1)
  else Ok m.

(** The callback of [graph.nodes.forEach(node => { if (node && node.id)
    adjList[node.id] = [] })].  The assignment to [__proto__] would make
    the new array the prototype of [adjList]. *)
Definition adj_init (m : gmap string (list AdjEntry)) (n : Node)
  : result (gmap string (list AdjEntry)) :=
  if truthy (nid n) then
    if decide (nid n = "__proto__") then Stuck else Ok (<[nid n := []]> m)
  else Ok m.

Definition createAdjacencyList (g : Graph)
  : result (gmap string (list AdjEntry)) :=
  rbind (rfold adj_init ∅ (nodes g)) (λ m, rfold adj_add_edge m (edges g)).

(** [adjList[k] || []] followed by [.forEach]; [what] is the name of the
    variable that holds the value.  An own key gives its array, a key
    that is not there gives [[]], and an inherited key gives a function,
    which has no [forEach]. *)
Definition neighbours (what : string) (adjList : gmap string (list AdjEntry))
    (k : string) : result (list AdjEntry) :=
  match adjList !! k with
  | Some l => Ok l
  | None =>
      if inherited k then Throw (what +:+ ".forEach is not a function")
      else Ok []
  end.

(** ** Shared vocabulary of the traces *)

Inductive Status := pending | accepted | rejected | skipped.

Inductive Action :=
| initialize | accept | reject | complete | skip
| process_node | update_distances.

Global Instance Status_eq_dec : EqDecision Status.
Proof. solve_decision. Defined.

Global Instance Action_eq_dec : EqDecision Action.
Proof. solve_decision. Defined.

(** [{...edge, status}] *)
Record SEdge := { se_edge : Edge; se_status : Status }.

(** [Array.prototype.sort] with a consistent comparator: a stable sort.
    [le a b] says that the comparator does not put [b] before [a]
    ([cmp(a, b) <= 0], a [NaN] counting as [0]). *)
Section StableSort.
Context {A : Type} (le : A → A → bool).

Fixpoint insert_by (x : A) (l : list A) : list A :=
  match l with
  | [] => [x]
  | y :: l' => if le x y then x :: y :: l' else y :: insert_by x l'
  end.

Definition sort_by (l : list A) : list A := foldr insert_by [] l.
End StableSort.

(** [(a, b) => (a.weight || 0) - (b.weight || 0)] on edges. *)
Definition edge_le (a b : Edge) : bool :=
  keeps_order (num_sub (or0 (weight a)) (or0 (weight b))).

(** ** The Kruskal route *)

Record KStep := {
  k_step : nat;
  k_currentEdge : option SEdge;
  k_sortedEdges : list SEdge;
  k_mstEdges : list SEdge;
  k_unionFindState : list (list string);
  k_totalCost : Num;
  k_action : Action;
  k_wouldCreateCycle : option bool
}.

Record KFinal := {
  kf_mstEdges : list SEdge;
  kf_totalCost : Num;
  kf_edgeCount : nat
}.

Record KResult := { k_steps : list KStep; k_finalResult : KFinal }.

(** The live variables of [kruskalAlgorithm] that the loop changes. *)
Record KState := {
  ks_uf : UnionFind.t;
  ks_mstEdges : list SEdge;
  ks_totalCost : Num;
  ks_steps : list KStep
}.

(** [graph.nodes.forEach((node, index) => { if (node && node.id)
    nodeMap[node.id] = index })] *)
Fixpoint nodeMap_from (i : nat) (ns : list Node) (m : gmap string nat)
  : gmap string nat :=
  match ns with
  | [] => m
  | n :: ns' =>
      nodeMap_from (S i) ns' (if truthy (nid n) then <[nid n := i]> m else m)
  end.

Definition nodeMap_of (g : Graph) : gmap string nat :=
  nodeMap_from 0 (nodes g) ∅.

(** [getUnionFindState]: [components] is keyed by root index; its
    [Object.values] come in ascending order of the integer keys. *)
Fixpoint components_from (i : nat) (ns : list Node) (u : UnionFind.t)
    (comps : gmap nat (list string))
  : option (UnionFind.t * gmap nat (list string)) :=
  match ns with
  | [] => Some (u, comps)
  | n :: ns' =>
      if truthy (nid n) then
        '(u1, root) ← UnionFind.find u i;
        components_from (S i) ns' u1
          (<[root := default [] (comps !! root) ++ [nid n]]> comps)
      else components_from (S i) ns' u comps
  end.

Definition object_values {A} (bound : nat) (m : gmap nat A) : list A :=
  omap (λ i, m !! i) (seq 0 bound).

Definition getUnionFindState (u : UnionFind.t) (ns : list Node)
  : option (UnionFind.t * list (list string)) :=
  '(u1, comps) ← components_from 0 ns u ∅;
  Some (u1, object_values (length (UnionFind.parent u)) comps).

(** [mstEdges.find(mst => mst.id === e.id)], as a truth value. *)
Definition in_mst (mst : list SEdge) (e : Edge) : bool :=
  existsb (λ m, bool_decide (eid (se_edge m) = eid e)) mst.

Definition mst_status (mst : list SEdge) (e : Edge) : Status :=
  if in_mst mst e then accepted else rejected.

(** The [sortedEdges] of an examination step at [index]. *)
Definition annotate_at (mst : list SEdge) (index : nat) (st : Status)
    (es : list Edge) : list SEdge :=
  imap (λ i e,
     {| se_edge := e;
        se_status :=
          if decide (i < index)%nat then mst_status mst e
          else if decide (i = index) then st
          else pending |}) es.

(** The [sortedEdges] of a [complete] step pushed at [index]. *)
Definition annotate_upto (mst : list SEdge) (index : nat) (es : list Edge)
  : list SEdge :=
  imap (λ i e,
     {| se_edge := e;
        se_status :=
          if decide (i ≤ index)%nat then mst_status mst e else pending |}) es.

Section KruskalLoop.
Variable g : Graph.
Variable sorted : list Edge.
Variable nodeMap : gmap string nat.

(** The step pushed for the edge examined at [index]. *)
Definition examined_step (index : nat) (edge : Edge) (mst : list SEdge)
    (total : Num) (wouldCreateCycle : bool) (ufState : list (list string)) : KStep :=
  let status := if wouldCreateCycle then rejected else accepted in
  {| k_step := index + 1;
     k_currentEdge := Some {| se_edge := edge; se_status := status |};
     k_sortedEdges := annotate_at mst index status sorted;
     k_mstEdges := mst;
     k_unionFindState := ufState;
     k_totalCost := total;
     k_action := if wouldCreateCycle then reject else accept;
     k_wouldCreateCycle := Some wouldCreateCycle |}.

(** The step pushed when [mstEdges.length === nodeCount - 1]. *)
Definition complete_step (index : nat) (mst : list SEdge) (total : Num)
    (ufState : list (list string)) : KStep :=
  {| k_step := index + 2;
     k_currentEdge := None;
     k_sortedEdges := annotate_upto mst index sorted;
     k_mstEdges := mst;
     k_unionFindState := ufState;
     k_totalCost := total;
     k_action := complete;
     k_wouldCreateCycle := None |}.

(** The callback of [edges.forEach((edge, index) => ...)]. *)
Definition kruskal_body (s : KState) (index : nat) (edge : Edge)
  : option KState :=
  if negb (truthy (from edge)) || negb (truthy (to edge)) then Some s
  else
    match nodeMap !! from edge, nodeMap !! to edge with
    | Some fromNode, Some toNode =>
        '(u1, wouldCreateCycle) ← UnionFind.connected (ks_uf s) fromNode toNode;
        '(u2, mst, total) ←
           (if wouldCreateCycle : bool then
              Some (u1, ks_mstEdges s, ks_totalCost s)
            else
              '(u', _) ← UnionFind.union u1 fromNode toNode;
              Some (u', ks_mstEdges s ++ [{| se_edge := edge; se_status := accepted |}],
                    num_add (ks_totalCost s) (or0 (weight edge))));
        '(u3, ufState) ← getUnionFindState u2 (nodes g);
        let examined := examined_step index edge mst total wouldCreateCycle ufState in
        if decide (Z.of_nat (length mst) = Z.of_nat (length (nodes g)) - 1) then
          '(u4, ufState') ← getUnionFindState u3 (nodes g);
          Some {| ks_uf := u4; ks_mstEdges := mst; ks_totalCost := total;
                  ks_steps := ks_steps s ++
                    [examined; complete_step index mst total ufState'] |}
        else
          Some {| ks_uf := u3; ks_mstEdges := mst; ks_totalCost := total;
                  ks_steps := ks_steps s ++ [examined] |}
    | _, _ => Some s
    end.

(** [forEach] calls the callback on every element, in order; a [return]
    inside the callback ends that call only. *)
Fixpoint kruskal_forEach (s : KState) (index : nat) (es : list Edge)
  : option KState :=
  match es with
  | [] => Some s
  | e :: es' =>
      s' ← kruskal_body s index e;
      kruskal_forEach s' (S index) es'
  end.
End KruskalLoop.

Definition kruskal_run (g : Graph) : option KResult :=
  let sorted := sort_by edge_le (edges g) in
  let nodeCount := length (nodes g) in
  let uf := UnionFind.make nodeCount in
  let nodeMap := nodeMap_of g in
  '(uf0, ufState0) ← getUnionFindState uf (nodes g);
  let step0 :=
    {| k_step := 0;
       k_currentEdge := None;
       k_sortedEdges := map (λ e, {| se_edge := e; se_status := pending |}) sorted;
       k_mstEdges := [];
       k_unionFindState := ufState0;
       k_totalCost := Fin 0;
       k_action := initialize;
       k_wouldCreateCycle := None |} in
  s ← kruskal_forEach g sorted nodeMap
         {| ks_uf := uf0; ks_mstEdges := []; ks_totalCost := Fin 0;
            ks_steps := [step0] |} 0 sorted;
  Some {| k_steps := ks_steps s;
          k_finalResult :=
            {| kf_mstEdges := ks_mstEdges s;
               kf_totalCost := ks_totalCost s;
               kf_edgeCount := length (ks_mstEdges s) |} |}.

Definition kruskalAlgorithm (g : Graph) : result KResult :=
  rethrow "Kruskal algorithm error: "
    (rbind (validateGraph g) (λ _, of_option (kruskal_run g))).

(** ** A [Set] of strings, in insertion order *)

Definition set_has (s : list string) (x : string) : bool := bool_decide (x ∈ s).

Definition set_add (s : list string) (x : string) : list string :=
  if set_has s x then s else s ++ [x].

(** Enough iterations for the [while] loops of Prim and Dijkstra on [g]:
    every iteration removes a queue entry, and entries are added only
    when a node is visited for the first time, at most one for each entry
    of its adjacency list. *)
Definition loop_fuel (g : Graph) : nat :=
  S (S (length (nodes g)) * S (2 * length (edges g))).

(** ** routes/prim.js *)

Record PEdge := {
  pe_from : string;
  pe_to : string;
  pe_weight : Num;
  pe_edgeId : string
}.

(** An entry of Prim's [mstEdges]. *)
Record MEdge := {
  me_id : string;
  me_from : string;
  me_to : string;
  me_weight : Num;
  me_status : Status
}.

Record PStep := {
  p_step : nat;
  p_currentEdge : option (PEdge * Status);
  p_visitedNodes : list string;
  p_priorityQueue : list PEdge;
  p_mstEdges : list MEdge;
  p_totalCost : Num;
  p_action : Action;
  p_newEdgesAdded : option (list PEdge)
}.

Record PFinal := {
  pf_mstEdges : list MEdge;
  pf_totalCost : Num;
  pf_edgeCount : nat;
  pf_startNode : string
}.

Record PResult := { p_steps : list PStep; p_finalResult : PFinal }.

Record PState := {
  ps_visited : list string;
  ps_queue : list PEdge;
  ps_mstEdges : list MEdge;
  ps_totalCost : Num;
  ps_steps : list PStep;
  ps_stepCount : nat
}.

(** [(a, b) => (a.weight || 0) - (b.weight || 0)] on frontier edges. *)
Definition pedge_le (a b : PEdge) : bool :=
  keeps_order (num_sub (or0 (pe_weight a)) (or0 (pe_weight b))).

(** [neighbors.forEach(edge => { if (edge && edge.to && !visited.has(edge.to))
    acc.push({from: src, to: edge.to, weight: edge.weight || 0,
    edgeId: edge.edgeId || `${src}-${edge.to}`}) })] *)
Definition frontier_edge (src : string) (e : AdjEntry) : PEdge :=
  {| pe_from := src; pe_to := adj_to e; pe_weight := or0 (adj_weight e);
     pe_edgeId := if truthy (adj_edgeId e) then adj_edgeId e
                  else src +:+ "-" +:+ adj_to e |}.

Fixpoint push_neighbors (visited : list string) (src : string)
    (ns : list AdjEntry) (acc : list PEdge) : list PEdge :=
  match ns with
  | [] => acc
  | e :: ns' =>
      push_neighbors visited src ns'
        (if truthy (adj_to e) && negb (set_has visited (adj_to e))
         then acc ++ [frontier_edge src e] else acc)
  end.

Section PrimLoop.
Variable g : Graph.
Variable adjList : gmap string (list AdjEntry).

(** The iteration that takes [currentEdge] into the tree, given the
    array that [adjList[currentEdge.to] || []] evaluates to. *)
Definition prim_accept (s : PState) (currentEdge : PEdge) (rest : list PEdge)
    (newNeighbors : list AdjEntry) : PState :=
  let mst := ps_mstEdges s ++
    [{| me_id := pe_edgeId currentEdge; me_from := pe_from currentEdge;
        me_to := pe_to currentEdge; me_weight := or0 (pe_weight currentEdge);
        me_status := accepted |}] in
  let total := num_add (ps_totalCost s) (or0 (pe_weight currentEdge)) in
  let visited := set_add (ps_visited s) (pe_to currentEdge) in
  let newEdges := push_neighbors visited (pe_to currentEdge) newNeighbors [] in
  let pushed := push_neighbors visited (pe_to currentEdge) newNeighbors rest in
  let queue :=
    sort_by pedge_le
      (filter (λ e, truthy (pe_to e) && negb (set_has visited (pe_to e))) pushed) in
  {| ps_visited := visited; ps_queue := queue;
     ps_mstEdges := mst; ps_totalCost := total;
     ps_steps := ps_steps s ++
       [{| p_step := ps_stepCount s;
           p_currentEdge := Some (currentEdge, accepted);
           p_visitedNodes := visited;
           p_priorityQueue := queue;
           p_mstEdges := mst;
           p_totalCost := total;
           p_action := accept;
           p_newEdgesAdded := Some newEdges |}];
     ps_stepCount := S (ps_stepCount s) |}.

(** One iteration of the [while] loop, entered with a non-empty queue. *)
Definition prim_body (s : PState) (currentEdge : PEdge) (rest : list PEdge)
  : result PState :=
  if negb (truthy (pe_to currentEdge)) then
    Ok {| ps_visited := ps_visited s; ps_queue := rest;
          ps_mstEdges := ps_mstEdges s; ps_totalCost := ps_totalCost s;
          ps_steps := ps_steps s; ps_stepCount := ps_stepCount s |}
  else if set_has (ps_visited s) (pe_to currentEdge) then
    Ok {| ps_visited := ps_visited s; ps_queue := rest;
          ps_mstEdges := ps_mstEdges s; ps_totalCost := ps_totalCost s;
          ps_steps := ps_steps s ++
            [{| p_step := ps_stepCount s;
                p_currentEdge := Some (currentEdge, skipped);
                p_visitedNodes := ps_visited s;
                p_priorityQueue := rest;
                p_mstEdges := ps_mstEdges s;
                p_totalCost := ps_totalCost s;
                p_action := skip;
                p_newEdgesAdded := None |}];
          ps_stepCount := S (ps_stepCount s) |}
  else
    rbind (neighbours "newNeighbors" adjList (pe_to currentEdge))
      (λ newNeighbors, Ok (prim_accept s currentEdge rest newNeighbors)).

(** [while (priorityQueue.length > 0 && visited.size < graph.nodes.length)] *)
Fixpoint prim_loop (fuel : nat) (s : PState) : result PState :=
  match ps_queue s with
  | [] => Ok s
  | currentEdge :: rest =>
      if decide (length (ps_visited s) < length (nodes g))%nat then
        match fuel with
        | O => Stuck
        | S fuel' => rbind (prim_body s currentEdge rest) (prim_loop fuel')
        end
      else Ok s
  end.
End PrimLoop.

Definition prim_finish (g : Graph) (s : PState) : list PStep :=
  if decide (length (ps_visited s) = length (nodes g)) then
    ps_steps s ++
      [{| p_step := ps_stepCount s;
          p_currentEdge := None;
          p_visitedNodes := ps_visited s;
          p_priorityQueue := [];
          p_mstEdges := ps_mstEdges s;
          p_totalCost := ps_totalCost s;
          p_action := complete;
          p_newEdgesAdded := None |}]
  else ps_steps s.

(** [startNodeId || (graph.nodes[0] ? graph.nodes[0].id : null)] *)
Definition prim_start (g : Graph) (startNodeId : option string) : option string :=
  if truthy_opt startNodeId then startNodeId
  else match nodes g with
       | n :: _ => Some (nid n)
       | [] => None
       end.

(** From [visited.add(startNode)] to the push of the first step. *)
Definition prim_init (adjList : gmap string (list AdjEntry)) (startNode : string)
  : result PState :=
  let visited := set_add [] startNode in
  rbind (neighbours "startNeighbors" adjList startNode) (λ startNeighbors,
    let queue :=
      sort_by pedge_le (push_neighbors visited startNode startNeighbors []) in
    Ok {| ps_visited := visited; ps_queue := queue; ps_mstEdges := [];
          ps_totalCost := Fin 0;
          ps_steps :=
            [{| p_step := 0;
                p_currentEdge := None;
                p_visitedNodes := visited;
                p_priorityQueue := queue;
                p_mstEdges := [];
                p_totalCost := Fin 0;
                p_action := initialize;
                p_newEdgesAdded := None |}];
          ps_stepCount := 1 |}).

(** The run from the first step to the end of the [while] loop. *)
Definition prim_search (g : Graph) (adjList : gmap string (list AdjEntry))
    (startNode : string) : result PState :=
  rbind (prim_init adjList startNode) (prim_loop g adjList (loop_fuel g)).

Definition prim_result (g : Graph) (startNode : string) (s : PState) : PResult :=
  {| p_steps := prim_finish g s;
     p_finalResult :=
       {| pf_mstEdges := ps_mstEdges s;
          pf_totalCost := ps_totalCost s;
          pf_edgeCount := length (ps_mstEdges s);
          pf_startNode := startNode |} |}.

Definition prim_run (g : Graph) (startNodeId : option string) : result PResult :=
  if decide (length (nodes g) = 0%nat) then
    Throw "Graph must have at least one node"
  else
    rbind (createAdjacencyList g) (λ adjList,
      match prim_start g startNodeId with
      | Some startNode =>
          if truthy startNode then
            rbind (prim_search g adjList startNode)
              (λ s, Ok (prim_result g startNode s))
          else Throw "No valid start node found"
      | None => Throw "No valid start node found"
      end).

Definition primAlgorithm (g : Graph) (startNodeId : option string)
  : result PResult :=
  rethrow "Prim algorithm error: "
    (rbind (validateGraph g) (λ _, prim_run g startNodeId)).

(** The state in which the [while] loop ends, when it is reached. *)
Definition prim_final_state (g : Graph) (startNode : string) : option PState :=
  match createAdjacencyList g with
  | Ok adjList =>
      match prim_search g adjList startNode with
      | Ok s => Some s
      | _ => None
      end
  | _ => None
  end.

(** ** routes/dijkstra.js *)

(** [a < b] on distances. *)
Definition dist_lt (a b : Num) : bool := num_lt a b.

(** [currentDist === Infinity ? Infinity : currentDist + edgeWeight],
    where [edgeWeight] is [edge.weight || 0]. *)
Definition dist_add (a : Num) (w : Num) : Num :=
  match a with
  | Inf => Inf
  | _ => num_add a (or0 w)
  end.

Record QEntry := { q_nodeId : string; q_distance : Num }.

(** [(a, b) => (a.distance || 0) - (b.distance || 0)]: the difference of
    two infinite distances is [NaN], which [sort] takes as [0]. *)
Definition qentry_le (a b : QEntry) : bool :=
  keeps_order (num_sub (or0 (q_distance a)) (or0 (q_distance b))).

Record PathInfo := { path : list string; distance : Num }.

Record Update := {
  up_nodeId : string;
  up_oldDistance : Num;
  up_newDistance : Num;
  up_via : string
}.

Record DStep := {
  d_step : nat;
  d_currentNode : option string;
  d_distances : gmap string Num;
  d_previous : gmap string (option string);
  d_visited : list string;
  d_priorityQueue : list QEntry;
  d_shortestPaths : gmap string PathInfo;
  d_action : Action;
  d_updatedNeighbors : option (list Update)
}.

Record DFinal := {
  df_sourceNode : string;
  df_targetNode : option string;
  df_distances : gmap string Num;
  df_shortestPaths : gmap string PathInfo;
  df_pathExists : bool
}.

Record DResult := { d_steps : list DStep; d_finalResult : DFinal }.

(** [safeCloneDistances] and [safeClonePrevious] copy an object entry by
    entry into a fresh one. *)
Definition safeCloneDistances (distances : gmap string Num) : gmap string Num :=
  list_to_map (map_to_list distances).

Definition safeClonePrevious (previous : gmap string (option string))
  : gmap string (option string) :=
  list_to_map (map_to_list previous).

(** The [while] loop of [getShortestPaths] that walks [previous] back from
    a node; [current] is [None] for [null] and [undefined]. *)
Fixpoint walk_back (previous : gmap string (option string)) (source : string)
    (budget : nat) (current : option string) (acc : list string) : list string :=
  match budget, current with
  | S budget', Some c =>
      let acc' := c :: acc in
      if decide (c = source) then acc'
      else walk_back previous source budget' (mjoin (previous !! c)) acc'
  | _, _ => acc
  end.

Definition path_entry (previous : gmap string (option string)) (source : string)
    (maxSteps : nat) (distances : gmap string Num) (nodeId : string) : PathInfo :=
  if decide (nodeId = source) then {| path := [source]; distance := Fin 0 |}
  else
    let p := walk_back previous source maxSteps (Some nodeId) [] in
    if bool_decide (head p = Some source) then
      {| path := p; distance := default Inf (distances !! nodeId) |}
    else {| path := []; distance := Inf |}.

(** The callback of [processedNodes.forEach(nodeId => ...)]. *)
Definition add_path (previous : gmap string (option string)) (source : string)
    (maxSteps : nat) (distances : gmap string Num)
    (paths : gmap string PathInfo) (nodeId : string) : gmap string PathInfo :=
  if negb (truthy nodeId) then paths
  else <[nodeId := path_entry previous source maxSteps distances nodeId]> paths.

Definition getShortestPaths (previous : gmap string (option string))
    (source : string) (processedNodes : list string)
    (distances : gmap string Num) : gmap string PathInfo :=
  if negb (truthy source) then ∅
  else
    foldl (add_path previous source (length processedNodes + 1) distances)
      ∅ processedNodes.

Record DState := {
  ds_distances : gmap string Num;
  ds_previous : gmap string (option string);
  ds_visited : list string;
  ds_queue : list QEntry;
  ds_steps : list DStep;
  ds_stepCount : nat
}.

(** What the callback of [neighbors.forEach] changes. *)
Record Relax := {
  rx_distances : gmap string Num;
  rx_previous : gmap string (option string);
  rx_queue : list QEntry;
  rx_updated : list Update
}.

Definition relax_edge (visited : list string) (currentNodeId : string)
    (r : Relax) (edge : AdjEntry) : Relax :=
  if negb (truthy (adj_to edge)) then r
  else
    let neighborId := adj_to edge in
    if set_has visited neighborId then r
    else
      match rx_distances r !! currentNodeId, rx_distances r !! neighborId with
      | Some currentDist, Some oldDistance =>
          let newDistance := dist_add currentDist (adj_weight edge) in
          if dist_lt newDistance oldDistance then
            {| rx_distances := <[neighborId := newDistance]> (rx_distances r);
               rx_previous := <[neighborId := Some currentNodeId]> (rx_previous r);
               rx_queue :=
                 filter (λ item, q_nodeId item ≠ neighborId) (rx_queue r)
                   ++ [{| q_nodeId := neighborId; q_distance := newDistance |}];
               rx_updated := rx_updated r ++
                 [{| up_nodeId := neighborId; up_oldDistance := oldDistance;
                     up_newDistance := newDistance; up_via := currentNodeId |}] |}
          else r
      | _, _ => r
      end.

Section DijkstraLoop.
Variable adjList : gmap string (list AdjEntry).
Variable sourceNodeId : string.
Variable targetNodeId : option string.

Definition process_step (s : DState) (currentNodeId : string)
    (visited : list string) (rest : list QEntry) : DStep :=
  {| d_step := ds_stepCount s;
     d_currentNode := Some currentNodeId;
     d_distances := safeCloneDistances (ds_distances s);
     d_previous := safeClonePrevious (ds_previous s);
     d_visited := visited;
     d_priorityQueue := rest;
     d_shortestPaths :=
       getShortestPaths (ds_previous s) sourceNodeId visited (ds_distances s);
     d_action := process_node;
     d_updatedNeighbors := None |}.

Definition update_step (s : DState) (currentNodeId : string)
    (visited : list string) (r : Relax) : DStep :=
  {| d_step := S (ds_stepCount s);
     d_currentNode := Some currentNodeId;
     d_distances := safeCloneDistances (rx_distances r);
     d_previous := safeClonePrevious (rx_previous r);
     d_visited := visited;
     d_priorityQueue := rx_queue r;
     d_shortestPaths :=
       getShortestPaths (rx_previous r) sourceNodeId visited (rx_distances r);
     d_action := update_distances;
     d_updatedNeighbors := Some (rx_updated r) |}.

(** One iteration of [while (priorityQueue.length > 0)], given the queue
    after [sort] as [current :: rest].  The boolean tells whether the
    iteration left the loop through [break]. *)
Definition dijkstra_body (s : DState) (current : QEntry) (rest : list QEntry)
  : DState * bool :=
  let currentNodeId := q_nodeId current in
  let popped :=
    {| ds_distances := ds_distances s; ds_previous := ds_previous s;
       ds_visited := ds_visited s; ds_queue := rest;
       ds_steps := ds_steps s; ds_stepCount := ds_stepCount s |} in
  if negb (truthy currentNodeId) then (popped, false)
  else if set_has (ds_visited s) currentNodeId then (popped, false)
  else
    let visited := set_add (ds_visited s) currentNodeId in
    let processed := process_step s currentNodeId visited rest in
    if truthy_opt targetNodeId && bool_decide (targetNodeId = Some currentNodeId) then
      ({| ds_distances := ds_distances s; ds_previous := ds_previous s;
          ds_visited := visited; ds_queue := rest;
          ds_steps := ds_steps s ++ [processed];
          ds_stepCount := S (ds_stepCount s) |}, true)
    else
      (* adjList[currentNodeId] || []: a node that is popped has an entry
         in distances, so it is a node id and an own key of adjList *)
      let neighbors := default [] (adjList !! currentNodeId) in
      let r := foldl (relax_edge visited currentNodeId)
                 {| rx_distances := ds_distances s;
                    rx_previous := ds_previous s;
                    rx_queue := rest; rx_updated := [] |} neighbors in
      if decide (0 < length (rx_updated r))%nat then
        ({| ds_distances := rx_distances r; ds_previous := rx_previous r;
            ds_visited := visited; ds_queue := rx_queue r;
            ds_steps := ds_steps s ++
              [processed; update_step s currentNodeId visited r];
            ds_stepCount := S (S (ds_stepCount s)) |}, false)
      else
        ({| ds_distances := rx_distances r; ds_previous := rx_previous r;
            ds_visited := visited; ds_queue := rx_queue r;
            ds_steps := ds_steps s ++ [processed];
            ds_stepCount := S (ds_stepCount s) |}, false).

Fixpoint dijkstra_loop (fuel : nat) (s : DState) : option DState :=
  match sort_by qentry_le (ds_queue s) with
  | [] => Some s
  | current :: rest =>
      match fuel with
      | O => None
      | S fuel' =>
          let '(s', stop) := dijkstra_body s current rest in
          if stop then Some s' else dijkstra_loop fuel' s'
      end
  end.
End DijkstraLoop.

(** [graph.nodes.forEach(node => { if (node && node.id) { distances[node.id]
    = node.id === sourceNodeId ? 0 : Infinity; previous[node.id] = null } })].
    No node id is [__proto__] here: [createAdjacencyList] has returned. *)
Definition init_node (sourceNodeId : string)
    (acc : gmap string Num * gmap string (option string)) (node : Node)
  : gmap string Num * gmap string (option string) :=
  if truthy (nid node) then
    (<[nid node := if decide (nid node = sourceNodeId) then Fin 0 else Inf]> acc.1,
     <[nid node := None]> acc.2)
  else acc.

Definition dijkstra_init_maps (g : Graph) (sourceNodeId : string)
  : gmap string Num * gmap string (option string) :=
  foldl (init_node sourceNodeId) (∅, ∅) (nodes g).

Definition dijkstra_init (g : Graph) (sourceNodeId : string) : DState :=
  let '(distances, previous) := dijkstra_init_maps g sourceNodeId in
  let queue := [{| q_nodeId := sourceNodeId; q_distance := Fin 0 |}] in
  {| ds_distances := distances; ds_previous := previous; ds_visited := [];
     ds_queue := queue;
     ds_steps :=
       [{| d_step := 0;
           d_currentNode := None;
           d_distances := safeCloneDistances distances;
           d_previous := safeClonePrevious previous;
           d_visited := [];
           d_priorityQueue := queue;
           d_shortestPaths := ∅;
           d_action := initialize;
           d_updatedNeighbors := None |}];
     ds_stepCount := 1 |}.

(** The state in which the [while] loop ends, when it is reached. *)
Definition dijkstra_final_state (g : Graph) (sourceNodeId : string)
    (targetNodeId : option string) : option DState :=
  match createAdjacencyList g with
  | Ok adjList =>
      dijkstra_loop adjList sourceNodeId targetNodeId
        (loop_fuel g) (dijkstra_init g sourceNodeId)
  | _ => None
  end.

Definition dijkstra_finish (g : Graph) (sourceNodeId : string)
    (targetNodeId : option string) (s : DState) : DResult :=
  let finalPaths :=
    getShortestPaths (ds_previous s) sourceNodeId (map nid (nodes g))
      (ds_distances s) in
  {| d_steps := ds_steps s ++
       [{| d_step := ds_stepCount s;
           d_currentNode := None;
           d_distances := safeCloneDistances (ds_distances s);
           d_previous := safeClonePrevious (ds_previous s);
           d_visited := ds_visited s;
           d_priorityQueue := [];
           d_shortestPaths := finalPaths;
           d_action := complete;
           d_updatedNeighbors := None |}];
     d_finalResult :=
       {| df_sourceNode := sourceNodeId;
          df_targetNode := if truthy_opt targetNodeId then targetNodeId else None;
          df_distances := safeCloneDistances (ds_distances s);
          df_shortestPaths := finalPaths;
          df_pathExists :=
            match targetNodeId with
            | Some t =>
                if truthy t then bool_decide (ds_distances s !! t ≠ Some Inf)
                else true
            | None => true
            end |} |}.

Definition dijkstra_run (g : Graph) (sourceNodeId targetNodeId : option string)
  : result DResult :=
  match sourceNodeId with
  | Some src =>
      if negb (truthy src) then Throw "Source node ID is required"
      else if negb (existsb (λ node, bool_decide (nid node = src)) (nodes g)) then
        Throw ("Source node '" +:+ src +:+ "' not found in graph")
      else
        rbind (createAdjacencyList g) (λ adjList,
          rbind (of_option (dijkstra_loop adjList src targetNodeId
                              (loop_fuel g) (dijkstra_init g src)))
            (λ s, Ok (dijkstra_finish g src targetNodeId s)))
  | None => Throw "Source node ID is required"
  end.

Definition dijkstraAlgorithm (g : Graph) (sourceNodeId targetNodeId : option string)
  : result DResult :=
  rethrow "Dijkstra algorithm error: "
    (rbind (validateGraph g) (λ _, dijkstra_run g sourceNodeId targetNodeId)).

(** * The engines over a store of mutable collections

    The embedding above computes with values.  To speak of a step that
    shares an array with the live state of the engine, this part runs the
    same engines over a store: every array, [Set] and dictionary object
    that the source creates is a cell of the store, a variable or a field
    of a step holds the location of its cell, [push], [shift], [sort],
    [add] and an assignment [o[k] = v] overwrite a cell, and a spread
    [[...a]], a [filter], a [map] and the clone helpers allocate a new
    one.  The objects inside these arrays (edges, queue entries) are never
    assigned to after they are created, so they stay values, and so does
    the sorted array [edges] of Kruskal.  The two arrays of a [UnionFind]
    are reached through its methods only and share one cell.  The pushes
    of one [forEach] onto the same array are written at once. *)

Inductive Cell :=
| CUF (u : UnionFind.t)
| CSEdges (l : list SEdge)
| CComps (l : list (list string))
| CStrings (l : list string)
| CPEdges (l : list PEdge)
| CMEdges (l : list MEdge)
| CQueue (l : list QEntry)
| CUpdates (l : list Update)
| CDists (m : gmap string Num)
| CPrevs (m : gmap string (option string))
| CPaths (m : gmap string PathInfo).

Abbreviation loc := nat (only parsing).
Abbreviation Store := (list Cell) (only parsing).

(** A new cell; its location is the next free one. *)
Definition alloc (c : Cell) (σ : Store) : loc * Store := (length σ, σ ++ [c]).

Definition write (l : loc) (c : Cell) (σ : Store) : Store := <[l := c]> σ.

Definition get_uf (σ : Store) (l : loc) : UnionFind.t :=
  match σ !! l with Some (CUF x) => x | _ => UnionFind.make 0 end.
Definition get_sedges (σ : Store) (l : loc) : list SEdge :=
  match σ !! l with Some (CSEdges x) => x | _ => [] end.
Definition get_comps (σ : Store) (l : loc) : list (list string) :=
  match σ !! l with Some (CComps x) => x | _ => [] end.
Definition get_strings (σ : Store) (l : loc) : list string :=
  match σ !! l with Some (CStrings x) => x | _ => [] end.
Definition get_pedges (σ : Store) (l : loc) : list PEdge :=
  match σ !! l with Some (CPEdges x) => x | _ => [] end.
Definition get_medges (σ : Store) (l : loc) : list MEdge :=
  match σ !! l with Some (CMEdges x) => x | _ => [] end.
Definition get_queue (σ : Store) (l : loc) : list QEntry :=
  match σ !! l with Some (CQueue x) => x | _ => [] end.
Definition get_updates (σ : Store) (l : loc) : list Update :=
  match σ !! l with Some (CUpdates x) => x | _ => [] end.
Definition get_dists (σ : Store) (l : loc) : gmap string Num :=
  match σ !! l with Some (CDists x) => x | _ => ∅ end.
Definition get_prevs (σ : Store) (l : loc) : gmap string (option string) :=
  match σ !! l with Some (CPrevs x) => x | _ => ∅ end.
Definition get_paths (σ : Store) (l : loc) : gmap string PathInfo :=
  match σ !! l with Some (CPaths x) => x | _ => ∅ end.

(** ** Prim over the store *)

(** A step whose collections are locations. *)
Record PRef := {
  pr_step : nat;
  pr_currentEdge : option (PEdge * Status);
  pr_visitedNodes : loc;
  pr_priorityQueue : loc;
  pr_mstEdges : loc;
  pr_totalCost : Num;
  pr_action : Action;
  pr_newEdgesAdded : option loc
}.

Definition plocs (r : PRef) : list loc :=
  pr_visitedNodes r :: pr_priorityQueue r :: pr_mstEdges r ::
  match pr_newEdgesAdded r with Some l => [l] | None => [] end.

(** The step as a reader of [σ] sees it. *)
Definition pderef (σ : Store) (r : PRef) : PStep :=
  {| p_step := pr_step r;
     p_currentEdge := pr_currentEdge r;
     p_visitedNodes := get_strings σ (pr_visitedNodes r);
     p_priorityQueue := get_pedges σ (pr_priorityQueue r);
     p_mstEdges := get_medges σ (pr_mstEdges r);
     p_totalCost := pr_totalCost r;
     p_action := pr_action r;
     p_newEdgesAdded := get_pedges σ <$> pr_newEdgesAdded r |}.

(** The variables [visited], [priorityQueue], [mstEdges], [totalCost] and
    [stepCount]. *)
Record PLive := {
  pl_visited : loc;
  pl_queue : loc;
  pl_mst : loc;
  pl_total : Num;
  pl_stepCount : nat
}.

Definition plive_locs (v : PLive) : list loc :=
  [pl_visited v; pl_queue v; pl_mst v].

(** An element of [steps], with the store and the variables at the moment
    it was pushed. *)
Record PEntry := { pen_ref : PRef; pen_store : Store; pen_live : PLive }.

Record PHeap := { ph_store : Store; ph_live : PLive; ph_log : list PEntry }.

(** [steps.push({step, currentEdge, visitedNodes: [...visited],
    priorityQueue: queue, mstEdges: mst, totalCost, action, newEdgesAdded})],
    where [queue] and [mst] are new arrays with the given elements. *)
Definition prim_push (h : PHeap) (n : nat) (cur : option (PEdge * Status))
    (queue : list PEdge) (mst : list MEdge) (total : Num) (a : Action)
    (newEdges : option loc) (count : nat) : PHeap :=
  let σ := ph_store h in
  let v := ph_live h in
  let '(lv, σ1) := alloc (CStrings (get_strings σ (pl_visited v))) σ in
  let '(lq, σ2) := alloc (CPEdges queue) σ1 in
  let '(lm, σ3) := alloc (CMEdges mst) σ2 in
  let v' := {| pl_visited := pl_visited v; pl_queue := pl_queue v;
               pl_mst := pl_mst v; pl_total := pl_total v;
               pl_stepCount := count |} in
  {| ph_store := σ3; ph_live := v';
     ph_log := ph_log h ++
       [{| pen_ref := {| pr_step := n; pr_currentEdge := cur;
                         pr_visitedNodes := lv; pr_priorityQueue := lq;
                         pr_mstEdges := lm; pr_totalCost := total;
                         pr_action := a; pr_newEdgesAdded := newEdges |};
           pen_store := σ3; pen_live := v' |}] |}.

Section PrimStore.
Variable g : Graph.
Variable adjList : gmap string (list AdjEntry).

Definition prim_body_h (h : PHeap) : option PHeap :=
  let σ := ph_store h in
  let v := ph_live h in
  match get_pedges σ (pl_queue v) with
  | [] => Some h
  | currentEdge :: rest =>
    (* priorityQueue.shift() *)
    let σ1 := write (pl_queue v) (CPEdges rest) σ in
    if negb (truthy (pe_to currentEdge)) then
      Some {| ph_store := σ1; ph_live := v; ph_log := ph_log h |}
    else if set_has (get_strings σ1 (pl_visited v)) (pe_to currentEdge) then
      Some (prim_push {| ph_store := σ1; ph_live := v; ph_log := ph_log h |}
        (pl_stepCount v) (Some (currentEdge, skipped))
        (get_pedges σ1 (pl_queue v)) (get_medges σ1 (pl_mst v))
        (pl_total v) skip None (S (pl_stepCount v)))
    else
      (* mstEdges.push(...) *)
      let σ2 := write (pl_mst v) (CMEdges (get_medges σ1 (pl_mst v) ++
        [{| me_id := pe_edgeId currentEdge; me_from := pe_from currentEdge;
            me_to := pe_to currentEdge; me_weight := or0 (pe_weight currentEdge);
            me_status := accepted |}])) σ1 in
      let total := num_add (pl_total v) (or0 (pe_weight currentEdge)) in
      (* visited.add(currentEdge.to) *)
      let σ3 := write (pl_visited v)
        (CStrings (set_add (get_strings σ2 (pl_visited v)) (pe_to currentEdge))) σ2 in
      (* const newEdges = [] *)
      let '(ln, σ4) := alloc (CPEdges []) σ3 in
      (* const newNeighbors = adjList[currentEdge.to] || []; a throw of
         newNeighbors.forEach ends the run *)
      match neighbours "newNeighbors" adjList (pe_to currentEdge) with
      | Ok newNeighbors =>
        let visited := get_strings σ4 (pl_visited v) in
        (* newEdges.push(newEdge); priorityQueue.push(newEdge) *)
        let σ5 := write ln (CPEdges (push_neighbors visited (pe_to currentEdge)
                     newNeighbors (get_pedges σ4 ln))) σ4 in
        let σ6 := write (pl_queue v) (CPEdges (push_neighbors visited
                     (pe_to currentEdge) newNeighbors (get_pedges σ5 (pl_queue v)))) σ5 in
        (* priorityQueue = priorityQueue.filter(...) *)
        let '(lq, σ7) := alloc (CPEdges
          (filter (λ e, truthy (pe_to e) && negb (set_has visited (pe_to e)))
                  (get_pedges σ6 (pl_queue v)))) σ6 in
        (* priorityQueue.sort(...) *)
        let σ8 := write lq (CPEdges (sort_by pedge_le (get_pedges σ7 lq))) σ7 in
        let v' := {| pl_visited := pl_visited v; pl_queue := lq;
                     pl_mst := pl_mst v; pl_total := total;
                     pl_stepCount := pl_stepCount v |} in
        Some (prim_push {| ph_store := σ8; ph_live := v'; ph_log := ph_log h |}
          (pl_stepCount v) (Some (currentEdge, accepted))
          (get_pedges σ8 lq) (get_medges σ8 (pl_mst v))
          total accept (Some ln) (S (pl_stepCount v)))
      | _ => None
      end
  end.

Fixpoint prim_loop_h (fuel : nat) (h : PHeap) : option PHeap :=
  match get_pedges (ph_store h) (pl_queue (ph_live h)) with
  | [] => Some h
  | _ :: _ =>
      if decide (length (get_strings (ph_store h) (pl_visited (ph_live h)))
                 < length (nodes g))%nat then
        match fuel with
        | O => None
        | S fuel' => h' ← prim_body_h h; prim_loop_h fuel' h'
        end
      else Some h
  end.
End PrimStore.

Definition prim_init_h (adjList : gmap string (list AdjEntry))
    (startNode : string) : option PHeap :=
  (* const mstEdges = []; const visited = new Set() *)
  let '(lm, σ1) := alloc (CMEdges []) [] in
  let '(lv, σ2) := alloc (CStrings []) σ1 in
  (* visited.add(startNode) *)
  let σ3 := write lv (CStrings (set_add (get_strings σ2 lv) startNode)) σ2 in
  (* let priorityQueue = [] *)
  let '(lq, σ4) := alloc (CPEdges []) σ3 in
  (* const startNeighbors = adjList[startNode] || [] *)
  match neighbours "startNeighbors" adjList startNode with
  | Ok startNeighbors =>
    let σ5 := write lq (CPEdges (push_neighbors (get_strings σ4 lv) startNode
                 startNeighbors (get_pedges σ4 lq))) σ4 in
    let σ6 := write lq (CPEdges (sort_by pedge_le (get_pedges σ5 lq))) σ5 in
    Some (prim_push {| ph_store := σ6;
                 ph_live := {| pl_visited := lv; pl_queue := lq; pl_mst := lm;
                               pl_total := Fin 0; pl_stepCount := 0 |};
                 ph_log := [] |}
      0 None (get_pedges σ6 lq) [] (Fin 0) initialize None 1)
  | _ => None
  end.

Definition prim_finish_h (g : Graph) (h : PHeap) : PHeap :=
  if decide (length (get_strings (ph_store h) (pl_visited (ph_live h)))
             = length (nodes g)) then
    prim_push h (pl_stepCount (ph_live h)) None [] 
      (get_medges (ph_store h) (pl_mst (ph_live h)))
      (pl_total (ph_live h)) complete None (pl_stepCount (ph_live h))
  else h.

(** The store, the variables and the steps when [primAlgorithm] returns. *)
Definition prim_run_h (g : Graph) (startNode : string) : option PHeap :=
  match createAdjacencyList g with
  | Ok adjList =>
      h0 ← prim_init_h adjList startNode;
      prim_finish_h g <$> prim_loop_h g adjList (loop_fuel g) h0
  | _ => None
  end.

(** ** Dijkstra over the store *)

Record DRef := {
  dr_step : nat;
  dr_currentNode : option string;
  dr_distances : loc;
  dr_previous : loc;
  dr_visited : loc;
  dr_priorityQueue : loc;
  dr_shortestPaths : loc;
  dr_action : Action;
  dr_updatedNeighbors : option loc
}.

Definition dlocs (r : DRef) : list loc :=
  dr_distances r :: dr_previous r :: dr_visited r :: dr_priorityQueue r ::
  dr_shortestPaths r ::
  match dr_updatedNeighbors r with Some l => [l] | None => [] end.

Definition dderef (σ : Store) (r : DRef) : DStep :=
  {| d_step := dr_step r;
     d_currentNode := dr_currentNode r;
     d_distances := get_dists σ (dr_distances r);
     d_previous := get_prevs σ (dr_previous r);
     d_visited := get_strings σ (dr_visited r);
     d_priorityQueue := get_queue σ (dr_priorityQueue r);
     d_shortestPaths := get_paths σ (dr_shortestPaths r);
     d_action := dr_action r;
     d_updatedNeighbors := get_updates σ <$> dr_updatedNeighbors r |}.

(** The variables [distances], [previous], [visited], [priorityQueue] and
    [stepCount]. *)
Record DLive := {
  dl_distances : loc;
  dl_previous : loc;
  dl_visited : loc;
  dl_queue : loc;
  dl_stepCount : nat
}.

Definition dlive_locs (v : DLive) : list loc :=
  [dl_distances v; dl_previous v; dl_visited v; dl_queue v].

Record DEntry := { den_ref : DRef; den_store : Store; den_live : DLive }.

Record DHeap := { dh_store : Store; dh_live : DLive; dh_log : list DEntry }.

(** [steps.push({step, currentNode, distances: safeCloneDistances(distances),
    previous: safeClonePrevious(previous), visited: [...visited],
    priorityQueue: queue, shortestPaths, action, updatedNeighbors})], where
    [queue] is a new array with the given elements and [shortestPaths] is
    either the object that [getShortestPaths] returns here or one made
    before. *)
Definition dijkstra_push (h : DHeap) (n : nat) (cur : option string)
    (queue : list QEntry) (paths : gmap string PathInfo + loc) (a : Action)
    (updated : option loc) (count : nat) : DHeap :=
  let σ := dh_store h in
  let v := dh_live h in
  let '(ld, σ1) := alloc (CDists (safeCloneDistances (get_dists σ (dl_distances v)))) σ in
  let '(lp, σ2) := alloc (CPrevs (safeClonePrevious (get_prevs σ1 (dl_previous v)))) σ1 in
  let '(lv, σ3) := alloc (CStrings (get_strings σ2 (dl_visited v))) σ2 in
  let '(lq, σ4) := alloc (CQueue queue) σ3 in
  let '(ls, σ5) := match paths with
                   | inl m => alloc (CPaths m) σ4
                   | inr l => (l, σ4)
                   end in
  let v' := {| dl_distances := dl_distances v; dl_previous := dl_previous v;
               dl_visited := dl_visited v; dl_queue := dl_queue v;
               dl_stepCount := count |} in
  {| dh_store := σ5; dh_live := v';
     dh_log := dh_log h ++
       [{| den_ref := {| dr_step := n; dr_currentNode := cur;
                         dr_distances := ld; dr_previous := lp;
                         dr_visited := lv; dr_priorityQueue := lq;
                         dr_shortestPaths := ls; dr_action := a;
                         dr_updatedNeighbors := updated |};
           den_store := σ5; den_live := v' |}] |}.

(** The callback of [neighbors.forEach]; [lu] is [updatedNeighbors]. *)
Definition relax_edge_h (lu : loc) (currentNodeId : string)
    (c : Store * DLive) (edge : AdjEntry) : Store * DLive :=
  let σ := c.1 in
  let v := c.2 in
  if negb (truthy (adj_to edge)) then c
  else
    let neighborId := adj_to edge in
    if set_has (get_strings σ (dl_visited v)) neighborId then c
    else
      match get_dists σ (dl_distances v) !! currentNodeId,
            get_dists σ (dl_distances v) !! neighborId with
      | Some currentDist, Some oldDistance =>
          let newDistance := dist_add currentDist (adj_weight edge) in
          if dist_lt newDistance oldDistance then
            (* distances[neighborId] = newDistance *)
            let σ1 := write (dl_distances v)
              (CDists (<[neighborId := newDistance]> (get_dists σ (dl_distances v)))) σ in
            (* previous[neighborId] = currentNodeId *)
            let σ2 := write (dl_previous v)
              (CPrevs (<[neighborId := Some currentNodeId]>
                         (get_prevs σ1 (dl_previous v)))) σ1 in
            (* updatedNeighbors.push(...) *)
            let σ3 := write lu (CUpdates (get_updates σ2 lu ++
              [{| up_nodeId := neighborId; up_oldDistance := oldDistance;
                  up_newDistance := newDistance; up_via := currentNodeId |}])) σ2 in
            (* priorityQueue = priorityQueue.filter(...) *)
            let '(lq, σ4) := alloc (CQueue
              (filter (λ item, q_nodeId item ≠ neighborId)
                      (get_queue σ3 (dl_queue v)))) σ3 in
            (* priorityQueue.push(...) *)
            let σ5 := write lq (CQueue (get_queue σ4 lq ++
              [{| q_nodeId := neighborId; q_distance := newDistance |}])) σ4 in
            (σ5, {| dl_distances := dl_distances v; dl_previous := dl_previous v;
                    dl_visited := dl_visited v; dl_queue := lq;
                    dl_stepCount := dl_stepCount v |})
          else c
      | _, _ => c
      end.

Section DijkstraStore.
Variable adjList : gmap string (list AdjEntry).
Variable sourceNodeId : string.
Variable targetNodeId : option string.

(** One iteration, given the sorted queue as [current :: rest]. *)
Definition dijkstra_body_h (h : DHeap) (current : QEntry) (rest : list QEntry)
  : DHeap * bool :=
  let σ := dh_store h in
  let v := dh_live h in
  (* priorityQueue.sort(...); priorityQueue.shift() *)
  let σ1 := write (dl_queue v) (CQueue (sort_by qentry_le (get_queue σ (dl_queue v)))) σ in
  let σ2 := write (dl_queue v) (CQueue rest) σ1 in
  let currentNodeId := q_nodeId current in
  let popped := {| dh_store := σ2; dh_live := v; dh_log := dh_log h |} in
  if negb (truthy currentNodeId) then (popped, false)
  else if set_has (get_strings σ2 (dl_visited v)) currentNodeId then (popped, false)
  else
    (* visited.add(currentNodeId) *)
    let σ3 := write (dl_visited v)
      (CStrings (set_add (get_strings σ2 (dl_visited v)) currentNodeId)) σ2 in
    let h1 := dijkstra_push {| dh_store := σ3; dh_live := v; dh_log := dh_log h |}
      (dl_stepCount v) (Some currentNodeId) (get_queue σ3 (dl_queue v))
      (inl (getShortestPaths (get_prevs σ3 (dl_previous v)) sourceNodeId
              (get_strings σ3 (dl_visited v)) (get_dists σ3 (dl_distances v))))
      process_node None (S (dl_stepCount v)) in
    if truthy_opt targetNodeId && bool_decide (targetNodeId = Some currentNodeId) then
      (h1, true)
    else
      (* const updatedNeighbors = [] *)
      let '(lu, σ4) := alloc (CUpdates []) (dh_store h1) in
      let neighbors := default [] (adjList !! currentNodeId) in
      let c := foldl (relax_edge_h lu currentNodeId) (σ4, dh_live h1) neighbors in
      let h2 := {| dh_store := c.1; dh_live := c.2; dh_log := dh_log h1 |} in
      if decide (0 < length (get_updates c.1 lu))%nat then
        (dijkstra_push h2 (dl_stepCount c.2) (Some currentNodeId)
           (get_queue c.1 (dl_queue c.2))
           (inl (getShortestPaths (get_prevs c.1 (dl_previous c.2)) sourceNodeId
                   (get_strings c.1 (dl_visited c.2))
                   (get_dists c.1 (dl_distances c.2))))
           update_distances (Some lu) (S (dl_stepCount c.2)), false)
      else (h2, false).

Fixpoint dijkstra_loop_h (fuel : nat) (h : DHeap) : option DHeap :=
  match sort_by qentry_le (get_queue (dh_store h) (dl_queue (dh_live h))) with
  | [] => Some h
  | current :: rest =>
      match fuel with
      | O => None
      | S fuel' =>
          let '(h', stop) := dijkstra_body_h h current rest in
          if stop then Some h' else dijkstra_loop_h fuel' h'
      end
  end.
End DijkstraStore.

Definition dijkstra_init_h (g : Graph) (sourceNodeId : string) : DHeap :=
  (* const distances = {}; const previous = {}; const visited = new Set() *)
  let '(ld, σ1) := alloc (CDists ∅) [] in
  let '(lp, σ2) := alloc (CPrevs ∅) σ1 in
  let '(lv, σ3) := alloc (CStrings []) σ2 in
  (* graph.nodes.forEach(...) *)
  let maps := foldl (init_node sourceNodeId)
                (get_dists σ3 ld, get_prevs σ3 lp) (nodes g) in
  let σ4 := write ld (CDists maps.1) σ3 in
  let σ5 := write lp (CPrevs maps.2) σ4 in
  (* let priorityQueue = [{nodeId: sourceNodeId, distance: 0}] *)
  let '(lq, σ6) :=
    alloc (CQueue [{| q_nodeId := sourceNodeId; q_distance := Fin 0 |}]) σ5 in
  dijkstra_push {| dh_store := σ6;
                   dh_live := {| dl_distances := ld; dl_previous := lp;
                                 dl_visited := lv; dl_queue := lq;
                                 dl_stepCount := 0 |};
                   dh_log := [] |}
    0 None (get_queue σ6 lq) (inl ∅) initialize None 1.

(** The last step; the second component is [finalResult.distances] and the
    third [finalResult.shortestPaths]. *)
Definition dijkstra_finish_h (g : Graph) (sourceNodeId : string) (h : DHeap)
  : DHeap * loc * loc :=
  let σ := dh_store h in
  let v := dh_live h in
  (* const finalPaths = getShortestPaths(...) *)
  let '(lf, σ1) := alloc (CPaths
    (getShortestPaths (get_prevs σ (dl_previous v)) sourceNodeId
       (map nid (nodes g)) (get_dists σ (dl_distances v)))) σ in
  let h1 := dijkstra_push {| dh_store := σ1; dh_live := v; dh_log := dh_log h |}
    (dl_stepCount v) None [] (inr lf) complete None (dl_stepCount v) in
  let '(ld, σ2) := alloc (CDists (safeCloneDistances
    (get_dists (dh_store h1) (dl_distances v)))) (dh_store h1) in
  ({| dh_store := σ2; dh_live := dh_live h1; dh_log := dh_log h1 |}, ld, lf).

(** The store, the variables and the steps when [dijkstraAlgorithm]
    returns. *)
Definition dijkstra_run_h (g : Graph) (sourceNodeId : string)
    (targetNodeId : option string) : option (DHeap * loc * loc) :=
  match createAdjacencyList g with
  | Ok adjList =>
      dijkstra_finish_h g sourceNodeId <$>
        dijkstra_loop_h adjList sourceNodeId targetNodeId
          (loop_fuel g) (dijkstra_init_h g sourceNodeId)
  | _ => None
  end.

(** ** Kruskal over the store *)

Record KRef := {
  kr_step : nat;
  kr_currentEdge : option SEdge;
  kr_sortedEdges : loc;
  kr_mstEdges : loc;
  kr_unionFindState : loc;
  kr_totalCost : Num;
  kr_action : Action;
  kr_wouldCreateCycle : option bool
}.

Definition klocs (r : KRef) : list loc :=
  [kr_sortedEdges r; kr_mstEdges r; kr_unionFindState r].

Definition kderef (σ : Store) (r : KRef) : KStep :=
  {| k_step := kr_step r;
     k_currentEdge := kr_currentEdge r;
     k_sortedEdges := get_sedges σ (kr_sortedEdges r);
     k_mstEdges := get_sedges σ (kr_mstEdges r);
     k_unionFindState := get_comps σ (kr_unionFindState r);
     k_totalCost := kr_totalCost r;
     k_action := kr_action r;
     k_wouldCreateCycle := kr_wouldCreateCycle r |}.

(** The variables [uf], [mstEdges] and [totalCost]. *)
Record KLive := { kl_uf : loc; kl_mst : loc; kl_total : Num }.

Definition klive_locs (v : KLive) : list loc := [kl_uf v; kl_mst v].

Record KEntry := { ken_ref : KRef; ken_store : Store; ken_live : KLive }.

Record KHeap := { kh_store : Store; kh_live : KLive; kh_log : list KEntry }.

(** [steps.push({step, currentEdge, sortedEdges: edges.map(...),
    mstEdges: mst, unionFindState: getUnionFindState(uf, graph.nodes),
    totalCost, action, wouldCreateCycle})], where [sortedEdges] and [mst]
    are new arrays with the given elements; [getUnionFindState] compresses
    paths of [uf]. *)
Definition kruskal_push (ns : list Node) (h : KHeap) (n : nat)
    (cur : option SEdge) (sortedEdges mst : list SEdge) (total : Num)
    (a : Action) (wouldCreateCycle : option bool) : option KHeap :=
  let σ := kh_store h in
  let v := kh_live h in
  let '(ls, σ1) := alloc (CSEdges sortedEdges) σ in
  let '(lm, σ2) := alloc (CSEdges mst) σ1 in
  '(u1, ufState) ← getUnionFindState (get_uf σ2 (kl_uf v)) ns;
  let σ3 := write (kl_uf v) (CUF u1) σ2 in
  let '(lu, σ4) := alloc (CComps ufState) σ3 in
  Some {| kh_store := σ4; kh_live := v;
          kh_log := kh_log h ++
            [{| ken_ref := {| kr_step := n; kr_currentEdge := cur;
                              kr_sortedEdges := ls; kr_mstEdges := lm;
                              kr_unionFindState := lu; kr_totalCost := total;
                              kr_action := a;
                              kr_wouldCreateCycle := wouldCreateCycle |};
                ken_store := σ4; ken_live := v |}] |}.

Section KruskalStore.
Variable g : Graph.
Variable sorted : list Edge.
Variable nodeMap : gmap string nat.

(** The [steps.push] of the callback, and the second one when
    [mstEdges.length === nodeCount - 1]. *)
Definition kruskal_pushes (h : KHeap) (index : nat) (edge : Edge)
    (wouldCreateCycle : bool) : option KHeap :=
  let v := kh_live h in
  let status := if wouldCreateCycle then rejected else accepted in
  h1 ← kruskal_push (nodes g) h
         (index + 1) (Some {| se_edge := edge; se_status := status |})
         (annotate_at (get_sedges (kh_store h) (kl_mst v)) index status sorted)
         (get_sedges (kh_store h) (kl_mst v)) (kl_total v)
         (if wouldCreateCycle then reject else accept)
         (Some wouldCreateCycle);
  if decide (Z.of_nat (length (get_sedges (kh_store h1) (kl_mst v)))
             = Z.of_nat (length (nodes g)) - 1) then
    kruskal_push (nodes g) h1 (index + 2) None
      (annotate_upto (get_sedges (kh_store h1) (kl_mst v)) index sorted)
      (get_sedges (kh_store h1) (kl_mst v)) (kl_total v) complete None
  else Some h1.

Definition kruskal_body_h (h : KHeap) (index : nat) (edge : Edge)
  : option KHeap :=
  if negb (truthy (from edge)) || negb (truthy (to edge)) then Some h
  else
    match nodeMap !! from edge, nodeMap !! to edge with
    | Some fromNode, Some toNode =>
        let σ := kh_store h in
        let v := kh_live h in
        (* uf.connected(fromNode, toNode) *)
        '(u1, wouldCreateCycle) ←
           UnionFind.connected (get_uf σ (kl_uf v)) fromNode toNode;
        let σ1 := write (kl_uf v) (CUF u1) σ in
        '(σ3, total) ←
           (if wouldCreateCycle : bool then Some (σ1, kl_total v)
            else
              (* uf.union(fromNode, toNode); mstEdges.push(...) *)
              '(u', _) ← UnionFind.union (get_uf σ1 (kl_uf v)) fromNode toNode;
              let σ2 := write (kl_uf v) (CUF u') σ1 in
              Some (write (kl_mst v)
                      (CSEdges (get_sedges σ2 (kl_mst v) ++
                         [{| se_edge := edge; se_status := accepted |}])) σ2,
                    num_add (kl_total v) (or0 (weight edge))));
        kruskal_pushes
          {| kh_store := σ3;
             kh_live := {| kl_uf := kl_uf v; kl_mst := kl_mst v;
                           kl_total := total |};
             kh_log := kh_log h |}
          index edge wouldCreateCycle
    | _, _ => Some h
    end.

Fixpoint kruskal_forEach_h (h : KHeap) (index : nat) (es : list Edge)
  : option KHeap :=
  match es with
  | [] => Some h
  | e :: es' =>
      h' ← kruskal_body_h h index e;
      kruskal_forEach_h h' (S index) es'
  end.
End KruskalStore.

(** The store, the variables and the steps when [kruskalAlgorithm]
    returns. *)
Definition kruskal_run_h (g : Graph) : option KHeap :=
  let sorted := sort_by edge_le (edges g) in
  (* const mstEdges = []; const uf = new UnionFind(nodeCount) *)
  let '(lm, σ1) := alloc (CSEdges []) [] in
  let '(lu, σ2) := alloc (CUF (UnionFind.make (length (nodes g)))) σ1 in
  let nodeMap := nodeMap_of g in
  h0 ← kruskal_push (nodes g)
         {| kh_store := σ2;
            kh_live := {| kl_uf := lu; kl_mst := lm; kl_total := Fin 0 |};
            kh_log := [] |}
         0 None (map (λ e, {| se_edge := e; se_status := pending |}) sorted)
         [] (Fin 0) initialize None;
  kruskal_forEach_h g sorted nodeMap h0 0 sorted.

(** ** The route handlers

    [router.post('/', (req, res) => ...)] of the three routes.  The
    request body is taken as parsed: a field that is missing or [null] is
    [None].  A handler answers [res.json(result)], here [Sent], or
    [res.status(400).json({error, message})], here [Refused]; [Silent] is
    a handler that sends nothing because the engine does not return. *)

Inductive Response (A : Type) : Type :=
| Sent (a : A)
| Refused (error message : string)
| Silent.
Arguments Sent {A} a.
Arguments Refused {A} error message.
Arguments Silent {A}.

(** [try { const result = engine(...); res.json(result) } catch (error) {
    res.status(400).json({error: failed, message: error.message}) }] *)
Definition respond {A} (failed : string) (r : result A) : Response A :=
  match r with
  | Ok a => Sent a
  | Throw m => Refused failed m
  | Stuck => Silent
  end.

Definition missing_graph {A} : Response A :=
  Refused "Missing graph data" "Please provide graph data in request body".

Definition kruskal_post (graph : option Graph) : Response KResult :=
  match graph with
  | None => missing_graph
  | Some g => respond "Kruskal algorithm failed" (kruskalAlgorithm g)
  end.

Definition prim_post (graph : option Graph) (startNode : option string)
  : Response PResult :=
  match graph with
  | None => missing_graph
  | Some g => respond "Prim algorithm failed" (primAlgorithm g startNode)
  end.

Definition dijkstra_post (graph : option Graph) (sourceNode targetNode : option string)
  : Response DResult :=
  match graph with
  | None => missing_graph
  | Some g =>
      if negb (truthy_opt sourceNode) then
        Refused "Source node is required"
          "Please specify a source node for Dijkstra's algorithm"
      else respond "Dijkstra algorithm failed"
             (dijkstraAlgorithm g sourceNode targetNode)
  end.

(** * Properties *)

(** ** Outcomes *)

Lemma rethrow_Ok {A} prefix (r : result A) a :
  rethrow prefix r = Ok a ↔ r = Ok a.
Proof. destruct r; simpl; split; congruence. Qed.

Lemma rbind_Ok {A B} (r : result A) (k : A → result B) b :
  rbind r k = Ok b ↔ ∃ a, r = Ok a ∧ k a = Ok b.
Proof.
  destruct r; simpl; split; try congruence; eauto.
  - intros (a' & [= ->] & H). exact H.
  - intros (a' & [=] & _).
  - intros (a' & [=] & _).
Qed.

Lemma of_option_Ok {A} (o : option A) a : of_option o = Ok a ↔ o = Some a.
Proof. destruct o; simpl; split; congruence. Qed.

(** ** Counting with [filter] *)

Section FilterLength.
Local Open Scope nat_scope.
Context {A : Type}.

Lemma filter_length_mono (P Q : A → Prop)
    `{∀ x, Decision (P x)} `{∀ x, Decision (Q x)} (l : list A) :
  (∀ y, P y → Q y) → length (filter P l) ≤ length (filter Q l).
Proof.
  intros HPQ. induction l as [|a l IH]; [done|].
  rewrite !filter_cons.
  destruct (decide (P a)) as [Hp|Hp], (decide (Q a)) as [Hq|Hq]; simpl; try lia.
  destruct Hq. auto.
Qed.

Lemma filter_length_lt (P Q : A → Prop)
    `{∀ x, Decision (P x)} `{∀ x, Decision (Q x)} (l : list A) z :
  (∀ y, P y → Q y) → z ∈ l → Q z → ¬ P z →
  length (filter P l) < length (filter Q l).
Proof.
  intros HPQ Hz HQz HPz. induction l as [|a l IH]; [by apply elem_of_nil in Hz|].
  rewrite !filter_cons.
  apply elem_of_cons in Hz as [<-|Hz].
  - rewrite decide_False by done. rewrite decide_True by done. simpl.
    pose proof (filter_length_mono P Q l HPQ). lia.
  - specialize (IH Hz).
    destruct (decide (P a)) as [Hp|Hp], (decide (Q a)) as [Hq|Hq]; simpl; try lia.
    destruct Hq. auto.
Qed.

Lemma filter_length_lt_all (P : A → Prop) `{∀ x, Decision (P x)} (l : list A) z :
  z ∈ l → ¬ P z → length (filter P l) < length l.
Proof.
  intros Hz HPz. induction l as [|a l IH]; [by apply elem_of_nil in Hz|].
  rewrite filter_cons. pose proof (length_filter P l).
  apply elem_of_cons in Hz as [<-|Hz].
  - rewrite decide_False by done. simpl. lia.
  - specialize (IH Hz). destruct (decide (P a)); simpl; lia.
Qed.
End FilterLength.

(** ** Union-Find *)

Module UF.
Import UnionFind.
Local Open Scope nat_scope.

Definition rk (u : t) (x : nat) : nat := default 0 (rank u !! x).

(** The arrays have the same length, every parent is an index, and the
    rank grows strictly from a node to its parent. *)
Definition wf (u : t) : Prop :=
  length (rank u) = length (parent u) ∧
  ∀ x p, parent u !! x = Some p →
    p < length (parent u) ∧ (p ≠ x → rk u x < rk u p).

(** [repr u x r]: the chain of parents from [x] ends in the root [r]. *)
Inductive repr (u : t) : nat → nat → Prop :=
| repr_root x : parent u !! x = Some x → repr u x x
| repr_step x p r :
    parent u !! x = Some p → p ≠ x → repr u p r → repr u x r.

Definition same (u : t) (x y : nat) : Prop :=
  ∃ r, repr u x r ∧ repr u y r.

(** How many cells have a rank above that of [x]: the measure of [find]. *)
Definition above (u : t) (x : nat) : nat :=
  length (filter (λ y, rk u x < rk u y) (seq 0 (length (parent u)))).

Lemma wf_make n : wf (make n).
Proof.
  split; simpl.
  - by rewrite length_replicate, length_seq.
  - intros x p Hp. apply lookup_seq in Hp as [-> Hx]. simpl.
    rewrite length_seq. split; [done|congruence].
Qed.

Lemma repr_make n x : x < n → repr (make n) x x.
Proof. intros Hx. apply repr_root. simpl. by apply lookup_seq. Qed.

Lemma repr_make_inv n x r : repr (make n) x r → x = r ∧ x < n.
Proof.
  intros Hr. destruct Hr as [x Hx|x p r Hp Hne _]; simpl in *.
  - apply lookup_seq in Hx as [_ Hx]. done.
  - apply lookup_seq in Hp as [Hp _]. simpl in Hp. congruence.
Qed.

Lemma same_make n x y : same (make n) x y ↔ x = y ∧ x < n.
Proof.
  split.
  - intros (r & [-> Hx]%repr_make_inv & [-> _]%repr_make_inv). done.
  - intros [-> Hy]. exists y. split; by apply repr_make.
Qed.

Lemma repr_is_root u x r : repr u x r → parent u !! r = Some r.
Proof. induction 1; auto. Qed.

Lemma repr_lt u x r : repr u x r → x < length (parent u).
Proof. destruct 1 as [x H|x p r H _ _]; by apply lookup_lt_Some in H. Qed.

Lemma repr_fun u x r1 r2 : repr u x r1 → repr u x r2 → r1 = r2.
Proof.
  intros H1. revert r2. induction H1 as [x Hx|x p r Hp Hne _ IH]; intros r2 H2.
  - destruct H2 as [x' Hx'|x' p' r' Hp' Hne' _]; [done|congruence].
  - destruct H2 as [x' Hx'|x' p' r' Hp' Hne' H2]; [congruence|].
    apply IH. congruence.
Qed.

Lemma repr_rank_le u x r : wf u → repr u x r → rk u x ≤ rk u r.
Proof.
  intros [_ Hwf]. induction 1 as [x Hx|x p r Hp Hne _ IH]; [done|].
  destruct (Hwf _ _ Hp) as [_ Hlt]. specialize (Hlt Hne). lia.
Qed.

Lemma repr_rank_lt u x r : wf u → repr u x r → x ≠ r → rk u x < rk u r.
Proof.
  intros Hu H Hne. destruct H as [x Hx|x p r Hp Hnp H]; [done|].
  destruct Hu as [Hl Hwf]. destruct (Hwf _ _ Hp) as [_ Hlt]. specialize (Hlt Hnp).
  pose proof (repr_rank_le u p r (conj Hl Hwf) H). lia.
Qed.

Lemma above_lt u x : x < length (parent u) → above u x < length (parent u).
Proof.
  intros Hx. unfold above.
  pose proof (filter_length_lt_all (λ y, rk u x < rk u y)
                (seq 0 (length (parent u))) x) as H.
  rewrite length_seq in H. apply H; [|lia].
  apply elem_of_seq. lia.
Qed.

Lemma above_parent u x p :
  wf u → parent u !! x = Some p → p ≠ x → above u p < above u x.
Proof.
  intros [_ Hwf] Hp Hne. destruct (Hwf _ _ Hp) as [Hlt Hrk]. specialize (Hrk Hne).
  unfold above. apply filter_length_lt with p; [intros y; lia| |lia|lia].
  apply elem_of_seq. lia.
Qed.

(** Writing its root into the parent cell of a node keeps every chain. *)
Lemma wf_compress u x r : wf u → repr u x r → wf (set_parent u x r).
Proof.
  intros Hu Hx. pose proof Hu as [Hl Hwf]. split; simpl.
  - by rewrite length_insert.
  - intros y p Hp. rewrite length_insert. unfold rk. simpl. fold (rk u y) (rk u p).
    destruct (decide (x = y)) as [->|Hne].
    + rewrite list_lookup_insert_eq in Hp by eauto using repr_lt.
      injection Hp as <-. split.
      * apply repr_is_root in Hx. by apply lookup_lt_Some in Hx.
      * intros Hne. by apply repr_rank_lt.
    + rewrite list_lookup_insert_ne in Hp by done. by apply Hwf.
Qed.

Lemma repr_compress u x r y ry :
  repr u x r → repr u y ry → repr (set_parent u x r) y ry.
Proof.
  intros Hx Hy. induction Hy as [y Hy|y p ry Hp Hne Hy IH].
  - apply repr_root. simpl. destruct (decide (x = y)) as [->|Hxy].
    + assert (r = y) as -> by (eapply repr_fun; [exact Hx|by apply repr_root]).
      apply list_lookup_insert_eq. by apply lookup_lt_Some in Hy.
    + by rewrite list_lookup_insert_ne.
  - destruct (decide (x = y)) as [->|Hxy].
    + assert (r = ry) as -> by (eapply repr_fun; [exact Hx|by eapply repr_step]).
      pose proof (repr_is_root _ _ _ Hy) as Hroot.
      assert (ry ≠ y) by congruence.
      apply repr_step with ry; [|done|].
      * simpl. apply list_lookup_insert_eq. by apply lookup_lt_Some in Hp.
      * apply repr_root. simpl. by rewrite list_lookup_insert_ne.
    + apply repr_step with p; [|done|done]. simpl. by rewrite list_lookup_insert_ne.
Qed.

(** What a call of [find] that returns has done. *)
Definition find_post (u : t) (x : nat) (res : t * nat) : Prop :=
  wf res.1 ∧ rank res.1 = rank u ∧ repr u x res.2 ∧
  ∀ y ry, repr u y ry → repr res.1 y ry.

Lemma find_rec_spec fuel u x :
  wf u → x < length (parent u) → above u x < fuel →
  ∃ res, find_rec fuel u x = Some res ∧ find_post u x res.
Proof.
  revert x. induction fuel as [|fuel IH]; intros x Hu Hx Hfuel; [lia|].
  simpl. destruct (lookup_lt_is_Some_2 _ _ Hx) as [p Hp]. rewrite Hp. simpl.
  destruct (decide (p ≠ x)) as [Hne|Heq].
  - pose proof Hu as [Hl Hwf]. destruct (Hwf _ _ Hp) as [Hplt _].
    pose proof (above_parent u x p Hu Hp Hne) as Hab.
    destruct (IH p Hu Hplt ltac:(lia)) as ([u1 r] & -> & Hu1 & Hrk & Hpr & Hpres).
    simpl in *.
    assert (repr u x r) as Hxr by (by eapply repr_step).
    pose proof (Hpres _ _ Hxr) as Hxr1.
    assert (length (parent u1) = length (parent u)) as Hlen.
    { destruct Hu1 as [Hl1 _]. congruence. }
    rewrite list_lookup_insert_eq by (rewrite Hlen; done). simpl.
    eexists; split; [done|]. split; [|split; [|split]]; simpl.
    + by apply wf_compress.
    + done.
    + done.
    + intros y ry Hy. apply repr_compress; auto.
  - assert (p = x) as -> by (destruct (decide (p = x)); [done|by destruct Heq]).
    eexists; split; [done|]. split; [|split; [|split]]; simpl; auto.
    by apply repr_root.
Qed.

Lemma find_spec u x :
  wf u → x < length (parent u) → ∃ res, find u x = Some res ∧ find_post u x res.
Proof. intros Hu Hx. apply find_rec_spec; auto using above_lt. Qed.


Lemma wf_length u : wf u → length (rank u) = length (parent u).
Proof. by intros [? _]. Qed.

Lemma find_post_length u x res :
  wf u → find_post u x res → length (parent res.1) = length (parent u).
Proof.
  intros Hu (Hu1 & Hrk & _). apply wf_length in Hu, Hu1. congruence.
Qed.

Lemma repr_total u x : wf u → x < length (parent u) → ∃ r, repr u x r.
Proof.
  intros Hu Hx. destruct (find_spec u x Hu Hx) as (res & _ & _ & _ & Hr & _).
  eauto.
Qed.

Lemma repr_parent_eq u u' x r : parent u = parent u' → repr u x r → repr u' x r.
Proof.
  intros Heq. induction 1 as [x Hx|x p r Hp Hne _ IH].
  - apply repr_root. by rewrite <- Heq.
  - apply repr_step with p; auto. by rewrite <- Heq.
Qed.

Lemma same_refl u x : wf u → x < length (parent u) → same u x x.
Proof. intros Hu Hx. destruct (repr_total u x Hu Hx) as [r Hr]. by exists r. Qed.

Lemma same_sym u x y : same u x y → same u y x.
Proof. intros (r & ? & ?). by exists r. Qed.

Lemma same_trans u x y z : same u x y → same u y z → same u x z.
Proof.
  intros (r & Hx & Hy) (r' & Hy' & Hz).
  assert (r = r') as -> by eauto using repr_fun. by exists r'.
Qed.

Lemma same_lt u x y : same u x y → x < length (parent u) ∧ y < length (parent u).
Proof. intros (r & Hx & Hy). eauto using repr_lt. Qed.

(** [pres u u']: [u'] has every chain end where it ended in [u]. *)
Definition pres (u u' : t) : Prop :=
  length (parent u') = length (parent u) ∧ ∀ y ry, repr u y ry → repr u' y ry.

Lemma pres_refl u : pres u u.
Proof. by split. Qed.

Lemma pres_trans u1 u2 u3 : pres u1 u2 → pres u2 u3 → pres u1 u3.
Proof. intros [L1 H1] [L2 H2]. split; [congruence|auto]. Qed.

Lemma pres_same u u' x y : wf u → pres u u' → same u' x y ↔ same u x y.
Proof.
  intros Hu [Hl Hp]. split.
  - intros (r & Hx & Hy).
    destruct (repr_total u x Hu) as [rx Hrx].
    { rewrite <- Hl. eauto using repr_lt. }
    destruct (repr_total u y Hu) as [ry Hry].
    { rewrite <- Hl. eauto using repr_lt. }
    pose proof (repr_fun _ _ _ _ Hx (Hp _ _ Hrx)) as ->.
    pose proof (repr_fun _ _ _ _ Hy (Hp _ _ Hry)) as ->.
    by exists ry.
  - intros (r & Hx & Hy). exists r. auto.
Qed.

Lemma find_pres u x res : wf u → find_post u x res → pres u res.1.
Proof.
  intros Hu Hpost. split; [by eapply find_post_length|]. apply Hpost.
Qed.

Lemma connected_spec u x y :
  wf u → x < length (parent u) → y < length (parent u) →
  ∃ u' b, connected u x y = Some (u', b) ∧ wf u' ∧ pres u u' ∧
          (b = true ↔ same u x y).
Proof.
  intros Hu Hx Hy. unfold connected.
  destruct (find_spec u x Hu Hx) as ([u1 rx] & -> & Hpost1). simpl.
  pose proof (find_pres _ _ _ Hu Hpost1) as Hp1.
  destruct Hpost1 as (Hu1 & _ & Hrx & _). simpl in *.
  destruct (find_spec u1 y Hu1) as ([u2 ry] & -> & Hpost2).
  { by rewrite (proj1 Hp1). }
  simpl. pose proof (find_pres _ _ _ Hu1 Hpost2) as Hp2.
  destruct Hpost2 as (Hu2 & _ & Hry & _). simpl in *.
  eexists _, _. split; [done|]. split; [done|]. split; [by eapply pres_trans|].
  rewrite bool_decide_eq_true. split.
  - intros ->. apply (pres_same u u1); [done..|]. exists ry. split; [|done].
    by apply Hp1.
  - intros Hs. apply (pres_same u u1) in Hs as (r & Hx1 & Hy1); [|done..].
    pose proof (repr_fun _ _ _ _ Hry Hy1) as ->.
    eapply repr_fun; [|exact Hx1]. by apply Hp1.
Qed.

(** Hanging the root [a] below another root [b]. *)
Lemma repr_link u a b z rz :
  parent u !! a = Some a → parent u !! b = Some b → a ≠ b →
  repr u z rz → repr (set_parent u a b) z (if decide (rz = a) then b else rz).
Proof.
  intros Ha Hb Hab. induction 1 as [z Hz|z p rz Hp Hne _ IH].
  - destruct (decide (z = a)) as [->|Hza].
    + apply repr_step with b; [|done|].
      * simpl. apply list_lookup_insert_eq. by apply lookup_lt_Some in Ha.
      * apply repr_root. simpl. by rewrite list_lookup_insert_ne.
    + apply repr_root. simpl. by rewrite list_lookup_insert_ne.
  - apply repr_step with p; [|done|done].
    simpl. rewrite list_lookup_insert_ne; [done|congruence].
Qed.

Lemma wf_link u a b :
  wf u → parent u !! a = Some a → parent u !! b = Some b → rk u a < rk u b →
  wf (set_parent u a b).
Proof.
  intros [Hl Hwf] Ha Hb Hrk. split; simpl.
  - by rewrite length_insert.
  - intros y p Hp. rewrite length_insert. unfold rk. simpl. fold (rk u y) (rk u p).
    destruct (decide (a = y)) as [->|Hne].
    + rewrite list_lookup_insert_eq in Hp by (by apply lookup_lt_Some in Ha).
      injection Hp as <-. split; [by apply lookup_lt_Some in Hb|done].
    + rewrite list_lookup_insert_ne in Hp by done. by apply Hwf.
Qed.

Lemma wf_link_bump u a b :
  wf u → parent u !! a = Some a → parent u !! b = Some b → a ≠ b →
  rk u a = rk u b →
  wf (set_rank (set_parent u a b) b (S (rk u b))).
Proof.
  intros [Hl Hwf] Ha Hb Hab Hrk.
  assert (b < length (rank u)) as Hbl by (rewrite Hl; by apply lookup_lt_Some in Hb).
  assert (∀ y, rk (set_rank (set_parent u a b) b (S (rk u b))) y
               = if decide (y = b) then S (rk u b) else rk u y) as Hrk'.
  { intros y. unfold rk at 1. simpl. destruct (decide (y = b)) as [->|Hyb].
    - by rewrite list_lookup_insert_eq.
    - by rewrite list_lookup_insert_ne. }
  split; simpl.
  - by rewrite !length_insert.
  - intros y p Hp. rewrite length_insert, !Hrk'.
    destruct (decide (a = y)) as [->|Hne].
    + rewrite list_lookup_insert_eq in Hp by (by apply lookup_lt_Some in Ha).
      injection Hp as <-. split; [by apply lookup_lt_Some in Hb|].
      intros _. rewrite decide_False by done. rewrite decide_True by done. lia.
    + rewrite list_lookup_insert_ne in Hp by done.
      destruct (Hwf _ _ Hp) as [Hlt Hr]. split; [done|]. intros Hpy.
      specialize (Hr Hpy).
      destruct (decide (y = b)) as [->|Hyb]; [congruence|].
      destruct (decide (p = b)); [subst; lia|done].
Qed.


(** The classes of [u] with those of [x] and [y] made one. *)
Definition merged (u : t) (x y z w : nat) : Prop :=
  same u z w ∨ (same u z x ∧ same u w y) ∨ (same u z y ∧ same u w x).

Lemma link_same u u' a b :
  wf u → parent u !! a = Some a → parent u !! b = Some b → a ≠ b →
  length (parent u') = length (parent u) →
  (∀ z rz, repr u z rz → repr u' z (if decide (rz = a) then b else rz)) →
  ∀ z w, same u' z w ↔ merged u a b z w.
Proof.
  intros Hu Ha Hb Hab Hlen Hlink z w.
  pose proof (repr_root u a Ha) as Hra. pose proof (repr_root u b Hb) as Hrb.
  split.
  - intros (r & Hz & Hw).
    destruct (repr_total u z Hu) as [rz Hrz].
    { rewrite <- Hlen. eauto using repr_lt. }
    destruct (repr_total u w Hu) as [rw Hrw].
    { rewrite <- Hlen. eauto using repr_lt. }
    pose proof (repr_fun _ _ _ _ Hz (Hlink _ _ Hrz)) as E1.
    pose proof (repr_fun _ _ _ _ Hw (Hlink _ _ Hrw)) as E2.
    unfold merged.
    destruct (decide (rz = a)) as [Hza|Hza], (decide (rw = a)) as [Hwa|Hwa].
    + left. exists a. by rewrite <- Hza at 1; rewrite <- Hwa.
    + right; left. split; [exists a; by rewrite <- Hza at 1|exists b; split; [congruence|done]].
    + right; right. split; [exists b; split; [congruence|done]|exists a; by rewrite <- Hwa at 1].
    + left. exists rz. split; [done|congruence].
  - intros [(r & Hz & Hw)|[[(r1 & Hz & Hx) (r2 & Hw & Hy)]|[(r1 & Hz & Hy) (r2 & Hw & Hx)]]].
    + exists (if decide (r = a) then b else r). auto.
    + pose proof (repr_fun _ _ _ _ Hx Hra) as ->.
      pose proof (repr_fun _ _ _ _ Hy Hrb) as ->.
      exists b. split.
      * specialize (Hlink _ _ Hz). by rewrite decide_True in Hlink.
      * specialize (Hlink _ _ Hw). by rewrite decide_False in Hlink.
    + pose proof (repr_fun _ _ _ _ Hx Hra) as ->.
      pose proof (repr_fun _ _ _ _ Hy Hrb) as ->.
      exists b. split.
      * specialize (Hlink _ _ Hz). by rewrite decide_False in Hlink.
      * specialize (Hlink _ _ Hw). by rewrite decide_True in Hlink.
Qed.

Lemma merged_sym u x y z w : merged u x y z w ↔ merged u y x z w.
Proof. unfold merged. tauto. Qed.

Lemma merged_proper u u' x y rx ry z w :
  wf u → pres u u' → repr u' x rx → repr u' y ry →
  merged u' rx ry z w ↔ merged u x y z w.
Proof.
  intros Hu Hp Hx Hy.
  pose proof (repr_root _ _ (repr_is_root _ _ _ Hx)) as Hrx.
  pose proof (repr_root _ _ (repr_is_root _ _ _ Hy)) as Hry.
  assert (∀ v, same u' v rx ↔ same u v x) as Ex.
  { intros v. rewrite <- (pres_same u u') by done. split; intros Hs.
    - eapply same_trans; [exact Hs|]. by exists rx.
    - eapply same_trans; [exact Hs|]. by exists rx. }
  assert (∀ v, same u' v ry ↔ same u v y) as Ey.
  { intros v. rewrite <- (pres_same u u') by done. split; intros Hs.
    - eapply same_trans; [exact Hs|]. by exists ry.
    - eapply same_trans; [exact Hs|]. by exists ry. }
  unfold merged. rewrite !Ex, !Ey, (pres_same u u') by done. tauto.
Qed.

Lemma union_spec u x y :
  wf u → x < length (parent u) → y < length (parent u) →
  ∃ u' b, union u x y = Some (u', b) ∧ wf u' ∧
    length (parent u') = length (parent u) ∧
    (b = false → same u x y ∧ pres u u') ∧
    (b = true → ¬ same u x y ∧ ∀ z w, same u' z w ↔ merged u x y z w).
Proof.
  intros Hu Hx Hy. unfold union.
  destruct (find_spec u x Hu Hx) as ([u1 rootX] & -> & Hpost1). simpl.
  pose proof (find_pres _ _ _ Hu Hpost1) as Hp1.
  destruct Hpost1 as (Hu1 & _ & Hrx & _). simpl in *.
  destruct (find_spec u1 y Hu1) as ([u2 rootY] & -> & Hpost2).
  { by rewrite (proj1 Hp1). }
  simpl. pose proof (find_pres _ _ _ Hu1 Hpost2) as Hp2.
  destruct Hpost2 as (Hu2 & _ & Hry & _). simpl in *.
  pose proof (pres_trans _ _ _ Hp1 Hp2) as Hp.
  assert (repr u2 x rootX) as Hx2 by (apply Hp2, Hp1, Hrx).
  assert (repr u2 y rootY) as Hy2 by (apply Hp2, Hry).
  assert (same u x y ↔ rootX = rootY) as Hsame.
  { rewrite <- (pres_same u u2) by done. split.
    - intros (r & H1 & H2).
      pose proof (repr_fun _ _ _ _ H1 Hx2). pose proof (repr_fun _ _ _ _ H2 Hy2).
      congruence.
    - intros ->. by exists rootY. }
  destruct (decide (rootX = rootY)) as [Heq|Hne].
  { eexists _, _. split; [done|]. split; [done|]. split; [apply Hp|].
    split; [intros _; split; [by apply Hsame|done]|done]. }
  pose proof (repr_is_root _ _ _ Hx2) as HrootX.
  pose proof (repr_is_root _ _ _ Hy2) as HrootY.
  pose proof (wf_length _ Hu2) as Hl2.
  destruct (lookup_lt_is_Some_2 (rank u2) rootX) as [rx Hrkx].
  { rewrite Hl2. by apply lookup_lt_Some in HrootX. }
  destruct (lookup_lt_is_Some_2 (rank u2) rootY) as [ry Hrky].
  { rewrite Hl2. by apply lookup_lt_Some in HrootY. }
  rewrite Hrkx, Hrky. simpl.
  assert (rk u2 rootX = rx) as Erx by (unfold rk; by rewrite Hrkx).
  assert (rk u2 rootY = ry) as Ery by (unfold rk; by rewrite Hrky).
  assert (¬ same u x y) as Hns by (rewrite Hsame; done).
  destruct (decide (rx < ry)) as [Hlt|Hnlt]; [|destruct (decide (ry < rx)) as [Hgt|Hngt]].
  - eexists _, _. split; [done|]. split; [apply wf_link; auto; lia|].
    split; [simpl; rewrite length_insert; apply Hp|].
    split; [done|]. intros _. split; [done|]. intros z w.
    rewrite <- (merged_proper u u2 x y rootX rootY) by done.
    apply link_same; auto.
    + simpl. by rewrite length_insert.
    + intros. by apply repr_link.
  - eexists _, _. split; [done|]. split; [apply wf_link; auto; lia|].
    split; [simpl; rewrite length_insert; apply Hp|].
    split; [done|]. intros _. split; [done|]. intros z w.
    rewrite <- (merged_proper u u2 x y rootX rootY) by done.
    rewrite merged_sym. apply link_same; auto.
    + simpl. by rewrite length_insert.
    + intros. by apply repr_link.
  - assert (rx = ry) as <- by lia.
    eexists _, _. split; [done|]. split.
    { rewrite <- Erx. apply wf_link_bump; auto. congruence. }
    split; [simpl; rewrite length_insert; apply Hp|].
    split; [done|]. intros _. split; [done|]. intros z w.
    rewrite <- (merged_proper u u2 x y rootX rootY) by done.
    rewrite merged_sym. apply link_same; auto.
    + simpl. by rewrite length_insert.
    + intros z' rz' Hz'.
      eapply (repr_parent_eq (set_parent u2 rootY rootX)); [done|].
      by apply repr_link.
Qed.

End UF.

(** ** Kruskal: every call returns *)

Section KruskalSpec.
Import UnionFind.
Variable g : Graph.

Lemma nodeMap_from_lookup ns i m k j :
  nodeMap_from i ns m !! k = Some j →
  m !! k = Some j ∨
  ∃ nd, ns !! (j - i)%nat = Some nd ∧ (i ≤ j)%nat ∧ nid nd = k ∧ truthy k = true.
Proof.
  revert i m. induction ns as [|nd ns IH]; intros i m H; simpl in H; [by left|].
  apply IH in H as [H|(nd' & Hl & Hle & Hid & Ht)].
  - destruct (truthy (nid nd)) eqn:Ht; [|by left].
    destruct (decide (nid nd = k)) as [<-|Hne].
    + rewrite lookup_insert_eq in H. injection H as <-. right.
      exists nd. rewrite Nat.sub_diag. by repeat split.
    + rewrite lookup_insert_ne in H by done. by left.
  - right. exists nd'. replace (j - i)%nat with (S (j - S i)) by lia.
    repeat split; auto with lia.
Qed.

Lemma nodeMap_of_lookup k j :
  nodeMap_of g !! k = Some j →
  ∃ nd, nodes g !! j = Some nd ∧ nid nd = k ∧ truthy k = true.
Proof.
  intros H. apply nodeMap_from_lookup in H as [H|(nd & Hl & _ & Hid & Ht)].
  - by rewrite lookup_empty in H.
  - exists nd. by rewrite Nat.sub_0_r in Hl.
Qed.

Lemma nodeMap_of_lt k j : nodeMap_of g !! k = Some j → (j < length (nodes g))%nat.
Proof.
  intros H. apply nodeMap_of_lookup in H as (nd & H & _). by apply lookup_lt_Some in H.
Qed.

Lemma components_from_spec ns i u comps :
  UF.wf u → (i + length ns ≤ length (parent u))%nat →
  ∃ u' comps', components_from i ns u comps = Some (u', comps') ∧
               UF.wf u' ∧ UF.pres u u'.
Proof.
  revert i u comps. induction ns as [|nd ns IH]; intros i u comps Hu Hlen; simpl.
  - eexists _, _. split; [done|]. split; [done|apply UF.pres_refl].
  - simpl in Hlen. destruct (truthy (nid nd)).
    + destruct (UF.find_spec u i Hu) as ([u1 r] & -> & Hpost); [lia|]. simpl.
      pose proof (UF.find_pres _ _ _ Hu Hpost) as Hp1.
      destruct Hpost as (Hu1 & _). simpl in *.
      destruct (IH (S i) u1 (<[r:=default [] (comps !! r) ++ [nid nd]]> comps) Hu1)
        as (u' & comps' & -> & Hu' & Hp').
      { rewrite (proj1 Hp1). lia. }
      eexists _, _. split; [done|]. split; [done|]. by eapply UF.pres_trans.
    + apply IH; [done|lia].
Qed.

Lemma getUnionFindState_spec u :
  UF.wf u → (length (nodes g) ≤ length (parent u))%nat →
  ∃ u' st, getUnionFindState u (nodes g) = Some (u', st) ∧ UF.wf u' ∧ UF.pres u u'.
Proof.
  intros Hu Hlen. unfold getUnionFindState.
  destruct (components_from_spec (nodes g) 0 u ∅ Hu) as (u' & comps & -> & Hu' & Hp);
    [lia|].
  simpl. eauto.
Qed.

Variable sorted : list Edge.

Definition ks_inv (s : KState) : Prop :=
  UF.wf (ks_uf s) ∧ length (parent (ks_uf s)) = length (nodes g).

(** The tail of steps that one examined edge adds to the trace. *)
Definition pushed_steps (index : nat) (e : Edge) (mst : list SEdge) (total : Num)
    (cyc : bool) (st st' : list (list string)) : list KStep :=
  examined_step sorted index e mst total cyc st ::
  (if decide (Z.of_nat (length mst) = Z.of_nat (length (nodes g)) - 1)
   then [complete_step sorted index mst total st'] else []).

(** What one call of the callback does to the live state. *)
Inductive body_rel (s : KState) (index : nat) (e : Edge) : KState → Prop :=
| body_unknown :
    nodeMap_of g !! from e = None ∨ nodeMap_of g !! to e = None →
    body_rel s index e s
| body_reject fromNode toNode u' st st' :
    nodeMap_of g !! from e = Some fromNode →
    nodeMap_of g !! to e = Some toNode →
    UF.same (ks_uf s) fromNode toNode →
    (∀ z w, UF.same u' z w ↔ UF.same (ks_uf s) z w) →
    body_rel s index e
      {| ks_uf := u'; ks_mstEdges := ks_mstEdges s;
         ks_totalCost := ks_totalCost s;
         ks_steps := ks_steps s ++
           pushed_steps index e (ks_mstEdges s) (ks_totalCost s) true st st' |}
| body_accept fromNode toNode u' st st' :
    nodeMap_of g !! from e = Some fromNode →
    nodeMap_of g !! to e = Some toNode →
    ¬ UF.same (ks_uf s) fromNode toNode →
    (∀ z w, UF.same u' z w ↔ UF.merged (ks_uf s) fromNode toNode z w) →
    body_rel s index e
      {| ks_uf := u';
         ks_mstEdges := ks_mstEdges s ++ [{| se_edge := e; se_status := accepted |}];
         ks_totalCost := num_add (ks_totalCost s) (or0 (weight e));
         ks_steps := ks_steps s ++
           pushed_steps index e
             (ks_mstEdges s ++ [{| se_edge := e; se_status := accepted |}])
             (num_add (ks_totalCost s) (or0 (weight e))) false st st' |}.

Lemma nodeMap_of_truthy k : truthy k = false → nodeMap_of g !! k = None.
Proof.
  intros Hk. destruct (nodeMap_of g !! k) as [j|] eqn:E; [|done].
  apply nodeMap_of_lookup in E as (nd & _ & _ & Ht). congruence.
Qed.

Lemma kruskal_body_spec s index e :
  ks_inv s →
  ∃ s', kruskal_body g sorted (nodeMap_of g) s index e = Some s' ∧
        ks_inv s' ∧ body_rel s index e s'.
Proof.
  intros [Hu Hlen]. unfold kruskal_body.
  destruct (truthy (from e)) eqn:Hf; simpl.
  2:{ exists s. split; [done|]. split; [done|]. apply body_unknown. left.
      by apply nodeMap_of_truthy. }
  destruct (truthy (to e)) eqn:Ht; simpl.
  2:{ exists s. split; [done|]. split; [done|]. apply body_unknown. right.
      by apply nodeMap_of_truthy. }
  destruct (nodeMap_of g !! from e) as [fromNode|] eqn:Efrom.
  2:{ exists s. split; [done|]. split; [done|]. apply body_unknown. by left. }
  destruct (nodeMap_of g !! to e) as [toNode|] eqn:Eto.
  2:{ exists s. split; [done|]. split; [done|]. apply body_unknown. by right. }
  pose proof (nodeMap_of_lt _ _ Efrom) as Hfl. pose proof (nodeMap_of_lt _ _ Eto) as Htl.
  destruct (UF.connected_spec (ks_uf s) fromNode toNode Hu) as (u1 & b & -> & Hu1 & Hp1 & Hb);
    [lia..|]. simpl.
  destruct b.
  - simpl.
    destruct (getUnionFindState_spec u1 Hu1) as (u3 & st & -> & Hu3 & Hp3).
    { rewrite (proj1 Hp1). lia. }
    simpl. pose proof (UF.pres_trans _ _ _ Hp1 Hp3) as Hp13.
    destruct (decide (Z.of_nat (length (ks_mstEdges s))
                      = Z.of_nat (length (nodes g)) - 1)) as [Hc|Hc].
    + destruct (getUnionFindState_spec u3 Hu3) as (u4 & st' & -> & Hu4 & Hp4).
      { rewrite (proj1 Hp13). lia. }
      simpl. pose proof (UF.pres_trans _ _ _ Hp13 Hp4) as Hp14.
      eexists. split; [done|]. split.
      { split; simpl; [done|]. rewrite (proj1 Hp14). done. }
      pose proof (body_reject s index e fromNode toNode u4 st st' Efrom Eto
                    (proj1 Hb eq_refl) (λ z w, UF.pres_same _ _ z w Hu Hp14)) as Hrel.
      unfold pushed_steps in Hrel. by rewrite decide_True in Hrel.
    + eexists. split; [done|]. split.
      { split; simpl; [done|]. rewrite (proj1 Hp13). done. }
      pose proof (body_reject s index e fromNode toNode u3 st [] Efrom Eto
                    (proj1 Hb eq_refl) (λ z w, UF.pres_same _ _ z w Hu Hp13)) as Hrel.
      unfold pushed_steps in Hrel. by rewrite decide_False in Hrel.
  - assert (¬ UF.same (ks_uf s) fromNode toNode) as Hns.
    { intros Hs. apply Hb in Hs. done. }
    destruct (UF.union_spec u1 fromNode toNode Hu1)
      as (u2 & b' & -> & Hu2 & Hl2 & Hfalse & Hm).
    1,2: rewrite (proj1 Hp1); lia.
    simpl.
    assert (∀ z w, UF.same u2 z w ↔ UF.merged (ks_uf s) fromNode toNode z w)
      as Hmerge.
    { destruct b'.
      - intros z w. destruct (Hm eq_refl) as [_ Hm'].
        rewrite Hm'. unfold UF.merged. rewrite !(UF.pres_same (ks_uf s) u1) by done.
        done.
      - exfalso. destruct (Hfalse eq_refl) as [Hs _].
        apply Hns. by apply (UF.pres_same (ks_uf s) u1). }
    clear Hfalse Hm.
    assert (length (parent u2) = length (nodes g)) as Hlen2.
    { rewrite Hl2, (proj1 Hp1). done. }
    destruct (getUnionFindState_spec u2 Hu2) as (u3 & st & -> & Hu3 & Hp3); [lia|].
    simpl.
    assert (∀ u', UF.pres u2 u' →
              ∀ z w, UF.same u' z w ↔ UF.merged (ks_uf s) fromNode toNode z w)
      as Hmerge'.
    { intros u' Hp' z w. rewrite (UF.pres_same u2 u') by done. apply Hmerge. }
    destruct (decide (Z.of_nat (length (ks_mstEdges s ++
                        [{| se_edge := e; se_status := accepted |}]))
                      = Z.of_nat (length (nodes g)) - 1)) as [Hc|Hc].
    + destruct (getUnionFindState_spec u3 Hu3) as (u4 & st' & -> & Hu4 & Hp4).
      { rewrite (proj1 Hp3). lia. }
      simpl. pose proof (UF.pres_trans _ _ _ Hp3 Hp4) as Hp24.
      eexists. split; [done|]. split.
      { split; simpl; [done|]. rewrite (proj1 Hp24). done. }
      pose proof (body_accept s index e fromNode toNode u4 st st' Efrom Eto
                    Hns (Hmerge' _ Hp24)) as Hrel.
      unfold pushed_steps in Hrel. by rewrite decide_True in Hrel.
    + eexists. split; [done|]. split.
      { split; simpl; [done|]. rewrite (proj1 Hp3). done. }
      pose proof (body_accept s index e fromNode toNode u3 st [] Efrom Eto
                    Hns (Hmerge' _ Hp3)) as Hrel.
      unfold pushed_steps in Hrel. by rewrite decide_False in Hrel.
Qed.

(** The callback applied to the edges [es], the first of them at [index]. *)
Inductive forEach_rel : KState → nat → list Edge → KState → Prop :=
| forEach_nil s index : forEach_rel s index [] s
| forEach_cons s index e es s1 s2 :
    body_rel s index e s1 →
    forEach_rel s1 (S index) es s2 →
    forEach_rel s index (e :: es) s2.

Lemma kruskal_forEach_spec es s index :
  ks_inv s →
  ∃ s', kruskal_forEach g sorted (nodeMap_of g) s index es = Some s' ∧
        ks_inv s' ∧ forEach_rel s index es s'.
Proof.
  revert s index. induction es as [|e es IH]; intros s index Hs; simpl.
  - exists s. split; [done|]. split; [done|constructor].
  - destruct (kruskal_body_spec s index e Hs) as (s1 & -> & Hs1 & Hrel). simpl.
    destruct (IH s1 (S index) Hs1) as (s2 & -> & Hs2 & Hrel2).
    exists s2. split; [done|]. split; [done|]. by econstructor.
Qed.

End KruskalSpec.

(** The first step of a Kruskal trace. *)
Definition initial_step (sorted : list Edge) (ufState : list (list string)) : KStep :=
  {| k_step := 0;
     k_currentEdge := None;
     k_sortedEdges := map (λ e, {| se_edge := e; se_status := pending |}) sorted;
     k_mstEdges := [];
     k_unionFindState := ufState;
     k_totalCost := Fin 0;
     k_action := initialize;
     k_wouldCreateCycle := None |}.

Lemma kruskal_run_spec g :
  ∃ s u0 st0,
    kruskal_run g = Some {| k_steps := ks_steps s;
                            k_finalResult :=
                              {| kf_mstEdges := ks_mstEdges s;
                                 kf_totalCost := ks_totalCost s;
                                 kf_edgeCount := length (ks_mstEdges s) |} |} ∧
    (∀ z w, UF.same u0 z w ↔ z = w ∧ (z < length (nodes g))%nat) ∧
    forEach_rel g (sort_by edge_le (edges g))
      {| ks_uf := u0; ks_mstEdges := []; ks_totalCost := Fin 0;
         ks_steps := [initial_step (sort_by edge_le (edges g)) st0] |}
      0 (sort_by edge_le (edges g)) s.
Proof.
  unfold kruskal_run.
  destruct (getUnionFindState_spec g (UnionFind.make (length (nodes g))))
    as (u0 & st0 & -> & Hu0 & Hp0).
  { apply UF.wf_make. }
  { simpl. by rewrite length_seq. }
  simpl.
  destruct (kruskal_forEach_spec g (sort_by edge_le (edges g))
              (sort_by edge_le (edges g))
              {| ks_uf := u0; ks_mstEdges := []; ks_totalCost := Fin 0;
                 ks_steps := [initial_step (sort_by edge_le (edges g)) st0] |} 0)
    as (s & Hrun & _ & Hrel).
  { split; simpl; [done|]. rewrite (proj1 Hp0). simpl. by rewrite length_seq. }
  unfold initial_step in Hrun. rewrite Hrun. simpl.
  exists s, u0, st0. split; [done|]. split; [|done].
  intros z w. rewrite (UF.pres_same _ _ z w (UF.wf_make _) Hp0). apply UF.same_make.
Qed.

Lemma kruskalAlgorithm_Ok g r :
  kruskalAlgorithm g = Ok r ↔ validateGraph g = Ok tt ∧ kruskal_run g = Some r.
Proof.
  unfold kruskalAlgorithm. rewrite rethrow_Ok, rbind_Ok. split.
  - intros ([] & Hv & Hr). by apply of_option_Ok in Hr.
  - intros [Hv Hr]. exists tt. by rewrite of_option_Ok.
Qed.

(** On a graph that passes validation Kruskal returns a result. *)
Lemma kruskalAlgorithm_total g :
  validateGraph g = Ok tt → ∃ r, kruskalAlgorithm g = Ok r.
Proof.
  intros Hv. destruct (kruskal_run_spec g) as (s & u0 & st0 & Hrun & _).
  eexists. apply kruskalAlgorithm_Ok. eauto.
Qed.

(** ** Sorting and the adjacency list *)

Lemma insert_by_Permutation {A} (le : A → A → bool) x l :
  insert_by le x l ≡ₚ x :: l.
Proof.
  induction l as [|y l IH]; simpl; [done|].
  destruct (le x y); [done|]. rewrite IH. apply perm_swap.
Qed.

Lemma sort_by_Permutation {A} (le : A → A → bool) l : sort_by le l ≡ₚ l.
Proof.
  induction l as [|x l IH]; simpl; [done|].
  unfold sort_by in IH. by rewrite insert_by_Permutation, IH.
Qed.

Lemma sort_by_length {A} (le : A → A → bool) l :
  length (sort_by le l) = length l.
Proof. by rewrite sort_by_Permutation. Qed.

Lemma sort_by_elem_of {A} (le : A → A → bool) l x : x ∈ sort_by le l ↔ x ∈ l.
Proof. by rewrite sort_by_Permutation. Qed.

(** *** The lists of a graph with plain ids

    [adj_lists g] is what [createAdjacencyList] returns when no id of the
    graph is the name of an inherited property: no lookup then finds more
    than the own keys, and no [push] fails. *)

Definition lists_push (k : string) (x : AdjEntry) (m : gmap string (list AdjEntry))
  : gmap string (list AdjEntry) :=
  match m !! k with
  | Some l => <[k := l ++ [x]]> m
  | None => m
  end.

Definition lists_add_edge (m : gmap string (list AdjEntry)) (e : Edge)
  : gmap string (list AdjEntry) :=
  if truthy (from e) && truthy (to e)
     && bool_decide (is_Some (m !! from e)) && bool_decide (is_Some (m !! to e))
  then
    let m1 := lists_push (from e) (arc_entry e (to e)) m in
    if negb (directed e) then lists_push (to e) (arc_entry e (from e)) m1
    else m1
  else m.

Definition lists_init (m : gmap string (list AdjEntry)) (n : Node)
  : gmap string (list AdjEntry) :=
  if truthy (nid n) then <[nid n := []]> m else m.

Definition adj_lists (g : Graph) : gmap string (list AdjEntry) :=
  foldl lists_add_edge (foldl lists_init ∅ (nodes g)) (edges g).

(** No node id and no end of an edge is the name of a property that every
    object inherits. *)
Definition plain_ids (g : Graph) : Prop :=
  Forall (λ n, inherited (nid n) = false) (nodes g) ∧
  Forall (λ e, inherited (from e) = false ∧ inherited (to e) = false) (edges g).

Global Instance plain_ids_dec g : Decision (plain_ids g).
Proof. unfold plain_ids. apply _. Defined.

(** A decidable fact about a given graph, by evaluation. *)
Ltac by_decide := apply (bool_decide_unpack _); vm_compute; exact I.

Lemma lists_push_keys0 k x (m : gmap string (list AdjEntry)) k' :
  is_Some (lists_push k x m !! k') ↔ is_Some (m !! k').
Proof.
  unfold lists_push. destruct (m !! k) as [l|] eqn:E; [|done].
  destruct (decide (k = k')) as [<-|Hne].
  - rewrite lookup_insert_eq, E. split; eauto.
  - by rewrite lookup_insert_ne.
Qed.

Lemma adj_init_plain ns m :
  (∀ n, n ∈ ns → inherited (nid n) = false) →
  rfold adj_init m ns = Ok (foldl lists_init m ns).
Proof.
  revert m. induction ns as [|n ns IH]; intros m Hns; [done|].
  cbn [rfold foldl]. unfold adj_init at 1, lists_init at 2.
  assert (inherited (nid n) = false) as Hn by (apply Hns; left).
  destruct (truthy (nid n)).
  - destruct (decide (nid n = "__proto__")) as [E|_].
    { rewrite E in Hn. done. }
    cbn [rbind]. apply IH. intros n' Hn'. apply Hns. by right.
  - cbn [rbind]. apply IH. intros n' Hn'. apply Hns. by right.
Qed.

Lemma adj_add_edge_plain m e :
  inherited (from e) = false → inherited (to e) = false →
  adj_add_edge m e = Ok (lists_add_edge m e).
Proof.
  intros Hf Ht. unfold adj_add_edge, lists_add_edge, has_truthy.
  rewrite Hf, Ht, !orb_false_r.
  destruct (truthy (from e) && truthy (to e) && bool_decide (is_Some (m !! from e))
            && bool_decide (is_Some (m !! to e))) eqn:E; [|done].
  rewrite !andb_true_iff, !bool_decide_eq_true in E.
  destruct E as [[_ [lf Hlf]] [lt Hlt]].
  unfold adj_push at 1. rewrite Hlf. cbn [rbind].
  destruct (negb (directed e)); [|by unfold lists_push; rewrite Hlf].
  assert (is_Some (lists_push (from e) (arc_entry e (to e)) m !! to e)) as [l' Hl'].
  { apply lists_push_keys0. eauto. }
  unfold lists_push at 1 in Hl'. rewrite Hlf in Hl'.
  unfold adj_push. rewrite Hl'. unfold lists_push at 2. rewrite Hlf.
  unfold lists_push. by rewrite Hl'.
Qed.

Lemma adj_edges_plain es m :
  (∀ e, e ∈ es → inherited (from e) = false ∧ inherited (to e) = false) →
  rfold adj_add_edge m es = Ok (foldl lists_add_edge m es).
Proof.
  revert m. induction es as [|e es IH]; intros m Hes; [done|].
  cbn [rfold foldl]. destruct (Hes e) as [Hf Ht]; [left|].
  rewrite adj_add_edge_plain by done. cbn [rbind].
  apply IH. intros e' He'. apply Hes. by right.
Qed.

(** On a graph with plain ids [createAdjacencyList] returns, and returns
    [adj_lists g]. *)
Lemma createAdjacencyList_plain g :
  plain_ids g → createAdjacencyList g = Ok (adj_lists g).
Proof.
  intros [Hn He]. unfold createAdjacencyList, adj_lists.
  rewrite adj_init_plain by (by apply Forall_forall).
  cbn [rbind]. apply adj_edges_plain. by apply Forall_forall.
Qed.

(** When no edge is directed, every [push] that is made has to succeed at
    both ends of the edge: if [createAdjacencyList] returns at all, it
    returns [adj_lists g]. *)
Lemma adj_init_Ok ns m m' :
  rfold adj_init m ns = Ok m' → m' = foldl lists_init m ns.
Proof.
  revert m. induction ns as [|n ns IH]; intros m; cbn [rfold foldl].
  { by intros [= <-]. }
  unfold adj_init at 1, lists_init at 2. destruct (truthy (nid n)).
  - destruct (decide (nid n = "__proto__")); [done|]. cbn [rbind]. apply IH.
  - cbn [rbind]. apply IH.
Qed.

Lemma adj_add_edge_undirected m e m' :
  directed e = false → adj_add_edge m e = Ok m' → m' = lists_add_edge m e.
Proof.
  intros Hd. unfold adj_add_edge, lists_add_edge, has_truthy. rewrite Hd.
  cbn [negb]. destruct (truthy (from e) && truthy (to e)); cbn [andb];
    [|by intros [= <-]].
  destruct (m !! from e) as [lf|] eqn:Hlf.
  - rewrite (bool_decide_eq_true_2 (is_Some (Some lf))) by eauto. cbn [orb andb].
    unfold adj_push at 1, lists_push at 2. rewrite Hlf. cbn [rbind].
    destruct (m !! to e) as [lt|] eqn:Hlt.
    + rewrite (bool_decide_eq_true_2 (is_Some (Some lt))) by eauto. cbn [orb].
      unfold adj_push, lists_push.
      destruct (<[from e:=lf ++ [arc_entry e (to e)]]> m !! to e); [|done].
      by intros [= <-].
    + rewrite (bool_decide_eq_false_2 (is_Some None)) by (by intros [? ?]).
      cbn [orb]. destruct (inherited (to e)); [|by intros [= <-]].
      unfold adj_push.
      destruct (decide (from e = to e)) as [E|E]; [congruence|].
      rewrite lookup_insert_ne, Hlt by done. done.
  - rewrite (bool_decide_eq_false_2 (is_Some None)) by (by intros [? ?]).
    cbn [orb andb]. destruct (inherited (from e)); cbn [andb];
      [|by intros [= <-]].
    destruct (bool_decide (is_Some (m !! to e)) || inherited (to e));
      [|by intros [= <-]].
    unfold adj_push. by rewrite Hlf.
Qed.

Lemma adj_edges_undirected es m m' :
  (∀ e, e ∈ es → directed e = false) →
  rfold adj_add_edge m es = Ok m' → m' = foldl lists_add_edge m es.
Proof.
  revert m. induction es as [|e es IH]; intros m Hes; cbn [rfold foldl].
  { by intros [= <-]. }
  intros (m1 & H1 & H2)%rbind_Ok.
  apply adj_add_edge_undirected in H1 as ->; [|apply Hes; left].
  apply IH; [|done]. intros e' He'. apply Hes. by right.
Qed.

Lemma createAdjacencyList_undirected g m :
  (∀ e, e ∈ edges g → directed e = false) →
  createAdjacencyList g = Ok m → m = adj_lists g.
Proof.
  intros Hund. unfold createAdjacencyList, adj_lists.
  intros (m0 & H0 & H1)%rbind_Ok. apply adj_init_Ok in H0 as ->.
  by apply adj_edges_undirected.
Qed.

Section AdjacencyLength.
Local Open Scope nat_scope.

Lemma lists_push_lookup k x (m : gmap string (list AdjEntry)) k' l :
  lists_push k x m !! k' = Some l →
  ∃ l0, m !! k' = Some l0 ∧ (l = l0 ∨ (k' = k ∧ l = l0 ++ [x])).
Proof.
  unfold lists_push. destruct (m !! k) as [l1|] eqn:E; [|eauto].
  destruct (decide (k = k')) as [<-|Hne].
  - rewrite lookup_insert_eq. intros [= <-]. eauto.
  - rewrite lookup_insert_ne by done. eauto.
Qed.

Lemma lists_add_edge_length m e k l :
  lists_add_edge m e !! k = Some l →
  ∃ l0, m !! k = Some l0 ∧ length l ≤ length l0 + 2.
Proof.
  unfold lists_add_edge.
  destruct (truthy (from e) && truthy (to e) && bool_decide (is_Some (m !! from e))
            && bool_decide (is_Some (m !! to e))); [|intros; eexists; split; [done|lia]].
  destruct (negb (directed e)).
  - intros H. apply lists_push_lookup in H as (l1 & H & Hl1).
    apply lists_push_lookup in H as (l0 & H & Hl0). exists l0. split; [done|].
    destruct Hl1 as [->|[_ ->]], Hl0 as [->|[_ ->]]; rewrite ?length_app; simpl; lia.
  - intros H. apply lists_push_lookup in H as (l0 & H & Hl0). exists l0. split; [done|].
    destruct Hl0 as [->|[_ ->]]; rewrite ?length_app; simpl; lia.
Qed.

Lemma lists_edges_length es m k l :
  foldl lists_add_edge m es !! k = Some l →
  ∃ l0, m !! k = Some l0 ∧ length l ≤ length l0 + 2 * length es.
Proof.
  revert m. induction es as [|e es IH]; intros m H; simpl in *.
  - exists l. split; [done|lia].
  - apply IH in H as (l1 & H & Hl1).
    apply lists_add_edge_length in H as (l0 & H & Hl0). exists l0. split; [done|lia].
Qed.

Lemma lists_init_lookup ns m k l :
  foldl lists_init m ns !! k = Some l → m !! k = Some l ∨ l = [].
Proof.
  revert m. induction ns as [|nd ns IH]; intros m H; simpl in *; [by left|].
  apply IH in H as [H|Hnil]; [|by right].
  unfold lists_init in H. destruct (truthy (nid nd)); [|by left].
  destruct (decide (nid nd = k)) as [<-|Hne].
  - rewrite lookup_insert_eq in H. injection H as <-. by right.
  - rewrite lookup_insert_ne in H by done. by left.
Qed.

Lemma adj_lists_length g k l :
  adj_lists g !! k = Some l → length l ≤ 2 * length (edges g).
Proof.
  intros H. apply lists_edges_length in H as (l0 & H & Hl).
  apply lists_init_lookup in H as [H|Hnil]; [by rewrite lookup_empty in H|subst l0].
  simpl in Hl. lia.
Qed.

Lemma neighbors_length g k :
  length (default [] (adj_lists g !! k)) ≤ 2 * length (edges g).
Proof.
  destruct (adj_lists g !! k) as [l|] eqn:E; simpl; [|lia].
  by eapply adj_lists_length.
Qed.

(** The same bound for whatever [createAdjacencyList] returns. *)
Lemma adj_push_lookup what k x (m m' : gmap string (list AdjEntry)) k' l :
  adj_push what k x m = Ok m' → m' !! k' = Some l →
  ∃ l0, m !! k' = Some l0 ∧ (l = l0 ∨ (k' = k ∧ l = l0 ++ [x])).
Proof.
  unfold adj_push. destruct (m !! k) as [l1|] eqn:E; [|done].
  intros [= <-]. destruct (decide (k = k')) as [<-|Hne].
  - rewrite lookup_insert_eq. intros [= <-]. eauto.
  - rewrite lookup_insert_ne by done. eauto.
Qed.

Lemma adj_add_edge_length m m' e k l :
  adj_add_edge m e = Ok m' → m' !! k = Some l →
  ∃ l0, m !! k = Some l0 ∧ length l ≤ length l0 + 2.
Proof.
  unfold adj_add_edge.
  destruct (truthy (from e) && truthy (to e) && has_truthy m (from e)
            && has_truthy m (to e)).
  2:{ intros [= <-] H. eexists. split; [done|lia]. }
  intros (m1 & H1 & H2)%rbind_Ok Hl. destruct (negb (directed e)).
  - destruct (adj_push_lookup _ _ _ _ _ _ _ H2 Hl) as (l1 & Hl1 & Hc1).
    destruct (adj_push_lookup _ _ _ _ _ _ _ H1 Hl1) as (l0 & Hl0 & Hc0).
    exists l0. split; [done|].
    destruct Hc1 as [->|[_ ->]], Hc0 as [->|[_ ->]]; rewrite ?length_app; simpl; lia.
  - injection H2 as <-.
    destruct (adj_push_lookup _ _ _ _ _ _ _ H1 Hl) as (l0 & Hl0 & Hc0).
    exists l0. split; [done|].
    destruct Hc0 as [->|[_ ->]]; rewrite ?length_app; simpl; lia.
Qed.

Lemma adj_edges_length es m m' k l :
  rfold adj_add_edge m es = Ok m' → m' !! k = Some l →
  ∃ l0, m !! k = Some l0 ∧ length l ≤ length l0 + 2 * length es.
Proof.
  revert m. induction es as [|e es IH]; intros m H Hl; cbn [rfold] in H.
  - injection H as <-. exists l. split; [done|simpl; lia].
  - apply rbind_Ok in H as (m1 & H1 & H).
    destruct (IH _ H Hl) as (l1 & Hl1 & Hle1).
    destruct (adj_add_edge_length _ _ _ _ _ H1 Hl1) as (l0 & Hl0 & Hle0).
    exists l0. split; [done|simpl; lia].
Qed.

Lemma adj_init_lookup ns m m' k l :
  rfold adj_init m ns = Ok m' → m' !! k = Some l → m !! k = Some l ∨ l = [].
Proof.
  revert m. induction ns as [|nd ns IH]; intros m H Hl; cbn [rfold] in H.
  - injection H as <-. by left.
  - apply rbind_Ok in H as (m1 & H1 & H).
    destruct (IH _ H Hl) as [Hl1|Hnil]; [|by right].
    unfold adj_init in H1. destruct (truthy (nid nd)); [|injection H1 as <-; by left].
    destruct (decide (nid nd = "__proto__")); [done|]. injection H1 as <-.
    destruct (decide (nid nd = k)) as [<-|Hne].
    + rewrite lookup_insert_eq in Hl1. injection Hl1 as <-. by right.
    + rewrite lookup_insert_ne in Hl1 by done. by left.
Qed.

Lemma createAdjacencyList_length g m k l :
  createAdjacencyList g = Ok m → m !! k = Some l →
  length l ≤ 2 * length (edges g).
Proof.
  unfold createAdjacencyList. intros (m0 & H0 & H)%rbind_Ok Hl.
  destruct (adj_edges_length _ _ _ _ _ H Hl) as (l0 & Hl0 & Hle).
  destruct (adj_init_lookup _ _ _ _ _ H0 Hl0) as [Hl1|Hnil].
  - by rewrite lookup_empty in Hl1.
  - subst l0. simpl in Hle. lia.
Qed.
End AdjacencyLength.

(** ** Prim: the loop ends *)

Lemma push_neighbors_app visited src ns acc :
  push_neighbors visited src ns acc = acc ++ push_neighbors visited src ns [].
Proof.
  revert acc. induction ns as [|e ns IH]; intros acc; simpl.
  - by rewrite app_nil_r.
  - destruct (truthy (adj_to e) && negb (set_has visited (adj_to e))); [|done].
    rewrite (IH (acc ++ _)), (IH [_]). by rewrite <- app_assoc.
Qed.

Lemma push_neighbors_length visited src ns acc :
  (length (push_neighbors visited src ns acc) ≤ length acc + length ns)%nat.
Proof.
  revert acc. induction ns as [|e ns IH]; intros acc; simpl; [lia|].
  destruct (truthy (adj_to e) && negb (set_has visited (adj_to e))).
  - etrans; [apply IH|]. rewrite length_app. simpl. lia.
  - etrans; [apply IH|]. lia.
Qed.

Lemma set_add_length_new s x :
  set_has s x = false → length (set_add s x) = S (length s).
Proof. intros H. unfold set_add. rewrite H, length_app. simpl. lia. Qed.

(** What an iteration of the loop leaves when it does not throw, and the
    state before the first iteration when [startNeighbors.forEach] does
    not throw: an inherited key is then never met, and [adjList[k] || []]
    is the list of [k] or the empty one. *)
Definition prim_step (adjList : gmap string (list AdjEntry)) (s : PState)
    (currentEdge : PEdge) (rest : list PEdge) : PState :=
  if negb (truthy (pe_to currentEdge)) then
    {| ps_visited := ps_visited s; ps_queue := rest;
       ps_mstEdges := ps_mstEdges s; ps_totalCost := ps_totalCost s;
       ps_steps := ps_steps s; ps_stepCount := ps_stepCount s |}
  else if set_has (ps_visited s) (pe_to currentEdge) then
    {| ps_visited := ps_visited s; ps_queue := rest;
       ps_mstEdges := ps_mstEdges s; ps_totalCost := ps_totalCost s;
       ps_steps := ps_steps s ++
         [{| p_step := ps_stepCount s;
             p_currentEdge := Some (currentEdge, skipped);
             p_visitedNodes := ps_visited s;
             p_priorityQueue := rest;
             p_mstEdges := ps_mstEdges s;
             p_totalCost := ps_totalCost s;
             p_action := skip;
             p_newEdgesAdded := None |}];
       ps_stepCount := S (ps_stepCount s) |}
  else
    let mst := ps_mstEdges s ++
      [{| me_id := pe_edgeId currentEdge; me_from := pe_from currentEdge;
          me_to := pe_to currentEdge; me_weight := or0 (pe_weight currentEdge);
          me_status := accepted |}] in
    let total := num_add (ps_totalCost s) (or0 (pe_weight currentEdge)) in
    let visited := set_add (ps_visited s) (pe_to currentEdge) in
    let newNeighbors := default [] (adjList !! pe_to currentEdge) in
    let newEdges := push_neighbors visited (pe_to currentEdge) newNeighbors [] in
    let pushed := push_neighbors visited (pe_to currentEdge) newNeighbors rest in
    let queue :=
      sort_by pedge_le
        (filter (λ e, truthy (pe_to e) && negb (set_has visited (pe_to e))) pushed) in
    {| ps_visited := visited; ps_queue := queue;
       ps_mstEdges := mst; ps_totalCost := total;
       ps_steps := ps_steps s ++
         [{| p_step := ps_stepCount s;
             p_currentEdge := Some (currentEdge, accepted);
             p_visitedNodes := visited;
             p_priorityQueue := queue;
             p_mstEdges := mst;
             p_totalCost := total;
             p_action := accept;
             p_newEdgesAdded := Some newEdges |}];
       ps_stepCount := S (ps_stepCount s) |}.

Definition prim_first (adjList : gmap string (list AdjEntry)) (startNode : string)
  : PState :=
  let visited := set_add [] startNode in
  let startNeighbors := default [] (adjList !! startNode) in
  let queue := sort_by pedge_le (push_neighbors visited startNode startNeighbors []) in
  {| ps_visited := visited; ps_queue := queue; ps_mstEdges := [];
     ps_totalCost := Fin 0;
     ps_steps :=
       [{| p_step := 0;
           p_currentEdge := None;
           p_visitedNodes := visited;
           p_priorityQueue := queue;
           p_mstEdges := [];
           p_totalCost := Fin 0;
           p_action := initialize;
           p_newEdgesAdded := None |}];
     ps_stepCount := 1 |}.

Lemma neighbours_Ok what adjList k l :
  neighbours what adjList k = Ok l ↔
  l = default [] (adjList !! k) ∧ (adjList !! k = None → inherited k = false).
Proof.
  unfold neighbours. destruct (adjList !! k) as [l0|]; simpl.
  - split; [by intros [= ->]|by intros [-> _]].
  - destruct (inherited k); split; try done.
    + by intros [_ H]; specialize (H eq_refl).
    + by intros [= <-].
    + by intros [-> _].
Qed.

Lemma neighbours_not_Stuck what adjList k : neighbours what adjList k ≠ Stuck.
Proof.
  unfold neighbours. destruct (adjList !! k); [done|]. by destruct (inherited k).
Qed.

Lemma prim_body_Ok adjList s cur rest s' :
  prim_body adjList s cur rest = Ok s' → s' = prim_step adjList s cur rest.
Proof.
  unfold prim_body, prim_step. destruct (negb (truthy (pe_to cur))); [by intros [= <-]|].
  destruct (set_has (ps_visited s) (pe_to cur)); [by intros [= <-]|].
  intros (l & [-> _]%neighbours_Ok & [= <-])%rbind_Ok. done.
Qed.

Lemma prim_init_Ok adjList startNode s :
  prim_init adjList startNode = Ok s → s = prim_first adjList startNode.
Proof.
  unfold prim_init, prim_first.
  intros (l & [-> _]%neighbours_Ok & [= <-])%rbind_Ok. done.
Qed.

Lemma prim_body_not_Stuck adjList s cur rest : prim_body adjList s cur rest ≠ Stuck.
Proof.
  unfold prim_body. destruct (negb (truthy (pe_to cur))); [done|].
  destruct (set_has (ps_visited s) (pe_to cur)); [done|].
  pose proof (neighbours_not_Stuck "newNeighbors" adjList (pe_to cur)).
  by destruct (neighbours _ _ _).
Qed.

Section PrimTermination.
Local Open Scope nat_scope.
Variable g : Graph.

Definition prim_measure (s : PState) : nat :=
  length (ps_queue s)
  + (length (nodes g) - length (ps_visited s)) * S (2 * length (edges g)).

(** No list of [adjList] is longer than twice the number of edges. *)
Definition short_lists (adjList : gmap string (list AdjEntry)) : Prop :=
  ∀ k l, adjList !! k = Some l → length l ≤ 2 * length (edges g).

Lemma prim_step_measure adjList s cur rest :
  short_lists adjList →
  ps_queue s = cur :: rest → length (ps_visited s) < length (nodes g) →
  prim_measure (prim_step adjList s cur rest) < prim_measure s.
Proof.
  intros Hshort Hq Hlt. unfold prim_measure, prim_step. rewrite Hq.
  destruct (negb (truthy (pe_to cur))); [simpl; lia|].
  destruct (set_has (ps_visited s) (pe_to cur)) eqn:Hhas; [simpl; lia|].
  simpl. rewrite sort_by_length, set_add_length_new by done.
  pose proof (length_filter
    (λ e, truthy (pe_to e) && negb (set_has (set_add (ps_visited s) (pe_to cur)) (pe_to e)))
    (push_neighbors (set_add (ps_visited s) (pe_to cur)) (pe_to cur)
       (default [] (adjList !! pe_to cur)) rest)) as Hf.
  pose proof (push_neighbors_length (set_add (ps_visited s) (pe_to cur)) (pe_to cur)
       (default [] (adjList !! pe_to cur)) rest) as Hp.
  assert (length (default [] (adjList !! pe_to cur)) ≤ 2 * length (edges g)) as Hn.
  { destruct (adjList !! pe_to cur) as [l|] eqn:E; simpl; [by eapply Hshort|lia]. }
  set (E := 2 * length (edges g)) in *.
  replace (length (nodes g) - length (ps_visited s))
    with (S (length (nodes g) - S (length (ps_visited s)))) by lia.
  simpl. lia.
Qed.

(** The loop ends: with fuel above the measure it returns or throws. *)
Lemma prim_loop_total adjList fuel s :
  short_lists adjList → prim_measure s < fuel →
  prim_loop g adjList fuel s ≠ Stuck.
Proof.
  intros Hshort. revert s. induction fuel as [|fuel IH]; intros s Hm; [lia|].
  simpl. destruct (ps_queue s) as [|cur rest] eqn:Hq; [done|].
  destruct (decide (length (ps_visited s) < length (nodes g))) as [Hlt|]; [|done].
  destruct (prim_body adjList s cur rest) as [s1| |] eqn:Hb; cbn [rbind]; [|done|].
  - apply prim_body_Ok in Hb as ->. apply IH.
    pose proof (prim_step_measure adjList s cur rest Hshort Hq Hlt). lia.
  - by apply prim_body_not_Stuck in Hb.
Qed.

(** An invariant of the iterations that do not throw holds in the state
    in which the loop ends, and there the loop condition is false. *)
Lemma prim_loop_invariant (P : PState → Prop) adjList fuel s s' :
  (∀ s cur rest, P s → ps_queue s = cur :: rest →
                 length (ps_visited s) < length (nodes g) →
                 P (prim_step adjList s cur rest)) →
  P s → prim_loop g adjList fuel s = Ok s' →
  P s' ∧ (ps_queue s' = [] ∨ ¬ length (ps_visited s') < length (nodes g)).
Proof.
  intros Hstep. revert s. induction fuel as [|fuel IH]; intros s Hs Hrun; simpl in Hrun.
  - destruct (ps_queue s) eqn:Hq; [injection Hrun as <-; auto|].
    destruct (decide _); [done|]. injection Hrun as <-. auto.
  - destruct (ps_queue s) as [|cur rest] eqn:Hq; [injection Hrun as <-; auto|].
    destruct (decide _) as [Hlt|Hge]; [|injection Hrun as <-; auto].
    apply rbind_Ok in Hrun as (s1 & Hb & Hrun). apply prim_body_Ok in Hb as ->.
    eapply IH; [|done]. by apply Hstep.
Qed.

End PrimTermination.

(** ** Prim: the shape of a run *)

Lemma prim_final_state_Some g startNode s :
  prim_final_state g startNode = Some s ↔
  ∃ adjList, createAdjacencyList g = Ok adjList ∧
             prim_search g adjList startNode = Ok s.
Proof.
  unfold prim_final_state. destruct (createAdjacencyList g) as [m| |]; split.
  - destruct (prim_search g m startNode) eqn:E; [|done..].
    intros [= <-]. eauto.
  - by intros (m' & [= <-] & ->).
  - done.
  - by intros (? & [=] & _).
  - done.
  - by intros (? & [=] & _).
Qed.

(** The state in which the loop ends satisfies every invariant of the
    iterations that holds before the first one. *)
Lemma prim_final_state_invariant g (P : PState → Prop) startNode s :
  (∀ adjList, createAdjacencyList g = Ok adjList →
     P (prim_first adjList startNode) ∧
     ∀ s cur rest, P s → ps_queue s = cur :: rest →
                   (length (ps_visited s) < length (nodes g))%nat →
                   P (prim_step adjList s cur rest)) →
  prim_final_state g startNode = Some s →
  P s ∧ (ps_queue s = [] ∨ ¬ (length (ps_visited s) < length (nodes g))%nat).
Proof.
  intros HP (adjList & Hadj & Hrun)%prim_final_state_Some.
  destruct (HP adjList Hadj) as [H0 Hstep].
  unfold prim_search in Hrun. apply rbind_Ok in Hrun as (s0 & Hs0 & Hrun).
  apply prim_init_Ok in Hs0 as ->.
  by eapply (prim_loop_invariant g P) in Hrun.
Qed.

Lemma primAlgorithm_Ok g startNodeId r :
  primAlgorithm g startNodeId = Ok r ↔
  validateGraph g = Ok tt ∧
  ∃ startNode s,
    prim_start g startNodeId = Some startNode ∧ truthy startNode = true ∧
    prim_final_state g startNode = Some s ∧
    r = {| p_steps := prim_finish g s;
           p_finalResult :=
             {| pf_mstEdges := ps_mstEdges s;
                pf_totalCost := ps_totalCost s;
                pf_edgeCount := length (ps_mstEdges s);
                pf_startNode := startNode |} |}.
Proof.
  unfold primAlgorithm. rewrite rethrow_Ok, rbind_Ok. split.
  - intros ([] & Hv & Hr). split; [done|]. unfold prim_run in Hr.
    destruct (decide (length (nodes g) = 0%nat)); [done|].
    apply rbind_Ok in Hr as (adjList & Hadj & Hr).
    destruct (prim_start g startNodeId) as [startNode|]; [|done].
    destruct (truthy startNode) eqn:Ht; [|done].
    apply rbind_Ok in Hr as (s & Hs & [= <-]).
    exists startNode, s. split; [done|]. split; [done|]. split; [|done].
    apply prim_final_state_Some. eauto.
  - intros (Hv & startNode & s & Hst & Ht & Hs & ->). exists tt. split; [done|].
    apply prim_final_state_Some in Hs as (adjList & Hadj & Hs).
    unfold prim_run. destruct (decide (length (nodes g) = 0%nat)) as [Hz|_].
    { unfold validateGraph in Hv. by rewrite decide_True in Hv. }
    rewrite Hadj. cbn [rbind]. rewrite Hst, Ht, Hs. done.
Qed.

Lemma push_neighbors_filter visited src ns :
  push_neighbors visited src ns [] =
  map (frontier_edge src)
      (filter (λ a, truthy (adj_to a) && negb (set_has visited (adj_to a))) ns).
Proof.
  induction ns as [|a ns IH]; [done|]. simpl. rewrite filter_cons.
  destruct (truthy (adj_to a) && negb (set_has visited (adj_to a))) eqn:E.
  - rewrite decide_True by done. rewrite push_neighbors_app, IH. done.
  - rewrite decide_False by (by intros []). done.
Qed.

Lemma set_has_true s x : set_has s x = true ↔ x ∈ s.
Proof. unfold set_has. by rewrite bool_decide_eq_true. Qed.

Lemma set_has_false s x : set_has s x = false ↔ x ∉ s.
Proof. unfold set_has. by rewrite bool_decide_eq_false. Qed.

Lemma elem_of_set_add s x y : y ∈ set_add s x ↔ y ∈ s ∨ y = x.
Proof.
  unfold set_add. destruct (set_has s x) eqn:E.
  - apply set_has_true in E. split; [auto|]. by intros [?| ->].
  - rewrite elem_of_app, list_elem_of_singleton. done.
Qed.

Lemma set_add_NoDup s x : NoDup s → NoDup (set_add s x).
Proof.
  intros Hs. unfold set_add. destruct (set_has s x) eqn:E; [done|].
  apply set_has_false in E. apply NoDup_app. split; [done|]. split.
  - intros y Hy Hx. apply list_elem_of_singleton in Hx. by subst.
  - apply NoDup_singleton.
Qed.

(** An entry may stay in the frontier only while its far endpoint is
    truthy and not visited. *)
Definition fresh (visited : list string) (e : PEdge) : Prop :=
  truthy (pe_to e) = true ∧ pe_to e ∉ visited.

Lemma fresh_filter visited (l : list PEdge) :
  Forall (fresh visited)
    (filter (λ e, truthy (pe_to e) && negb (set_has visited (pe_to e))) l).
Proof.
  apply Forall_forall. intros e He. apply list_elem_of_filter in He as [He _].
  apply Is_true_true in He. apply andb_true_iff in He as [Ht Hv].
  split; [done|]. apply negb_true_iff in Hv. by apply set_has_false.
Qed.

Lemma fresh_push_neighbors visited src ns :
  Forall (fresh visited) (push_neighbors visited src ns []).
Proof.
  rewrite push_neighbors_filter. apply Forall_forall. intros e He.
  apply list_elem_of_fmap in He as (a & -> & Ha).
  apply list_elem_of_filter in Ha as [Ha _].
  apply Is_true_true in Ha. apply andb_true_iff in Ha as [Ht Hv].
  split; [done|]. apply negb_true_iff in Hv. by apply set_has_false.
Qed.

Lemma Forall_sort_by {A} (P : A → Prop) le l :
  Forall P l → Forall P (sort_by le l).
Proof. by rewrite sort_by_Permutation. Qed.

(** The frontier is pruned after every accepted edge: in the live state
    and in every step of the trace, no entry leads to a visited node, and
    no step is a [skip]. *)
Definition pruned_step (st : PStep) : Prop :=
  p_action st ≠ skip ∧ Forall (fresh (p_visitedNodes st)) (p_priorityQueue st).

Definition pruned (s : PState) : Prop :=
  Forall (fresh (ps_visited s)) (ps_queue s) ∧ Forall pruned_step (ps_steps s).

Lemma pruned_init adjList startNode : pruned (prim_first adjList startNode).
Proof.
  unfold prim_first, pruned. cbn [ps_queue ps_visited ps_steps].
  assert (Forall (fresh (set_add [] startNode))
            (sort_by pedge_le
               (push_neighbors (set_add [] startNode) startNode
                  (default [] (adjList !! startNode)) []))) as H.
  { apply Forall_sort_by, fresh_push_neighbors. }
  split; [done|]. apply Forall_singleton. split; [done|]. done.
Qed.

Lemma pruned_body adjList s cur rest :
  pruned s → ps_queue s = cur :: rest → pruned (prim_step adjList s cur rest).
Proof.
  intros [Hq Hsteps] Hcur. rewrite Hcur in Hq. apply Forall_cons in Hq as [[Ht Hv] Hrest].
  unfold prim_step. rewrite Ht. apply set_has_false in Hv. rewrite Hv.
  cbn [negb]. cbv iota.
  match goal with |- pruned {| ps_queue := ?q |} =>
    assert (Forall (fresh (set_add (ps_visited s) (pe_to cur))) q) as Hnew
  end.
  { apply Forall_sort_by, fresh_filter. }
  split; cbn [ps_queue ps_visited ps_steps]; [done|].
  apply Forall_app. split; [done|]. apply Forall_singleton. by split.
Qed.

Lemma pruned_final g startNode s :
  prim_final_state g startNode = Some s → pruned s.
Proof.
  intros Hrun.
  eapply (prim_final_state_invariant g pruned) in Hrun as [H _]; [done|].
  intros adjList _. split; [apply pruned_init|].
  intros s0 cur rest Hs0 Hq _. by apply pruned_body.
Qed.

Lemma pruned_finish g s : pruned s → Forall pruned_step (prim_finish g s).
Proof.
  intros [_ Hsteps]. unfold prim_finish. destruct (decide _); [|done].
  apply Forall_app. split; [done|]. apply Forall_singleton. by split.
Qed.

Lemma prim_trace_pruned g startNodeId r :
  primAlgorithm g startNodeId = Ok r → Forall pruned_step (p_steps r).
Proof.
  intros H. apply primAlgorithm_Ok in H as (_ & startNode & s & _ & _ & Hs & ->).
  simpl. eapply pruned_finish, pruned_final. exact Hs.
Qed.

(** ** Dijkstra: the loop ends *)

Lemma safeCloneDistances_eq m : safeCloneDistances m = m.
Proof. apply list_to_map_to_list. Qed.

Lemma safeClonePrevious_eq m : safeClonePrevious m = m.
Proof. apply list_to_map_to_list. Qed.

Lemma visited_le_size {A} (m : gmap string A) (visited : list string) :
  NoDup visited → (∀ x, x ∈ visited → is_Some (m !! x)) →
  (length visited ≤ size m)%nat.
Proof.
  intros Hnd Hsub.
  assert (visited ⊆+ (map_to_list m).*1) as Hle.
  { apply NoDup_submseteq; [done|]. intros x Hx. destruct (Hsub x Hx) as [v Hv].
    apply list_elem_of_fmap. exists (x, v). split; [done|].
    by apply elem_of_map_to_list. }
  apply submseteq_length in Hle.
  by rewrite length_fmap, length_map_to_list in Hle.
Qed.

Section Relax.
Local Open Scope nat_scope.
Variables (visited : list string) (currentNodeId : string).

Lemma relax_edge_dom r a k :
  is_Some (rx_distances (relax_edge visited currentNodeId r a) !! k)
  ↔ is_Some (rx_distances r !! k).
Proof.
  unfold relax_edge. destruct (negb (truthy (adj_to a))); [done|].
  destruct (set_has visited (adj_to a)); [done|].
  destruct (rx_distances r !! currentNodeId) as [cd|]; [|done].
  destruct (rx_distances r !! adj_to a) as [od|] eqn:E; [|done].
  destruct (dist_lt (dist_add cd (adj_weight a)) od); [|done].
  simpl. destruct (decide (adj_to a = k)) as [<-|Hne].
  - rewrite lookup_insert_eq, E. split; eauto.
  - by rewrite lookup_insert_ne.
Qed.

Lemma relax_edge_size r a :
  size (rx_distances (relax_edge visited currentNodeId r a)) = size (rx_distances r).
Proof.
  unfold relax_edge. destruct (negb (truthy (adj_to a))); [done|].
  destruct (set_has visited (adj_to a)); [done|].
  destruct (rx_distances r !! currentNodeId) as [cd|]; [|done].
  destruct (rx_distances r !! adj_to a) as [od|] eqn:E; [|done].
  destruct (dist_lt (dist_add cd (adj_weight a)) od); [|done].
  simpl. by apply map_size_insert_Some.
Qed.

Lemma relax_edge_queue_dom r a :
  (∀ q, q ∈ rx_queue r → is_Some (rx_distances r !! q_nodeId q)) →
  ∀ q, q ∈ rx_queue (relax_edge visited currentNodeId r a) →
       is_Some (rx_distances (relax_edge visited currentNodeId r a) !! q_nodeId q).
Proof.
  intros Hq q. rewrite relax_edge_dom. unfold relax_edge.
  destruct (negb (truthy (adj_to a))); [auto|].
  destruct (set_has visited (adj_to a)); [auto|].
  destruct (rx_distances r !! currentNodeId) as [cd|]; [|auto].
  destruct (rx_distances r !! adj_to a) as [od|] eqn:E; [|auto].
  destruct (dist_lt (dist_add cd (adj_weight a)) od); [|auto].
  simpl. rewrite elem_of_app, list_elem_of_filter, list_elem_of_singleton.
  intros [[_ Hin]| ->]; [auto|]. simpl. rewrite E. eauto.
Qed.

Lemma relax_edge_queue_length r a :
  length (rx_queue (relax_edge visited currentNodeId r a)) ≤ S (length (rx_queue r)).
Proof.
  unfold relax_edge. destruct (negb (truthy (adj_to a))); [lia|].
  destruct (set_has visited (adj_to a)); [lia|].
  destruct (rx_distances r !! currentNodeId) as [cd|]; [|lia].
  destruct (rx_distances r !! adj_to a) as [od|] eqn:E; [|lia].
  destruct (dist_lt (dist_add cd (adj_weight a)) od); [|lia].
  simpl. rewrite length_app. simpl.
  pose proof (length_filter (λ item, q_nodeId item ≠ adj_to a) (rx_queue r)). lia.
Qed.

Lemma relax_fold_dom ns r k :
  is_Some (rx_distances (foldl (relax_edge visited currentNodeId) r ns) !! k)
  ↔ is_Some (rx_distances r !! k).
Proof.
  revert r. induction ns as [|a ns IH]; intros r; simpl; [done|].
  by rewrite IH, relax_edge_dom.
Qed.

Lemma relax_fold_size ns r :
  size (rx_distances (foldl (relax_edge visited currentNodeId) r ns))
  = size (rx_distances r).
Proof.
  revert r. induction ns as [|a ns IH]; intros r; simpl; [done|].
  by rewrite IH, relax_edge_size.
Qed.

Lemma relax_fold_queue_dom ns r :
  (∀ q, q ∈ rx_queue r → is_Some (rx_distances r !! q_nodeId q)) →
  ∀ q, q ∈ rx_queue (foldl (relax_edge visited currentNodeId) r ns) →
       is_Some (rx_distances (foldl (relax_edge visited currentNodeId) r ns)
                  !! q_nodeId q).
Proof.
  revert r. induction ns as [|a ns IH]; intros r Hq; simpl; [done|].
  apply IH. by apply relax_edge_queue_dom.
Qed.

Lemma relax_fold_queue_length ns r :
  length (rx_queue (foldl (relax_edge visited currentNodeId) r ns))
  ≤ length (rx_queue r) + length ns.
Proof.
  revert r. induction ns as [|a ns IH]; intros r; simpl; [lia|].
  etrans; [apply IH|]. pose proof (relax_edge_queue_length r a). lia.
Qed.
End Relax.

Section DijkstraTermination.
Local Open Scope nat_scope.
Variables (g : Graph) (sourceNodeId : string) (targetNodeId : option string).
Variable lists : gmap string (list AdjEntry).
Hypothesis Hshort : short_lists g lists.

Definition dijkstra_measure (s : DState) : nat :=
  length (ds_queue s)
  + (size (ds_distances s) - length (ds_visited s)) * S (2 * length (edges g)).

(** The visited nodes are distinct, and they and the queued nodes all
    have an entry in [distances]. *)
Definition dinv (s : DState) : Prop :=
  NoDup (ds_visited s) ∧
  (∀ x, x ∈ ds_visited s → is_Some (ds_distances s !! x)) ∧
  (∀ q, q ∈ ds_queue s → is_Some (ds_distances s !! q_nodeId q)).

Lemma dijkstra_body_inv s cur rest :
  dinv s → sort_by qentry_le (ds_queue s) = cur :: rest →
  let s' := (dijkstra_body lists sourceNodeId targetNodeId
               s cur rest).1 in
  dinv s' ∧ dijkstra_measure s' < dijkstra_measure s ∧
  (∀ k, is_Some (ds_distances s' !! k) ↔ is_Some (ds_distances s !! k)).
Proof.
  intros (Hnd & Hvis & Hq) Hsort.
  assert (∀ q, q ∈ cur :: rest ↔ q ∈ ds_queue s) as Hmem.
  { intros q. by rewrite <- Hsort, sort_by_elem_of. }
  assert (length (ds_queue s) = S (length rest)) as Hlen.
  { by rewrite <- (sort_by_length qentry_le), Hsort. }
  assert (is_Some (ds_distances s !! q_nodeId cur)) as Hcur.
  { apply Hq, Hmem. by left. }
  assert (∀ q, q ∈ rest → is_Some (ds_distances s !! q_nodeId q)) as Hrest.
  { intros q Hin. apply Hq, Hmem. by right. }
  unfold dijkstra_body, dijkstra_measure.
  destruct (negb (truthy (q_nodeId cur))).
  { cbn. rewrite Hlen. split; [done|]. split; [lia|done]. }
  destruct (set_has (ds_visited s) (q_nodeId cur)) eqn:Hhas.
  { cbn. rewrite Hlen. split; [done|]. split; [lia|done]. }
  assert (NoDup (set_add (ds_visited s) (q_nodeId cur))) as Hnd' by by apply set_add_NoDup.
  assert (∀ x, x ∈ set_add (ds_visited s) (q_nodeId cur) →
               is_Some (ds_distances s !! x)) as Hvis'.
  { intros x [Hx| ->]%elem_of_set_add; auto. }
  pose proof (visited_le_size _ _ Hnd' Hvis') as Hle.
  rewrite set_add_length_new in Hle by done.
  set (K := S (2 * length (edges g))).
  assert ((size (ds_distances s) - S (length (ds_visited s))) * K + K
          = (size (ds_distances s) - length (ds_visited s)) * K) as Hmul.
  { replace (size (ds_distances s) - length (ds_visited s))
      with (S (size (ds_distances s) - S (length (ds_visited s)))) by lia.
    simpl. lia. }
  destruct (truthy_opt targetNodeId && bool_decide (targetNodeId = Some (q_nodeId cur))).
  { cbn. rewrite set_add_length_new by done. rewrite Hlen.
    split; [done|]. split; [|done]. unfold K in *. lia. }
  match goal with |- context [foldl ?f ?r0 ?ns] =>
    set (r := foldl f r0 ns);
    pose proof (relax_fold_dom (set_add (ds_visited s) (q_nodeId cur))
                  (q_nodeId cur) ns r0) as Hdom;
    pose proof (relax_fold_size (set_add (ds_visited s) (q_nodeId cur))
                  (q_nodeId cur) ns r0) as Hsize;
    pose proof (relax_fold_queue_dom (set_add (ds_visited s) (q_nodeId cur))
                  (q_nodeId cur) ns r0 Hrest) as Hqdom;
    pose proof (relax_fold_queue_length (set_add (ds_visited s) (q_nodeId cur))
                  (q_nodeId cur) ns r0) as Hqlen;
    fold r in Hdom, Hsize, Hqdom, Hqlen
  end.
  cbn [rx_distances rx_queue] in Hdom, Hsize, Hqlen.
  assert (length (default [] (lists !! q_nodeId cur)) ≤ 2 * length (edges g)) as Hn.
  { destruct (lists !! q_nodeId cur) as [l|] eqn:E; simpl; [by eapply Hshort|lia]. }
  assert (dinv {| ds_distances := rx_distances r; ds_previous := rx_previous r;
                  ds_visited := set_add (ds_visited s) (q_nodeId cur);
                  ds_queue := rx_queue r; ds_steps := [];
                  ds_stepCount := 0 |}) as (I1 & I2 & I3).
  { split; [done|]. split; [|done]. cbn. intros x Hx. apply Hdom. auto. }
  cbn in I1, I2, I3.
  destruct (decide (0 < length (rx_updated r))); cbn;
    rewrite set_add_length_new, Hsize, Hlen by done;
    (split; [done|]); (split; [unfold K in *; lia|done]).
Qed.

Lemma dijkstra_loop_total fuel s :
  dinv s → dijkstra_measure s < fuel →
  ∃ s', dijkstra_loop lists sourceNodeId targetNodeId fuel s
        = Some s'.
Proof.
  revert s. induction fuel as [|fuel IH]; intros s Hs Hm; [lia|].
  simpl. destruct (sort_by qentry_le (ds_queue s)) as [|cur rest] eqn:Hq; [eauto|].
  pose proof (dijkstra_body_inv s cur rest Hs Hq) as (Hs' & Hm' & _).
  destruct (dijkstra_body _ _ _ s cur rest) as [s' stop]. simpl in *.
  destruct stop; [eauto|]. apply IH; [done|lia].
Qed.

(** An invariant of the loop holds in the state in which the loop ends. *)
Lemma dijkstra_loop_invariant (P : DState → Prop) adjList fuel s s' :
  (∀ s cur rest, P s → sort_by qentry_le (ds_queue s) = cur :: rest →
     P (dijkstra_body adjList sourceNodeId targetNodeId s cur rest).1) →
  P s → dijkstra_loop adjList sourceNodeId targetNodeId fuel s = Some s' → P s'.
Proof.
  intros Hstep. revert s. induction fuel as [|fuel IH]; intros s Hs Hrun; simpl in Hrun.
  - destruct (sort_by qentry_le (ds_queue s)); [|done]. by injection Hrun as <-.
  - destruct (sort_by qentry_le (ds_queue s)) as [|cur rest] eqn:Hq.
    { by injection Hrun as <-. }
    pose proof (Hstep s cur rest Hs Hq) as H1.
    destruct (dijkstra_body adjList sourceNodeId targetNodeId s cur rest)
      as [s1 stop].
    destruct stop; [injection Hrun as <-; exact H1|]. eapply IH; [exact H1|done].
Qed.

End DijkstraTermination.

(** ** Dijkstra: the shape of a run *)

Definition node_ids (g : Graph) : list string := map nid (nodes g).

Lemma node_ids_length g : length (node_ids g) = length (nodes g).
Proof. unfold node_ids. apply length_map. Qed.

Lemma source_exists g src :
  existsb (λ node, bool_decide (nid node = src)) (nodes g) = true
  ↔ src ∈ node_ids g.
Proof.
  rewrite existsb_exists. unfold node_ids. rewrite list_elem_of_fmap. split.
  - intros (nd & Hin & Hb). apply bool_decide_eq_true in Hb.
    exists nd. split; [done|]. by apply list_elem_of_In.
  - intros (nd & -> & Hin). exists nd. split; [by apply list_elem_of_In|].
    by apply bool_decide_eq_true.
Qed.

Lemma init_node_dom src acc nd k :
  is_Some ((init_node src acc nd).1 !! k)
  ↔ is_Some (acc.1 !! k) ∨ (truthy k = true ∧ k = nid nd).
Proof.
  unfold init_node. destruct (truthy (nid nd)) eqn:Ht; simpl.
  - destruct (decide (nid nd = k)) as [<-|Hne].
    + rewrite lookup_insert_eq. split; [|eauto]. intros _. right. auto.
    + rewrite lookup_insert_ne by done. split; [tauto|].
      intros [H|[_ ->]]; [done|congruence].
  - split; [tauto|]. intros [H|[Hk ->]]; [done|congruence].
Qed.

Lemma init_node_size src acc nd :
  (size (init_node src acc nd).1 ≤ S (size acc.1))%nat.
Proof.
  unfold init_node. destruct (truthy (nid nd)); [|apply Nat.le_succ_diag_r].
  cbn [fst]. rewrite map_size_insert. destruct (acc.1 !! nid nd); [apply Nat.le_succ_diag_r|done].
Qed.

Lemma dijkstra_init_maps_spec src ns acc :
  let dp := foldl (init_node src) acc ns in
  (∀ k, is_Some (dp.1 !! k) ↔
        is_Some (acc.1 !! k) ∨ (truthy k = true ∧ k ∈ map nid ns)) ∧
  (size dp.1 ≤ size acc.1 + length ns)%nat.
Proof.
  revert acc. induction ns as [|nd ns IH]; intros acc; simpl.
  - split; [|lia]. intros k. split; [auto|]. intros [H|[_ H]]; [done|].
    by apply elem_of_nil in H.
  - destruct (IH (init_node src acc nd)) as [Hdom Hsize]. split.
    + intros k. rewrite Hdom, init_node_dom, elem_of_cons. tauto.
    + pose proof (init_node_size src acc nd). lia.
Qed.

Lemma dijkstra_init_distances g src k :
  is_Some (ds_distances (dijkstra_init g src) !! k)
  ↔ truthy k = true ∧ k ∈ node_ids g.
Proof.
  unfold dijkstra_init, dijkstra_init_maps.
  pose proof (dijkstra_init_maps_spec src (nodes g) (∅, ∅)) as [Hdom _].
  destruct (foldl _ _ _) as [d p]. simpl in *. rewrite Hdom, lookup_empty.
  split; [|auto]. intros [[? [=]]|H]; done.
Qed.

Lemma dijkstra_init_size g src :
  (size (ds_distances (dijkstra_init g src)) ≤ length (nodes g))%nat.
Proof.
  unfold dijkstra_init, dijkstra_init_maps.
  pose proof (dijkstra_init_maps_spec src (nodes g) (∅, ∅)) as [_ Hsize].
  destruct (foldl _ _ _) as [d p]. simpl in *. by rewrite map_size_empty in Hsize.
Qed.

Lemma dijkstra_init_queue g src :
  ds_queue (dijkstra_init g src) = [{| q_nodeId := src; q_distance := Fin 0 |}]
  ∧ ds_visited (dijkstra_init g src) = [].
Proof.
  unfold dijkstra_init. by destruct (dijkstra_init_maps g src).
Qed.

Lemma dinv_init g src :
  truthy src = true → src ∈ node_ids g → dinv (dijkstra_init g src).
Proof.
  intros Ht Hin. destruct (dijkstra_init_queue g src) as [Hq Hv].
  unfold dinv. rewrite Hq, Hv. split; [constructor|]. split.
  - intros x Hx. by apply elem_of_nil in Hx.
  - intros q ->%list_elem_of_singleton. by apply dijkstra_init_distances.
Qed.

Lemma dijkstra_loop_ends g src tgt lists :
  short_lists g lists → truthy src = true → src ∈ node_ids g →
  ∃ s, dijkstra_loop lists src tgt (loop_fuel g) (dijkstra_init g src) = Some s.
Proof.
  intros Hshort Ht Hin. apply (dijkstra_loop_total g); [done|by apply dinv_init|].
  unfold dijkstra_measure, loop_fuel.
  destruct (dijkstra_init_queue g src) as [-> ->].
  pose proof (dijkstra_init_size g src) as Hsize. simpl length.
  set (K := S (2 * length (edges g))).
  assert ((size (ds_distances (dijkstra_init g src)) - 0) * K
          ≤ length (nodes g) * K)%nat by (apply Nat.mul_le_mono_r; lia).
  lia.
Qed.

Lemma dijkstra_final_state_loop g src tgt s :
  dijkstra_final_state g src tgt = Some s →
  ∃ lists, createAdjacencyList g = Ok lists ∧
           dijkstra_loop lists src tgt (loop_fuel g) (dijkstra_init g src) = Some s.
Proof.
  unfold dijkstra_final_state.
  destruct (createAdjacencyList g) as [lists| |]; [eauto|done..].
Qed.

Lemma dijkstraAlgorithm_Ok g sourceNodeId targetNodeId r :
  dijkstraAlgorithm g sourceNodeId targetNodeId = Ok r ↔
  validateGraph g = Ok tt ∧
  ∃ src s, sourceNodeId = Some src ∧ truthy src = true ∧ src ∈ node_ids g ∧
           dijkstra_final_state g src targetNodeId = Some s ∧
           r = dijkstra_finish g src targetNodeId s.
Proof.
  unfold dijkstraAlgorithm. rewrite rethrow_Ok, rbind_Ok. split.
  - intros ([] & Hv & Hr). split; [done|]. unfold dijkstra_run in Hr.
    destruct sourceNodeId as [src|]; [|done].
    destruct (truthy src) eqn:Ht; [|done]. simpl in Hr.
    destruct (existsb _ (nodes g)) eqn:Hex; [|done]. simpl in Hr.
    apply source_exists in Hex.
    apply rbind_Ok in Hr as (lists & Hl & Hr).
    apply rbind_Ok in Hr as (s & Hs & [= <-]). apply of_option_Ok in Hs.
    exists src, s. unfold dijkstra_final_state. by rewrite Hl.
  - intros (Hv & src & s & -> & Ht & Hin & Hs & ->). exists tt. split; [done|].
    unfold dijkstra_run. rewrite Ht. cbn [negb].
    apply source_exists in Hin. rewrite Hin. cbn [negb].
    unfold dijkstra_final_state in Hs.
    destruct (createAdjacencyList g) as [lists| |]; [|done..].
    cbn [rbind]. by rewrite Hs.
Qed.

(** Once [createAdjacencyList] has returned, the loop runs to its end. *)
Lemma dijkstra_final_state_returns g src tgt lists :
  createAdjacencyList g = Ok lists → truthy src = true → src ∈ node_ids g →
  ∃ s, dijkstra_final_state g src tgt = Some s.
Proof.
  intros Hl Ht Hin. unfold dijkstra_final_state. rewrite Hl.
  apply dijkstra_loop_ends; [|done..].
  intros k l. by apply createAdjacencyList_length.
Qed.

Lemma dijkstra_final_state_total g src tgt :
  plain_ids g → truthy src = true → src ∈ node_ids g →
  ∃ s, dijkstra_final_state g src tgt = Some s.
Proof.
  intros Hp. apply (dijkstra_final_state_returns g src tgt (adj_lists g)).
  by apply createAdjacencyList_plain.
Qed.

(** With a source that is a node of a graph that passes validation and
    has plain ids, Dijkstra returns a result. *)
Lemma dijkstraAlgorithm_total g src tgt :
  validateGraph g = Ok tt → plain_ids g → truthy src = true → src ∈ node_ids g →
  ∃ r, dijkstraAlgorithm g (Some src) tgt = Ok r.
Proof.
  intros Hv Hp Ht Hin.
  destruct (dijkstra_final_state_total g src tgt Hp Ht Hin) as [s Hs].
  eexists. apply dijkstraAlgorithm_Ok. split; [done|]. by exists src, s.
Qed.

(** ** Dijkstra: the reconstructed paths *)

Lemma walk_back_shape previous source budget current acc :
  ∃ l, walk_back previous source budget current acc = l ++ acc ∧
       ∀ c, budget ≠ 0%nat → current = Some c → ∃ l', l = l' ++ [c].
Proof.
  revert current acc. induction budget as [|budget IH]; intros current acc; simpl.
  - exists []. split; [done|]. intros c Hb. done.
  - destruct current as [c|].
    + destruct (decide (c = source)) as [->|Hne].
      * exists [source]. split; [done|]. intros c _ [= <-]. by exists [].
      * destruct (IH (mjoin (previous !! c)) (c :: acc)) as (l & -> & _).
        exists (l ++ [c]). split; [by rewrite <- app_assoc|].
        intros c' _ [= <-]. by exists l.
    + exists []. split; [done|]. intros c _ [=].
Qed.

(** A reconstructed path, when it is not empty, leads from [source] to
    the node it is stored under. *)
Definition path_ends (source nodeId : string) (pi : PathInfo) : Prop :=
  path pi ≠ [] → head (path pi) = Some source ∧ last (path pi) = Some nodeId.

Lemma path_entry_ends previous source maxSteps distances nodeId :
  maxSteps ≠ 0%nat →
  path_ends source nodeId (path_entry previous source maxSteps distances nodeId).
Proof.
  intros Hmax. unfold path_entry, path_ends.
  destruct (decide (nodeId = source)) as [->|Hne]; [done|].
  destruct (bool_decide (head _ = Some source)) eqn:Hhead; simpl; [|done].
  apply bool_decide_eq_true in Hhead. intros _. split; [done|].
  destruct (walk_back_shape previous source maxSteps (Some nodeId) [])
    as (l & Hl & Hlast).
  destruct (Hlast nodeId Hmax eq_refl) as [l' ->].
  rewrite Hl, app_nil_r. apply last_snoc.
Qed.

Definition paths_ok (source : string) (paths : gmap string PathInfo) : Prop :=
  ∀ nodeId pi, paths !! nodeId = Some pi → path_ends source nodeId pi.

Lemma add_path_ok previous source maxSteps distances paths nodeId :
  maxSteps ≠ 0%nat → paths_ok source paths →
  paths_ok source (add_path previous source maxSteps distances paths nodeId).
Proof.
  intros Hmax Hpaths. unfold add_path. destruct (negb (truthy nodeId)); [done|].
  intros k pi. destruct (decide (nodeId = k)) as [<-|Hne].
  - rewrite lookup_insert_eq. intros [= <-]. by apply path_entry_ends.
  - rewrite lookup_insert_ne by done. apply Hpaths.
Qed.

Lemma getShortestPaths_ok previous source processedNodes distances :
  paths_ok source (getShortestPaths previous source processedNodes distances).
Proof.
  unfold getShortestPaths. destruct (negb (truthy source)).
  { intros k pi H. by rewrite lookup_empty in H. }
  assert (length processedNodes + 1 ≠ 0)%nat as Hmax by lia.
  revert Hmax. generalize (length processedNodes + 1)%nat. intros maxSteps Hmax.
  assert (paths_ok source (∅ : gmap string PathInfo)) as Hinit.
  { intros k pi H. by rewrite lookup_empty in H. }
  revert Hinit. generalize (∅ : gmap string PathInfo).
  induction processedNodes as [|x xs IH]; intros paths Hpaths; simpl; [done|].
  apply IH. by apply add_path_ok.
Qed.

Definition dstep_ok (source : string) (st : DStep) : Prop :=
  paths_ok source (d_shortestPaths st).

Lemma dijkstra_body_paths adjList source target s cur rest :
  Forall (dstep_ok source) (ds_steps s) →
  Forall (dstep_ok source)
    (ds_steps (dijkstra_body adjList source target s cur rest).1).
Proof.
  intros Hs. unfold dijkstra_body.
  destruct (negb (truthy (q_nodeId cur))); [done|].
  destruct (set_has (ds_visited s) (q_nodeId cur)); [done|].
  destruct (truthy_opt target && bool_decide (target = Some (q_nodeId cur))).
  { cbn [ds_steps fst]. apply Forall_app. split; [exact Hs|].
    apply Forall_singleton. apply getShortestPaths_ok. }
  destruct (decide _); cbn [ds_steps fst]; apply Forall_app; (split; [exact Hs|]).
  - apply Forall_cons_2; [apply getShortestPaths_ok|].
    apply Forall_singleton. apply getShortestPaths_ok.
  - apply Forall_singleton. apply getShortestPaths_ok.
Qed.

Lemma dijkstra_trace_paths g sourceNodeId targetNodeId r src :
  dijkstraAlgorithm g sourceNodeId targetNodeId = Ok r →
  sourceNodeId = Some src →
  Forall (dstep_ok src) (d_steps r).
Proof.
  intros H Hsrc. apply dijkstraAlgorithm_Ok in H
    as (_ & src' & s & E & _ & _ & Hs & ->).
  assert (src' = src) as -> by congruence.
  unfold dijkstra_finish. cbn [d_steps]. apply Forall_app. split.
  - apply dijkstra_final_state_loop in Hs as (lists & _ & Hs).
    eapply (dijkstra_loop_invariant src targetNodeId
              (λ s, Forall (dstep_ok src) (ds_steps s))); [|..|exact Hs].
    + intros s0 cur rest H0 _. by apply dijkstra_body_paths.
    + unfold dijkstra_init. destruct (dijkstra_init_maps g src). cbn [ds_steps].
      apply Forall_singleton. intros k pi H. unfold dstep_ok in *.
      cbn [d_shortestPaths] in H. by rewrite lookup_empty in H.
  - apply Forall_singleton. apply getShortestPaths_ok.
Qed.

(** A small connected graph used to run the engines. *)
Definition path3 : Graph :=
  {| nodes := [{| nid := "A" |}; {| nid := "B" |}; {| nid := "C" |}];
     edges :=
       [{| eid := Some "A-B"; from := "A"; to := "B"; weight := int 1;
           directed := false |};
        {| eid := Some "B-C"; from := "B"; to := "C"; weight := int 2;
           directed := false |}] |}.

(** C8.  In every step of a Dijkstra trace, a non-empty
    [shortestPaths[nodeId].path] begins with the source node id and ends
    with [nodeId]. *)
Theorem dijkstra_paths_begin_at_source_end_at_node
    g sourceNodeId targetNodeId r st nodeId pi :
  dijkstraAlgorithm g sourceNodeId targetNodeId = Ok r →
  st ∈ d_steps r →
  d_shortestPaths st !! nodeId = Some pi →
  path pi ≠ [] →
  head (path pi) = sourceNodeId ∧ last (path pi) = Some nodeId.
Proof.
  intros Hrun Hst Hpi Hne.
  pose proof Hrun as Hshape.
  apply dijkstraAlgorithm_Ok in Hshape as (_ & src & _ & -> & _).
  pose proof (dijkstra_trace_paths _ _ _ _ src Hrun eq_refl) as Hall.
  rewrite Forall_forall in Hall. exact (Hall st Hst nodeId pi Hpi Hne).
Qed.

Lemma dijkstra_paths_begin_at_source_end_at_node_witness :
  ∃ r st pi,
    dijkstraAlgorithm path3 (Some "A") None = Ok r ∧
    last (d_steps r) = Some st ∧
    d_shortestPaths st !! "C" = Some pi ∧
    path pi = ["A"; "B"; "C"] ∧
    head (path pi) = Some "A" ∧ last (path pi) = Some "C".
Proof.
  eexists _, _, _.
  split; [vm_compute; reflexivity|].
  split; [vm_compute; reflexivity|].
  split; [vm_compute; reflexivity|].
  split; [reflexivity|].
  eapply (dijkstra_paths_begin_at_source_end_at_node path3 (Some "A") None _ _ "C").
  - vm_compute; reflexivity.
  - apply list_elem_of_lookup. exists 6%nat. vm_compute; reflexivity.
  - vm_compute; reflexivity.
  - simpl. discriminate.
Defined.

(** ** What the adjacency list holds *)

(** An edge that [createAdjacencyList] does not skip: both ends are
    non-empty ids of nodes. *)
Definition known_edge (g : Graph) (e : Edge) : Prop :=
  truthy (from e) = true ∧ truthy (to e) = true ∧
  from e ∈ node_ids g ∧ to e ∈ node_ids g.

(** [arc e k a]: the edge [e] puts the entry [a] into the list of [k]. *)
Definition arc (e : Edge) (k : string) (a : AdjEntry) : Prop :=
  (from e = k ∧ a = arc_entry e (to e)) ∨
  (directed e = false ∧ to e = k ∧ a = arc_entry e (from e)).

Lemma lists_init_keys ns m k :
  is_Some (foldl lists_init m ns !! k)
  ↔ is_Some (m !! k) ∨ (truthy k = true ∧ k ∈ map nid ns).
Proof.
  revert m. induction ns as [|nd ns IH]; intros m; simpl.
  - split; [auto|]. intros [H|[_ H]]; [done|]. by apply elem_of_nil in H.
  - rewrite IH, elem_of_cons. unfold lists_init.
    destruct (truthy (nid nd)) eqn:Ht.
    + destruct (decide (nid nd = k)) as [<-|Hne].
      * rewrite lookup_insert_eq. split; [|eauto]. intros _. right. auto.
      * rewrite lookup_insert_ne by done. split; [tauto|].
        intros [H|[Hk [Heq|H]]]; [tauto|congruence|tauto].
    + split; [tauto|]. intros [H|[Hk [Heq|H]]]; [tauto|congruence|tauto].
Qed.

Lemma lists_push_keys k x (m : gmap string (list AdjEntry)) k' :
  is_Some (lists_push k x m !! k') ↔ is_Some (m !! k').
Proof.
  unfold lists_push. destruct (m !! k) as [l|] eqn:E; [|done].
  destruct (decide (k = k')) as [<-|Hne].
  - rewrite lookup_insert_eq, E. split; eauto.
  - by rewrite lookup_insert_ne.
Qed.

Lemma lists_add_edge_keys m e k :
  is_Some (lists_add_edge m e !! k) ↔ is_Some (m !! k).
Proof.
  unfold lists_add_edge. destruct (_ && _); [|done].
  destruct (negb (directed e)); by rewrite ?lists_push_keys.
Qed.

Lemma lists_edges_keys es m k :
  is_Some (foldl lists_add_edge m es !! k) ↔ is_Some (m !! k).
Proof.
  revert m. induction es as [|e es IH]; intros m; simpl; [done|].
  by rewrite IH, lists_add_edge_keys.
Qed.

Lemma adjList_keys g k :
  is_Some (adj_lists g !! k) ↔ truthy k = true ∧ k ∈ node_ids g.
Proof.
  unfold adj_lists. rewrite lists_edges_keys, lists_init_keys, lookup_empty.
  split; [|auto]. intros [[? [=]]|H]; done.
Qed.

Lemma lists_push_entries k x (m : gmap string (list AdjEntry)) k' :
  is_Some (m !! k) →
  default [] (lists_push k x m !! k')
  = default [] (m !! k') ++ (if decide (k = k') then [x] else []).
Proof.
  intros [l E]. unfold lists_push. rewrite E.
  destruct (decide (k = k')) as [<-|Hne].
  - by rewrite lookup_insert_eq, E.
  - rewrite lookup_insert_ne by done. by rewrite app_nil_r.
Qed.

(** The entries one edge appends to the list of [k]. *)
Definition arcs_of (e : Edge) (k : string) : list AdjEntry :=
  (if decide (from e = k) then [arc_entry e (to e)] else [])
  ++ (if negb (directed e) then
        if decide (to e = k) then [arc_entry e (from e)] else []
      else []).

Lemma elem_of_arcs_of e k a : a ∈ arcs_of e k ↔ arc e k a.
Proof.
  unfold arcs_of, arc. rewrite elem_of_app.
  destruct (decide (from e = k)), (directed e), (decide (to e = k)); simpl;
    rewrite ?list_elem_of_singleton, ?elem_of_nil; intuition congruence.
Qed.

Definition edge_known_in (m : gmap string (list AdjEntry)) (e : Edge) : bool :=
  truthy (from e) && truthy (to e)
  && bool_decide (is_Some (m !! from e)) && bool_decide (is_Some (m !! to e)).

Lemma lists_add_edge_entries m e k :
  default [] (lists_add_edge m e !! k)
  = default [] (m !! k) ++ (if edge_known_in m e then arcs_of e k else []).
Proof.
  unfold lists_add_edge. fold (edge_known_in m e).
  destruct (edge_known_in m e) eqn:Hk; [|by rewrite app_nil_r].
  unfold edge_known_in in Hk. rewrite !andb_true_iff, !bool_decide_eq_true in Hk.
  destruct Hk as [[[_ _] Hf] Ht]. unfold arcs_of.
  destruct (negb (directed e)).
  - rewrite lists_push_entries by (by apply lists_push_keys).
    rewrite lists_push_entries by done. by rewrite <- app_assoc.
  - rewrite lists_push_entries by done. by rewrite app_nil_r.
Qed.

Lemma lists_edges_entries es m k :
  default [] (foldl lists_add_edge m es !! k)
  = default [] (m !! k)
    ++ concat (map (λ e, if edge_known_in m e then arcs_of e k else []) es).
Proof.
  revert m. induction es as [|e es IH]; intros m; simpl.
  - by rewrite app_nil_r.
  - rewrite IH, lists_add_edge_entries, <- app_assoc. f_equal. f_equal. f_equal.
    apply map_ext. intros e'. unfold edge_known_in.
    by rewrite !(bool_decide_ext _ _ (lists_add_edge_keys m e _)).
Qed.

Lemma lists_init_entries ns m k :
  (∀ k, default [] (m !! k) = []) → default [] (foldl lists_init m ns !! k) = [].
Proof.
  revert m. induction ns as [|nd ns IH]; intros m Hm; simpl; [done|].
  apply IH. intros k'. unfold lists_init. destruct (truthy (nid nd)); [|done].
  destruct (decide (nid nd = k')) as [<-|Hne].
  - by rewrite lookup_insert_eq.
  - by rewrite lookup_insert_ne.
Qed.

Lemma edge_known_in_init g e :
  edge_known_in (foldl lists_init ∅ (nodes g)) e = true ↔ known_edge g e.
Proof.
  unfold edge_known_in, known_edge.
  rewrite !andb_true_iff, !bool_decide_eq_true, !lists_init_keys, !lookup_empty.
  unfold node_ids. split.
  - intros [[[Hf Ht] [[? [=]]|[_ H1]]] [[? [=]]|[_ H2]]]. done.
  - intros (Hf & Ht & H1 & H2). auto 10.
Qed.

(** The neighbours of [k]: for each known edge, in the order of the edge
    list, the arcs it contributes. *)
Lemma neighbors_spec g k a :
  a ∈ default [] (adj_lists g !! k)
  ↔ ∃ e, e ∈ edges g ∧ known_edge g e ∧ arc e k a.
Proof.
  unfold adj_lists. rewrite lists_edges_entries.
  rewrite lists_init_entries by (intros; by rewrite lookup_empty).
  rewrite app_nil_l. rewrite list_elem_of_In, in_concat. split.
  - intros (l & Hl & Ha). apply in_map_iff in Hl as (e & <- & He).
    destruct (edge_known_in _ e) eqn:Hk; [|done].
    exists e. apply edge_known_in_init in Hk.
    apply list_elem_of_In in He. apply list_elem_of_In in Ha.
    by rewrite <- elem_of_arcs_of.
  - intros (e & He & Hk & Harc). exists (arcs_of e k). split.
    + apply in_map_iff. exists e. apply edge_known_in_init in Hk. rewrite Hk.
      split; [done|]. by apply list_elem_of_In.
    + apply list_elem_of_In. by apply elem_of_arcs_of.
Qed.

Lemma neighbors_known g k a :
  a ∈ default [] (adj_lists g !! k) →
  truthy (adj_to a) = true ∧ adj_to a ∈ node_ids g.
Proof.
  intros (e & _ & (Hf & Ht & Hfi & Hti) & [[_ ->]|(_ & _ & ->)])%neighbors_spec; done.
Qed.

(** The keys of whatever [createAdjacencyList] returns are the non-empty
    node ids. *)
Lemma adj_push_keys what k x (m m' : gmap string (list AdjEntry)) k' :
  adj_push what k x m = Ok m' → is_Some (m' !! k') ↔ is_Some (m !! k').
Proof.
  unfold adj_push. destruct (m !! k) as [l|] eqn:E; [|done]. intros [= <-].
  destruct (decide (k = k')) as [<-|Hne].
  - rewrite lookup_insert_eq, E. split; eauto.
  - by rewrite lookup_insert_ne.
Qed.

Lemma adj_add_edge_keys m m' e k :
  adj_add_edge m e = Ok m' → is_Some (m' !! k) ↔ is_Some (m !! k).
Proof.
  unfold adj_add_edge. destruct (_ && _); [|by intros [= <-]].
  intros (m1 & H1 & H2)%rbind_Ok. rewrite <- (adj_push_keys _ _ _ _ _ k H1).
  destruct (negb (directed e)); [by eapply adj_push_keys|by injection H2 as <-].
Qed.

Lemma adj_edges_keys es m m' k :
  rfold adj_add_edge m es = Ok m' → is_Some (m' !! k) ↔ is_Some (m !! k).
Proof.
  revert m. induction es as [|e es IH]; intros m H; cbn [rfold] in H.
  - by injection H as <-.
  - apply rbind_Ok in H as (m1 & H1 & H).
    by rewrite (IH _ H), (adj_add_edge_keys _ _ _ _ H1).
Qed.

Lemma adj_init_keys ns m m' k :
  rfold adj_init m ns = Ok m' →
  is_Some (m' !! k) ↔ is_Some (m !! k) ∨ (truthy k = true ∧ k ∈ map nid ns).
Proof.
  revert m. induction ns as [|nd ns IH]; intros m H; cbn [rfold] in H.
  - injection H as <-. split; [auto|]. intros [H|[_ H]]; [done|].
    by apply elem_of_nil in H.
  - apply rbind_Ok in H as (m1 & H1 & H). rewrite (IH _ H). simpl.
    rewrite elem_of_cons. unfold adj_init in H1.
    destruct (truthy (nid nd)) eqn:Ht.
    + destruct (decide (nid nd = "__proto__")); [done|]. injection H1 as <-.
      destruct (decide (nid nd = k)) as [<-|Hne].
      * rewrite lookup_insert_eq. split; [|eauto]. intros _. right. auto.
      * rewrite lookup_insert_ne by done. split; [tauto|].
        intros [H1|[Hk [Heq|H1]]]; [tauto|congruence|tauto].
    + injection H1 as <-. split; [tauto|].
      intros [H1|[Hk [Heq|H1]]]; [tauto|congruence|tauto].
Qed.

Lemma createAdjacencyList_keys g m k :
  createAdjacencyList g = Ok m →
  is_Some (m !! k) ↔ truthy k = true ∧ k ∈ node_ids g.
Proof.
  unfold createAdjacencyList. intros (m0 & H0 & H)%rbind_Ok.
  rewrite (adj_edges_keys _ _ _ _ H), (adj_init_keys _ _ _ _ H0), lookup_empty.
  split; [|auto]. intros [[? [=]]|H1]; done.
Qed.

Lemma plain_node_ids g k : plain_ids g → k ∈ node_ids g → inherited k = false.
Proof.
  intros [Hn _] (nd & -> & Hnd)%list_elem_of_fmap.
  rewrite Forall_forall in Hn. by apply Hn.
Qed.

(** ** Sums of doubles *)

(** [((0 + x1) + x2) + ...], each sum rounded. *)
Definition sum_num (l : list Num) : Num := foldl num_add (Fin 0) l.

Lemma sum_num_snoc l x : sum_num (l ++ [x]) = num_add (sum_num l) x.
Proof. unfold sum_num. by rewrite foldl_app. Qed.

(** ** Prim: bookkeeping of a run *)

Definition sumZ (l : list Z) : Z := foldr Z.add 0 l.

Lemma sumZ_app l1 l2 : sumZ (l1 ++ l2) = sumZ l1 + sumZ l2.
Proof. induction l1 as [|x l1 IH]; simpl; [done|]. rewrite IH. lia. Qed.

Lemma sumZ_snoc l x : sumZ (l ++ [x]) = sumZ l + x.
Proof. rewrite sumZ_app. simpl. lia. Qed.

Lemma prim_queue_after (adjList : gmap string (list AdjEntry)) visited cur rest e :
  e ∈ sort_by pedge_le
        (filter (λ e, truthy (pe_to e) && negb (set_has visited (pe_to e)))
           (push_neighbors visited (pe_to cur)
              (default [] (adjList !! pe_to cur)) rest)) →
  fresh visited e ∧
  (e ∈ rest ∨
   ∃ a, a ∈ default [] (adjList !! pe_to cur) ∧ e = frontier_edge (pe_to cur) a).
Proof.
  rewrite sort_by_elem_of. intros He. split.
  - pose proof (fresh_filter visited
      (push_neighbors visited (pe_to cur) (default [] (adjList !! pe_to cur)) rest))
      as Hall.
    rewrite Forall_forall in Hall. by apply Hall.
  - apply list_elem_of_filter in He as [_ He].
    rewrite push_neighbors_app, push_neighbors_filter in He.
    apply elem_of_app in He as [He|He]; [by left|right].
    apply list_elem_of_fmap in He as (a & -> & Ha).
    apply list_elem_of_filter in Ha as [_ Ha]. eauto.
Qed.

Section PrimBasic.
Variables (g : Graph) (start : string).
Variable adjList : gmap string (list AdjEntry).
(** Where the entries of the lists lead. *)
Variable Q : string → Prop.
Hypothesis HQ : ∀ k a, a ∈ default [] (adjList !! k) → Q (adj_to a).

Record pbasic (s : PState) : Prop := {
  pb_nodup : NoDup (ps_visited s);
  pb_start : start ∈ ps_visited s;
  pb_visited : ∀ x, x ∈ ps_visited s → x = start ∨ Q x;
  pb_queue : ∀ e, e ∈ ps_queue s → Q (pe_to e);
  pb_steps : map p_step (ps_steps s) = seq 0 (ps_stepCount s);
  pb_cost : ps_totalCost s = sum_num (map me_weight (ps_mstEdges s));
  pb_count : length (ps_visited s) = S (length (ps_mstEdges s));
  pb_actions : Forall (λ st, p_action st ≠ complete) (ps_steps s);
  pb_first : ∃ st, head (ps_steps s) = Some st ∧ p_action st = initialize;
  pb_last : ∃ st, last (ps_steps s) = Some st ∧ p_visitedNodes st = ps_visited s
}.

Lemma pbasic_init : pbasic (prim_first adjList start).
Proof.
  unfold prim_first. split; cbn [ps_visited ps_queue ps_steps ps_stepCount
    ps_totalCost ps_mstEdges].
  - apply set_add_NoDup. constructor.
  - apply elem_of_set_add. by right.
  - intros x [Hx| ->]%elem_of_set_add; [by apply elem_of_nil in Hx|by left].
  - intros e He. apply sort_by_elem_of in He. rewrite push_neighbors_filter in He.
    apply list_elem_of_fmap in He as (a & -> & Ha).
    apply list_elem_of_filter in Ha as [_ Ha]. by eapply HQ.
  - done.
  - done.
  - done.
  - apply Forall_singleton. done.
  - eexists. split; [done|]. done.
  - eexists. split; [done|]. done.
Qed.

Lemma pbasic_body s cur rest :
  pbasic s → ps_queue s = cur :: rest →
  pbasic (prim_step adjList s cur rest).
Proof.
  intros [Hnd Hst Hvis Hq Hsteps Hcost Hcount Hact Hfirst Hlast] Hcur.
  assert (∀ e, e ∈ rest → Q (pe_to e)) as Hrest.
  { intros e He. apply Hq. rewrite Hcur. by right. }
  assert (Q (pe_to cur)) as Hto.
  { apply Hq. rewrite Hcur. by left. }
  destruct Hfirst as (st0 & Hhead & Hinit).
  assert (∀ l, ∃ st, head (ps_steps s ++ l) = Some st ∧ p_action st = initialize)
    as Hfirst'.
  { intros l. exists st0. split; [|done]. destruct (ps_steps s); [done|].
    simpl in *. done. }
  unfold prim_step. destruct (negb (truthy (pe_to cur))).
  { split; cbn [ps_visited ps_queue ps_steps ps_stepCount ps_totalCost
      ps_mstEdges]; eauto. }
  destruct (set_has (ps_visited s) (pe_to cur)) eqn:Hhas.
  { split; cbn [ps_visited ps_queue ps_steps ps_stepCount ps_totalCost
      ps_mstEdges]; eauto.
    - rewrite map_app, Hsteps. cbn [map p_step]. by rewrite seq_S.
    - apply Forall_app. split; [done|]. by apply Forall_singleton.
    - eexists. rewrite last_snoc. done. }
  split; cbn [ps_visited ps_queue ps_steps ps_stepCount ps_totalCost ps_mstEdges].
  - by apply set_add_NoDup.
  - apply elem_of_set_add. by left.
  - intros x [Hx| ->]%elem_of_set_add; auto.
  - intros e [_ [He|(a & Ha & ->)]]%prim_queue_after; [auto|].
    by eapply HQ.
  - rewrite map_app, Hsteps. cbn [map p_step]. by rewrite seq_S.
  - rewrite map_app. cbn [map me_weight]. by rewrite sum_num_snoc, Hcost.
  - rewrite set_add_length_new by done. rewrite length_app. simpl. lia.
  - apply Forall_app. split; [done|]. by apply Forall_singleton.
  - apply Hfirst'.
  - eexists. rewrite last_snoc. done.
Qed.

End PrimBasic.

Lemma pbasic_final g start Q s :
  (∀ adjList k a, createAdjacencyList g = Ok adjList →
                  a ∈ default [] (adjList !! k) → Q (adj_to a)) →
  prim_final_state g start = Some s →
  pbasic start Q s
  ∧ (ps_queue s = [] ∨ ¬ (length (ps_visited s) < length (nodes g))%nat).
Proof.
  intros HQ Hrun.
  eapply (prim_final_state_invariant g (pbasic start Q)) in Hrun; [done|].
  intros adjList Hadj. split; [apply pbasic_init; eauto|].
  intros s0 cur rest Hs0 Hq _. apply pbasic_body; eauto.
Qed.

(** On a graph with plain ids the frontier leads to nodes only. *)
Lemma pbasic_final_plain g start s :
  plain_ids g → prim_final_state g start = Some s →
  pbasic start (λ x, x ∈ node_ids g) s
  ∧ (ps_queue s = [] ∨ ¬ (length (ps_visited s) < length (nodes g))%nat).
Proof.
  intros Hp. apply pbasic_final. intros adjList k a Hadj Ha.
  rewrite (createAdjacencyList_plain g Hp) in Hadj. injection Hadj as <-.
  by apply neighbors_known in Ha as [_ ?].
Qed.

(** ** Prim on a graph with plain ids returns *)

Lemma prim_body_plain adjList s cur rest :
  inherited (pe_to cur) = false →
  prim_body adjList s cur rest = Ok (prim_step adjList s cur rest).
Proof.
  intros Hc. unfold prim_body, prim_step.
  destruct (negb (truthy (pe_to cur))); [done|].
  destruct (set_has (ps_visited s) (pe_to cur)); [done|].
  assert (neighbours "newNeighbors" adjList (pe_to cur)
          = Ok (default [] (adjList !! pe_to cur))) as ->.
  { apply neighbours_Ok. auto. }
  done.
Qed.

Lemma prim_step_queue adjList s cur rest e :
  ps_queue s = cur :: rest → e ∈ ps_queue (prim_step adjList s cur rest) →
  e ∈ rest ∨ ∃ a, a ∈ default [] (adjList !! pe_to cur)
                  ∧ e = frontier_edge (pe_to cur) a.
Proof.
  intros Hq. unfold prim_step. destruct (negb (truthy (pe_to cur))); [by left|].
  destruct (set_has (ps_visited s) (pe_to cur)); [by left|].
  cbn [ps_queue]. by intros [_ ?]%prim_queue_after.
Qed.

Lemma prim_loop_returns g adjList fuel s :
  short_lists g adjList →
  (∀ k a, a ∈ default [] (adjList !! k) → inherited (adj_to a) = false) →
  (∀ e, e ∈ ps_queue s → inherited (pe_to e) = false) →
  (prim_measure g s < fuel)%nat →
  ∃ s', prim_loop g adjList fuel s = Ok s'.
Proof.
  intros Hshort Hent. revert s. induction fuel as [|fuel IH]; intros s Hq Hm; [lia|].
  simpl. destruct (ps_queue s) as [|cur rest] eqn:E; [eauto|].
  destruct (decide (length (ps_visited s) < length (nodes g))%nat) as [Hlt|]; [|eauto].
  rewrite prim_body_plain by (apply Hq; left). cbn [rbind]. apply IH.
  - intros e [He|(a & Ha & ->)]%(prim_step_queue _ _ _ _ _ E).
    + apply Hq. by right.
    + by eapply Hent.
  - pose proof (prim_step_measure g adjList s cur rest Hshort E Hlt). lia.
Qed.

Lemma prim_final_state_total g startNode :
  plain_ids g → inherited startNode = false →
  ∃ s, prim_final_state g startNode = Some s.
Proof.
  intros Hp Hs.
  assert (∀ k a, a ∈ default [] (adj_lists g !! k) → inherited (adj_to a) = false)
    as Hent.
  { intros k a [_ Ha]%neighbors_known. by eapply plain_node_ids. }
  assert (short_lists g (adj_lists g)) as Hshort.
  { intros k l. apply createAdjacencyList_length. by apply createAdjacencyList_plain. }
  destruct (prim_loop_returns g (adj_lists g) (loop_fuel g)
              (prim_first (adj_lists g) startNode) Hshort Hent) as [s Hrun].
  - unfold prim_first. cbn [ps_queue]. intros e He.
    apply sort_by_elem_of in He. rewrite push_neighbors_filter in He.
    apply list_elem_of_fmap in He as (a & -> & Ha).
    apply list_elem_of_filter in Ha as [_ Ha]. by eapply Hent.
  - unfold prim_measure, loop_fuel, prim_first. cbn [ps_queue ps_visited].
    rewrite sort_by_length.
    pose proof (neighbors_length g startNode) as Hn.
    pose proof (push_neighbors_length (set_add [] startNode) startNode
      (default [] (adj_lists g !! startNode)) []) as Hp'.
    cbn [length] in Hp'.
    assert (length (set_add [] startNode) = 1%nat) as -> by done.
    set (E := (2 * length (edges g))%nat) in *.
    assert ((length (nodes g) - 1) * S E ≤ length (nodes g) * S E)%nat
      by (apply Nat.mul_le_mono_r; lia).
    lia.
  - exists s. apply prim_final_state_Some. exists (adj_lists g).
    split; [by apply createAdjacencyList_plain|].
    unfold prim_search.
    assert (prim_init (adj_lists g) startNode = Ok (prim_first (adj_lists g) startNode))
      as ->; [|done].
    unfold prim_init, prim_first.
    assert (neighbours "startNeighbors" (adj_lists g) startNode
            = Ok (default [] (adj_lists g !! startNode))) as ->; [|done].
    apply neighbours_Ok. auto.
Qed.

(** ** Kruskal: bookkeeping of a run *)

Section KruskalBasic.
Variables (g : Graph) (sorted : list Edge).

Definition examination (st : KStep) : Prop :=
  k_action st = accept ∨ k_action st = reject.

Record kbasic (s : KState) : Prop := {
  kb_cost : ks_totalCost s
            = sum_num (map (λ m, or0 (weight (se_edge m))) (ks_mstEdges s));
  kb_complete :
    Forall (λ st, k_action st = complete →
                  Z.of_nat (length (nodes g)) - 1 ≤ Z.of_nat (length (ks_mstEdges s)))
           (ks_steps s);
  kb_first : ∃ st, head (ks_steps s) = Some st ∧ k_action st = initialize;
  kb_rest : Forall (λ st, examination st ∨ k_action st = complete)
              (tail (ks_steps s))
}.

Lemma pushed_steps_actions index e mst total cyc st st' :
  Forall (λ x, examination x ∨ k_action x = complete)
    (pushed_steps g sorted index e mst total cyc st st').
Proof.
  unfold pushed_steps. apply Forall_cons_2.
  - left. unfold examination. destruct cyc; simpl; auto.
  - destruct (decide _); [|constructor]. apply Forall_singleton. by right.
Qed.

Lemma pushed_steps_complete index e mst total cyc st st' :
  Forall (λ x, k_action x = complete →
               Z.of_nat (length (nodes g)) - 1 ≤ Z.of_nat (length mst))
    (pushed_steps g sorted index e mst total cyc st st').
Proof.
  unfold pushed_steps. apply Forall_cons_2.
  - destruct cyc; simpl; discriminate.
  - destruct (decide _) as [Heq|]; [|constructor]. apply Forall_singleton.
    intros _. lia.
Qed.

Lemma kbasic_body s index e s' :
  kbasic s → body_rel g sorted s index e s' → kbasic s'.
Proof.
  intros Hs Hrel. pose proof Hs as [Hcost Hcomp (st0 & Hhead & Hinit) Hrest].
  assert (∀ l, ∃ st, head (ks_steps s ++ l) = Some st ∧ k_action st = initialize)
    as Hfirst'.
  { intros l. exists st0. split; [|done]. destruct (ks_steps s); [done|]. done. }
  assert (∀ l, Forall (λ st, examination st ∨ k_action st = complete) l →
            Forall (λ st, examination st ∨ k_action st = complete)
              (tail (ks_steps s ++ l))) as Hrest'.
  { intros l Hl. destruct (ks_steps s) as [|x xs]; [done|]. simpl in *.
    apply Forall_app. done. }
  destruct Hrel as [_|fromNode toNode u' st st' _ _ _ _|fromNode toNode u' st st' _ _ _ _].
  - exact Hs.
  - split; cbn [ks_totalCost ks_mstEdges ks_steps].
    + done.
    + apply Forall_app. split; [done|]. apply pushed_steps_complete.
    + apply Hfirst'.
    + apply Hrest', pushed_steps_actions.
  - split; cbn [ks_totalCost ks_mstEdges ks_steps].
    + rewrite map_app. cbn [map]. by rewrite sum_num_snoc, Hcost.
    + apply Forall_app. split; [|apply pushed_steps_complete].
      eapply Forall_impl; [exact Hcomp|]. intros x Hx Hc. specialize (Hx Hc).
      rewrite length_app. simpl. lia.
    + apply Hfirst'.
    + apply Hrest', pushed_steps_actions.
Qed.

Lemma kbasic_forEach s index es s' :
  kbasic s → forEach_rel g sorted s index es s' → kbasic s'.
Proof.
  intros Hs Hrel. induction Hrel as [|s index e es s1 s2 Hbody _ IH]; [done|].
  apply IH. by eapply kbasic_body.
Qed.

End KruskalBasic.


(** ** Disconnected graphs *)

Lemma NoDup_missing_length {A} (l k : list A) x :
  NoDup l → (∀ y, y ∈ l → y ∈ k) → x ∈ k → x ∉ l → (length l < length k)%nat.
Proof.
  intros Hnd Hsub Hx Hnx.
  assert (x :: l ⊆+ k) as Hle.
  { apply NoDup_submseteq; [by constructor|].
    intros y [->|Hy]%elem_of_cons; auto. }
  apply submseteq_length in Hle. simpl in Hle. lia.
Qed.



(** [A] and [B] with one edge, from [constructor] to [A]: no node is
    called [constructor], so the graph is disconnected and the edge is
    one that the builder of the adjacency list means to skip. *)
Definition snagged : Graph :=
  {| nodes := [{| nid := "A" |}; {| nid := "B" |}];
     edges :=
       [{| eid := None; from := "constructor"; to := "A"; weight := int 1;
           directed := false |}] |}.

(** C7.  On [snagged], a disconnected graph that passes validation, Prim
    does not return a partial forest: [adjList["constructor"]] is the
    function that every object inherits, the test for a known end lets the
    edge through, and [push] on the function throws.  Kruskal, which does
    not build the adjacency list, returns. *)
Theorem prim_fails_on_disconnected_graph :
  validateGraph snagged = Ok tt ∧
  createAdjacencyList snagged
    = Throw "adjList[edge.from].push is not a function" ∧
  primAlgorithm snagged (Some "A")
    = Throw "Prim algorithm error: adjList[edge.from].push is not a function" ∧
  primAlgorithm snagged None
    = Throw "Prim algorithm error: adjList[edge.from].push is not a function" ∧
  ∃ r, kruskalAlgorithm snagged = Ok r.
Proof.
  split; [reflexivity|]. split; [reflexivity|]. split; [reflexivity|].
  split; [reflexivity|]. by apply kruskalAlgorithm_total.
Qed.



(** ** Dijkstra: bookkeeping of a run *)

Section DijkstraBasic.
Variables (g : Graph) (src : string) (tgt : option string).

Definition ddom (s : DState) : Prop :=
  dinv s ∧
  ∀ k, is_Some (ds_distances s !! k) ↔ truthy k = true ∧ k ∈ node_ids g.

Lemma ddom_final s :
  truthy src = true → src ∈ node_ids g →
  dijkstra_final_state g src tgt = Some s → ddom s.
Proof.
  intros Ht Hin Hrun.
  apply dijkstra_final_state_loop in Hrun as (lists & Hl & Hrun).
  assert (short_lists g lists) as Hshort.
  { intros k l. by apply createAdjacencyList_length. }
  eapply (dijkstra_loop_invariant src tgt ddom); [| |exact Hrun].
  - intros s0 cur rest [Hinv Hdom] Hq.
    destruct (dijkstra_body_inv g src tgt lists Hshort s0 cur rest Hinv Hq)
      as (Hinv' & _ & Hdom').
    split; [done|]. intros k. by rewrite Hdom'.
  - split; [by apply dinv_init|]. apply dijkstra_init_distances.
Qed.

Definition dnumbered (s : DState) : Prop :=
  map d_step (ds_steps s) = seq 0 (ds_stepCount s) ∧
  Forall (λ st, d_action st ≠ complete) (ds_steps s).

Lemma dnumbered_body adjList s cur rest :
  dnumbered s → dnumbered (dijkstra_body adjList src tgt s cur rest).1.
Proof.
  intros [Hnum Hact]. unfold dijkstra_body.
  destruct (negb (truthy (q_nodeId cur))); [done|].
  destruct (set_has (ds_visited s) (q_nodeId cur)); [done|].
  destruct (truthy_opt tgt && bool_decide (tgt = Some (q_nodeId cur))).
  { split; cbn [fst ds_steps ds_stepCount].
    - rewrite map_app, Hnum. cbn [map process_step d_step]. by rewrite seq_S.
    - apply Forall_app. split; [done|]. by apply Forall_singleton. }
  destruct (decide _); split; cbn [fst ds_steps ds_stepCount].
  - rewrite map_app, Hnum. cbn [map process_step update_step d_step].
    rewrite !seq_S, <- app_assoc. done.
  - apply Forall_app. split; [done|]. apply Forall_cons_2; [done|].
    by apply Forall_singleton.
  - rewrite map_app, Hnum. cbn [map process_step d_step]. by rewrite seq_S.
  - apply Forall_app. split; [done|]. by apply Forall_singleton.
Qed.

Lemma dnumbered_final s :
  dijkstra_final_state g src tgt = Some s → dnumbered s.
Proof.
  intros Hrun.
  apply dijkstra_final_state_loop in Hrun as (lists & _ & Hrun).
  eapply (dijkstra_loop_invariant src tgt dnumbered); [| |exact Hrun].
  - intros s0 cur rest Hs0 _. by apply dnumbered_body.
  - unfold dijkstra_init. destruct (dijkstra_init_maps g src). split; [done|].
    apply Forall_singleton. done.
Qed.

End DijkstraBasic.

(** The steps of a Dijkstra trace are numbered 0, 1, 2, ... *)
Lemma dijkstra_steps_numbered g sourceNodeId targetNodeId r :
  dijkstraAlgorithm g sourceNodeId targetNodeId = Ok r →
  map d_step (d_steps r) = seq 0 (length (d_steps r)).
Proof.
  intros H. apply dijkstraAlgorithm_Ok in H as (_ & src & s & _ & _ & _ & Hs & ->).
  apply dnumbered_final in Hs as [Hnum _].
  unfold dijkstra_finish. cbn [d_steps].
  assert (length (ds_steps s) = ds_stepCount s) as Hlen.
  { by rewrite <- (length_map d_step), Hnum, length_seq. }
  rewrite map_app, Hnum, length_app, Hlen. cbn [map d_step length].
  by rewrite Nat.add_1_r, seq_S.
Qed.

(** The steps of a Prim trace are numbered 0, 1, 2, ... *)
Lemma prim_steps_numbered g startNodeId r :
  primAlgorithm g startNodeId = Ok r →
  map p_step (p_steps r) = seq 0 (length (p_steps r)).
Proof.
  intros H. apply primAlgorithm_Ok in H as (_ & start & s & _ & _ & Hs & ->).
  apply (pbasic_final g start (λ _, True)) in Hs as [Hb _]; [|done].
  pose proof (pb_steps _ _ _ Hb) as Hnum.
  assert (length (ps_steps s) = ps_stepCount s) as Hlen.
  { by rewrite <- (length_map p_step), Hnum, length_seq. }
  cbn [p_steps]. unfold prim_finish. destruct (decide _).
  - rewrite map_app, Hnum, length_app, Hlen. cbn [map p_step length].
    by rewrite Nat.add_1_r, seq_S.
  - by rewrite Hnum, Hlen.
Qed.

(** [A], [B] and [C] with the edges [constructor - A] and [A - B]. *)
Definition snagged_path : Graph :=
  {| nodes := [{| nid := "A" |}; {| nid := "B" |}; {| nid := "C" |}];
     edges :=
       [{| eid := None; from := "constructor"; to := "A"; weight := int 1;
           directed := false |};
        {| eid := None; from := "A"; to := "B"; weight := int 1;
           directed := false |}] |}.

(** C10.  On [snagged_path], which passes validation, with the source [A]
    and a target that no node carries, Dijkstra fails: building the
    adjacency list throws at the edge whose end names an inherited
    property, before the target is looked at. *)
Theorem dijkstra_fails_before_unknown_target :
  validateGraph snagged_path = Ok tt ∧
  "A" ∈ node_ids snagged_path ∧ ("Z" ∉ node_ids snagged_path) ∧
  dijkstraAlgorithm snagged_path (Some "A") (Some "Z")
    = Throw "Dijkstra algorithm error: adjList[edge.from].push is not a function".
Proof.
  split; [reflexivity|]. split; [by_decide|]. split; [by_decide|]. reflexivity.
Qed.

(** X20.  With a valid graph in which no id is a name that objects
    inherit, a source that is a node and a target id that no node
    carries, Dijkstra does not fail: the trace ends with a [complete]
    step, [distances] has no entry for the target, and [pathExists] is
    [true]. *)
Theorem dijkstra_unknown_target g src target :
  validateGraph g = Ok tt → plain_ids g →
  truthy src = true → src ∈ node_ids g →
  truthy target = true → target ∉ node_ids g →
  ∃ r, dijkstraAlgorithm g (Some src) (Some target) = Ok r ∧
       (∃ st, last (d_steps r) = Some st ∧ d_action st = complete ∧
              d_distances st !! target = None) ∧
       df_targetNode (d_finalResult r) = Some target ∧
       df_distances (d_finalResult r) !! target = None ∧
       df_pathExists (d_finalResult r) = true.
Proof.
  intros Hv Hplain Hsrc Hin Ht Hout.
  destruct (dijkstra_final_state_total g src (Some target) Hplain Hsrc Hin) as [s Hs].
  exists (dijkstra_finish g src (Some target) s). split.
  { apply dijkstraAlgorithm_Ok. split; [done|]. by exists src, s. }
  destruct (ddom_final g src (Some target) s Hsrc Hin Hs) as [_ Hdom].
  assert (ds_distances s !! target = None) as Hnone.
  { destruct (ds_distances s !! target) eqn:E; [|done].
    destruct Hout. apply (Hdom target). eauto. }
  unfold dijkstra_finish. cbn [d_steps d_finalResult df_distances df_pathExists
    df_targetNode].
  rewrite !safeCloneDistances_eq, Hnone, Ht. cbn [truthy_opt]. rewrite Ht.
  split.
  { eexists. rewrite last_snoc. split; [done|]. split; [done|]. exact Hnone. }
  split; [done|]. split; [done|]. by apply bool_decide_eq_true.
Qed.

Lemma dijkstra_unknown_target_witness :
  ∃ r, dijkstraAlgorithm path3 (Some "A") (Some "Z") = Ok r ∧
       (∃ st, last (d_steps r) = Some st ∧ d_action st = complete ∧
              d_distances st !! "Z" = None) ∧
       df_targetNode (d_finalResult r) = Some "Z" ∧
       df_distances (d_finalResult r) !! "Z" = None ∧
       df_pathExists (d_finalResult r) = true.
Proof.
  apply (dijkstra_unknown_target path3 "A" "Z").
  - reflexivity.
  - by_decide.
  - reflexivity.
  - apply list_elem_of_In. simpl. auto.
  - reflexivity.
  - intros Hin. apply list_elem_of_In in Hin. simpl in Hin.
    intuition discriminate.
Defined.

(** ** Kruskal after the spanning tree is complete *)

(** A triangle: the third edge closes a cycle. *)
Definition triangle : Graph :=
  {| nodes := [{| nid := "A" |}; {| nid := "B" |}; {| nid := "C" |}];
     edges :=
       [{| eid := Some "A-B"; from := "A"; to := "B"; weight := int 1;
           directed := false |};
        {| eid := Some "B-C"; from := "B"; to := "C"; weight := int 2;
           directed := false |};
        {| eid := Some "A-C"; from := "A"; to := "C"; weight := int 3;
           directed := false |}] |}.

(** C2.  On the triangle the step numbers of the Kruskal trace are
    0, 1, 2, 3, 3, 4: the [return] after the [complete] step leaves only
    the callback, [forEach] goes on to the next edge, and that edge is
    numbered [index + 1] again.  (For Prim and Dijkstra the numbers are
    0, 1, 2, ...: [prim_steps_numbered], [dijkstra_steps_numbered].) *)
Theorem kruskal_step_numbers_on_triangle :
  ∃ r, kruskalAlgorithm triangle = Ok r ∧
       map k_step (k_steps r) = [0; 1; 2; 3; 3; 4]%nat.
Proof. eexists. split; [vm_compute; reflexivity|]. reflexivity. Qed.

(** C3.  On the triangle the Kruskal trace goes on after the first
    [complete] step: the third edge is examined and rejected, and a second
    [complete] step is pushed. *)
Theorem kruskal_actions_on_triangle :
  ∃ r, kruskalAlgorithm triangle = Ok r ∧
       map k_action (k_steps r)
       = [initialize; accept; accept; complete; reject; complete].
Proof. eexists. split; [vm_compute; reflexivity|]. reflexivity. Qed.

(** ** Prim: the start node *)

Lemma prim_empty_graph_throws es startNodeId :
  primAlgorithm {| nodes := []; edges := es |} startNodeId
  = Throw "Prim algorithm error: Graph must have at least one node".
Proof. reflexivity. Qed.

Lemma prim_no_start_throws g :
  validateGraph g = Ok tt → plain_ids g → prim_start g None = Some EmptyString →
  primAlgorithm g None = Throw "Prim algorithm error: No valid start node found".
Proof.
  intros Hv Hp Hs. unfold primAlgorithm, prim_run. rewrite Hv. simpl.
  destruct (decide (length (nodes g) = 0%nat)) as [Hz|_].
  { unfold validateGraph in Hv. by rewrite decide_True in Hv. }
  rewrite (createAdjacencyList_plain g Hp). cbn [rbind]. by rewrite Hs.
Qed.

(** C9.  With a start id that no node of the graph carries, Prim does not
    fail: it returns a trace of the single [initialize] step and an empty
    result that names the unknown id as its start node. *)
Theorem prim_unknown_start_returns :
  ∃ r, primAlgorithm path3 (Some "Z") = Ok r ∧
       map p_action (p_steps r) = [initialize] ∧
       pf_mstEdges (p_finalResult r) = [] ∧
       pf_totalCost (p_finalResult r) = Fin 0 ∧
       pf_startNode (p_finalResult r) = "Z".
Proof. eexists. split; [vm_compute; reflexivity|]. repeat split. Qed.

(** ** Prim: the frontier holds no stale entry *)

Lemma prim_never_skips :
  ¬ ∃ g startNodeId r st,
      primAlgorithm g startNodeId = Ok r ∧ st ∈ p_steps r ∧ p_action st = skip.
Proof.
  intros (g & startNodeId & r & st & Hrun & Hst & Hskip).
  pose proof (prim_trace_pruned g startNodeId r Hrun) as Hall.
  rewrite Forall_forall in Hall. by destruct (Hall st Hst).
Qed.

(** C5, amended.  The frontier is pruned after every accepted edge: in
    every step of a Prim trace no entry of the queue snapshot leads to a
    node of that step's visited set, so no popped edge is stale and no
    step has the action [skip]. *)
Theorem prim_frontier_is_pruned g startNodeId r st :
  primAlgorithm g startNodeId = Ok r → st ∈ p_steps r →
  p_action st ≠ skip ∧
  ∀ e, e ∈ p_priorityQueue st → pe_to e ∉ p_visitedNodes st.
Proof.
  intros Hrun Hst.
  pose proof (prim_trace_pruned g startNodeId r Hrun) as Hall.
  rewrite Forall_forall in Hall. destruct (Hall st Hst) as [Hskip Hq].
  split; [done|]. intros e He. rewrite Forall_forall in Hq.
  by destruct (Hq e He).
Qed.

Lemma prim_frontier_is_pruned_witness :
  ∃ r st,
    primAlgorithm triangle (Some "A") = Ok r ∧ p_steps r !! 1%nat = Some st ∧
    p_action st = accept ∧ map pe_edgeId (p_priorityQueue st) = ["B-C"; "A-C"] ∧
    p_action st ≠ skip ∧
    ∀ e, e ∈ p_priorityQueue st → pe_to e ∉ p_visitedNodes st.
Proof.
  eexists _, _.
  split; [vm_compute; reflexivity|].
  split; [reflexivity|].
  split; [reflexivity|].
  split; [reflexivity|].
  eapply (prim_frontier_is_pruned triangle (Some "A")).
  - vm_compute; reflexivity.
  - apply list_elem_of_lookup. exists 1%nat. reflexivity.
Defined.

(** ** Kruskal: the annotation of the sorted edges *)

Lemma nodeMap_from_keys ns i m k :
  is_Some (nodeMap_from i ns m !! k)
  ↔ is_Some (m !! k) ∨ (truthy k = true ∧ k ∈ map nid ns).
Proof.
  revert i m. induction ns as [|nd ns IH]; intros i m; simpl.
  - split; [auto|]. intros [H|[_ H]]; [done|]. by apply elem_of_nil in H.
  - rewrite IH, elem_of_cons. destruct (truthy (nid nd)) eqn:Ht.
    + destruct (decide (nid nd = k)) as [<-|Hne].
      * rewrite lookup_insert_eq. split; [|eauto]. intros _. right. auto.
      * rewrite lookup_insert_ne by done. split; [tauto|].
        intros [H|[Hk [Heq|H]]]; [tauto|congruence|tauto].
    + split; [tauto|]. intros [H|[Hk [Heq|H]]]; [tauto|congruence|tauto].
Qed.

Lemma nodeMap_of_keys g k :
  is_Some (nodeMap_of g !! k) ↔ truthy k = true ∧ k ∈ node_ids g.
Proof.
  unfold nodeMap_of. rewrite nodeMap_from_keys, lookup_empty.
  split; [|auto]. intros [[? [=]]|H]; done.
Qed.

Lemma known_edge_mapped g e :
  known_edge g e →
  ∃ fromNode toNode,
    nodeMap_of g !! from e = Some fromNode ∧ nodeMap_of g !! to e = Some toNode.
Proof.
  intros (Hf & Ht & Hfi & Hti).
  destruct (proj2 (nodeMap_of_keys g (from e)) (conj Hf Hfi)) as [a Ha].
  destruct (proj2 (nodeMap_of_keys g (to e)) (conj Ht Hti)) as [b Hb].
  eauto.
Qed.

Lemma in_mst_snoc mst m e :
  in_mst (mst ++ [m]) e = in_mst mst e || bool_decide (eid (se_edge m) = eid e).
Proof. unfold in_mst. rewrite existsb_app. simpl. by rewrite orb_false_r. Qed.

Section KruskalAnnotation.
Local Open Scope nat_scope.
Variables (g : Graph) (sorted : list Edge).
Hypothesis Hids : NoDup (map eid sorted).
Hypothesis Hknown : ∀ e, e ∈ sorted → known_edge g e.

(** The edge at position [i] was accepted (rejected): the trace has an
    accept (reject) step for it. *)
Definition accepted_at (steps : list KStep) (i : nat) : Prop :=
  ∃ st, st ∈ steps ∧ k_action st = accept ∧ k_step st = S i.

Definition rejected_at (steps : list KStep) (i : nat) : Prop :=
  ∃ st, st ∈ steps ∧ k_action st = reject ∧ k_step st = S i.

(** The snapshot of an examination step, read against a trace. *)
Definition annotated (steps : list KStep) (st : KStep) : Prop :=
  ∀ i e, sorted !! i = Some e →
    ∃ status,
      k_sortedEdges st !! i = Some {| se_edge := e; se_status := status |} ∧
      (S i < k_step st →
         (status = accepted ↔ accepted_at steps i) ∧
         (status = rejected ↔ rejected_at steps i)) ∧
      (S i = k_step st →
         status = if decide (k_action st = accept) then accepted else rejected) ∧
      (k_step st < S i → status = pending).

Record kannot (s : KState) (index : nat) : Prop := {
  ka_numbers : ∀ st, st ∈ ks_steps s → examination st → 1 ≤ k_step st ≤ index;
  ka_before : ∀ i e, sorted !! i = Some e → i < index →
     (in_mst (ks_mstEdges s) e = true ↔ accepted_at (ks_steps s) i) ∧
     (in_mst (ks_mstEdges s) e = false ↔ rejected_at (ks_steps s) i);
  ka_after : ∀ i e, sorted !! i = Some e → index ≤ i →
     in_mst (ks_mstEdges s) e = false;
  ka_steps : ∀ st, st ∈ ks_steps s → examination st → annotated (ks_steps s) st
}.

Lemma sorted_eid_inj i j e e' :
  sorted !! i = Some e → sorted !! j = Some e' → eid e = eid e' → i = j.
Proof.
  intros Hi Hj Heq. eapply NoDup_lookup; [exact Hids| |].
  - rewrite list_lookup_fmap, Hi. done.
  - rewrite list_lookup_fmap, Hj. simpl. by rewrite Heq.
Qed.

Lemma elem_of_pushed_steps index e mst total cyc st st' x :
  x ∈ pushed_steps g sorted index e mst total cyc st st' →
  x = examined_step sorted index e mst total cyc st ∨ k_action x = complete.
Proof.
  unfold pushed_steps. intros [->|Hx]%elem_of_cons; [by left|right].
  destruct (decide _); [|by apply elem_of_nil in Hx].
  by apply list_elem_of_singleton in Hx as ->.
Qed.

Lemma examined_in_pushed index e mst total cyc st st' :
  examined_step sorted index e mst total cyc st
  ∈ pushed_steps g sorted index e mst total cyc st st'.
Proof. unfold pushed_steps. by left. Qed.

(** Steps pushed for the edge at [index] do not change which earlier
    positions count as accepted or rejected. *)
Lemma accepted_at_pushed steps index e mst total cyc st st' i :
  accepted_at (steps ++ pushed_steps g sorted index e mst total cyc st st') i
  ↔ accepted_at steps i ∨ (i = index ∧ cyc = false).
Proof.
  unfold accepted_at. split.
  - intros (x & [Hx|Hx]%elem_of_app & Hact & Hnum); [left; eauto|].
    apply elem_of_pushed_steps in Hx as [->|Hc]; [|congruence].
    right. destruct cyc; simpl in *; [done|]. split; [lia|done].
  - intros [(x & Hx & Hact & Hnum)|[-> ->]].
    + exists x. split; [|done]. apply elem_of_app. by left.
    + eexists. split; [apply elem_of_app; right; apply examined_in_pushed|].
      simpl. split; [done|lia].
Qed.

Lemma rejected_at_pushed steps index e mst total cyc st st' i :
  rejected_at (steps ++ pushed_steps g sorted index e mst total cyc st st') i
  ↔ rejected_at steps i ∨ (i = index ∧ cyc = true).
Proof.
  unfold rejected_at. split.
  - intros (x & [Hx|Hx]%elem_of_app & Hact & Hnum); [left; eauto|].
    apply elem_of_pushed_steps in Hx as [->|Hc]; [|congruence].
    right. destruct cyc; simpl in *; [|done]. split; [lia|done].
  - intros [(x & Hx & Hact & Hnum)|[-> ->]].
    + exists x. split; [|done]. apply elem_of_app. by left.
    + eexists. split; [apply elem_of_app; right; apply examined_in_pushed|].
      simpl. split; [done|lia].
Qed.

Lemma examined_annotated steps index e mst total cyc st :
  (∀ i e', sorted !! i = Some e' → i < index →
     (in_mst mst e' = true ↔ accepted_at steps i) ∧
     (in_mst mst e' = false ↔ rejected_at steps i)) →
  annotated steps (examined_step sorted index e mst total cyc st).
Proof.
  intros Hbefore i e' Hi. unfold examined_step. cbn [k_sortedEdges k_step k_action].
  unfold annotate_at. rewrite list_lookup_imap, Hi. cbn [fmap option_fmap option_map].
  eexists. split; [done|]. split; [|split].
  - intros Hlt. rewrite decide_True by lia.
    destruct (Hbefore i e' Hi ltac:(lia)) as [Hacc Hrej].
    unfold mst_status. destruct (in_mst mst e'); split; split; try done.
    + intros _. by apply Hacc.
    + intros H. by apply Hrej in H.
    + intros H. by apply Hacc in H.
    + intros _. by apply Hrej.
  - intros Heq. rewrite decide_False by lia. rewrite decide_True by lia.
    by destruct cyc.
  - intros Hgt. rewrite decide_False by lia. by rewrite decide_False by lia.
Qed.

Lemma annotated_extend steps new st :
  (∀ i, S i < k_step st →
     (accepted_at (steps ++ new) i ↔ accepted_at steps i) ∧
     (rejected_at (steps ++ new) i ↔ rejected_at steps i)) →
  annotated steps st → annotated (steps ++ new) st.
Proof.
  intros Hsame Hann i e Hi. destruct (Hann i e Hi) as (status & Hl & H1 & H2 & H3).
  exists status. split; [done|]. split; [|done].
  intros Hlt. destruct (Hsame i Hlt) as [-> ->]. by apply H1.
Qed.

Lemma kannot_body s index e s' :
  kannot s index → sorted !! index = Some e →
  body_rel g sorted s index e s' → kannot s' (S index).
Proof.
  intros [Hnum Hbefore Hafter Hsteps] He Hrel.
  assert (in_mst (ks_mstEdges s) e = false) as Hfresh by (by eapply Hafter).
  assert (¬ accepted_at (ks_steps s) index) as Hnacc.
  { intros (x & Hx & Hact & Hn). specialize (Hnum x Hx (or_introl Hact)). lia. }
  assert (¬ rejected_at (ks_steps s) index) as Hnrej.
  { intros (x & Hx & Hact & Hn). specialize (Hnum x Hx (or_intror Hact)). lia. }
  destruct Hrel as [Hunk|fromNode toNode u' st st' _ _ _ _|fromNode toNode u' st st' _ _ _ _].
  - exfalso. destruct (known_edge_mapped g e) as (a & b & Ha & Hb).
    { apply Hknown. by eapply list_elem_of_lookup_2. }
    destruct Hunk; congruence.
  - assert (∀ i e', sorted !! i = Some e' → i < S index →
       (in_mst (ks_mstEdges s) e' = true ↔
          accepted_at (ks_steps s ++ pushed_steps g sorted index e (ks_mstEdges s)
                         (ks_totalCost s) true st st') i) ∧
       (in_mst (ks_mstEdges s) e' = false ↔
          rejected_at (ks_steps s ++ pushed_steps g sorted index e (ks_mstEdges s)
                         (ks_totalCost s) true st st') i)) as Hbefore'.
    { intros i e' Hi Hlt. rewrite accepted_at_pushed, rejected_at_pushed.
      destruct (decide (i = index)) as [->|Hne].
      - assert (e' = e) as -> by congruence. rewrite Hfresh. split; split; try done.
        + intros [?|[_ ?]]; done.
        + intros _. by right.
      - destruct (Hbefore i e' Hi ltac:(lia)) as [-> ->]. split; split; auto.
        + intros [?|[? _]]; done.
        + intros [?|[? _]]; done. }
    split; cbn [ks_steps ks_mstEdges].
    + intros x [Hx|Hx]%elem_of_app Hex.
      * specialize (Hnum x Hx Hex). lia.
      * apply elem_of_pushed_steps in Hx as [->|Hc].
        -- simpl. lia.
        -- destruct Hex; congruence.
    + exact Hbefore'.
    + intros i e' Hi Hle. apply (Hafter i e' Hi). lia.
    + intros x [Hx|Hx]%elem_of_app Hex.
      * apply annotated_extend; [|by apply Hsteps].
        intros i Hlt. specialize (Hnum x Hx Hex).
        rewrite accepted_at_pushed, rejected_at_pushed. split; split; auto.
        -- intros [?|[? _]]; [done|lia].
        -- intros [?|[? _]]; [done|lia].
      * apply elem_of_pushed_steps in Hx as [->|Hc]; [|destruct Hex; congruence].
        apply examined_annotated. intros i e' Hi Hlt. apply Hbefore'; [done|lia].
  - set (m := {| se_edge := e; se_status := accepted |}).
    assert (∀ i e', sorted !! i = Some e' →
              in_mst (ks_mstEdges s ++ [m]) e'
              = in_mst (ks_mstEdges s) e' || bool_decide (i = index)) as Hin.
    { intros i e' Hi. rewrite in_mst_snoc. f_equal. simpl.
      apply bool_decide_ext. split.
      - intros Heq. symmetry. by eapply sorted_eid_inj.
      - intros ->. congruence. }
    assert (∀ i e', sorted !! i = Some e' → i < S index →
       (in_mst (ks_mstEdges s ++ [m]) e' = true ↔
          accepted_at (ks_steps s ++ pushed_steps g sorted index e
                         (ks_mstEdges s ++ [m])
                         (num_add (ks_totalCost s) (or0 (weight e))) false st st') i) ∧
       (in_mst (ks_mstEdges s ++ [m]) e' = false ↔
          rejected_at (ks_steps s ++ pushed_steps g sorted index e
                         (ks_mstEdges s ++ [m])
                         (num_add (ks_totalCost s) (or0 (weight e))) false st st') i)) as Hbefore'.
    { intros i e' Hi Hlt. rewrite accepted_at_pushed, rejected_at_pushed, (Hin i e' Hi).
      destruct (decide (i = index)) as [->|Hne].
      - assert (e' = e) as -> by congruence. rewrite Hfresh.
        rewrite bool_decide_eq_true_2 by done. simpl. split; split; try done.
        + intros _. by right.
        + intros [?|[_ ?]]; done.
      - rewrite bool_decide_eq_false_2 by done. rewrite orb_false_r.
        destruct (Hbefore i e' Hi ltac:(lia)) as [-> ->]. split; split; auto.
        + intros [?|[? _]]; done.
        + intros [?|[? _]]; done. }
    split; cbn [ks_steps ks_mstEdges]; fold m.
    + intros x [Hx|Hx]%elem_of_app Hex.
      * specialize (Hnum x Hx Hex). lia.
      * apply elem_of_pushed_steps in Hx as [->|Hc].
        -- simpl. lia.
        -- destruct Hex; congruence.
    + exact Hbefore'.
    + intros i e' Hi Hle. rewrite (Hin i e' Hi).
      rewrite (Hafter i e' Hi) by lia. rewrite bool_decide_eq_false_2 by lia. done.
    + intros x [Hx|Hx]%elem_of_app Hex.
      * apply annotated_extend; [|by apply Hsteps].
        intros i Hlt. specialize (Hnum x Hx Hex).
        rewrite accepted_at_pushed, rejected_at_pushed. split; split; auto.
        -- intros [?|[? _]]; [done|lia].
        -- intros [?|[? _]]; [done|lia].
      * apply elem_of_pushed_steps in Hx as [->|Hc]; [|destruct Hex; congruence].
        apply examined_annotated. intros i e' Hi Hlt. apply Hbefore'; [done|lia].
Qed.

Lemma kannot_forEach s index es s' :
  kannot s index → drop index sorted = es →
  forEach_rel g sorted s index es s' → kannot s' (index + length es).
Proof.
  intros Hs Hes Hrel. induction Hrel as [s index|s index e es s1 s2 Hbody _ IH].
  - by rewrite Nat.add_0_r.
  - assert (sorted !! index = Some e) as He.
    { rewrite <- (Nat.add_0_r index), <- lookup_drop, Hes. done. }
    simpl. rewrite <- Nat.add_succ_comm. apply IH.
    + by eapply kannot_body.
    + rewrite <- (Nat.add_1_r index), <- drop_drop, Hes. done.
Qed.

End KruskalAnnotation.

(** Four nodes and four edges that carry no id; [A - C] closes a cycle. *)
Definition unlabelled : Graph :=
  {| nodes := [{| nid := "A" |}; {| nid := "B" |}; {| nid := "C" |};
               {| nid := "D" |}];
     edges :=
       [{| eid := None; from := "A"; to := "B"; weight := int 1; directed := false |};
        {| eid := None; from := "B"; to := "C"; weight := int 2; directed := false |};
        {| eid := None; from := "A"; to := "C"; weight := int 3; directed := false |};
        {| eid := None; from := "C"; to := "D"; weight := int 4; directed := false |}] |}.

(** C6.  On [unlabelled] the edge [A - C] at position 2 is rejected
    (step 3), and yet the accept step of [C - D] (step 4) annotates it as
    [accepted]: the status of an earlier edge is found by looking its id
    up among the accepted edges, and an edge without an id matches every
    accepted edge without an id. *)
Theorem kruskal_annotation_without_ids :
  ∃ r st3 st4,
    validateGraph unlabelled = Ok tt ∧
    kruskalAlgorithm unlabelled = Ok r ∧
    k_steps r !! 3%nat = Some st3 ∧ k_steps r !! 4%nat = Some st4 ∧
    k_step st3 = 3%nat ∧ k_action st3 = reject ∧
    k_step st4 = 4%nat ∧ k_action st4 = accept ∧
    (from <$> (se_edge <$> k_sortedEdges st4 !! 2%nat) = Some "A" ∧
     to <$> (se_edge <$> k_sortedEdges st4 !! 2%nat) = Some "C") ∧
    se_status <$> k_sortedEdges st4 !! 2%nat = Some accepted.
Proof.
  eexists _, _, _. split; [reflexivity|]. split; [vm_compute; reflexivity|].
  split; [reflexivity|]. split; [reflexivity|]. repeat split.
Qed.

(** X18.  When no id is a name that objects inherit, the edges carry
    pairwise different ids and every edge joins two nodes of the graph,
    the [sortedEdges] snapshot of every
    examination step annotates each edge before the current index as
    [accepted] exactly when the trace has an accept step for it and as
    [rejected] exactly when the trace has a reject step for it, the
    current edge with its own outcome, and every later edge as [pending]. *)
Theorem kruskal_sorted_edges_annotation g r st :
  plain_ids g →
  NoDup (map eid (edges g)) →
  (∀ e, e ∈ edges g → known_edge g e) →
  kruskalAlgorithm g = Ok r → st ∈ k_steps r → examination st →
  ∀ i e, sort_by edge_le (edges g) !! i = Some e →
    ∃ status,
      k_sortedEdges st !! i = Some {| se_edge := e; se_status := status |} ∧
      ((S i < k_step st)%nat →
         (status = accepted ↔ accepted_at (k_steps r) i) ∧
         (status = rejected ↔ rejected_at (k_steps r) i)) ∧
      (S i = k_step st →
         status = if decide (k_action st = accept) then accepted else rejected) ∧
      ((k_step st < S i)%nat → status = pending).
Proof.
  intros _ Hids Hknown Hrun Hst Hex.
  apply kruskalAlgorithm_Ok in Hrun as [_ Hrun].
  destruct (kruskal_run_spec g) as (s & u0 & st0 & Hrun' & _ & Hrel).
  rewrite Hrun in Hrun'. injection Hrun' as ->. cbn [k_steps] in *.
  set (sorted := sort_by edge_le (edges g)) in *.
  assert (NoDup (map eid sorted)) as Hids'.
  { unfold sorted. by rewrite sort_by_Permutation. }
  assert (∀ e, e ∈ sorted → known_edge g e) as Hknown'.
  { intros e He. apply Hknown. by apply sort_by_elem_of in He. }
  eapply (kannot_forEach g sorted Hids' Hknown') in Hrel; [| |done].
  - exact (ka_steps _ _ _ Hrel st Hst Hex).
  - split; cbn [ks_steps ks_mstEdges].
    + intros x ->%list_elem_of_singleton [H|H]; discriminate.
    + intros i e _ Hlt. lia.
    + done.
    + intros x ->%list_elem_of_singleton [H|H]; discriminate.
Qed.

Lemma kruskal_sorted_edges_annotation_witness :
  ∃ r st,
    kruskalAlgorithm triangle = Ok r ∧ k_steps r !! 4%nat = Some st ∧
    k_step st = 3%nat ∧ k_action st = reject ∧
    map se_status (k_sortedEdges st) = [accepted; accepted; rejected] ∧
    ∀ i e, sort_by edge_le (edges triangle) !! i = Some e →
      ∃ status,
        k_sortedEdges st !! i = Some {| se_edge := e; se_status := status |} ∧
        ((S i < k_step st)%nat →
           (status = accepted ↔ accepted_at (k_steps r) i) ∧
           (status = rejected ↔ rejected_at (k_steps r) i)) ∧
        (S i = k_step st →
           status = if decide (k_action st = accept) then accepted else rejected) ∧
        ((k_step st < S i)%nat → status = pending).
Proof.
  eexists _, _.
  split; [vm_compute; reflexivity|].
  split; [reflexivity|]. split; [reflexivity|]. split; [reflexivity|].
  split; [reflexivity|].
  eapply (kruskal_sorted_edges_annotation triangle).
  - by_decide.
  - by_decide.
  - intros e He. apply list_elem_of_In in He. simpl in He.
    destruct He as [<-|[<-|[<-|[]]]]; repeat split;
      apply list_elem_of_In; simpl; auto.
  - vm_compute; reflexivity.
  - apply list_elem_of_lookup. exists 4%nat. reflexivity.
  - right. reflexivity.
Defined.

(** ** Forests and connectivity *)

Section Connectivity.
Context `{Countable T}.

(** A weighted edge between two vertices. *)
Definition wedge : Type := T * T * Z.

Definition joins (E : list wedge) (x y : T) : Prop :=
  ∃ w, (x, y, w) ∈ E ∨ (y, x, w) ∈ E.

(** [conn E x y]: a walk along edges of [E], in either direction, leads
    from [x] to [y]. *)
Inductive conn (E : list wedge) : T → T → Prop :=
| conn_refl x : conn E x x
| conn_step x y z : conn E x y → joins E y z → conn E x z.

Lemma joins_sym E x y : joins E x y → joins E y x.
Proof. intros [w [Hw|Hw]]; exists w; auto. Qed.

Lemma conn_joins E x y : joins E x y → conn E x y.
Proof. intros Hj. eapply conn_step; [apply conn_refl|done]. Qed.

Lemma conn_trans E x y z : conn E x y → conn E y z → conn E x z.
Proof.
  intros Hxy Hyz. induction Hyz as [|y z z' _ IH Hj]; [done|].
  eapply conn_step; [by apply IH|done].
Qed.

Lemma conn_sym E x y : conn E x y → conn E y x.
Proof.
  induction 1 as [|x y z _ IH Hj]; [apply conn_refl|].
  eapply conn_trans; [|exact IH]. by apply conn_joins, joins_sym.
Qed.

Lemma conn_mono_joins E E' x y :
  (∀ u v, joins E u v → joins E' u v) → conn E x y → conn E' x y.
Proof.
  intros Hsub. induction 1 as [|x y z _ IH Hj]; [apply conn_refl|].
  eapply conn_step; [exact IH|by apply Hsub].
Qed.

Lemma conn_mono E E' x y :
  (∀ e, e ∈ E → e ∈ E') → conn E x y → conn E' x y.
Proof.
  intros Hsub. apply conn_mono_joins. intros u v [w Hw].
  exists w. destruct Hw; auto.
Qed.

(** Two vertices that are connected and different are both ends of
    edges. *)
Lemma conn_ends E x y :
  conn E x y → x = y ∨ ∃ e, e ∈ E ∧ (e.1.1 = y ∨ e.1.2 = y).
Proof.
  induction 1 as [|x y z _ _ [w [Hw|Hw]]]; [by left| |]; right.
  - exists (y, z, w). auto.
  - exists (z, y, w). auto.
Qed.

Lemma conn_nil x y : conn [] x y → x = y.
Proof.
  induction 1 as [|x y z _ IH [w [Hw|Hw]]]; [done| |]; by apply elem_of_nil in Hw.
Qed.

Lemma conn_cons a b w E x y :
  conn ((a, b, w) :: E) x y ↔
  conn E x y ∨ (conn E x a ∧ conn E b y) ∨ (conn E x b ∧ conn E a y).
Proof.
  split.
  - induction 1 as [x|x y z _ IH [w' Hj]]; [left; apply conn_refl|].
    assert (joins E y z ∨ (y = a ∧ z = b) ∨ (y = b ∧ z = a)) as Hcase.
    { destruct Hj as [Hj|Hj]; apply elem_of_cons in Hj as [Heq|Hin].
      - injection Heq as -> -> _. auto.
      - left. exists w'. auto.
      - injection Heq as -> -> _. auto.
      - left. exists w'. auto. }
    destruct Hcase as [Hj'|[[-> ->]|[-> ->]]].
    + destruct IH as [IH|[[IH1 IH2]|[IH1 IH2]]].
      * left. eapply conn_step; [exact IH|exact Hj'].
      * right; left. split; [done|]. eapply conn_step; [exact IH2|exact Hj'].
      * right; right. split; [done|]. eapply conn_step; [exact IH2|exact Hj'].
    + destruct IH as [IH|[[IH1 IH2]|[IH1 IH2]]].
      * right; left. split; [done|apply conn_refl].
      * right; left. split; [done|apply conn_refl].
      * by left.
    + destruct IH as [IH|[[IH1 IH2]|[IH1 IH2]]].
      * right; right. split; [done|apply conn_refl].
      * by left.
      * right; right. split; [done|apply conn_refl].
  - assert (∀ u v, conn E u v → conn ((a, b, w) :: E) u v) as Hm.
    { intros u v. apply conn_mono. intros e He. by right. }
    assert (conn ((a, b, w) :: E) a b) as Hab.
    { apply conn_joins. exists w. left. by left. }
    intros [Hc|[[H1 H2]|[H1 H2]]].
    + by apply Hm.
    + eapply conn_trans; [by apply Hm|]. eapply conn_trans; [exact Hab|by apply Hm].
    + eapply conn_trans; [by apply Hm|].
      eapply conn_trans; [apply conn_sym, Hab|by apply Hm].
Qed.

(** A canonical member of the class of [x]. *)
Fixpoint cls (E : list wedge) (x : T) : T :=
  match E with
  | [] => x
  | (a, b, _) :: E' =>
      if decide (cls E' x = cls E' b) then cls E' a else cls E' x
  end.

Lemma cls_conn E x y : cls E x = cls E y ↔ conn E x y.
Proof.
  revert x y. induction E as [|[[a b] w] E IH]; intros x y; simpl.
  - split; [intros ->; apply conn_refl|apply conn_nil].
  - rewrite conn_cons, <- !IH.
    destruct (decide (cls E x = cls E b)), (decide (cls E y = cls E b));
      split; intros; try (intuition congruence).
Qed.

(** [forest l F]: the edges of [F] join vertices of [l], and each one,
    when it was added (the head of the list is the newest), joined two
    vertices that the older edges did not connect. *)
Inductive forest (l : list T) : list wedge → Prop :=
| forest_nil : forest l []
| forest_cons a b w F :
    forest l F → a ∈ l → b ∈ l → ¬ conn F a b → forest l ((a, b, w) :: F).

(** The classes of the vertices [l], as the set of their canonical
    members. *)
Definition classes (c : T → T) (l : list T) : gset T := list_to_set (c <$> l).

Lemma elem_of_classes c l x : x ∈ classes c l ↔ ∃ y, y ∈ l ∧ x = c y.
Proof.
  unfold classes. rewrite elem_of_list_to_set, list_elem_of_fmap.
  split; intros (y & H1 & H2); eauto.
Qed.

Lemma classes_cons a b w F l :
  a ∈ l → b ∈ l → ¬ conn F a b →
  classes (cls ((a, b, w) :: F)) l = classes (cls F) l ∖ {[cls F b]}.
Proof.
  intros Ha Hb Hab. apply set_eq. intros x.
  rewrite elem_of_difference, !elem_of_classes, elem_of_singleton. simpl. split.
  - intros (y & Hy & ->). destruct (decide (cls F y = cls F b)) as [Heq|Hne].
    + split; [by exists a|]. intros Hc. apply Hab. by apply cls_conn.
    + split; [by exists y|done].
  - intros [(y & Hy & ->) Hne]. exists y. split; [done|].
    by rewrite decide_False.
Qed.

Lemma forest_count l F :
  NoDup l → forest l F → (size (classes (cls F) l) + length F = length l)%nat.
Proof.
  intros Hnd. induction 1 as [|a b w F HF IH Ha Hb Hab].
  - assert (classes (cls []) l = list_to_set l) as ->.
    { unfold classes. f_equal. exact (list_fmap_id l). }
    rewrite size_list_to_set by done. simpl. lia.
  - rewrite classes_cons by done.
    assert ({[cls F b]} ⊆ classes (cls F) l) as Hsub.
    { apply singleton_subseteq_l. apply elem_of_classes. by exists b. }
    rewrite size_difference by done.
    apply subseteq_size in Hsub. rewrite size_singleton in *. simpl length.
    lia.
Qed.

(** The number of classes depends on the relation only. *)
Lemma size_classes_cons c x l :
  size (classes c (x :: l))
  = if decide (Exists (λ y, c y = c x) l) then size (classes c l)
    else S (size (classes c l)).
Proof.
  unfold classes. rewrite fmap_cons. simpl.
  destruct (decide (Exists (λ y, c y = c x) l)) as [Hex|Hnex].
  - f_equal. apply set_eq. intros z. rewrite elem_of_union, elem_of_singleton.
    split; [|auto]. intros [->|Hz]; [|done].
    apply Exists_exists in Hex as (y & Hy & Heq).
    apply elem_of_list_to_set, list_elem_of_fmap. by exists y.
  - rewrite size_union.
    + by rewrite size_singleton.
    + apply disjoint_singleton_l. intros Hin.
      apply elem_of_list_to_set, list_elem_of_fmap in Hin as (y & Heq & Hy).
      apply Hnex, Exists_exists. by exists y.
Qed.

Lemma size_classes_ext c1 c2 l :
  (∀ x y, x ∈ l → y ∈ l → (c1 x = c1 y ↔ c2 x = c2 y)) →
  size (classes c1 l) = size (classes c2 l).
Proof.
  induction l as [|x l IH]; intros Hrel; [done|].
  rewrite !size_classes_cons.
  assert (size (classes c1 l) = size (classes c2 l)) as Hl.
  { apply IH. intros a b Ha Hb. apply Hrel; by right. }
  assert (Exists (λ y, c1 y = c1 x) l ↔ Exists (λ y, c2 y = c2 x) l) as Hex.
  { rewrite !Exists_exists. split; intros (y & Hy & Heq); exists y; (split; [done|]);
      apply (Hrel y x); auto; by constructor. }
  destruct (decide (Exists (λ y, c1 y = c1 x) l)),
           (decide (Exists (λ y, c2 y = c2 x) l)); try tauto; by rewrite Hl.
Qed.

(** The edges of weight at most [w0]. *)
Definition light (w0 : Z) (E : list wedge) : list wedge :=
  filter (λ e, e.2 ≤ w0) E.

Lemma elem_of_light w0 E e : e ∈ light w0 E ↔ e.2 ≤ w0 ∧ e ∈ E.
Proof. unfold light. by rewrite list_elem_of_filter. Qed.

Lemma conn_light_mono w0 w1 E x y :
  w0 ≤ w1 → conn (light w0 E) x y → conn (light w1 E) x y.
Proof.
  intros Hle. apply conn_mono. intros e [Hw He]%elem_of_light.
  apply elem_of_light. split; [lia|done].
Qed.

Lemma forest_light w0 l F : forest l F → forest l (light w0 F).
Proof.
  induction 1 as [|a b w F HF IH Ha Hb Hab]; [constructor|].
  unfold light. rewrite filter_cons. fold (light w0 F).
  destruct (decide ((a, b, w).2 ≤ w0)); [|done].
  constructor; auto. intros Hc. apply Hab. revert Hc. apply conn_mono.
  by intros e [_ He]%elem_of_light.
Qed.

Definition weights (E : list wedge) : list Z := (λ e, e.2) <$> E.

Lemma weights_light w0 E :
  filter (λ w, w ≤ w0) (weights E) = weights (light w0 E).
Proof.
  induction E as [|e E IH]; [done|]. unfold weights, light in *.
  rewrite fmap_cons, !filter_cons. simpl.
  destruct (decide (e.2 ≤ w0)); by rewrite IH.
Qed.

End Connectivity.

(** ** Equal counts below every threshold give equal sums *)

Lemma sumZ_Permutation l1 l2 : l1 ≡ₚ l2 → sumZ l1 = sumZ l2.
Proof. induction 1; simpl; lia. Qed.

Lemma count_le_split (W : list Z) (w : Z) :
  length (filter (λ x, x ≤ w) W)
  = (length (filter (λ x, (x ≤ w - 1)%Z) W) + count_occ Z.eq_dec W w)%nat.
Proof.
  induction W as [|x W IH]; [done|]. rewrite !filter_cons. simpl count_occ.
  destruct (decide (x ≤ w)), (decide (x ≤ w - 1)), (Z.eq_dec x w);
    simpl; try lia.
Qed.

Lemma sum_of_counts (W1 W2 : list Z) :
  (∀ w, length (filter (λ x, x ≤ w) W1) = length (filter (λ x, x ≤ w) W2)) →
  sumZ W1 = sumZ W2.
Proof.
  intros Hcount. apply sumZ_Permutation.
  apply (Permutation_count_occ Z.eq_dec). intros w.
  pose proof (count_le_split W1 w). pose proof (count_le_split W2 w).
  pose proof (Hcount w). pose proof (Hcount (w - 1)). lia.
Qed.

(** Two forests on the same vertices that connect the same vertices below
    every weight threshold have the same total weight. *)
Lemma forests_same_weight `{Countable T} (l : list T) (F1 F2 : list (@wedge T)) :
  NoDup l → forest l F1 → forest l F2 →
  (∀ w0 x y, x ∈ l → y ∈ l →
     (conn (light w0 F1) x y ↔ conn (light w0 F2) x y)) →
  sumZ (weights F1) = sumZ (weights F2).
Proof.
  intros Hnd HF1 HF2 Hconn. apply sum_of_counts. intros w0.
  rewrite !weights_light. unfold weights. rewrite !length_fmap.
  pose proof (forest_count l _ Hnd (forest_light w0 l F1 HF1)) as H1.
  pose proof (forest_count l _ Hnd (forest_light w0 l F2 HF2)) as H2.
  assert (size (classes (cls (light w0 F1)) l) = size (classes (cls (light w0 F2)) l))
    as Heq.
  { apply size_classes_ext. intros x y Hx Hy. rewrite !cls_conn. by apply Hconn. }
  rewrite Heq, <- H2 in H1. by apply Nat.add_cancel_l in H1.
Qed.

(** ** Doubles that are computed exactly *)

(** The value of a finite double, in units of [2^-1074]. *)
Definition num_z (x : Num) : Z := match x with Fin n => n | _ => 0 end.

Definition finite (x : Num) : bool := match x with Fin _ => true | _ => false end.

Lemma finite_Fin x : finite x = true → x = Fin (num_z x).
Proof. by destruct x. Qed.

Lemma or0_finite x : finite x = true → or0 x = x.
Proof. by destruct x. Qed.

Lemma num_z_or0 x : num_z (or0 x) = num_z x.
Proof. by destruct x. Qed.

Lemma round53_nonneg n : 0 ≤ n → 0 ≤ round53 n.
Proof.
  intros Hn. unfold round53. destruct (Z.log2 n - 52 <=? 0) eqn:Hk; [done|].
  apply Z.leb_gt in Hk. set (k := Z.log2 n - 52) in *.
  assert (0 < 2 ^ k) by (apply Z.pow_pos_nonneg; lia).
  assert (0 ≤ n / 2 ^ k) by (apply Z.div_pos; lia).
  apply Z.mul_nonneg_nonneg; [|lia]. unfold round_even.
  repeat case_match; lia.
Qed.

Lemma round53_pos n : 0 < n → 0 < round53 n.
Proof.
  intros Hn. unfold round53. destruct (Z.log2 n - 52 <=? 0) eqn:Hk; [done|].
  apply Z.leb_gt in Hk. set (k := Z.log2 n - 52) in *.
  assert (0 < 2 ^ k) by (apply Z.pow_pos_nonneg; lia).
  assert (2 ^ k ≤ n).
  { transitivity (2 ^ Z.log2 n); [|by apply Z.log2_spec].
    apply Z.pow_le_mono_r; lia. }
  assert (0 < n / 2 ^ k) by (apply Z.div_str_pos; lia).
  apply Z.mul_pos_pos; [|lia]. unfold round_even.
  repeat case_match; lia.
Qed.

(** The sign of a difference of finite doubles is the sign of the exact
    difference. *)
Lemma keeps_order_finite a b :
  finite a = true → finite b = true →
  keeps_order (num_sub (or0 a) (or0 b)) = (num_z a <=? num_z b).
Proof.
  destruct a as [x| | |], b as [y| | |]; try done. intros _ _.
  cbn [or0 num_sub num_neg num_add num_z]. unfold keeps_order, to_double.
  set (d := x + - y). set (r := round53 (Z.abs d)).
  assert (0 ≤ r) as Hr0 by (apply round53_nonneg; lia).
  assert (0 < Z.abs d → 0 < r) as Hr by apply round53_pos.
  destruct (2 ^ 2098 <=? r) eqn:Hbig.
  - apply Z.leb_le in Hbig. assert (0 < r) by lia.
    assert (d ≠ 0).
    { intros Hd. subst r. rewrite Hd in *. vm_compute in H. done. }
    destruct (d <? 0) eqn:Hneg; simpl.
    + apply Z.ltb_lt in Hneg. symmetry. apply Z.leb_le. lia.
    + apply Z.ltb_ge in Hneg. symmetry. apply Z.leb_gt. lia.
  - cbn [num_lt]. destruct (Z.sgn_spec d) as [[Hd ->]|[[Hd ->]|[Hd ->]]].
    + specialize (Hr ltac:(lia)).
      transitivity false; [apply negb_false_iff, Z.ltb_lt; lia|].
      symmetry. apply Z.leb_gt. lia.
    + transitivity true; [apply negb_true_iff, Z.ltb_ge; lia|].
      symmetry. apply Z.leb_le. lia.
    + transitivity true; [apply negb_true_iff, Z.ltb_ge; lia|].
      symmetry. apply Z.leb_le. lia.
Qed.

Lemma round_even_mult c k : 0 < k → round_even (c * 2 ^ k) k = c.
Proof.
  intros Hk. unfold round_even.
  assert (0 < 2 ^ k) by (apply Z.pow_pos_nonneg; lia).
  assert (0 < 2 ^ (k - 1)) by (apply Z.pow_pos_nonneg; lia).
  rewrite Z.mod_mul, Z.div_mul by lia.
  by rewrite (proj2 (Z.ltb_lt _ _)) by lia.
Qed.

Lemma round53_exact m j : 0 ≤ m ≤ 2 ^ 53 → 0 ≤ j → round53 (m * 2 ^ j) = m * 2 ^ j.
Proof.
  intros Hm Hj. unfold round53.
  destruct (Z.log2 (m * 2 ^ j) - 52 <=? 0) eqn:Hk; [done|].
  apply Z.leb_gt in Hk.
  assert (0 < 2 ^ j) by (apply Z.pow_pos_nonneg; lia).
  assert (0 < m).
  { destruct (decide (m = 0)) as [->|]; [|lia]. rewrite Z.mul_0_l in Hk.
    vm_compute in Hk. done. }
  rewrite Z.log2_mul_pow2 in * by lia.
  set (k := j + Z.log2 m - 52) in *.
  assert (Z.log2 m ≤ 53).
  { rewrite <- (Z.log2_pow2 53) by lia. apply Z.log2_le_mono. lia. }
  assert (∃ c, m * 2 ^ j = c * 2 ^ k) as [c Hc].
  { destruct (decide (Z.log2 m = 53)) as [Heq|Hne].
    - assert (m = 2 ^ 53) as ->.
      { pose proof (Z.log2_spec m ltac:(lia)) as [Hlo _]. rewrite Heq in Hlo. lia. }
      exists (2 ^ 52). rewrite <- !Z.pow_add_r by lia. f_equal. lia.
    - exists (m * 2 ^ (j - k)). rewrite <- Z.mul_assoc, <- Z.pow_add_r by lia.
      do 2 f_equal. lia. }
  rewrite Hc at 1. rewrite round_even_mult by lia. lia.
Qed.

Lemma to_double_exact m j :
  0 ≤ m ≤ 2 ^ 53 → 0 ≤ j ≤ 2044 → to_double (m * 2 ^ j) = Fin (m * 2 ^ j).
Proof.
  intros Hm Hj. unfold to_double.
  assert (0 < 2 ^ j) by (apply Z.pow_pos_nonneg; lia).
  assert (0 ≤ m * 2 ^ j) by lia.
  rewrite Z.abs_eq, round53_exact by lia.
  assert (m * 2 ^ j < 2 ^ 2098).
  { apply Z.le_lt_trans with (2 ^ 53 * 2 ^ 2044).
    - apply Z.mul_le_mono_nonneg; try lia. apply Z.pow_le_mono_r; lia.
    - rewrite <- Z.pow_add_r by lia. apply Z.pow_lt_mono_r; lia. }
  rewrite (proj2 (Z.leb_gt _ _)) by lia. f_equal.
  destruct (Z.sgn_spec (m * 2 ^ j)) as [[? ->]|[[? ->]|[? ->]]]; lia.
Qed.

(** [scaled j W x]: the double [x] is [m * 2^j] units for a whole number
    [m] from [0] to [W]. *)
Definition scaled (j W : Z) (x : Num) : Prop :=
  match x with
  | Fin n => n mod 2 ^ j = 0 ∧ 0 ≤ n ≤ W * 2 ^ j
  | _ => False
  end.

Global Instance scaled_dec j W x : Decision (scaled j W x).
Proof. destruct x; simpl; apply _. Defined.

Lemma scaled_spec j W x :
  0 ≤ j → scaled j W x → ∃ m, 0 ≤ m ≤ W ∧ x = Fin (m * 2 ^ j).
Proof.
  intros Hj. destruct x as [n| | |]; try done. intros [Hmod [Hlo Hhi]].
  assert (0 < 2 ^ j) by (apply Z.pow_pos_nonneg; lia).
  exists (n / 2 ^ j). pose proof (Z.div_mod n (2 ^ j) ltac:(lia)) as Hdm.
  rewrite Hmod, Z.add_0_r in Hdm. split; [|f_equal; lia].
  split; [apply Z.div_pos; lia|]. apply Z.div_le_upper_bound; lia.
Qed.

Lemma scaled_finite j W x : scaled j W x → finite x = true.
Proof. by destruct x. Qed.

Lemma scaled_or0 j W x : scaled j W x → or0 x = x.
Proof. by destruct x. Qed.

(** A sum of at most [2^53 / W] such doubles involves no rounding. *)
Lemma sum_num_exact j W l :
  0 ≤ j ≤ 2044 → 0 ≤ W → Z.of_nat (length l) * W ≤ 2 ^ 53 → Forall (scaled j W) l →
  sum_num l = Fin (sumZ (num_z <$> l)).
Proof.
  intros Hj HW.
  assert (0 < 2 ^ j) as Hpos by (apply Z.pow_pos_nonneg; lia).
  enough (Z.of_nat (length l) * W ≤ 2 ^ 53 → Forall (scaled j W) l →
          ∃ M, 0 ≤ M ≤ Z.of_nat (length l) * W ∧ sumZ (num_z <$> l) = M * 2 ^ j ∧
               sum_num l = Fin (M * 2 ^ j)) as Hgen.
  { intros Hlen Hall. destruct (Hgen Hlen Hall) as (M & _ & -> & ->). done. }
  induction l as [|x l IH] using rev_ind; intros Hlen Hall.
  - exists 0. split; [simpl; lia|]. split; reflexivity.
  - rewrite length_app in Hlen. simpl in Hlen.
    apply Forall_app in Hall as [Hall Hx]. apply Forall_inv in Hx.
    destruct IH as (M & HM & Hs & Hn); [lia|done|].
    apply scaled_spec in Hx as (m & Hm & ->); [|lia].
    exists (M + m). rewrite length_app. simpl length.
    split; [lia|]. rewrite fmap_app. cbn [fmap list_fmap num_z].
    rewrite sumZ_snoc, Hs, sum_num_snoc, Hn.
    cbn [num_add]. rewrite <- Z.mul_add_distr_r.
    split; [done|]. apply to_double_exact; lia.
Qed.

(** ** Sorted output *)

(** [sort] with a comparator that agrees, on the elements at hand, with
    the order of a whole-number key. *)
Section SortBySorted.
Context {A : Type} (le : A → A → bool) (key : A → Z) (P : A → Prop).
Hypothesis Hle : ∀ a b, P a → P b → le a b = (key a <=? key b).

Lemma insert_by_sorted x l :
  P x → Forall P l →
  StronglySorted (λ a b, key a ≤ key b) l →
  StronglySorted (λ a b, key a ≤ key b) (insert_by le x l).
Proof.
  intros Hx Hl Hs. induction Hs as [|y l Hs IH Hy]; simpl.
  - repeat constructor.
  - apply Forall_cons in Hl as [Hy' Hl]. rewrite (Hle x y) by done.
    destruct (key x <=? key y) eqn:E.
    + apply Z.leb_le in E. constructor; [by constructor|].
      constructor; [done|]. eapply Forall_impl; [exact Hy|]. intros z Hz. simpl in *. lia.
    + apply Z.leb_gt in E. constructor; [by apply IH|].
      rewrite insert_by_Permutation. constructor; [lia|done].
Qed.

Lemma sort_by_sorted l :
  Forall P l → StronglySorted (λ a b, key a ≤ key b) (sort_by le l).
Proof.
  induction l as [|x l IH]; simpl; [constructor|].
  intros [Hx Hl]%Forall_cons. apply insert_by_sorted; [done| |by apply IH].
  by rewrite sort_by_Permutation.
Qed.
End SortBySorted.

Lemma StronglySorted_lookup {A} (R : A → A → Prop) l i j a b :
  StronglySorted R l → (i < j)%nat → l !! i = Some a → l !! j = Some b → R a b.
Proof.
  intros Hs. revert i j. induction Hs as [|x l Hl IH Hx]; intros i j Hij Hi Hj.
  { by rewrite lookup_nil in Hi. }
  destruct j as [|j]; [lia|]. destruct i as [|i]; simpl in *.
  - injection Hi as <-. rewrite Forall_forall in Hx. apply Hx.
    by eapply list_elem_of_lookup_2.
  - apply (IH i j); [lia|done..].
Qed.

(** The weight of an edge in units of [2^-1074]; [0] stands in for what is
    not a finite number. *)
Definition wz (e : Edge) : Z := num_z (weight e).

(** Every weight of the graph is a finite number. *)
Definition finite_weights (g : Graph) : Prop :=
  Forall (λ e, finite (weight e) = true) (edges g).

Global Instance finite_weights_dec g : Decision (finite_weights g).
Proof. unfold finite_weights. apply _. Defined.

Lemma edge_le_finite a b :
  finite (weight a) = true → finite (weight b) = true →
  edge_le a b = (wz a <=? wz b).
Proof. apply keeps_order_finite. Qed.

Lemma sorted_edges_ordered (es : list Edge) i j e e' :
  Forall (λ e, finite (weight e) = true) es →
  (i ≤ j)%nat → sort_by edge_le es !! i = Some e → sort_by edge_le es !! j = Some e' →
  wz e ≤ wz e'.
Proof.
  intros Hfin Hij Hi Hj. destruct (decide (i = j)) as [->|Hne].
  { assert (e = e') as -> by congruence. lia. }
  pose proof (sort_by_sorted edge_le wz _ edge_le_finite es Hfin) as Hs.
  apply (StronglySorted_lookup _ _ i j e e' Hs); [lia|done..].
Qed.

(** ** The graph as a set of weighted edges between node ids *)

Definition edge3 (e : Edge) : @wedge string := (from e, to e, wz e).

Global Instance known_edge_dec g e : Decision (known_edge g e).
Proof. unfold known_edge. apply _. Defined.

(** The edges that the engines do not skip. *)
Definition graph_edges (g : Graph) : list (@wedge string) :=
  edge3 <$> filter (known_edge g) (edges g).

Lemma elem_of_graph_edges g x :
  x ∈ graph_edges g ↔ ∃ e, e ∈ edges g ∧ known_edge g e ∧ x = edge3 e.
Proof.
  unfold graph_edges. rewrite list_elem_of_fmap. split.
  - intros (e & -> & [Hk He]%list_elem_of_filter). eauto.
  - intros (e & He & Hk & ->). exists e. split; [done|].
    by apply list_elem_of_filter.
Qed.

(** Every two nodes are joined by a walk along known edges. *)
Definition connected_graph (g : Graph) : Prop :=
  ∀ a b, a ∈ node_ids g → b ∈ node_ids g → conn (graph_edges g) a b.

(** [spans G F]: the ends of every edge of [G] are connected in [F] by
    edges that are not heavier. *)
Definition spans (G F : list (@wedge string)) : Prop :=
  ∀ e, e ∈ G → conn (light e.2 F) e.1.1 e.1.2.

(** [within G F]: every edge of [F] is an edge of [G], in one of its two
    directions. *)
Definition within (G F : list (@wedge string)) : Prop :=
  ∀ e, e ∈ F → ∃ e', e' ∈ G ∧ e'.2 = e.2 ∧
    ((e'.1.1 = e.1.1 ∧ e'.1.2 = e.1.2) ∨ (e'.1.1 = e.1.2 ∧ e'.1.2 = e.1.1)).

Lemma spans_same_conn G F w0 x y :
  spans G F → within G F →
  conn (light w0 G) x y ↔ conn (light w0 F) x y.
Proof.
  intros Hspan Hin. split.
  - induction 1 as [|x y z _ IH [w Hj]]; [apply conn_refl|].
    eapply conn_trans; [exact IH|].
    destruct Hj as [[Hw He]%elem_of_light|[Hw He]%elem_of_light]; simpl in Hw.
    + apply (conn_light_mono w w0); [done|]. apply (Hspan _ He).
    + apply conn_sym. apply (conn_light_mono w w0); [done|]. apply (Hspan _ He).
  - apply conn_mono_joins. intros u v [w Hj].
    assert (∀ a b, (a, b, w) ∈ light w0 F → joins (light w0 G) a b) as Hone.
    { intros a b [Hw He]%elem_of_light. simpl in Hw.
      destruct (Hin _ He) as ([[a' b'] w'] & He' & Hw' & Hends). simpl in *.
      subst w'. exists w. destruct Hends as [[-> ->]|[-> ->]].
      - left. by apply elem_of_light.
      - right. by apply elem_of_light. }
    destruct Hj as [Hj|Hj]; [by apply Hone|by apply joins_sym, Hone].
Qed.

(** ** Kruskal builds a spanning forest of lightest edges *)

Section KruskalForest.
Variable g : Graph.
Hypothesis Hfin : finite_weights g.

(** The accepted edges, the newest first. *)
Definition kforest (s : KState) : list (@wedge string) :=
  reverse ((λ m, edge3 (se_edge m)) <$> ks_mstEdges s).

Record kmst (s : KState) (index : nat) : Prop := {
  km_same : ∀ a b i j,
    nodeMap_of g !! a = Some i → nodeMap_of g !! b = Some j →
    (UF.same (ks_uf s) i j ↔ conn (kforest s) a b);
  km_forest : forest (node_ids g) (kforest s);
  km_from : ∀ m, m ∈ ks_mstEdges s →
    ∃ i, (i < index)%nat ∧ sort_by edge_le (edges g) !! i = Some (se_edge m) ∧
         known_edge g (se_edge m);
  km_span : ∀ i e, (i < index)%nat → sort_by edge_le (edges g) !! i = Some e →
    known_edge g e → conn (light (wz e) (kforest s)) (from e) (to e)
}.

Lemma kforest_snoc s u' e total steps :
  kforest {| ks_uf := u';
             ks_mstEdges := ks_mstEdges s ++ [{| se_edge := e; se_status := accepted |}];
             ks_totalCost := total; ks_steps := steps |}
  = edge3 e :: kforest s.
Proof. unfold kforest. cbn [ks_mstEdges]. by rewrite fmap_app, reverse_app. Qed.

Lemma mapped_known e i j :
  nodeMap_of g !! from e = Some i → nodeMap_of g !! to e = Some j → known_edge g e.
Proof.
  intros Hi Hj.
  destruct (proj1 (nodeMap_of_keys g (from e)) (mk_is_Some _ _ Hi)) as [? ?].
  destruct (proj1 (nodeMap_of_keys g (to e)) (mk_is_Some _ _ Hj)) as [? ?].
  by repeat split.
Qed.

Lemma kmst_body s index e s' :
  kmst s index → sort_by edge_le (edges g) !! index = Some e →
  body_rel g (sort_by edge_le (edges g)) s index e s' → kmst s' (S index).
Proof.
  intros [Hsame Hforest Hfrom Hspan] He Hrel.
  assert (∀ m, m ∈ kforest s → m.2 ≤ wz e) as Hweights.
  { intros m Hm. unfold kforest in Hm. rewrite elem_of_reverse in Hm.
    apply list_elem_of_fmap in Hm as (x & -> & Hx).
    destruct (Hfrom x Hx) as (i & Hi & Hl & _). simpl.
    eapply (sorted_edges_ordered (edges g) i index); [exact Hfin|lia|done..]. }
  destruct Hrel as [Hunk|fromNode toNode u' st st' Hf Ht Hcyc Hpres
                   |fromNode toNode u' st st' Hf Ht Hcyc Hmerge].
  - split; [done|done| |].
    + intros m Hm. destruct (Hfrom m Hm) as (i & Hi & Hl & Hk). exists i.
      split; [lia|done].
    + intros i e' Hi Hl Hk. destruct (decide (i = index)) as [->|Hne].
      * assert (e' = e) as -> by congruence.
        destruct (known_edge_mapped g e Hk) as (a & b & Ha & Hb).
        destruct Hunk; congruence.
      * apply Hspan with i; [lia|done..].
  - split; cbn [ks_uf ks_mstEdges];
      change (kforest {| ks_uf := u'; ks_mstEdges := ks_mstEdges s;
                         ks_totalCost := ks_totalCost s;
                         ks_steps := _ |}) with (kforest s).
    + intros a b i j Ha Hb. rewrite Hpres. by apply Hsame.
    + done.
    + intros m Hm. destruct (Hfrom m Hm) as (i & Hi & Hl & Hk). exists i.
      split; [lia|done].
    + intros i e' Hi Hl Hk. destruct (decide (i = index)) as [->|Hne].
      * assert (e' = e) as -> by congruence.
        apply (Hsame _ _ _ _ Hf Ht) in Hcyc. revert Hcyc. apply conn_mono.
        intros m Hm. apply elem_of_light. split; [by apply Hweights|done].
      * apply Hspan with i; [lia|done..].
  - pose proof (mapped_known e _ _ Hf Ht) as Hk.
    split; cbn [ks_uf ks_mstEdges]; rewrite ?kforest_snoc.
    + intros a b i j Ha Hb. rewrite Hmerge. unfold edge3. rewrite conn_cons.
      unfold UF.merged.
      rewrite (Hsame a b i j), (Hsame a (from e) i fromNode),
              (Hsame b (to e) j toNode), (Hsame a (to e) i toNode),
              (Hsame b (from e) j fromNode) by done.
      split; intros [?|[[? ?]|[? ?]]]; auto using conn_sym.
    + constructor; [done| | |].
      * apply (nodeMap_of_keys g (from e)). eauto.
      * apply (nodeMap_of_keys g (to e)). eauto.
      * intros Hc. apply Hcyc. by apply (Hsame _ _ _ _ Hf Ht).
    + intros m [Hm| ->%list_elem_of_singleton]%elem_of_app.
      * destruct (Hfrom m Hm) as (i & Hi & Hl & Hk'). exists i. split; [lia|done].
      * exists index. split; [lia|done].
    + intros i e' Hi Hl Hk'. destruct (decide (i = index)) as [->|Hne].
      * assert (e' = e) as -> by congruence.
        apply conn_joins. exists (wz e). left. apply elem_of_light.
        split; [simpl; lia|by left].
      * eapply conn_mono; [|apply Hspan with i; [lia|done..]].
        intros m [Hw Hm]%elem_of_light. apply elem_of_light. split; [done|by right].
Qed.

Lemma kmst_forEach s index es s' :
  kmst s index → drop index (sort_by edge_le (edges g)) = es →
  forEach_rel g (sort_by edge_le (edges g)) s index es s' →
  kmst s' (index + length es).
Proof.
  intros Hs Hes Hrel. induction Hrel as [s index|s index e es s1 s2 Hbody _ IH].
  - by rewrite Nat.add_0_r.
  - assert (sort_by edge_le (edges g) !! index = Some e) as He.
    { rewrite <- (Nat.add_0_r index), <- lookup_drop, Hes. done. }
    simpl. rewrite <- Nat.add_succ_comm. apply IH.
    + by eapply kmst_body.
    + rewrite <- (Nat.add_1_r index), <- drop_drop, Hes. done.
Qed.

End KruskalForest.

(** The forest that Kruskal returns. *)
Definition kruskal_forest (r : KResult) : list (@wedge string) :=
  reverse ((λ m, edge3 (se_edge m)) <$> kf_mstEdges (k_finalResult r)).

(** The doubles that Kruskal adds up, in the order of acceptance. *)
Definition kruskal_weights (r : KResult) : list Num :=
  map (λ m, or0 (weight (se_edge m))) (kf_mstEdges (k_finalResult r)).

Lemma sumZ_reverse l : sumZ (reverse l) = sumZ l.
Proof. apply sumZ_Permutation. apply reverse_Permutation. Qed.

Lemma kruskal_forest_spec g r :
  finite_weights g →
  kruskalAlgorithm g = Ok r →
  kf_totalCost (k_finalResult r) = sum_num (kruskal_weights r) ∧
  (∀ m, m ∈ kf_mstEdges (k_finalResult r) → se_edge m ∈ edges g) ∧
  forest (node_ids g) (kruskal_forest r) ∧
  spans (graph_edges g) (kruskal_forest r) ∧
  within (graph_edges g) (kruskal_forest r).
Proof.
  intros Hfin Hrun. apply kruskalAlgorithm_Ok in Hrun as [_ Hrun].
  destruct (kruskal_run_spec g) as (s & u0 & st0 & Hrun' & Hu0 & Hrel).
  rewrite Hrun in Hrun'. injection Hrun' as ->.
  unfold kruskal_weights. cbn [k_finalResult] in *.
  assert (kbasic g s) as Hb.
  { eapply kbasic_forEach; [|exact Hrel].
    split; cbn [ks_totalCost ks_mstEdges ks_steps].
    - done.
    - apply Forall_singleton. discriminate.
    - eexists. split; [done|]. done.
    - constructor. }
  eapply (kmst_forEach g Hfin) in Hrel; [| |done].
  2:{ split; cbn [ks_uf ks_mstEdges].
      - intros a b i j Ha Hb'. rewrite Hu0. unfold kforest. cbn.
        split.
        + intros [-> _]. assert (a = b) as ->; [|apply conn_refl].
          apply nodeMap_of_lookup in Ha as (nd & Hnd & <- & _).
          apply nodeMap_of_lookup in Hb' as (nd' & Hnd' & <- & _). congruence.
        + intros ->%conn_nil. split; [congruence|]. by eapply nodeMap_of_lt.
      - constructor.
      - intros m Hm. by apply elem_of_nil in Hm.
      - intros i e Hi. lia. }
  destruct Hrel as [_ Hforest Hfrom Hspan].
  unfold kruskal_forest. cbn [kf_mstEdges kf_totalCost]. fold (kforest s).
  split; [exact (kb_cost _ _ Hb)|]. split; [|split; [done|split]].
  - intros m Hm. destruct (Hfrom m Hm) as (i & _ & Hl & _).
    apply (sort_by_elem_of edge_le). by eapply list_elem_of_lookup_2.
  - intros x (e & He & Hk & ->)%elem_of_graph_edges.
    apply (sort_by_elem_of edge_le) in He. apply list_elem_of_lookup in He as [i Hi].
    apply (Hspan i e); [|done..]. apply lookup_lt_Some in Hi. simpl. done.
  - intros x Hx. unfold kforest in Hx. rewrite elem_of_reverse in Hx.
    apply list_elem_of_fmap in Hx as (m & -> & Hm).
    destruct (Hfrom m Hm) as (i & _ & Hl & Hk). exists (edge3 (se_edge m)).
    split; [|split; [done|by left]].
    apply elem_of_graph_edges. exists (se_edge m). split; [|done].
    apply (sort_by_elem_of edge_le). by eapply list_elem_of_lookup_2.
Qed.

(** ** Prim builds a spanning tree of lightest edges *)

Lemma pedge_le_finite a b :
  finite (pe_weight a) = true → finite (pe_weight b) = true →
  pedge_le a b = (num_z (pe_weight a) <=? num_z (pe_weight b)).
Proof. apply keeps_order_finite. Qed.

Lemma sort_by_pedge_sorted l :
  Forall (λ q, finite (pe_weight q) = true) l →
  StronglySorted (λ a b, num_z (pe_weight a) ≤ num_z (pe_weight b))
    (sort_by pedge_le l).
Proof. apply (sort_by_sorted pedge_le (λ q, num_z (pe_weight q)) _ pedge_le_finite). Qed.

Lemma elem_of_push_neighbors visited src ns acc q :
  q ∈ push_neighbors visited src ns acc ↔
  q ∈ acc ∨ ∃ a, a ∈ ns ∧ truthy (adj_to a) = true ∧ (adj_to a ∉ visited) ∧
                 q = frontier_edge src a.
Proof.
  rewrite push_neighbors_app, push_neighbors_filter, elem_of_app, list_elem_of_fmap.
  split; (intros [Hq|Hq]; [by left|right]).
  - destruct Hq as (a & -> & [Ha Hin]%list_elem_of_filter).
    apply Is_true_true, andb_true_iff in Ha as [Ht Hv].
    apply negb_true_iff, set_has_false in Hv. eauto 6.
  - destruct Hq as (a & Hin & Ht & Hv & ->). exists a. split; [done|].
    apply list_elem_of_filter. split; [|done].
    apply Is_true_true, andb_true_iff. split; [done|].
    by apply negb_true_iff, set_has_false.
Qed.

Section PrimForest.
Variables (g : Graph) (start : string).
Hypothesis Hlists : createAdjacencyList g = Ok (adj_lists g).
Hypothesis Hfin : finite_weights g.
Hypothesis Hundirected : ∀ e, e ∈ edges g → directed e = false.

Definition nbrs (x : string) : list AdjEntry :=
  default [] (adj_lists g !! x).

Lemma nbrs_sym x a :
  a ∈ nbrs x →
  ∃ a', a' ∈ nbrs (adj_to a) ∧ adj_to a' = x ∧ adj_weight a' = adj_weight a.
Proof.
  unfold nbrs. intros (e & He & Hk & [[<- ->]|(Hd & <- & ->)])%neighbors_spec.
  - exists (arc_entry e (from e)). split; [|done]. apply neighbors_spec.
    exists e. split; [done|]. split; [done|]. right. simpl. auto.
  - exists (arc_entry e (to e)). split; [|done]. apply neighbors_spec.
    exists e. split; [done|]. split; [done|]. left. simpl. auto.
Qed.

(** The weight of an entry is the weight of an edge of the graph. *)
Lemma nbrs_weight x a :
  a ∈ nbrs x → ∃ e, e ∈ edges g ∧ adj_weight a = weight e.
Proof.
  unfold nbrs. intros (e & He & _ & Harc)%neighbors_spec. exists e. split; [done|].
  unfold finite_weights in Hfin. rewrite Forall_forall in Hfin.
  destruct Harc as [[_ ->]|(_ & _ & ->)]; simpl; apply or0_finite; auto.
Qed.

Lemma nbrs_finite x a : a ∈ nbrs x → finite (adj_weight a) = true.
Proof.
  intros (e & He & ->)%nbrs_weight.
  unfold finite_weights in Hfin. rewrite Forall_forall in Hfin. auto.
Qed.

Lemma frontier_finite x y a : a ∈ nbrs x → finite (pe_weight (frontier_edge y a)) = true.
Proof. intros Ha%nbrs_finite. simpl. by rewrite or0_finite. Qed.

Lemma nbrs_graph x a :
  a ∈ nbrs x →
  ∃ e', e' ∈ graph_edges g ∧ e'.2 = num_z (adj_weight a) ∧
        ((e'.1.1 = x ∧ e'.1.2 = adj_to a) ∨ (e'.1.1 = adj_to a ∧ e'.1.2 = x)).
Proof.
  unfold nbrs. intros (e & He & Hk & Harc)%neighbors_spec.
  exists (edge3 e). split; [apply elem_of_graph_edges; eauto|].
  destruct Harc as [[<- ->]|(_ & <- & ->)]; simpl; rewrite num_z_or0; auto.
Qed.

Lemma graph_nbrs x y w :
  (x, y, w) ∈ graph_edges g →
  ∃ a, a ∈ nbrs x ∧ adj_to a = y ∧ num_z (adj_weight a) = w.
Proof.
  intros (e & He & Hk & [= -> -> ->])%elem_of_graph_edges.
  exists (arc_entry e (to e)). split; [|split; [done|simpl; apply num_z_or0]].
  apply neighbors_spec. exists e. split; [done|]. split; [done|]. by left.
Qed.

(** The accepted edges, the newest first. *)
Definition pforest (s : PState) : list (@wedge string) :=
  reverse ((λ m, (me_from m, me_to m, num_z (me_weight m))) <$> ps_mstEdges s).

(** [x] has an arc of weight at most [w0] to a node outside [visited]. *)
Definition crossing (visited : list string) (w0 : Z) (x : string) : Prop :=
  ∃ a, a ∈ nbrs x ∧ (adj_to a ∉ visited) ∧ num_z (adj_weight a) ≤ w0.

Record pmst (s : PState) : Prop := {
  pm_visited : ∀ x, x ∈ ps_visited s → x ∈ node_ids g;
  pm_forest : forest (node_ids g) (pforest s);
  pm_ends : ∀ e, e ∈ pforest s → e.1.1 ∈ ps_visited s ∧ e.1.2 ∈ ps_visited s;
  pm_within : within (graph_edges g) (pforest s);
  pm_sound : ∀ q, q ∈ ps_queue s →
     pe_from q ∈ ps_visited s ∧ (pe_to q ∉ ps_visited s) ∧
     ∃ a, a ∈ nbrs (pe_from q) ∧ q = frontier_edge (pe_from q) a;
  pm_complete : ∀ x a, x ∈ ps_visited s → a ∈ nbrs x → adj_to a ∉ ps_visited s →
     frontier_edge x a ∈ ps_queue s;
  pm_sorted : StronglySorted (λ a b, num_z (pe_weight a) ≤ num_z (pe_weight b))
                (ps_queue s);
  pm_cross : ∀ w0 x y, x ∈ ps_visited s → y ∈ ps_visited s →
     crossing (ps_visited s) w0 x → crossing (ps_visited s) w0 y →
     conn (light w0 (pforest s)) x y;
  pm_inner : ∀ w0 x a, x ∈ ps_visited s → a ∈ nbrs x → adj_to a ∈ ps_visited s →
     num_z (adj_weight a) ≤ w0 → conn (light w0 (pforest s)) x (adj_to a);
  pm_weights : ∀ m, m ∈ ps_mstEdges s → ∃ e, e ∈ edges g ∧ me_weight m = weight e
}.

Lemma pmst_init : start ∈ node_ids g → pmst (prim_first (adj_lists g) start).
Proof.
  intros Hstart. unfold prim_first. fold (nbrs start).
  assert (∀ x, x ∈ set_add [] start ↔ x = start) as Hvis.
  { intros x. rewrite elem_of_set_add, elem_of_nil. tauto. }
  split; cbn [ps_visited ps_queue ps_mstEdges]; unfold pforest;
    cbn [ps_mstEdges fmap list_fmap reverse rev_append].
  - intros x ->%Hvis. done.
  - constructor.
  - intros e He. by apply elem_of_nil in He.
  - intros e He. by apply elem_of_nil in He.
  - intros q Hq. rewrite sort_by_elem_of in Hq.
    apply elem_of_push_neighbors in Hq as [Hq|(a & Ha & Ht & Hv & ->)];
      [by apply elem_of_nil in Hq|].
    cbn [frontier_edge pe_from pe_to]. split; [by apply Hvis|].
    split; [exact Hv|]. eauto.
  - intros x a ->%Hvis Ha Hv. rewrite sort_by_elem_of.
    apply elem_of_push_neighbors.
    right. exists a. split; [done|]. split; [|done].
    by apply neighbors_known in Ha as [? _].
  - apply sort_by_pedge_sorted. apply Forall_forall. intros q Hq.
    apply elem_of_push_neighbors in Hq as [Hq|(a & Ha & _ & _ & ->)];
      [by apply elem_of_nil in Hq|].
    by eapply frontier_finite.
  - intros w0 x y ->%Hvis ->%Hvis _ _. apply conn_refl.
  - intros w0 x a ->%Hvis Ha ->%Hvis _. apply conn_refl.
  - intros m Hm. by apply elem_of_nil in Hm.
Qed.

Lemma pforest_snoc s v q m t st n :
  pforest {| ps_visited := v; ps_queue := q;
             ps_mstEdges := ps_mstEdges s ++ [m];
             ps_totalCost := t; ps_steps := st; ps_stepCount := n |}
  = (me_from m, me_to m, num_z (me_weight m)) :: pforest s.
Proof. unfold pforest. cbn [ps_mstEdges]. by rewrite fmap_app, reverse_app. Qed.

Lemma pmst_body s cur rest :
  pmst s → ps_queue s = cur :: rest →
  pmst (prim_step (adj_lists g) s cur rest).
Proof.
  intros [Hvis Hforest Hends Hwithin Hsound Hcomplete Hsorted Hcross Hinner Hweights] Hq.
  rewrite Hq in Hsound, Hcomplete, Hsorted.
  destruct (Hsound cur) as (Hu & Hv & a0 & Ha0 & Hcur); [by left|].
  pose proof (f_equal pe_to Hcur) as Hto. pose proof (f_equal pe_weight Hcur) as Hw.
  cbn [frontier_edge pe_to pe_weight] in Hto, Hw.
  rewrite (or0_finite _ (nbrs_finite _ _ Ha0)) in Hw.
  destruct (neighbors_known g _ _ Ha0) as [Htruthy Hvnode].
  rewrite <- Hto in Htruthy, Hvnode.
  assert (∀ x a, x ∈ ps_visited s → a ∈ nbrs x → adj_to a ∉ ps_visited s →
            num_z (pe_weight cur) ≤ num_z (adj_weight a)) as Hmin.
  { intros x a Hx Ha Hout. specialize (Hcomplete x a Hx Ha Hout).
    apply elem_of_cons in Hcomplete as [Heq|Hin].
    - rewrite <- Heq. simpl. rewrite num_z_or0. lia.
    - apply StronglySorted_inv in Hsorted as [_ Hall].
      rewrite Forall_forall in Hall. specialize (Hall _ Hin). simpl in Hall.
      by rewrite num_z_or0 in Hall. }
  unfold prim_step. rewrite Htruthy. cbn [negb].
  rewrite (proj2 (set_has_false _ _) Hv).
  set (V' := set_add (ps_visited s) (pe_to cur)).
  assert (∀ x, x ∈ V' ↔ x ∈ ps_visited s ∨ x = pe_to cur) as HV'.
  { intros x. apply elem_of_set_add. }
  set (Q' := sort_by pedge_le _).
  assert (∀ q, q ∈ Q' ↔
            (pe_to q ∉ V') ∧ truthy (pe_to q) = true ∧
            (q ∈ rest ∨ ∃ a, a ∈ nbrs (pe_to cur) ∧ q = frontier_edge (pe_to cur) a))
    as HQ'.
  { intros q. unfold Q'. rewrite sort_by_elem_of, list_elem_of_filter.
    rewrite elem_of_push_neighbors. fold (nbrs (pe_to cur)). split.
    - intros [Hf Hin]. apply Is_true_true, andb_true_iff in Hf as [Ht Hn].
      apply negb_true_iff, set_has_false in Hn. split; [done|]. split; [done|].
      destruct Hin as [?|(a & ? & _ & _ & ?)]; eauto.
    - intros (Hn & Ht & Hin). split.
      + apply Is_true_true, andb_true_iff. split; [done|].
        by apply negb_true_iff, set_has_false.
      + destruct Hin as [?|(a & Ha & ->)]; [by left|right].
        exists a. by repeat split. }
  assert (StronglySorted (λ a b, num_z (pe_weight a) ≤ num_z (pe_weight b)) Q')
    as HsortedQ.
  { unfold Q'. apply sort_by_pedge_sorted. apply Forall_forall. intros q Hin.
    apply list_elem_of_filter in Hin as [_ Hin].
    apply elem_of_push_neighbors in Hin as [Hin|(a & Ha & _ & _ & ->)].
    - destruct (Hsound q) as (_ & _ & a & Ha & ->); [by right|].
      by eapply frontier_finite.
    - by eapply frontier_finite. }
  set (F := pforest s) in *. set (u := pe_from cur) in *.
  set (v := pe_to cur) in *. set (wf := num_z (pe_weight cur)) in *.
  assert (∀ w0 x y, conn (light w0 F) x y → conn (light w0 ((u, v, wf) :: F)) x y)
    as Hmono.
  { intros w0 x y. apply conn_mono. intros e [He1 He2]%elem_of_light.
    apply elem_of_light. split; [done|by right]. }
  assert (∀ w0, wf ≤ w0 → conn (light w0 ((u, v, wf) :: F)) u v) as Huv.
  { intros w0 Hle. apply conn_joins. exists wf. left. apply elem_of_light.
    split; [done|by left]. }
  assert (∀ w0 x, x ∈ ps_visited s → crossing (ps_visited s) w0 x →
            conn (light w0 ((u, v, wf) :: F)) x v) as Hkey.
  { intros w0 x Hx (a & Ha & Hout & Hle).
    pose proof (Hmin x a Hx Ha Hout) as Hle'.
    eapply conn_trans; [|apply Huv; lia]. apply Hmono.
    apply Hcross; [done..|exists a; eauto|].
    exists a0. split; [done|]. rewrite <- Hto, <- Hw. split; [done|lia]. }
  assert (∀ w0 x, crossing V' w0 x → crossing (ps_visited s) w0 x) as Hcr.
  { intros w0 x (a & Ha & Hout & Hle). exists a. split; [done|]. split; [|done].
    intros Hin. apply Hout, HV'. by left. }
  split; cbn [ps_visited ps_queue ps_mstEdges]; fold V' Q';
    rewrite ?pforest_snoc; cbn [me_from me_to me_weight];
    rewrite ?num_z_or0; fold F u v wf.
  - intros x [Hx| ->]%HV'; auto.
  - constructor; [done|by apply Hvis|done|].
    intros [Heq|(e & He & Hend)]%conn_ends.
    + apply Hv. by rewrite <- Heq.
    + destruct (Hends e He) as [H1 H2]. destruct Hend as [<-|<-]; done.
  - intros e [->|He]%elem_of_cons; simpl.
    + split; apply HV'; auto.
    + destruct (Hends e He). split; apply HV'; auto.
  - intros e [->|He]%elem_of_cons; [|by apply Hwithin].
    destruct (nbrs_graph _ _ Ha0) as (e' & He' & Hw' & Hends').
    exists e'. split; [done|]. simpl. unfold wf. rewrite Hto, Hw. done.
  - intros q (Hn & Ht & Hin)%HQ'. split; [|split; [done|]].
    + destruct Hin as [Hin|(a & Ha & ->)].
      * apply HV'. left. apply Hsound. by right.
      * apply HV'. by right.
    + destruct Hin as [Hin|(a & Ha & ->)].
      * apply Hsound. by right.
      * exists a. done.
  - intros x a Hx Ha Hout. apply HQ'. split; [done|].
    split; [by apply neighbors_known in Ha as [? _]|].
    apply HV' in Hx as [Hx| ->]; [left|right; eauto].
    assert (adj_to a ∉ ps_visited s) as Hout'.
    { intros Hin. apply Hout, HV'. by left. }
    specialize (Hcomplete x a Hx Ha Hout').
    apply elem_of_cons in Hcomplete as [Heq|Hin]; [|done].
    exfalso. apply Hout, HV'. right. unfold v. by rewrite <- Heq.
  - exact HsortedQ.
  - intros w0 x y [Hx| ->]%HV' [Hy| ->]%HV' Hcx Hcy.
    + apply Hmono, Hcross; auto.
    + apply Hkey; auto.
    + apply conn_sym, Hkey; auto.
    + apply conn_refl.
  - intros w0 x a [Hx| ->]%HV' Ha [Hy|Hy]%HV' Hle.
    + apply Hmono, Hinner; auto.
    + rewrite Hy. apply Hkey; [done|]. exists a. rewrite Hy. done.
    + destruct (nbrs_sym _ _ Ha) as (a' & Ha' & Hto' & Hw').
      apply conn_sym, Hkey; [done|]. exists a'. rewrite Hto', Hw'. done.
    + rewrite Hy. apply conn_refl.
  - intros m [Hm| ->%list_elem_of_singleton]%elem_of_app; [by apply Hweights|].
    destruct (nbrs_weight _ _ Ha0) as (e & He & Hwe). exists e. split; [done|].
    cbn [me_weight]. rewrite Hw, <- Hwe. apply or0_finite. by eapply nbrs_finite.
Qed.

Lemma pmst_final s :
  start ∈ node_ids g → prim_final_state g start = Some s →
  pmst s ∧ (ps_queue s = [] ∨ ¬ (length (ps_visited s) < length (nodes g))%nat).
Proof.
  intros Hstart Hrun.
  apply (prim_final_state_invariant g pmst start s); [|done].
  intros adjList Hadj. rewrite Hlists in Hadj.
  injection Hadj as <-. split; [by apply pmst_init|].
  intros s0 cur rest Hs0 Hq _. by apply pmst_body.
Qed.

Lemma pbasic_final_lists s :
  prim_final_state g start = Some s → pbasic start (λ x, x ∈ node_ids g) s.
Proof.
  intros Hrun. apply (pbasic_final g start (λ x, x ∈ node_ids g) s); [|done].
  intros adjList k a Hadj Ha. rewrite Hlists in Hadj. injection Hadj as <-.
  by apply neighbors_known in Ha as [_ ?].
Qed.

(** On a connected graph the loop ends with every node visited. *)
Lemma prim_visits_all s x :
  connected_graph g → start ∈ node_ids g →
  prim_final_state g start = Some s → x ∈ node_ids g → x ∈ ps_visited s.
Proof.
  intros Hconn Hstart Hrun Hx.
  destruct (pmst_final s Hstart Hrun) as [Hm Hend].
  pose proof (pbasic_final_lists s Hrun) as Hb.
  destruct Hend as [Hempty|Hfull].
  - assert (∀ a b, conn (graph_edges g) a b → a ∈ ps_visited s → b ∈ ps_visited s)
      as Hclosed.
    { intros a b. induction 1 as [|a b c _ IH [w Hj]]; [done|]. intros Ha.
      specialize (IH Ha).
      assert (∃ arc, arc ∈ nbrs b ∧ adj_to arc = c) as (arc & Harc & Hto).
      { destruct Hj as [Hj|Hj].
        - apply graph_nbrs in Hj as (arc & ? & ? & _). eauto.
        - apply graph_nbrs in Hj as (arc & Harc & Hto & _).
          destruct (nbrs_sym _ _ Harc) as (arc' & Harc' & Hto' & _).
          exists arc'. by rewrite Hto in Harc'. }
      destruct (decide (c ∈ ps_visited s)) as [|Hout]; [done|].
      rewrite <- Hto in Hout.
      pose proof (pm_complete _ Hm b arc IH Harc Hout) as Hin.
      rewrite Hempty in Hin. by apply elem_of_nil in Hin. }
    apply (Hclosed start x); [by apply Hconn|]. apply Hb.
  - destruct (decide (x ∈ ps_visited s)) as [|Hout]; [done|].
    exfalso. apply Hfull. rewrite <- (node_ids_length g).
    apply (NoDup_missing_length _ _ x); [apply Hb|apply Hm|done..].
Qed.

End PrimForest.

(** The tree that Prim returns. *)
Definition prim_forest (r : PResult) : list (@wedge string) :=
  reverse ((λ m, (me_from m, me_to m, num_z (me_weight m)))
             <$> pf_mstEdges (p_finalResult r)).

(** The doubles that Prim adds up, in the order of acceptance. *)
Definition prim_weights (r : PResult) : list Num :=
  map me_weight (pf_mstEdges (p_finalResult r)).

Lemma prim_forest_spec g startNodeId start r :
  createAdjacencyList g = Ok (adj_lists g) → finite_weights g →
  (∀ e, e ∈ edges g → directed e = false) →
  connected_graph g →
  prim_start g startNodeId = Some start → start ∈ node_ids g →
  primAlgorithm g startNodeId = Ok r →
  pf_totalCost (p_finalResult r) = sum_num (prim_weights r) ∧
  (∀ m, m ∈ pf_mstEdges (p_finalResult r) →
        ∃ e, e ∈ edges g ∧ me_weight m = weight e) ∧
  forest (node_ids g) (prim_forest r) ∧
  spans (graph_edges g) (prim_forest r) ∧
  within (graph_edges g) (prim_forest r).
Proof.
  intros Hplain Hfin Hund Hconn Hstart Hin Hrun.
  apply primAlgorithm_Ok in Hrun as (_ & start' & s & Hstart' & _ & Hs & ->).
  assert (start' = start) as -> by congruence.
  destruct (pmst_final g start Hplain Hfin Hund s Hin Hs) as [Hm _].
  pose proof (pbasic_final_lists g start Hplain s Hs) as Hb.
  unfold prim_forest, prim_weights. cbn [p_finalResult pf_mstEdges pf_totalCost].
  fold (pforest s).
  split; [exact (pb_cost _ _ _ Hb)|]. split; [apply Hm|].
  split; [apply Hm|split; [|apply Hm]].
  intros x (e & He & Hk & ->)%elem_of_graph_edges. simpl.
  assert (arc_entry e (to e) ∈ nbrs g (from e)) as Harc.
  { apply neighbors_spec. exists e. split; [done|]. split; [done|]. by left. }
  destruct Hk as (_ & _ & Hfrom & Hto).
  apply (pm_inner _ _ Hm (wz e) (from e) (arc_entry e (to e))); [|done| |].
  - by apply (prim_visits_all g start Hplain Hfin Hund s).
  - by apply (prim_visits_all g start Hplain Hfin Hund s).
  - simpl. rewrite num_z_or0. unfold wz. lia.
Qed.

(** When Prim returns on a graph without directed edges, the adjacency
    list it worked on is [adj_lists g]. *)
Lemma prim_returns_lists g startNodeId r :
  (∀ e, e ∈ edges g → directed e = false) →
  primAlgorithm g startNodeId = Ok r →
  createAdjacencyList g = Ok (adj_lists g).
Proof.
  intros Hund (_ & start & s & _ & _ & Hs & _)%primAlgorithm_Ok.
  apply prim_final_state_Some in Hs as (adjList & Hadj & _).
  by rewrite Hadj, (createAdjacencyList_undirected g adjList Hund Hadj).
Qed.

(** ** Totals that involve no rounding *)

(** [exact_weights j W g]: every weight of [g] is [m * 2^(j - 1074)] for a
    whole number [m] from [0] to [W], and as many such weights as the
    graph has nodes add up to at most [2^53] times that unit: every sum
    that an engine forms is a double, so no sum is rounded.  With
    [j = 1074] the weights are the whole numbers from [0] to [W]. *)
Definition exact_weights (j W : Z) (g : Graph) : Prop :=
  0 ≤ j ≤ 2044 ∧ 0 ≤ W ∧ Z.of_nat (length (nodes g)) * W ≤ 2 ^ 53 ∧
  Forall (λ e, scaled j W (weight e)) (edges g).

Global Instance exact_weights_dec j W g : Decision (exact_weights j W g).
Proof. unfold exact_weights. apply _. Defined.

Lemma exact_weights_finite j W g : exact_weights j W g → finite_weights g.
Proof.
  intros (_ & _ & _ & Hall). unfold finite_weights.
  eapply Forall_impl; [exact Hall|]. intros e. apply scaled_finite.
Qed.

Lemma remove_dups_length `{EqDecision T} (l : list T) :
  (length (remove_dups l) ≤ length l)%nat.
Proof. induction l as [|x l IH]; simpl; [done|]. case_match; simpl; lia. Qed.

Lemma forest_remove_dups `{Countable T} (l : list T) F :
  forest l F → forest (remove_dups l) F.
Proof.
  induction 1; constructor; auto; by apply elem_of_remove_dups.
Qed.

(** A forest has fewer edges than vertices. *)
Lemma forest_length `{Countable T} (l : list T) (F : list (@wedge T)) :
  forest l F → (length F ≤ length l)%nat.
Proof.
  intros HF%forest_remove_dups.
  pose proof (forest_count _ _ (NoDup_remove_dups l) HF).
  pose proof (remove_dups_length l). lia.
Qed.

Lemma kruskal_total_exact j W g r :
  exact_weights j W g → kruskalAlgorithm g = Ok r →
  kf_totalCost (k_finalResult r) = Fin (sumZ (weights (kruskal_forest r))).
Proof.
  intros Hex Hrun.
  destruct (kruskal_forest_spec g r (exact_weights_finite _ _ _ Hex) Hrun)
    as (-> & Hin & HF & _ & _).
  destruct Hex as (Hj & HW & Hlen & Hall). rewrite Forall_forall in Hall.
  apply forest_length in HF. rewrite node_ids_length in HF.
  unfold kruskal_forest in HF. rewrite length_reverse, length_fmap in HF.
  rewrite (sum_num_exact j W); [| done | done | |].
  - f_equal. unfold kruskal_forest, weights, kruskal_weights.
    rewrite fmap_reverse, sumZ_reverse, <- !list_fmap_compose.
    f_equal. apply list_fmap_ext. intros i m _. simpl. apply num_z_or0.
  - unfold kruskal_weights. rewrite length_map. nia.
  - unfold kruskal_weights. apply Forall_forall. intros x Hx.
    apply list_elem_of_fmap in Hx as (m & -> & Hm).
    specialize (Hall _ (Hin m Hm)). by rewrite (scaled_or0 _ _ _ Hall).
Qed.

Lemma prim_total_exact j W g startNodeId start r :
  createAdjacencyList g = Ok (adj_lists g) → exact_weights j W g →
  (∀ e, e ∈ edges g → directed e = false) →
  connected_graph g →
  prim_start g startNodeId = Some start → start ∈ node_ids g →
  primAlgorithm g startNodeId = Ok r →
  pf_totalCost (p_finalResult r) = Fin (sumZ (weights (prim_forest r))).
Proof.
  intros Hplain Hex Hund Hconn Hstart Hnode Hrun.
  destruct (prim_forest_spec g startNodeId start r Hplain
              (exact_weights_finite _ _ _ Hex) Hund Hconn Hstart Hnode Hrun)
    as (-> & Hin & HF & _ & _).
  destruct Hex as (Hj & HW & Hlen & Hall). rewrite Forall_forall in Hall.
  apply forest_length in HF. rewrite node_ids_length in HF.
  unfold prim_forest in HF. rewrite length_reverse, length_fmap in HF.
  rewrite (sum_num_exact j W); [| done | done | |].
  - f_equal. unfold prim_forest, weights, prim_weights.
    by rewrite fmap_reverse, sumZ_reverse, <- !list_fmap_compose.
  - unfold prim_weights. rewrite length_map. nia.
  - unfold prim_weights. apply Forall_forall. intros x Hx.
    apply list_elem_of_fmap in Hx as (m & -> & Hm).
    destruct (Hin m Hm) as (e & He & ->). by apply Hall.
Qed.

(** ** Kruskal and Prim find the same total cost *)

(** A graph with two one-way edges: [A -> B] of weight 5 and [B -> A] of
    weight 1. *)
Definition one_way : Graph :=
  {| nodes := [{| nid := "A" |}; {| nid := "B" |}];
     edges :=
       [{| eid := Some "A-B"; from := "A"; to := "B"; weight := int 5;
           directed := true |};
        {| eid := Some "B-A"; from := "B"; to := "A"; weight := int 1;
           directed := true |}] |}.

(** A path whose first edge weighs [2^53], the first whole number that has
    no successor among the doubles. *)
Definition heavy_path : Graph :=
  {| nodes := [{| nid := "A" |}; {| nid := "B" |}; {| nid := "C" |};
               {| nid := "D" |}];
     edges :=
       [{| eid := Some "A-B"; from := "A"; to := "B"; weight := int (2 ^ 53);
           directed := false |};
        {| eid := Some "B-C"; from := "B"; to := "C"; weight := int 1;
           directed := false |};
        {| eid := Some "C-D"; from := "C"; to := "D"; weight := int 1;
           directed := false |}] |}.

(** Two nodes joined by an edge, and a second edge that starts at
    [constructor], which is no node but a name that every object
    inherits. *)
Definition stray_edge : Graph :=
  {| nodes := [{| nid := "A" |}; {| nid := "B" |}];
     edges :=
       [{| eid := Some "A-B"; from := "A"; to := "B"; weight := int 1;
           directed := false |};
        {| eid := Some "x"; from := "constructor"; to := "A"; weight := int 2;
           directed := false |}] |}.

(** C1, as the spec words it, fails in three ways.  On [one_way], which is
    connected, Kruskal takes the edge of weight 1 and Prim, started at
    [A], can only take the edge of weight 5.  On [heavy_path] both accept
    the same three edges, but Kruskal adds [1 + 1 + 2^53] and reports
    [2^53 + 2], while Prim adds [2^53 + 1 + 1], where each sum is rounded
    back to [2^53].  On [stray_edge] Kruskal returns and Prim fails
    with a [TypeError] while the adjacency list is built. *)
Theorem kruskal_prim_totals_differ :
  (validateGraph one_way = Ok tt ∧ connected_graph one_way ∧
   ∃ rk rp,
     kruskalAlgorithm one_way = Ok rk ∧ primAlgorithm one_way (Some "A") = Ok rp ∧
     kf_totalCost (k_finalResult rk) = int 1 ∧
     pf_totalCost (p_finalResult rp) = int 5) ∧
  (validateGraph heavy_path = Ok tt ∧ connected_graph heavy_path ∧
   (∀ e, e ∈ edges heavy_path → directed e = false) ∧
   ∃ rk rp,
     kruskalAlgorithm heavy_path = Ok rk ∧
     primAlgorithm heavy_path (Some "A") = Ok rp ∧
     kf_totalCost (k_finalResult rk) = int (2 ^ 53 + 2) ∧
     pf_totalCost (p_finalResult rp) = int (2 ^ 53)) ∧
  (validateGraph stray_edge = Ok tt ∧ connected_graph stray_edge ∧
   (∀ e, e ∈ edges stray_edge → directed e = false) ∧
   (∃ rk, kruskalAlgorithm stray_edge = Ok rk) ∧
   primAlgorithm stray_edge (Some "A")
   = Throw "Prim algorithm error: adjList[edge.from].push is not a function").
Proof.
  assert (∀ g a b w, (a, b, w) ∈ graph_edges g → conn (graph_edges g) a b) as Hj.
  { intros g a b w Hin. apply conn_joins. exists w. by left. }
  split; [|split].
  - split; [reflexivity|]. split.
    + assert (conn (graph_edges one_way) "A" "B") as Hab.
      { apply (Hj _ _ _ (5 * 2 ^ 1074)). vm_compute. by left. }
      intros a b Ha Hb. apply list_elem_of_In in Ha, Hb. simpl in Ha, Hb.
      destruct Ha as [<-|[<-|[]]], Hb as [<-|[<-|[]]];
        auto using conn_refl, conn_sym.
    + eexists _, _. split; [vm_compute; reflexivity|].
      split; [vm_compute; reflexivity|]. split; vm_compute; reflexivity.
  - split; [reflexivity|]. split; [|split].
    + assert (conn (graph_edges heavy_path) "A" "B") as Hab.
      { apply (Hj _ _ _ (2 ^ 53 * 2 ^ 1074)). vm_compute. by left. }
      assert (conn (graph_edges heavy_path) "B" "C") as Hbc.
      { apply (Hj _ _ _ (1 * 2 ^ 1074)). vm_compute. right. by left. }
      assert (conn (graph_edges heavy_path) "C" "D") as Hcd.
      { apply (Hj _ _ _ (1 * 2 ^ 1074)). vm_compute. right. right. by left. }
      assert (conn (graph_edges heavy_path) "A" "C") as Hac by (by eapply conn_trans).
      assert (conn (graph_edges heavy_path) "A" "D") as Had by (by eapply conn_trans).
      assert (conn (graph_edges heavy_path) "B" "D") as Hbd by (by eapply conn_trans).
      intros a b Ha Hb. apply list_elem_of_In in Ha, Hb. simpl in Ha, Hb.
      destruct Ha as [<-|[<-|[<-|[<-|[]]]]], Hb as [<-|[<-|[<-|[<-|[]]]]];
        auto using conn_refl, conn_sym.
    + intros e He. apply list_elem_of_In in He. simpl in He.
      destruct He as [<-|[<-|[<-|[]]]]; reflexivity.
    + eexists _, _. split; [vm_compute; reflexivity|].
      split; [vm_compute; reflexivity|]. split; vm_compute; reflexivity.
  - split; [reflexivity|]. split; [|split; [|split]].
    + assert (conn (graph_edges stray_edge) "A" "B") as Hab.
      { apply (Hj _ _ _ (1 * 2 ^ 1074)). vm_compute. by left. }
      intros a b Ha Hb. apply list_elem_of_In in Ha, Hb. simpl in Ha, Hb.
      destruct Ha as [<-|[<-|[]]], Hb as [<-|[<-|[]]];
        auto using conn_refl, conn_sym.
    + intros e He. apply list_elem_of_In in He. simpl in He.
      destruct He as [<-|[<-|[]]]; reflexivity.
    + eexists. vm_compute. reflexivity.
    + vm_compute. reflexivity.
Qed.

(** C1, amended.  On a valid connected graph without directed edges whose
    weights are multiples of one power of two that add up without
    rounding, Kruskal returns, and whenever Prim, started at a node of
    the graph, returns as well, the two total costs are equal, however
    ties between equal weights are broken.  Prim does return when no id
    of the graph is a name that objects inherit. *)
Theorem kruskal_prim_same_total_cost j W g startNodeId start :
  validateGraph g = Ok tt →
  exact_weights j W g →
  (∀ e, e ∈ edges g → directed e = false) →
  connected_graph g →
  prim_start g startNodeId = Some start → truthy start = true →
  start ∈ node_ids g →
  ∃ rk,
    kruskalAlgorithm g = Ok rk ∧
    (∀ rp, primAlgorithm g startNodeId = Ok rp →
           kf_totalCost (k_finalResult rk) = pf_totalCost (p_finalResult rp)) ∧
    (plain_ids g → ∃ rp, primAlgorithm g startNodeId = Ok rp).
Proof.
  intros Hv Hex Hund Hconn Hstart Ht Hin.
  pose proof (exact_weights_finite _ _ _ Hex) as Hfin.
  destruct (kruskalAlgorithm_total g Hv) as [rk Hrk].
  exists rk. split; [done|]. split.
  - intros rp Hrp.
    pose proof (prim_returns_lists g startNodeId rp Hund Hrp) as Hlists.
    rewrite (kruskal_total_exact j W g rk Hex Hrk).
    rewrite (prim_total_exact j W g startNodeId start rp Hlists Hex Hund Hconn
               Hstart Hin Hrp).
    destruct (kruskal_forest_spec g rk Hfin Hrk) as (_ & _ & HFk & Hsk & Hwk).
    destruct (prim_forest_spec g startNodeId start rp Hlists Hfin Hund Hconn
                Hstart Hin Hrp) as (_ & _ & HFp & Hsp & Hwp).
    f_equal. apply (forests_same_weight (remove_dups (node_ids g))).
    + apply NoDup_remove_dups.
    + by apply forest_remove_dups.
    + by apply forest_remove_dups.
    + intros w0 x y _ _.
      rewrite <- (spans_same_conn (graph_edges g) (kruskal_forest rk)) by done.
      by apply spans_same_conn.
  - intros Hplain.
    destruct (prim_final_state_total g start Hplain) as [s Hs].
    { by eapply plain_node_ids. }
    eexists. apply primAlgorithm_Ok. split; [done|]. by exists start, s.
Qed.

Lemma kruskal_prim_same_total_cost_witness :
  ∃ rk rp,
    kruskalAlgorithm triangle = Ok rk ∧ primAlgorithm triangle (Some "C") = Ok rp ∧
    kf_totalCost (k_finalResult rk) = pf_totalCost (p_finalResult rp).
Proof.
  destruct (kruskal_prim_same_total_cost 1074 3 triangle (Some "C") "C")
    as (rk & Hrk & Heq & Hret).
  - reflexivity.
  - by_decide.
  - intros e He. apply list_elem_of_In in He. simpl in He.
    destruct He as [<-|[<-|[<-|[]]]]; reflexivity.
  - assert (∀ a b w, (a, b, w) ∈ graph_edges triangle →
                     conn (graph_edges triangle) a b) as Hj.
    { intros a b w Hin. apply conn_joins. exists w. by left. }
    assert (conn (graph_edges triangle) "A" "B") as Hab.
    { apply (Hj _ _ (1 * 2 ^ 1074)). vm_compute. by left. }
    assert (conn (graph_edges triangle) "B" "C") as Hbc.
    { apply (Hj _ _ (2 * 2 ^ 1074)). vm_compute. right. by left. }
    assert (conn (graph_edges triangle) "A" "C") as Hac.
    { by eapply conn_trans. }
    intros a b Ha Hb. apply list_elem_of_In in Ha, Hb. simpl in Ha, Hb.
    destruct Ha as [<-|[<-|[<-|[]]]], Hb as [<-|[<-|[<-|[]]]];
      auto using conn_refl, conn_sym.
  - reflexivity.
  - reflexivity.
  - apply list_elem_of_In. simpl. auto.
  - destruct Hret as [rp Hrp]; [by_decide|].
    exists rk, rp. split; [exact Hrk|]. split; [exact Hrp|]. exact (Heq rp Hrp).
Defined.

(** ** Frozen cells *)

Section Frozen.
Local Open Scope nat_scope.

(** [modifies live σ σ']: [σ'] extends [σ], and the cells of [σ] outside
    [live] hold in [σ'] what they held in [σ]. *)
Definition modifies (live : list loc) (σ σ' : Store) : Prop :=
  length σ ≤ length σ' ∧
  ∀ l, l < length σ → l ∉ live → σ' !! l = σ !! l.

(** [frozen ls σe live σ]: the cells [ls], allocated in [σe], are not
    among the live locations, and [σ] holds in them what [σe] held. *)
Definition frozen (ls : list loc) (σe : Store) (live : list loc) (σ : Store) : Prop :=
  length σe ≤ length σ ∧
  ∀ l, l ∈ ls → l < length σe ∧ (l ∉ live) ∧ σ !! l = σe !! l.

Lemma modifies_refl live σ : modifies live σ σ.
Proof. by split. Qed.

Lemma modifies_write live σ σ1 l c :
  modifies live σ σ1 → l ∈ live ∨ length σ ≤ l → modifies live σ (write l c σ1).
Proof.
  intros [Hlen H] Hl. split; [unfold write; by rewrite length_insert|].
  intros l' Hl' Hn. unfold write. rewrite list_lookup_insert_ne; [by apply H|].
  intros ->. destruct Hl; [done|lia].
Qed.

Lemma modifies_alloc live σ σ1 c :
  modifies live σ σ1 → modifies live σ (σ1 ++ [c]).
Proof.
  intros [Hlen H]. split; [rewrite length_app; simpl; lia|].
  intros l Hl Hn. rewrite lookup_app_l by lia. by apply H.
Qed.

Lemma frozen_new ls σ live :
  (∀ l, l ∈ ls → l < length σ ∧ (l ∉ live)) → frozen ls σ live σ.
Proof. intros H. split; [done|]. intros l Hl. destruct (H l Hl). auto. Qed.

(** Cells stay frozen when the engine writes to live cells only, and its
    live locations change to others that were live or are new. *)
Lemma frozen_step ls σe live live' σ σ' :
  frozen ls σe live σ → modifies live σ σ' →
  (∀ l, l ∈ live' → l ∈ live ∨ length σ ≤ l) → frozen ls σe live' σ'.
Proof.
  intros [Hlen Hls] [Hlen' Hm] Hsub. split; [lia|].
  intros l Hl. destruct (Hls l Hl) as (H1 & H2 & H3).
  split; [done|]. split.
  - intros Hin. destruct (Hsub l Hin); [done|lia].
  - rewrite Hm; [done|lia|done].
Qed.

Lemma frozen_lookup ls σe live σ l :
  frozen ls σe live σ → l ∈ ls → σ !! l = σe !! l.
Proof. intros [_ H] Hl. by destruct (H l Hl) as (_ & _ & ?). Qed.

Lemma hold_write_eq l c (σ : Store) c0 :
  σ !! l = Some c0 → write l c σ !! l = Some c.
Proof.
  intros H. unfold write. apply list_lookup_insert_eq. by eapply lookup_lt_Some.
Qed.

Lemma hold_write_ne l l' c c' (σ : Store) :
  σ !! l' = Some c' → l ≠ l' → write l c σ !! l' = Some c'.
Proof. intros H Hl. unfold write. by rewrite list_lookup_insert_ne. Qed.

Lemma hold_alloc_old c c0 (σ : Store) l :
  σ !! l = Some c0 → (σ ++ [c]) !! l = Some c0.
Proof. intros H. by apply lookup_app_l_Some. Qed.

Lemma hold_alloc_new c (σ : Store) : (σ ++ [c]) !! length σ = Some c.
Proof. rewrite lookup_app_r by done. by rewrite Nat.sub_diag. Qed.

Lemma length_write l c (σ : Store) : length (write l c σ) = length σ.
Proof. unfold write. apply length_insert. Qed.

Lemma get_strings_hold (σ : Store) l x :
  σ !! l = Some (CStrings x) → get_strings σ l = x.
Proof. unfold get_strings. by intros ->. Qed.

Lemma get_pedges_hold (σ : Store) l x :
  σ !! l = Some (CPEdges x) → get_pedges σ l = x.
Proof. unfold get_pedges. by intros ->. Qed.

Lemma get_medges_hold (σ : Store) l x :
  σ !! l = Some (CMEdges x) → get_medges σ l = x.
Proof. unfold get_medges. by intros ->. Qed.

Lemma get_dists_hold (σ : Store) l x :
  σ !! l = Some (CDists x) → get_dists σ l = x.
Proof. unfold get_dists. by intros ->. Qed.

Lemma get_prevs_hold (σ : Store) l x :
  σ !! l = Some (CPrevs x) → get_prevs σ l = x.
Proof. unfold get_prevs. by intros ->. Qed.

Lemma get_queue_hold (σ : Store) l x :
  σ !! l = Some (CQueue x) → get_queue σ l = x.
Proof. unfold get_queue. by intros ->. Qed.

Lemma get_updates_hold (σ : Store) l x :
  σ !! l = Some (CUpdates x) → get_updates σ l = x.
Proof. unfold get_updates. by intros ->. Qed.

Lemma get_paths_hold (σ : Store) l x :
  σ !! l = Some (CPaths x) → get_paths σ l = x.
Proof. unfold get_paths. by intros ->. Qed.

Lemma get_uf_hold (σ : Store) l x :
  σ !! l = Some (CUF x) → get_uf σ l = x.
Proof. unfold get_uf. by intros ->. Qed.

Lemma get_sedges_hold (σ : Store) l x :
  σ !! l = Some (CSEdges x) → get_sedges σ l = x.
Proof. unfold get_sedges. by intros ->. Qed.

Lemma get_comps_hold (σ : Store) l x :
  σ !! l = Some (CComps x) → get_comps σ l = x.
Proof. unfold get_comps. by intros ->. Qed.

Lemma modifies_trans live σ1 σ2 σ3 :
  modifies live σ1 σ2 → modifies live σ2 σ3 → modifies live σ1 σ3.
Proof.
  intros [L1 H1] [L2 H2]. split; [lia|]. intros l Hl Hn.
  rewrite H2, H1; [done..|lia|done].
Qed.

End Frozen.

(** *** The store run and the run on values *)

(** Each collection of the step is a copy of the live one at the moment
    of the push.  The queue of the [complete] step is written as [[]]: it
    is a copy of the live queue when no id of the graph is a name that
    objects inherit. *)
Definition pentry_matches (g : Graph) (e : PEntry) : Prop :=
  let st := pderef (pen_store e) (pen_ref e) in
  p_visitedNodes st = get_strings (pen_store e) (pl_visited (pen_live e)) ∧
  (p_action st ≠ complete ∨ plain_ids g →
   p_priorityQueue st = get_pedges (pen_store e) (pl_queue (pen_live e))) ∧
  p_mstEdges st = get_medges (pen_store e) (pl_mst (pen_live e)) ∧
  p_totalCost st = pl_total (pen_live e).

Definition pentry_frozen (h : PHeap) (e : PEntry) : Prop :=
  frozen (plocs (pen_ref e)) (pen_store e) (plive_locs (ph_live h)) (ph_store h).

Ltac in_list :=
  repeat first [apply list_elem_of_here | apply list_elem_of_further].

(** A step reads in the store of every later push as in its own. *)
Definition phist (log : list PEntry) : Prop :=
  ∀ i j ei ej, (i ≤ j)%nat → log !! i = Some ei → log !! j = Some ej →
    pderef (pen_store ej) (pen_ref ei) = pderef (pen_store ei) (pen_ref ei).

Lemma pderef_frozen r σe live σ :
  frozen (plocs r) σe live σ → pderef σ r = pderef σe r.
Proof.
  intros F. unfold pderef, get_strings, get_pedges, get_medges.
  rewrite !(frozen_lookup _ _ _ _ _ F) by (unfold plocs; in_list).
  f_equal. destruct (pr_newEdgesAdded r) as [l|] eqn:E; [|done]. simpl.
  rewrite (frozen_lookup _ _ _ _ l F); [done|].
  unfold plocs. rewrite E. in_list.
Qed.

Record prel (g : Graph) (h : PHeap) (s : PState) : Prop := {
  prel_visited :
    ph_store h !! pl_visited (ph_live h) = Some (CStrings (ps_visited s));
  prel_queue :
    ph_store h !! pl_queue (ph_live h) = Some (CPEdges (ps_queue s));
  prel_mst :
    ph_store h !! pl_mst (ph_live h) = Some (CMEdges (ps_mstEdges s));
  prel_total : pl_total (ph_live h) = ps_totalCost s;
  prel_count : pl_stepCount (ph_live h) = ps_stepCount s;
  prel_steps :
    map (λ e, pderef (pen_store e) (pen_ref e)) (ph_log h) = ps_steps s;
  prel_frozen : Forall (pentry_frozen h) (ph_log h);
  prel_match : Forall (pentry_matches g) (ph_log h);
  prel_hist : phist (ph_log h)
}.

Ltac lookups :=
  repeat first
    [ apply hold_alloc_new
    | eapply hold_write_eq
    | eapply hold_write_ne; [|first [done | lia | intros ?; congruence]]
    | eapply hold_alloc_old
    | eassumption ].

Lemma prim_push_rel g h s n cur q m total a ne count :
  prel g h s →
  (∀ ln, ne = Some ln →
     (ln < length (ph_store h))%nat ∧ (ln ∉ plive_locs (ph_live h))) →
  (a ≠ complete ∨ plain_ids g → q = ps_queue s) →
  m = ps_mstEdges s → total = ps_totalCost s →
  prel g (prim_push h n cur q m total a ne count)
    {| ps_visited := ps_visited s; ps_queue := ps_queue s;
       ps_mstEdges := ps_mstEdges s; ps_totalCost := ps_totalCost s;
       ps_steps := ps_steps s ++
         [{| p_step := n; p_currentEdge := cur;
             p_visitedNodes := ps_visited s; p_priorityQueue := q;
             p_mstEdges := m; p_totalCost := total; p_action := a;
             p_newEdgesAdded := get_pedges (ph_store h) <$> ne |}];
       ps_stepCount := count |}.
Proof.
  intros [Hv Hq Hm Ht Hc Hs Hf Hma Hh] Hne Hqeq -> ->.
  destruct h as [σ v log]. cbn [ph_store ph_live ph_log] in *.
  unfold prim_push, alloc. cbn [ph_store ph_live ph_log].
  assert (Hgv : get_strings σ (pl_visited v) = ps_visited s).
  { unfold get_strings. by rewrite Hv. }
  rewrite Hgv.
  set (c1 := CStrings _). set (c2 := CPEdges _). set (c3 := CMEdges _).
  assert (Hlv : (pl_visited v < length σ)%nat) by by eapply lookup_lt_Some.
  assert (Hlq : (pl_queue v < length σ)%nat) by by eapply lookup_lt_Some.
  assert (Hlm : (pl_mst v < length σ)%nat) by by eapply lookup_lt_Some.
  assert (L1 : (((σ ++ [c1]) ++ [c2]) ++ [c3]) !! length σ = Some c1).
  { do 2 apply hold_alloc_old. apply hold_alloc_new. }
  assert (L2 : (((σ ++ [c1]) ++ [c2]) ++ [c3]) !! length (σ ++ [c1]) = Some c2).
  { apply hold_alloc_old. apply hold_alloc_new. }
  assert (L3 : (((σ ++ [c1]) ++ [c2]) ++ [c3]) !! length ((σ ++ [c1]) ++ [c2]) = Some c3).
  { apply hold_alloc_new. }
  assert (Hmod : modifies (plive_locs v) σ (((σ ++ [c1]) ++ [c2]) ++ [c3])).
  { do 3 apply modifies_alloc. apply modifies_refl. }
  assert (Hlen : length (((σ ++ [c1]) ++ [c2]) ++ [c3]) = (length σ + 3)%nat).
  { rewrite !length_app. simpl. lia. }
  assert (Hold : ∀ l, (l < length σ)%nat →
            (((σ ++ [c1]) ++ [c2]) ++ [c3]) !! l = σ !! l).
  { intros l Hl. rewrite !lookup_app_l; [done|lia|rewrite length_app; lia|
      rewrite !length_app; lia]. }
  assert (Hstep : pderef (((σ ++ [c1]) ++ [c2]) ++ [c3])
      {| pr_step := n; pr_currentEdge := cur; pr_visitedNodes := length σ;
         pr_priorityQueue := length (σ ++ [c1]);
         pr_mstEdges := length ((σ ++ [c1]) ++ [c2]);
         pr_totalCost := ps_totalCost s; pr_action := a;
         pr_newEdgesAdded := ne |} =
      {| p_step := n; p_currentEdge := cur;
         p_visitedNodes := ps_visited s; p_priorityQueue := q;
         p_mstEdges := ps_mstEdges s; p_totalCost := ps_totalCost s;
         p_action := a;
         p_newEdgesAdded := get_pedges σ <$> ne |}).
  { unfold pderef. cbn [pr_step pr_currentEdge pr_visitedNodes pr_priorityQueue
      pr_mstEdges pr_totalCost pr_action pr_newEdgesAdded].
    unfold get_strings at 1, get_pedges at 1, get_medges at 1.
    rewrite L1, L2, L3. subst c1 c2 c3.
    f_equal. destruct ne as [ln|]; [|done]. cbn.
    destruct (Hne ln eq_refl) as [Hln _].
    unfold get_pedges. by rewrite Hold. }
  split; cbn [ph_store ph_live ph_log pl_visited pl_queue pl_mst pl_total
    pl_stepCount ps_visited ps_queue ps_mstEdges ps_totalCost ps_steps
    ps_stepCount].
  - by rewrite Hold.
  - by rewrite Hold.
  - by rewrite Hold.
  - done.
  - done.
  - rewrite map_app, Hs. cbn [map pen_store pen_ref]. by rewrite Hstep.
  - apply Forall_app. split.
    + eapply Forall_impl; [exact Hf|]. intros e He. unfold pentry_frozen in *.
      cbn [ph_store ph_live] in *. eapply frozen_step; [exact He|exact Hmod|].
      intros l Hl. by left.
    + apply Forall_singleton. unfold pentry_frozen.
      cbn [ph_store ph_live pen_ref pen_store]. apply frozen_new.
      intros l Hl. unfold plocs in Hl.
      cbn [pr_visitedNodes pr_priorityQueue pr_mstEdges pr_newEdgesAdded] in Hl.
      unfold plive_locs. cbn [pl_visited pl_queue pl_mst].
      rewrite Hlen. rewrite !elem_of_cons in Hl.
      rewrite !not_elem_of_cons. rewrite !length_app in Hl. simpl in Hl.
      destruct Hl as [->|[->|[->|Hl]]]; try (split; [lia|]; split_and!; try lia;
        apply not_elem_of_nil).
      destruct ne as [ln|]; [|by apply elem_of_nil in Hl].
      apply list_elem_of_singleton in Hl. subst l.
      destruct (Hne ln eq_refl) as [Hln Hnl]. split; [lia|].
      unfold plive_locs in Hnl. rewrite !not_elem_of_cons in Hnl.
      split_and!; try tauto; apply not_elem_of_nil.
  - apply Forall_app. split; [done|]. apply Forall_singleton.
    unfold pentry_matches. cbn [pen_store pen_ref pen_live].
    rewrite Hstep. cbn [p_visitedNodes p_priorityQueue p_mstEdges p_totalCost
      p_action pl_visited pl_queue pl_mst pl_total].
    unfold get_strings, get_pedges, get_medges.
    rewrite !Hold by done. by rewrite Hv, Hq, Hm.
  - intros i j ei ej Hij Hi Hj.
    destruct (decide (j < length log)%nat) as [Hlt|Hge].
    { assert (i < length log)%nat by lia.
      rewrite lookup_app_l in Hi by done. rewrite lookup_app_l in Hj by done.
      exact (Hh i j ei ej Hij Hi Hj). }
    rewrite lookup_app_r in Hj by lia.
    apply list_lookup_singleton_Some in Hj as [Hj <-].
    cbn [pen_store]. destruct (decide (i < length log)%nat) as [Hlt|Hge'].
    + rewrite lookup_app_l in Hi by lia.
      rewrite Forall_forall in Hf. apply list_elem_of_lookup_2 in Hi.
      specialize (Hf _ Hi). unfold pentry_frozen in Hf. cbn [ph_store ph_live] in Hf.
      eapply pderef_frozen. eapply frozen_step; [exact Hf|exact Hmod|].
      intros l Hl. left. exact Hl.
    + rewrite lookup_app_r in Hi by lia.
      apply list_lookup_singleton_Some in Hi as [Hi <-]. done.
Qed.

Section PrimStoreRel.
Variable g : Graph.
Variable adjList : gmap string (list AdjEntry).

Lemma prim_body_rel h s currentEdge rest s' :
  prel g h s → ps_queue s = currentEdge :: rest →
  prim_body adjList s currentEdge rest = Ok s' →
  ∃ h', prim_body_h adjList h = Some h' ∧ prel g h' s'.
Proof.
  intros R Hqs Hbody. pose proof (prim_body_Ok _ _ _ _ _ Hbody) as ->.
  assert (Hnb : negb (truthy (pe_to currentEdge)) = false →
                set_has (ps_visited s) (pe_to currentEdge) = false →
                neighbours "newNeighbors" adjList (pe_to currentEdge)
                = Ok (default [] (adjList !! pe_to currentEdge))).
  { intros H1 H2. unfold prim_body in Hbody. rewrite H1, H2 in Hbody.
    apply rbind_Ok in Hbody as (l & Hl & _). rewrite Hl. f_equal.
    by apply neighbours_Ok in Hl as [-> _]. }
  clear Hbody. pose proof R as [Hv Hq Hm Ht Hc Hs Hf Hma Hh].
  destruct h as [σ v log]. cbn [ph_store ph_live ph_log] in *.
  unfold prim_body_h, prim_step, alloc. cbn [ph_store ph_live ph_log].
  cbv zeta. rewrite (get_pedges_hold _ _ _ Hq), Hqs.
  assert (Hq1 : write (pl_queue v) (CPEdges rest) σ !! pl_queue v
                = Some (CPEdges rest)) by lookups.
  assert (Hv1 : write (pl_queue v) (CPEdges rest) σ !! pl_visited v
                = Some (CStrings (ps_visited s))) by lookups.
  assert (Hm1 : write (pl_queue v) (CPEdges rest) σ !! pl_mst v
                = Some (CMEdges (ps_mstEdges s))) by lookups.
  assert (Hf1 : Forall (pentry_frozen
    {| ph_store := write (pl_queue v) (CPEdges rest) σ; ph_live := v;
       ph_log := log |}) log).
  { eapply Forall_impl; [exact Hf|]. intros e He. unfold pentry_frozen in *.
    cbn [ph_store ph_live] in *. eapply frozen_step; [exact He| |by left].
    apply modifies_write; [apply modifies_refl|]. left.
    unfold plive_locs. in_list. }
  assert (R1 : prel g {| ph_store := write (pl_queue v) (CPEdges rest) σ;
                       ph_live := v; ph_log := log |}
      {| ps_visited := ps_visited s; ps_queue := rest;
         ps_mstEdges := ps_mstEdges s; ps_totalCost := ps_totalCost s;
         ps_steps := ps_steps s; ps_stepCount := ps_stepCount s |}).
  { by split. }
  destruct (negb (truthy (pe_to currentEdge))) eqn:Etr;
    [eexists; split; [reflexivity|exact R1]|].
  rewrite (get_strings_hold _ _ _ Hv1).
  destruct (set_has (ps_visited s) (pe_to currentEdge)) eqn:Evis.
  - eexists. split; [reflexivity|].
    rewrite (get_pedges_hold _ _ _ Hq1), (get_medges_hold _ _ _ Hm1), Hc, Ht.
    apply (prim_push_rel g _ _ _ _ _ _ _ _ None _ R1); [done|done..].
  - rewrite (Hnb eq_refl eq_refl). eexists. split; [reflexivity|].
    set (σ1 := write (pl_queue v) (CPEdges rest) σ) in *.
    rewrite (get_medges_hold _ _ _ Hm1).
    set (mst := ps_mstEdges s ++ _).
    set (σ2 := write (pl_mst v) (CMEdges mst) σ1).
    assert (Hq2 : σ2 !! pl_queue v = Some (CPEdges rest)) by (subst σ2; lookups).
    assert (Hv2 : σ2 !! pl_visited v = Some (CStrings (ps_visited s)))
      by (subst σ2; lookups).
    assert (Hm2 : σ2 !! pl_mst v = Some (CMEdges mst)) by (subst σ2; lookups).
    rewrite (get_strings_hold _ _ _ Hv2).
    set (visited := set_add (ps_visited s) (pe_to currentEdge)).
    set (σ3 := write (pl_visited v) (CStrings visited) σ2).
    assert (Hq3 : σ3 !! pl_queue v = Some (CPEdges rest)) by (subst σ3; lookups).
    assert (Hv3 : σ3 !! pl_visited v = Some (CStrings visited))
      by (subst σ3; lookups).
    assert (Hm3 : σ3 !! pl_mst v = Some (CMEdges mst)) by (subst σ3; lookups).
    set (σ4 := σ3 ++ [CPEdges []]).
    assert (Hn4 : σ4 !! length σ3 = Some (CPEdges [])) by (subst σ4; lookups).
    assert (Hq4 : σ4 !! pl_queue v = Some (CPEdges rest)) by (subst σ4; lookups).
    assert (Hv4 : σ4 !! pl_visited v = Some (CStrings visited))
      by (subst σ4; lookups).
    assert (Hm4 : σ4 !! pl_mst v = Some (CMEdges mst)) by (subst σ4; lookups).
    rewrite (get_strings_hold _ _ _ Hv4).
    rewrite (get_pedges_hold _ _ _ Hn4).
    set (ns := default [] (adjList !! pe_to currentEdge)).
    set (newEdges := push_neighbors visited (pe_to currentEdge) ns []).
    set (σ5 := write (length σ3) (CPEdges newEdges) σ4).
    assert (Hlen3 : length σ3 = length σ).
    { subst σ3 σ2 σ1. by rewrite !length_write. }
    assert (Hlv : (pl_visited v < length σ)%nat) by by eapply lookup_lt_Some.
    assert (Hlq : (pl_queue v < length σ)%nat) by by eapply lookup_lt_Some.
    assert (Hlm : (pl_mst v < length σ)%nat) by by eapply lookup_lt_Some.
    assert (Hn5 : σ5 !! length σ3 = Some (CPEdges newEdges)) by (subst σ5; lookups).
    assert (Hq5 : σ5 !! pl_queue v = Some (CPEdges rest)).
    { subst σ5. eapply hold_write_ne; [done|lia]. }
    assert (Hv5 : σ5 !! pl_visited v = Some (CStrings visited)).
    { subst σ5. eapply hold_write_ne; [done|lia]. }
    assert (Hm5 : σ5 !! pl_mst v = Some (CMEdges mst)).
    { subst σ5. eapply hold_write_ne; [done|lia]. }
    rewrite (get_pedges_hold _ _ _ Hq5).
    set (pushed := push_neighbors visited (pe_to currentEdge) ns rest).
    set (σ6 := write (pl_queue v) (CPEdges pushed) σ5).
    assert (Hn6 : σ6 !! length σ3 = Some (CPEdges newEdges)).
    { subst σ6. eapply hold_write_ne; [done|lia]. }
    assert (Hq6 : σ6 !! pl_queue v = Some (CPEdges pushed)) by (subst σ6; lookups).
    assert (Hv6 : σ6 !! pl_visited v = Some (CStrings visited))
      by (subst σ6; lookups).
    assert (Hm6 : σ6 !! pl_mst v = Some (CMEdges mst)) by (subst σ6; lookups).
    rewrite (get_pedges_hold _ _ _ Hq6).
    set (filtered := filter _ pushed).
    set (σ7 := σ6 ++ [CPEdges filtered]).
    assert (Hlen6 : length σ6 = S (length σ)).
    { subst σ6 σ5 σ4. rewrite !length_write, length_app. simpl. lia. }
    assert (Hn7 : σ7 !! length σ3 = Some (CPEdges newEdges)) by (subst σ7; lookups).
    assert (Hq7 : σ7 !! length σ6 = Some (CPEdges filtered)) by (subst σ7; lookups).
    assert (Hv7 : σ7 !! pl_visited v = Some (CStrings visited))
      by (subst σ7; lookups).
    assert (Hm7 : σ7 !! pl_mst v = Some (CMEdges mst)) by (subst σ7; lookups).
    rewrite (get_pedges_hold _ _ _ Hq7).
    set (queue := sort_by pedge_le filtered).
    set (σ8 := write (length σ6) (CPEdges queue) σ7).
    assert (Hn8 : σ8 !! length σ3 = Some (CPEdges newEdges)).
    { subst σ8. eapply hold_write_ne; [done|lia]. }
    assert (Hq8 : σ8 !! length σ6 = Some (CPEdges queue)) by (subst σ8; lookups).
    assert (Hv8 : σ8 !! pl_visited v = Some (CStrings visited)).
    { subst σ8. eapply hold_write_ne; [done|lia]. }
    assert (Hm8 : σ8 !! pl_mst v = Some (CMEdges mst)).
    { subst σ8. eapply hold_write_ne; [done|lia]. }
    rewrite (get_pedges_hold _ _ _ Hq8), (get_medges_hold _ _ _ Hm8).
    assert (Hlen8 : length σ8 = S (S (length σ))).
    { subst σ8 σ7. rewrite length_write, length_app, Hlen6. simpl. lia. }
    assert (Hmod : modifies (plive_locs v) σ σ8).
    { subst σ8 σ7 σ6 σ5 σ4 σ3 σ2 σ1. unfold plive_locs.
      repeat first
        [ apply modifies_refl
        | apply modifies_alloc
        | apply modifies_write; [|first [right; lia | left; in_list]] ]. }
    set (v' := {| pl_visited := pl_visited v; pl_queue := length σ6;
                  pl_mst := pl_mst v;
                  pl_total := num_add (pl_total v) (or0 (pe_weight currentEdge));
                  pl_stepCount := pl_stepCount v |}).
    assert (R8 : prel g {| ph_store := σ8; ph_live := v'; ph_log := log |}
      {| ps_visited := visited; ps_queue := queue; ps_mstEdges := mst;
         ps_totalCost := num_add (ps_totalCost s) (or0 (pe_weight currentEdge));
         ps_steps := ps_steps s; ps_stepCount := ps_stepCount s |}).
    { split; cbn [ph_store ph_live ph_log pl_visited pl_queue pl_mst pl_total
        pl_stepCount ps_visited ps_queue ps_mstEdges ps_totalCost ps_steps
        ps_stepCount v']; try done.
      - subst v'. cbn. by rewrite Ht.
      - eapply Forall_impl; [exact Hf|]. intros e He. unfold pentry_frozen in *.
        cbn [ph_store ph_live] in *. eapply frozen_step; [exact He|exact Hmod|].
        intros l Hl. unfold plive_locs in *. subst v'.
        cbn [pl_visited pl_queue pl_mst] in Hl.
        rewrite !elem_of_cons in Hl. rewrite !elem_of_cons.
        destruct Hl as [->|[->|[->|Hl]]]; [tauto|right; lia|tauto|].
        by apply elem_of_nil in Hl. }
    pose proof (prim_push_rel g _ _ (pl_stepCount v) (Some (currentEdge, accepted))
      queue mst (num_add (pl_total v) (or0 (pe_weight currentEdge))) accept (Some (length σ3))
      (S (pl_stepCount v)) R8) as P.
    cbn [ph_store ph_live ps_queue ps_mstEdges ps_totalCost ps_visited ps_steps
      fmap option_fmap option_map] in P.
    rewrite (get_pedges_hold _ _ _ Hn8) in P. rewrite Hc, Ht in *.
    apply P; try done.
    intros ln [= <-]. rewrite Hlen8, Hlen3. split; [lia|].
    unfold plive_locs. subst v'. cbn [pl_visited pl_queue pl_mst].
    rewrite !not_elem_of_cons. split_and!; try lia. apply not_elem_of_nil.
Qed.

Lemma prim_loop_rel fuel h s s' :
  prel g h s → prim_loop g adjList fuel s = Ok s' →
  ∃ h', prim_loop_h g adjList fuel h = Some h' ∧ prel g h' s'.
Proof.
  revert h s. induction fuel as [|fuel IH]; intros h s R; simpl;
    unfold get_pedges, get_strings;
    rewrite (prel_queue _ _ _ R), (prel_visited _ _ _ R);
    destruct (ps_queue s) as [|cur rest] eqn:Hq;
    try (intros [= <-]; eauto; fail);
    destruct (decide _); try (intros [= <-]; eauto; fail); try done.
  intros (s1 & Hbody & Hl)%rbind_Ok.
  destruct (prim_body_rel h s cur rest s1 R Hq Hbody) as (h1 & -> & R1).
  simpl. by eapply IH.
Qed.

End PrimStoreRel.

Lemma prim_init_rel g adjList startNode s :
  prim_init adjList startNode = Ok s →
  ∃ h, prim_init_h adjList startNode = Some h ∧ prel g h s.
Proof.
  intros Hinit. pose proof (prim_init_Ok _ _ _ Hinit) as ->.
  unfold prim_init in Hinit. apply rbind_Ok in Hinit as (l & Hl & _).
  assert (neighbours "startNeighbors" adjList startNode
          = Ok (default [] (adjList !! startNode))) as Hnb.
  { rewrite Hl. f_equal. by apply neighbours_Ok in Hl as [-> _]. }
  clear Hl. unfold prim_init_h, prim_first, alloc. rewrite Hnb.
  eexists. split; [reflexivity|]. cbn [length app].
  set (v := {| pl_visited := 1%nat; pl_queue := _ |}).
  match goal with |- prel g (prim_push {| ph_store := ?x |} _ _ _ _ _ _ _ _) _ =>
    set (σ6 := x) end.
  set (visited := set_add [] startNode).
  set (ns := default [] (adjList !! startNode)).
  set (queue := sort_by pedge_le (push_neighbors visited startNode ns [])).
  assert (E : σ6 = [CMEdges []; CStrings visited; CPEdges queue]) by done.
  assert (R : prel g {| ph_store := σ6; ph_live := v; ph_log := [] |}
    {| ps_visited := visited; ps_queue := queue; ps_mstEdges := [];
       ps_totalCost := Fin 0; ps_steps := []; ps_stepCount := 0 |}).
  { rewrite E. split; try done; constructor. }
  pose proof (prim_push_rel g _ _ 0%nat None queue [] (Fin 0) initialize None 1%nat R) as P.
  cbn [ph_store ph_live ps_queue ps_mstEdges ps_totalCost ps_visited ps_steps
      fmap option_fmap option_map app] in P.
  replace (get_pedges σ6 (length [CMEdges []; CStrings []])) with queue
    by (by rewrite E).
  apply P; done.
Qed.

Lemma prim_finish_rel g h s :
  prel g h s →
  (plain_ids g → length (ps_visited s) = length (nodes g) → ps_queue s = []) →
  prel g (prim_finish_h g h)
    {| ps_visited := ps_visited s; ps_queue := ps_queue s;
       ps_mstEdges := ps_mstEdges s; ps_totalCost := ps_totalCost s;
       ps_steps := prim_finish g s; ps_stepCount := ps_stepCount s |}.
Proof.
  intros R He. unfold prim_finish_h, prim_finish.
  unfold get_strings, get_medges.
  rewrite (prel_visited _ _ _ R), (prel_mst _ _ _ R).
  destruct (decide _) as [E|E].
  - pose proof (prim_push_rel g _ _ (pl_stepCount (ph_live h)) None [] (ps_mstEdges s)
      (pl_total (ph_live h)) complete None (pl_stepCount (ph_live h)) R) as P.
    rewrite (prel_count _ _ _ R), (prel_total _ _ _ R) in *.
    cbn [fmap option_fmap option_map] in P. apply P; try done.
    intros [Hc|Hp]; [done|]. by rewrite He.
  - destruct R. by split.
Qed.

(** *** The store run and the run on values *)

(** Each collection of the step is a copy of the live one at the moment
    of the push; the queue of the last step is the exception. *)
Definition dentry_matches (e : DEntry) : Prop :=
  let st := dderef (den_store e) (den_ref e) in
  d_distances st = get_dists (den_store e) (dl_distances (den_live e)) ∧
  d_previous st = get_prevs (den_store e) (dl_previous (den_live e)) ∧
  d_visited st = get_strings (den_store e) (dl_visited (den_live e)) ∧
  (d_action st ≠ complete →
   d_priorityQueue st = get_queue (den_store e) (dl_queue (den_live e))).

Definition dentry_frozen (h : DHeap) (e : DEntry) : Prop :=
  frozen (dlocs (den_ref e)) (den_store e) (dlive_locs (dh_live h)) (dh_store h).

Definition dhist (log : list DEntry) : Prop :=
  ∀ i j ei ej, (i ≤ j)%nat → log !! i = Some ei → log !! j = Some ej →
    dderef (den_store ej) (den_ref ei) = dderef (den_store ei) (den_ref ei).

Lemma dderef_frozen r σe live σ :
  frozen (dlocs r) σe live σ → dderef σ r = dderef σe r.
Proof.
  intros F. unfold dderef, get_dists, get_prevs, get_strings, get_queue, get_paths.
  rewrite !(frozen_lookup _ _ _ _ _ F) by (unfold dlocs; in_list).
  f_equal. destruct (dr_updatedNeighbors r) as [l|] eqn:E; [|done]. simpl.
  unfold get_updates. rewrite (frozen_lookup _ _ _ _ l F); [done|].
  unfold dlocs. rewrite E. in_list.
Qed.

Record drel (h : DHeap) (s : DState) : Prop := {
  drel_distances :
    dh_store h !! dl_distances (dh_live h) = Some (CDists (ds_distances s));
  drel_previous :
    dh_store h !! dl_previous (dh_live h) = Some (CPrevs (ds_previous s));
  drel_visited :
    dh_store h !! dl_visited (dh_live h) = Some (CStrings (ds_visited s));
  drel_queue :
    dh_store h !! dl_queue (dh_live h) = Some (CQueue (ds_queue s));
  drel_count : dl_stepCount (dh_live h) = ds_stepCount s;
  drel_steps :
    map (λ e, dderef (den_store e) (den_ref e)) (dh_log h) = ds_steps s;
  drel_frozen : Forall (dentry_frozen h) (dh_log h);
  drel_match : Forall dentry_matches (dh_log h);
  drel_hist : dhist (dh_log h)
}.

Definition paths_value (σ : Store) (paths : gmap string PathInfo + loc)
  : gmap string PathInfo :=
  match paths with inl m => m | inr l => get_paths σ l end.

Lemma dijkstra_push_rel h s n cur q paths a updated count :
  drel h s →
  (∀ lu, updated = Some lu →
     (lu < length (dh_store h))%nat ∧ (lu ∉ dlive_locs (dh_live h))) →
  (∀ l, paths = inr l →
     (l < length (dh_store h))%nat ∧ (l ∉ dlive_locs (dh_live h))) →
  (a ≠ complete → q = ds_queue s) →
  drel (dijkstra_push h n cur q paths a updated count)
    {| ds_distances := ds_distances s; ds_previous := ds_previous s;
       ds_visited := ds_visited s; ds_queue := ds_queue s;
       ds_steps := ds_steps s ++
         [{| d_step := n; d_currentNode := cur;
             d_distances := safeCloneDistances (ds_distances s);
             d_previous := safeClonePrevious (ds_previous s);
             d_visited := ds_visited s; d_priorityQueue := q;
             d_shortestPaths := paths_value (dh_store h) paths;
             d_action := a;
             d_updatedNeighbors := get_updates (dh_store h) <$> updated |}];
       ds_stepCount := count |}.
Proof.
  intros [Hd Hp Hv Hq Hc Hs Hf Hma Hh] Hup Hpa Hqa.
  destruct h as [σ v log]. cbn [dh_store dh_live dh_log] in *.
  unfold dijkstra_push, alloc. cbn [dh_store dh_live dh_log].
  assert (Hld : (dl_distances v < length σ)%nat) by by eapply lookup_lt_Some.
  assert (Hlp : (dl_previous v < length σ)%nat) by by eapply lookup_lt_Some.
  assert (Hlv : (dl_visited v < length σ)%nat) by by eapply lookup_lt_Some.
  assert (Hlq : (dl_queue v < length σ)%nat) by by eapply lookup_lt_Some.
  rewrite (get_dists_hold _ _ _ Hd).
  set (c1 := CDists _).
  assert (Hp1 : (σ ++ [c1]) !! dl_previous v = Some (CPrevs (ds_previous s)))
    by lookups.
  rewrite (get_prevs_hold _ _ _ Hp1).
  set (c2 := CPrevs _).
  assert (Hv2 : ((σ ++ [c1]) ++ [c2]) !! dl_visited v
                = Some (CStrings (ds_visited s))) by lookups.
  rewrite (get_strings_hold _ _ _ Hv2).
  set (c3 := CStrings _). set (c4 := CQueue q).
  set (σ4 := (((σ ++ [c1]) ++ [c2]) ++ [c3]) ++ [c4]).
  assert (L1 : σ4 !! length σ = Some c1) by (subst σ4; lookups).
  assert (L2 : σ4 !! length (σ ++ [c1]) = Some c2) by (subst σ4; lookups).
  assert (L3 : σ4 !! length ((σ ++ [c1]) ++ [c2]) = Some c3) by (subst σ4; lookups).
  assert (L4 : σ4 !! length (((σ ++ [c1]) ++ [c2]) ++ [c3]) = Some c4)
    by (subst σ4; lookups).
  assert (Hlen4 : length σ4 = (length σ + 4)%nat).
  { subst σ4. rewrite !length_app. simpl. lia. }
  assert (Hold4 : ∀ l, (l < length σ)%nat → σ4 !! l = σ !! l).
  { intros l Hl. subst σ4.
    rewrite !lookup_app_l; [done|lia|rewrite length_app; lia|
      rewrite !length_app; lia|rewrite !length_app; lia]. }
  assert (Hmod4 : modifies (dlive_locs v) σ σ4).
  { subst σ4. do 4 apply modifies_alloc. apply modifies_refl. }
  (* The store with the paths, their location and what it holds. *)
  assert (∃ σ5 ls,
    match paths with
    | inl m => (length σ4, σ4 ++ [CPaths m])
    | inr l => (l, σ4)
    end = (ls, σ5) ∧
    (length σ4 ≤ length σ5 ≤ length σ + 5)%nat ∧
    (∀ l, (l < length σ4)%nat → σ5 !! l = σ4 !! l) ∧
    modifies (dlive_locs v) σ σ5 ∧
    (ls < length σ5)%nat ∧ (ls ∉ dlive_locs v) ∧
    get_paths σ5 ls = paths_value σ paths) as (σ5 & ls & -> & Hlen5 & Hold5 & Hmod5 & Hls & Hlsn & Hpv).
  { destruct paths as [m|l].
    - exists (σ4 ++ [CPaths m]), (length σ4). split; [done|].
      split; [rewrite length_app; simpl; lia|].
      split; [intros l Hl; by rewrite lookup_app_l|].
      split; [by apply modifies_alloc|].
      split; [rewrite length_app; simpl; lia|].
      split.
      + unfold dlive_locs. rewrite !not_elem_of_cons.
        split_and!; try lia. apply not_elem_of_nil.
      + apply get_paths_hold. lookups.
    - destruct (Hpa l eq_refl) as [Hl Hnl].
      exists σ4, l. split; [done|]. split; [lia|]. split; [done|].
      split; [done|]. split; [lia|]. split; [done|].
      simpl. unfold get_paths. by rewrite Hold4. }
  assert (Hold : ∀ l, (l < length σ)%nat → σ5 !! l = σ !! l).
  { intros l Hl. rewrite Hold5 by lia. by apply Hold4. }
  assert (Hlens : length (σ ++ [c1]) = S (length σ) ∧
                  length ((σ ++ [c1]) ++ [c2]) = S (S (length σ)) ∧
                  length (((σ ++ [c1]) ++ [c2]) ++ [c3]) = S (S (S (length σ)))).
  { rewrite !length_app. simpl. lia. }
  destruct Hlens as (Hl1 & Hl2 & Hl3).
  set (r := {| dr_step := n; dr_currentNode := cur; dr_distances := length σ;
               dr_previous := length (σ ++ [c1]);
               dr_visited := length ((σ ++ [c1]) ++ [c2]);
               dr_priorityQueue := length (((σ ++ [c1]) ++ [c2]) ++ [c3]);
               dr_shortestPaths := ls; dr_action := a;
               dr_updatedNeighbors := updated |}).
  assert (Hstep : dderef σ5 r =
      {| d_step := n; d_currentNode := cur;
         d_distances := safeCloneDistances (ds_distances s);
         d_previous := safeClonePrevious (ds_previous s);
         d_visited := ds_visited s; d_priorityQueue := q;
         d_shortestPaths := paths_value σ paths; d_action := a;
         d_updatedNeighbors := get_updates σ <$> updated |}).
  { unfold dderef, r. cbn [dr_step dr_currentNode dr_distances dr_previous
      dr_visited dr_priorityQueue dr_shortestPaths dr_action dr_updatedNeighbors].
    rewrite Hpv.
    unfold get_dists at 1, get_prevs at 1, get_strings at 1, get_queue at 1.
    rewrite !Hold5 by lia. rewrite L1, L2, L3, L4. subst c1 c2 c3 c4.
    f_equal. destruct updated as [lu|]; [|done]. cbn.
    destruct (Hup lu eq_refl) as [Hlu _].
    unfold get_updates. by rewrite Hold. }
  split; cbn [dh_store dh_live dh_log dl_distances dl_previous dl_visited
    dl_queue dl_stepCount ds_distances ds_previous ds_visited ds_queue ds_steps
    ds_stepCount].
  - by rewrite Hold.
  - by rewrite Hold.
  - by rewrite Hold.
  - by rewrite Hold.
  - done.
  - rewrite map_app, Hs. cbn [map den_store den_ref]. by rewrite Hstep.
  - apply Forall_app. split.
    + eapply Forall_impl; [exact Hf|]. intros e He. unfold dentry_frozen in *.
      cbn [dh_store dh_live] in *. eapply frozen_step; [exact He|exact Hmod5|].
      intros l Hl. by left.
    + apply Forall_singleton. unfold dentry_frozen.
      cbn [dh_store dh_live den_ref den_store]. apply frozen_new.
      intros l Hl. unfold dlocs, r in Hl.
      cbn [dr_distances dr_previous dr_visited dr_priorityQueue
        dr_shortestPaths dr_updatedNeighbors] in Hl.
      unfold dlive_locs. cbn [dl_distances dl_previous dl_visited dl_queue].
      rewrite !elem_of_cons in Hl.
      rewrite !not_elem_of_cons. rewrite Hl1, Hl2, Hl3 in Hl.
      destruct Hl as [->|[->|[->|[->|[->|Hl]]]]];
        try (split; [lia|]; split_and!; try lia; apply not_elem_of_nil).
      * split; [done|]. unfold dlive_locs in Hlsn.
        by rewrite !not_elem_of_cons in Hlsn.
      * destruct updated as [lu|]; [|by apply elem_of_nil in Hl].
        apply list_elem_of_singleton in Hl. subst l.
        destruct (Hup lu eq_refl) as [Hlu Hnl]. split; [lia|].
        unfold dlive_locs in Hnl. by rewrite !not_elem_of_cons in Hnl.
  - apply Forall_app. split; [done|]. apply Forall_singleton.
    unfold dentry_matches. cbn [den_store den_ref den_live].
    rewrite Hstep. cbn [d_distances d_previous d_visited d_priorityQueue
      d_action dl_distances dl_previous dl_visited dl_queue].
    unfold get_dists, get_prevs, get_strings, get_queue.
    rewrite !Hold by done. rewrite Hd, Hp, Hv, Hq.
    rewrite safeCloneDistances_eq, safeClonePrevious_eq. auto.
  - intros i j ei ej Hij Hi Hj.
    destruct (decide (j < length log)%nat) as [Hlt|Hge].
    { assert (i < length log)%nat by lia.
      rewrite lookup_app_l in Hi by done. rewrite lookup_app_l in Hj by done.
      exact (Hh i j ei ej Hij Hi Hj). }
    rewrite lookup_app_r in Hj by lia.
    apply list_lookup_singleton_Some in Hj as [Hj <-].
    cbn [den_store]. destruct (decide (i < length log)%nat) as [Hlt|Hge'].
    + rewrite lookup_app_l in Hi by lia.
      rewrite Forall_forall in Hf. apply list_elem_of_lookup_2 in Hi.
      specialize (Hf _ Hi). unfold dentry_frozen in Hf. cbn [dh_store dh_live] in Hf.
      eapply dderef_frozen. eapply frozen_step; [exact Hf|exact Hmod5|].
      intros l Hl. left. exact Hl.
    + rewrite lookup_app_r in Hi by lia.
      apply list_lookup_singleton_Some in Hi as [Hi <-]. done.
Qed.


(** The state of [neighbors.forEach] in the store and on values; [σ0] is
    the store before [updatedNeighbors] was made. *)
Record rrel (σ0 : Store) (v0 : DLive) (visited : list string)
    (c : Store * DLive) (r : Relax) : Prop := {
  rr_distances : c.1 !! dl_distances c.2 = Some (CDists (rx_distances r));
  rr_previous : c.1 !! dl_previous c.2 = Some (CPrevs (rx_previous r));
  rr_visited : c.1 !! dl_visited c.2 = Some (CStrings visited);
  rr_queue : c.1 !! dl_queue c.2 = Some (CQueue (rx_queue r));
  rr_updated : c.1 !! length σ0 = Some (CUpdates (rx_updated r));
  rr_mod : modifies (dlive_locs v0) σ0 c.1;
  rr_live : ∀ l, l ∈ dlive_locs c.2 → l ∈ dlive_locs v0 ∨ (length σ0 ≤ l)%nat;
  rr_count : dl_stepCount c.2 = dl_stepCount v0
}.

Lemma relax_edge_rel σ0 v0 visited currentNodeId c r edge :
  rrel σ0 v0 visited c r →
  rrel σ0 v0 visited (relax_edge_h (length σ0) currentNodeId c edge)
    (relax_edge visited currentNodeId r edge).
Proof.
  intros R. pose proof R as [Hd Hp Hv Hq Hu Hmod Hlive Hc].
  destruct c as [σ v]. cbn [fst snd] in *.
  unfold relax_edge_h, relax_edge, alloc. cbn [fst snd]. cbv zeta.
  destruct (negb (truthy (adj_to edge))); [exact R|].
  rewrite (get_strings_hold _ _ _ Hv).
  destruct (set_has visited (adj_to edge)); [exact R|].
  rewrite (get_dists_hold _ _ _ Hd).
  destruct (rx_distances r !! currentNodeId) as [currentDist|]; [|exact R].
  destruct (rx_distances r !! adj_to edge) as [oldDistance|]; [|exact R].
  destruct (dist_lt _ _); [|exact R].
  assert (Hlu : (length σ0 < length σ)%nat) by by eapply lookup_lt_Some.
  set (dists := <[adj_to edge := _]> (rx_distances r)).
  set (σ1 := write (dl_distances v) (CDists dists) σ).
  assert (Hd1 : σ1 !! dl_distances v = Some (CDists dists)) by (subst σ1; lookups).
  assert (Hp1 : σ1 !! dl_previous v = Some (CPrevs (rx_previous r)))
    by (subst σ1; lookups).
  assert (Hv1 : σ1 !! dl_visited v = Some (CStrings visited)) by (subst σ1; lookups).
  assert (Hq1 : σ1 !! dl_queue v = Some (CQueue (rx_queue r))) by (subst σ1; lookups).
  assert (Hu1 : σ1 !! length σ0 = Some (CUpdates (rx_updated r)))
    by (subst σ1; lookups).
  rewrite (get_prevs_hold _ _ _ Hp1).
  set (prevs := <[adj_to edge := _]> (rx_previous r)).
  set (σ2 := write (dl_previous v) (CPrevs prevs) σ1).
  assert (Hd2 : σ2 !! dl_distances v = Some (CDists dists)) by (subst σ2; lookups).
  assert (Hp2 : σ2 !! dl_previous v = Some (CPrevs prevs)) by (subst σ2; lookups).
  assert (Hv2 : σ2 !! dl_visited v = Some (CStrings visited)) by (subst σ2; lookups).
  assert (Hq2 : σ2 !! dl_queue v = Some (CQueue (rx_queue r))) by (subst σ2; lookups).
  assert (Hu2 : σ2 !! length σ0 = Some (CUpdates (rx_updated r)))
    by (subst σ2; lookups).
  rewrite (get_updates_hold _ _ _ Hu2).
  set (ups := rx_updated r ++ _).
  set (σ3 := write (length σ0) (CUpdates ups) σ2).
  assert (Hd3 : σ3 !! dl_distances v = Some (CDists dists)) by (subst σ3; lookups).
  assert (Hp3 : σ3 !! dl_previous v = Some (CPrevs prevs)) by (subst σ3; lookups).
  assert (Hv3 : σ3 !! dl_visited v = Some (CStrings visited)) by (subst σ3; lookups).
  assert (Hq3 : σ3 !! dl_queue v = Some (CQueue (rx_queue r))) by (subst σ3; lookups).
  assert (Hu3 : σ3 !! length σ0 = Some (CUpdates ups)) by (subst σ3; lookups).
  rewrite (get_queue_hold _ _ _ Hq3).
  set (filtered := filter _ (rx_queue r)).
  assert (Hlen3 : length σ3 = length σ).
  { subst σ3 σ2 σ1. by rewrite !length_write. }
  set (σ4 := σ3 ++ [CQueue filtered]).
  assert (Hq4 : σ4 !! length σ3 = Some (CQueue filtered)) by (subst σ4; lookups).
  rewrite (get_queue_hold _ _ _ Hq4).
  set (queue := filtered ++ _).
  set (σ5 := write (length σ3) (CQueue queue) σ4).
  assert (Hld : (dl_distances v < length σ)%nat) by by eapply lookup_lt_Some.
  assert (Hlp : (dl_previous v < length σ)%nat) by by eapply lookup_lt_Some.
  assert (Hlv : (dl_visited v < length σ)%nat) by by eapply lookup_lt_Some.
  split; cbn [fst snd dl_distances dl_previous dl_visited dl_queue dl_stepCount
    rx_distances rx_previous rx_queue rx_updated].
  - subst σ5 σ4. lookups.
  - subst σ5 σ4. lookups.
  - subst σ5 σ4. lookups.
  - subst σ5 σ4. lookups.
  - subst σ5 σ4. lookups.
  - subst σ5 σ4 σ3 σ2 σ1.
    apply modifies_write; [|right; rewrite !length_write; lia].
    apply modifies_alloc.
    apply modifies_write; [|right; lia].
    apply modifies_write; [|apply Hlive; unfold dlive_locs; in_list].
    apply modifies_write; [|apply Hlive; unfold dlive_locs; in_list].
    exact Hmod.
  - intros l Hl. unfold dlive_locs in Hl |- *.
    cbn [dl_distances dl_previous dl_visited dl_queue] in Hl.
    rewrite !elem_of_cons in Hl.
    destruct Hl as [->|[->|[->|[->|Hl]]]].
    + apply Hlive. unfold dlive_locs. in_list.
    + apply Hlive. unfold dlive_locs. in_list.
    + apply Hlive. unfold dlive_locs. in_list.
    + right. lia.
    + by apply elem_of_nil in Hl.
  - done.
Qed.

Lemma relax_fold_rel σ0 v0 visited currentNodeId ns c r :
  rrel σ0 v0 visited c r →
  rrel σ0 v0 visited (foldl (relax_edge_h (length σ0) currentNodeId) c ns)
    (foldl (relax_edge visited currentNodeId) r ns).
Proof.
  revert c r. induction ns as [|e ns IH]; intros c r R; [done|].
  simpl. by apply IH, relax_edge_rel.
Qed.

Section DijkstraStoreRel.
Variable adjList : gmap string (list AdjEntry).
Variable sourceNodeId : string.
Variable targetNodeId : option string.

Lemma dijkstra_body_rel h s current rest :
  drel h s → sort_by qentry_le (ds_queue s) = current :: rest →
  (dijkstra_body_h adjList sourceNodeId targetNodeId h current rest).2
  = (dijkstra_body adjList sourceNodeId targetNodeId s current rest).2 ∧
  drel (dijkstra_body_h adjList sourceNodeId targetNodeId h current rest).1
       (dijkstra_body adjList sourceNodeId targetNodeId s current rest).1.
Proof.
  intros R Hsort. pose proof R as [Hd Hp Hv Hq Hc Hs Hf Hma Hh].
  destruct h as [σ v log]. cbn [dh_store dh_live dh_log] in *.
  unfold dijkstra_body_h, dijkstra_body, alloc. cbn [dh_store dh_live dh_log].
  cbv zeta. rewrite (get_queue_hold _ _ _ Hq), Hsort.
  set (σ1 := write (dl_queue v) (CQueue (current :: rest)) σ).
  set (σ2 := write (dl_queue v) (CQueue rest) σ1).
  assert (Hd2 : σ2 !! dl_distances v = Some (CDists (ds_distances s)))
    by (subst σ2 σ1; lookups).
  assert (Hp2 : σ2 !! dl_previous v = Some (CPrevs (ds_previous s)))
    by (subst σ2 σ1; lookups).
  assert (Hv2 : σ2 !! dl_visited v = Some (CStrings (ds_visited s)))
    by (subst σ2 σ1; lookups).
  assert (Hq2 : σ2 !! dl_queue v = Some (CQueue rest)) by (subst σ2 σ1; lookups).
  assert (Hmod2 : modifies (dlive_locs v) σ σ2).
  { subst σ2 σ1. unfold dlive_locs.
    do 2 (apply modifies_write; [|left; in_list]). apply modifies_refl. }
  assert (R2 : drel {| dh_store := σ2; dh_live := v; dh_log := log |}
      {| ds_distances := ds_distances s; ds_previous := ds_previous s;
         ds_visited := ds_visited s; ds_queue := rest;
         ds_steps := ds_steps s; ds_stepCount := ds_stepCount s |}).
  { split; try done. eapply Forall_impl; [exact Hf|]. intros e He.
    unfold dentry_frozen in *. cbn [dh_store dh_live] in *.
    eapply frozen_step; [exact He|exact Hmod2|]. intros l Hl. by left. }
  destruct (negb (truthy (q_nodeId current))); [by split|].
  rewrite (get_strings_hold _ _ _ Hv2).
  destruct (set_has (ds_visited s) (q_nodeId current)); [by split|].
  set (visited := set_add (ds_visited s) (q_nodeId current)).
  set (σ3 := write (dl_visited v) (CStrings visited) σ2).
  assert (Hd3 : σ3 !! dl_distances v = Some (CDists (ds_distances s)))
    by (subst σ3; lookups).
  assert (Hp3 : σ3 !! dl_previous v = Some (CPrevs (ds_previous s)))
    by (subst σ3; lookups).
  assert (Hv3 : σ3 !! dl_visited v = Some (CStrings visited))
    by (subst σ3; lookups).
  assert (Hq3 : σ3 !! dl_queue v = Some (CQueue rest)) by (subst σ3; lookups).
  assert (Hmod3 : modifies (dlive_locs v) σ σ3).
  { subst σ3. apply modifies_write; [exact Hmod2|]. left. unfold dlive_locs. in_list. }
  assert (R3 : drel {| dh_store := σ3; dh_live := v; dh_log := log |}
      {| ds_distances := ds_distances s; ds_previous := ds_previous s;
         ds_visited := visited; ds_queue := rest;
         ds_steps := ds_steps s; ds_stepCount := ds_stepCount s |}).
  { split; try done. eapply Forall_impl; [exact Hf|]. intros e He.
    unfold dentry_frozen in *. cbn [dh_store dh_live] in *.
    eapply frozen_step; [exact He|exact Hmod3|]. intros l Hl. by left. }
  rewrite (get_queue_hold _ _ _ Hq3), (get_prevs_hold _ _ _ Hp3),
    (get_dists_hold _ _ _ Hd3), (get_strings_hold _ _ _ Hv3).
  pose proof (dijkstra_push_rel _ _ (dl_stepCount v) (Some (q_nodeId current))
    rest (inl (getShortestPaths (ds_previous s) sourceNodeId visited
                 (ds_distances s)))
    process_node None (S (dl_stepCount v)) R3) as R4.
  cbn [dh_store dh_live ds_distances ds_previous ds_visited ds_queue ds_steps
    paths_value fmap option_fmap option_map] in R4.
  specialize (R4 ltac:(done) ltac:(done) ltac:(done)).
  set (h1 := dijkstra_push _ _ _ _ _ _ _ _) in *.
  rewrite Hc in R4. fold (process_step sourceNodeId s (q_nodeId current) visited rest) in R4.
  set (processed := process_step sourceNodeId s (q_nodeId current) visited rest) in *.
  destruct (truthy_opt targetNodeId && bool_decide (targetNodeId = Some (q_nodeId current))).
  { split; [done|]. exact R4. }
  pose proof R4 as [Hd4 Hp4 Hv4 Hq4 Hc4 Hs4 Hf4 Hma4 Hh4].
  cbn [ds_distances ds_previous ds_visited ds_queue ds_steps ds_stepCount] in *.
  set (ns := default [] (adjList !! q_nodeId current)).
  set (c0 := (dh_store h1 ++ [CUpdates []], dh_live h1)).
  set (r0 := {| rx_distances := ds_distances s; rx_previous := ds_previous s;
                rx_queue := rest; rx_updated := [] |}).
  assert (R0 : rrel (dh_store h1) (dh_live h1) visited c0 r0).
  { subst c0 r0. split; cbn [fst snd rx_distances rx_previous rx_queue rx_updated];
      try (by lookups).
    - apply modifies_alloc, modifies_refl.
    - intros l Hl. by left. }
  pose proof (relax_fold_rel _ _ _ (q_nodeId current) ns _ _ R0) as Rf.
  set (c := foldl (relax_edge_h (length (dh_store h1)) (q_nodeId current)) c0 ns) in *.
  set (r := foldl (relax_edge visited (q_nodeId current)) r0 ns) in *.
  destruct Rf as [Hd5 Hp5 Hv5 Hq5 Hu5 Hmod5 Hlive5 Hc5].
  assert (R5 : drel {| dh_store := c.1; dh_live := c.2; dh_log := dh_log h1 |}
      {| ds_distances := rx_distances r; ds_previous := rx_previous r;
         ds_visited := visited; ds_queue := rx_queue r;
         ds_steps := ds_steps s ++ [processed];
         ds_stepCount := S (ds_stepCount s) |}).
  { split; cbn [dh_store dh_live dh_log ds_distances ds_previous ds_visited
      ds_queue ds_steps ds_stepCount]; try done.
    - by rewrite Hc5.
    - eapply Forall_impl; [exact Hf4|]. intros e He.
      unfold dentry_frozen in *. cbn [dh_store dh_live] in *.
      eapply frozen_step; [exact He|exact Hmod5|exact Hlive5]. }
  rewrite (get_updates_hold _ _ _ Hu5).
  destruct (decide _) as [Hpos|Hpos]; [|split; [done|exact R5]].
  split; [done|]. cbn [fst].
  rewrite (get_queue_hold _ _ _ Hq5), (get_prevs_hold _ _ _ Hp5),
    (get_dists_hold _ _ _ Hd5), (get_strings_hold _ _ _ Hv5).
  pose proof (dijkstra_push_rel _ _ (dl_stepCount c.2) (Some (q_nodeId current))
    (rx_queue r) (inl (getShortestPaths (rx_previous r) sourceNodeId visited
                 (rx_distances r)))
    update_distances (Some (length (dh_store h1))) (S (dl_stepCount c.2)) R5) as R6.
  cbn [dh_store dh_live ds_distances ds_previous ds_visited ds_queue ds_steps
    paths_value fmap option_fmap option_map] in R6.
  rewrite (get_updates_hold _ _ _ Hu5) in R6.
  rewrite Hc5, Hc4 in *.
  rewrite <- app_assoc in R6. apply R6; try done.
  intros lu Elu. assert (lu = length (dh_store h1)) as -> by congruence.
  clear Elu. split; [by eapply lookup_lt_Some|].
  unfold dlive_locs. rewrite !not_elem_of_cons.
  split_and!; try (intros E; rewrite E in Hu5; congruence). apply not_elem_of_nil.
Qed.

Lemma dijkstra_loop_rel fuel h s s' :
  drel h s → dijkstra_loop adjList sourceNodeId targetNodeId fuel s = Some s' →
  ∃ h', dijkstra_loop_h adjList sourceNodeId targetNodeId fuel h = Some h'
        ∧ drel h' s'.
Proof.
  revert h s. induction fuel as [|fuel IH]; intros h s R; simpl;
    rewrite (get_queue_hold _ _ _ (drel_queue _ _ R));
    destruct (sort_by qentry_le (ds_queue s)) as [|cur rest] eqn:Hq;
    try (intros [= <-]; eauto; fail); try done.
  destruct (dijkstra_body_rel h s cur rest R Hq) as [Hb Hr].
  destruct (dijkstra_body_h _ _ _ h cur rest) as [h1 b1].
  destruct (dijkstra_body _ _ _ s cur rest) as [s1 b2].
  simpl in Hb, Hr. subst b2. destruct b1.
  - intros [= <-]. eauto.
  - intros Hl. by eapply IH.
Qed.

End DijkstraStoreRel.

Lemma dijkstra_init_rel g sourceNodeId :
  drel (dijkstra_init_h g sourceNodeId) (dijkstra_init g sourceNodeId).
Proof.
  unfold dijkstra_init_h, dijkstra_init, alloc. cbn [length app].
  change (get_dists [CDists ∅; CPrevs ∅; CStrings []] 0) with (∅ : gmap string Num).
  change (get_prevs [CDists ∅; CPrevs ∅; CStrings []] 1)
    with (∅ : gmap string (option string)).
  fold (dijkstra_init_maps g sourceNodeId).
  destruct (dijkstra_init_maps g sourceNodeId) as [distances previous].
  cbn [fst snd write]. cbn [insert list_insert length app].
  set (queue := [{| q_nodeId := sourceNodeId; q_distance := Fin 0 |}]).
  set (σ6 := [CDists distances; CPrevs previous; CStrings []; CQueue queue]).
  set (v := {| dl_distances := 0%nat; dl_previous := _ |}).
  assert (R : drel {| dh_store := σ6; dh_live := v; dh_log := [] |}
    {| ds_distances := distances; ds_previous := previous; ds_visited := [];
       ds_queue := queue; ds_steps := []; ds_stepCount := 0 |}).
  { split; try done; constructor. }
  pose proof (dijkstra_push_rel _ _ 0%nat None queue (inl ∅) initialize None 1%nat R)
    as P.
  cbn [dh_store dh_live ds_distances ds_previous ds_visited ds_queue ds_steps
    paths_value fmap option_fmap option_map app] in P.
  apply P; done.
Qed.

Lemma drel_alloc σ v log s c :
  drel {| dh_store := σ; dh_live := v; dh_log := log |} s →
  drel {| dh_store := σ ++ [c]; dh_live := v; dh_log := log |} s.
Proof.
  intros [Hd Hp Hv Hq Hc Hs Hf Hma Hh]. cbn [dh_store dh_live dh_log] in *.
  split; cbn [dh_store dh_live dh_log]; try done; try (by lookups).
  eapply Forall_impl; [exact Hf|]. intros e He.
  unfold dentry_frozen in *. cbn [dh_store dh_live] in *.
  eapply frozen_step; [exact He|apply modifies_alloc, modifies_refl|].
  intros l Hl. by left.
Qed.

(** The last step and [finalResult] share the object [finalPaths]. *)
Lemma dijkstra_finish_rel g sourceNodeId targetNodeId h s :
  drel h s →
  let r := dijkstra_finish g sourceNodeId targetNodeId s in
  let f := dijkstra_finish_h g sourceNodeId h in
  drel f.1.1
    {| ds_distances := ds_distances s; ds_previous := ds_previous s;
       ds_visited := ds_visited s; ds_queue := ds_queue s;
       ds_steps := d_steps r; ds_stepCount := ds_stepCount s |} ∧
  get_dists (dh_store f.1.1) f.1.2 = df_distances (d_finalResult r) ∧
  get_paths (dh_store f.1.1) f.2 = df_shortestPaths (d_finalResult r) ∧
  (dr_shortestPaths ∘ den_ref) <$> last (dh_log f.1.1) = Some f.2.
Proof.
  intros R. pose proof R as [Hd Hp Hv Hq Hc Hs Hf Hma Hh].
  destruct h as [σ v log]. cbn [dh_store dh_live dh_log] in *.
  unfold dijkstra_finish_h, dijkstra_finish, alloc. cbn [dh_store dh_live dh_log].
  cbv zeta. rewrite (get_dists_hold _ _ _ Hd), (get_prevs_hold _ _ _ Hp).
  set (finalPaths := getShortestPaths _ _ _ _).
  pose proof (drel_alloc _ _ _ _ (CPaths finalPaths) R) as R1.
  pose proof (dijkstra_push_rel _ _ (dl_stepCount v) None [] (inr (length σ))
    complete None (dl_stepCount v) R1) as R2.
  cbn [dh_store dh_live ds_distances ds_previous ds_visited ds_queue ds_steps
    paths_value fmap option_fmap option_map] in R2.
  assert (Hl : (σ ++ [CPaths finalPaths]) !! length σ = Some (CPaths finalPaths))
    by lookups.
  rewrite (get_paths_hold _ _ _ Hl) in R2.
  assert (Hlen : length (σ ++ [CPaths finalPaths]) = S (length σ)).
  { rewrite length_app. simpl. lia. }
  specialize (R2 ltac:(done)).
  assert (R3 : ∀ l, @inr (gmap string PathInfo) _ (length σ) = inr l →
    (l < length (σ ++ [CPaths finalPaths]))%nat ∧ (l ∉ dlive_locs v)).
  { intros l [= <-]. split; [lia|].
    apply lookup_lt_Some in Hd, Hp, Hv, Hq.
    unfold dlive_locs. rewrite !not_elem_of_cons.
    split_and!; try lia. apply not_elem_of_nil. }
  specialize (R2 R3 ltac:(done)). clear R3.
  set (h1 := dijkstra_push _ _ _ _ _ _ _ _) in *.
  assert (Hlast : (dr_shortestPaths ∘ den_ref) <$> last (dh_log h1) = Some (length σ)).
  { subst h1. unfold dijkstra_push, alloc. cbn [dh_log]. by rewrite last_snoc. }
  assert (Hfp : dh_store h1 !! length σ = Some (CPaths finalPaths)).
  { subst h1. unfold dijkstra_push, alloc. cbn [dh_store]. lookups. }
  rewrite Hc in R2.
  pose proof R2 as [Hd2 Hp2 Hv2 Hq2 Hc2 Hs2 Hf2 Hma2 Hh2].
  cbn [ds_distances ds_previous ds_visited ds_queue ds_steps ds_stepCount] in *.
  assert (Hdv : dl_distances (dh_live h1) = dl_distances v) by done.
  rewrite <- Hdv. rewrite (get_dists_hold _ _ _ Hd2).
  cbn [fst snd dh_store dh_log d_steps d_finalResult df_distances df_shortestPaths].
  destruct h1 as [σ1 v1 log1]. cbn [dh_store dh_live dh_log] in *.
  split_and!.
  - by apply drel_alloc.
  - apply get_dists_hold. lookups.
  - apply get_paths_hold. by apply hold_alloc_old.
  - done.
Qed.

(** *** Reading the components twice *)

Section SameRoots.
Import UnionFind.
Local Open Scope nat_scope.

Definition same_roots (u u' : UnionFind.t) : Prop :=
  length (parent u') = length (parent u) ∧ ∀ y r, UF.repr u y r ↔ UF.repr u' y r.

Lemma pres_same_roots u u' : UF.wf u → UF.pres u u' → same_roots u u'.
Proof.
  intros Hu [Hl Hp]. split; [done|]. intros y r. split; [apply Hp|].
  intros Hr. destruct (UF.repr_total u y Hu) as [r0 Hr0].
  { rewrite <- Hl. by eapply UF.repr_lt. }
  by rewrite (UF.repr_fun _ _ _ _ Hr (Hp _ _ Hr0)).
Qed.

Lemma same_roots_sym u u' : same_roots u u' → same_roots u' u.
Proof. intros [Hl H]. split; [done|]. intros y r. by rewrite H. Qed.

Lemma same_roots_trans u1 u2 u3 :
  same_roots u1 u2 → same_roots u2 u3 → same_roots u1 u3.
Proof.
  intros [L1 H1] [L2 H2]. split; [congruence|]. intros y r. by rewrite H1, H2.
Qed.

Lemma components_from_same_roots ns i u v comps u' comps' :
  UF.wf u → UF.wf v → same_roots u v →
  i + length ns ≤ length (parent u) →
  components_from i ns u comps = Some (u', comps') →
  ∃ v', components_from i ns v comps = Some (v', comps').
Proof.
  revert i u v comps. induction ns as [|nd ns IH]; intros i u v comps Hu Hv Huv Hlen;
    simpl.
  - intros [= <- <-]. eauto.
  - simpl in Hlen. destruct (truthy (nid nd)).
    + destruct (UF.find_spec u i Hu) as ([u1 r] & -> & Hpost); [lia|]. simpl.
      destruct (UF.find_spec v i Hv) as ([v1 r'] & -> & Hpost').
      { rewrite (proj1 Huv). lia. }
      simpl.
      pose proof (UF.find_pres _ _ _ Hu Hpost) as Hp1.
      pose proof (UF.find_pres _ _ _ Hv Hpost') as Hp1'.
      destruct Hpost as (Hu1 & _ & Hr & _). destruct Hpost' as (Hv1 & _ & Hr' & _).
      simpl in *. apply (proj2 Huv) in Hr'.
      rewrite (UF.repr_fun _ _ _ _ Hr' Hr).
      apply IH; [done|done| |rewrite (proj1 Hp1); lia].
      apply (same_roots_trans u1 u);
        [apply same_roots_sym, pres_same_roots; [exact Hu|exact Hp1]|].
      apply (same_roots_trans u v); [exact Huv|].
      apply pres_same_roots; [exact Hv|exact Hp1'].
    + apply IH; [done|done|done|lia].
Qed.

(** [getUnionFindState] compresses paths and keeps the roots: called
    again, it returns the same components. *)
Lemma getUnionFindState_again ns u u1 st :
  UF.wf u → length ns ≤ length (parent u) →
  getUnionFindState u ns = Some (u1, st) →
  UF.wf u1 ∧ UF.pres u u1 ∧ ∃ u2, getUnionFindState u1 ns = Some (u2, st).
Proof.
  intros Hu Hlen. unfold getUnionFindState.
  destruct (components_from 0 ns u ∅) as [[u' comps]|] eqn:E; [|done].
  simpl. intros [= <- <-].
  destruct (components_from_spec ns 0 u ∅ Hu) as (u'' & comps'' & E' & Hu' & Hp);
    [lia|].
  rewrite E in E'. injection E' as <- <-.
  split; [done|]. split; [done|].
  destruct (components_from_same_roots ns 0 u u' ∅ u' comps Hu Hu'
    (pres_same_roots _ _ Hu Hp) ltac:(lia) E) as (v' & ->).
  simpl. rewrite (proj1 Hp). eauto.
Qed.

End SameRoots.

(** *** The store run and the run on values *)

Lemma annotate_at_edges mst index st es :
  map se_edge (annotate_at mst index st es) = es.
Proof.
  unfold annotate_at. apply list_eq. intros i.
  rewrite list_lookup_fmap, list_lookup_imap. by destruct (es !! i).
Qed.

Lemma annotate_upto_edges mst index es :
  map se_edge (annotate_upto mst index es) = es.
Proof.
  unfold annotate_upto. apply list_eq. intros i.
  rewrite list_lookup_fmap, list_lookup_imap. by destruct (es !! i).
Qed.

Lemma pending_edges (es : list Edge) :
  map se_edge (map (λ e, {| se_edge := e; se_status := pending |}) es) = es.
Proof. rewrite map_map. simpl. apply map_id. Qed.

Section KruskalStoreRel.
Variable g : Graph.
Variable sorted : list Edge.

(** The step lists the sorted edges, copies [mstEdges], and holds the
    components that [getUnionFindState] reads off [uf] at the moment of
    the push. *)
Definition kentry_matches (e : KEntry) : Prop :=
  let st := kderef (ken_store e) (ken_ref e) in
  map se_edge (k_sortedEdges st) = sorted ∧
  k_mstEdges st = get_sedges (ken_store e) (kl_mst (ken_live e)) ∧
  (∃ u', getUnionFindState (get_uf (ken_store e) (kl_uf (ken_live e))) (nodes g)
         = Some (u', k_unionFindState st)) ∧
  k_totalCost st = kl_total (ken_live e).

Definition kentry_frozen (h : KHeap) (e : KEntry) : Prop :=
  frozen (klocs (ken_ref e)) (ken_store e) (klive_locs (kh_live h)) (kh_store h).

Definition khist (log : list KEntry) : Prop :=
  ∀ i j ei ej, (i ≤ j)%nat → log !! i = Some ei → log !! j = Some ej →
    kderef (ken_store ej) (ken_ref ei) = kderef (ken_store ei) (ken_ref ei).

Lemma kderef_frozen r σe live σ :
  frozen (klocs r) σe live σ → kderef σ r = kderef σe r.
Proof.
  intros F. unfold kderef, get_sedges, get_comps.
  by rewrite !(frozen_lookup _ _ _ _ _ F) by (unfold klocs; in_list).
Qed.

Record krel (h : KHeap) (s : KState) : Prop := {
  krel_uf : kh_store h !! kl_uf (kh_live h) = Some (CUF (ks_uf s));
  krel_mst : kh_store h !! kl_mst (kh_live h) = Some (CSEdges (ks_mstEdges s));
  krel_total : kl_total (kh_live h) = ks_totalCost s;
  krel_steps :
    map (λ e, kderef (ken_store e) (ken_ref e)) (kh_log h) = ks_steps s;
  krel_frozen : Forall (kentry_frozen h) (kh_log h);
  krel_match : Forall kentry_matches (kh_log h);
  krel_hist : khist (kh_log h)
}.

Lemma kruskal_push_rel h s n cur sortedEdges a wcc u1 ufState :
  krel h s → ks_inv g s →
  getUnionFindState (ks_uf s) (nodes g) = Some (u1, ufState) →
  map se_edge sortedEdges = sorted →
  ∃ h',
    kruskal_push (nodes g) h n cur sortedEdges (ks_mstEdges s) (ks_totalCost s)
      a wcc = Some h' ∧
    krel h'
      {| ks_uf := u1; ks_mstEdges := ks_mstEdges s;
         ks_totalCost := ks_totalCost s;
         ks_steps := ks_steps s ++
           [{| k_step := n; k_currentEdge := cur;
               k_sortedEdges := sortedEdges; k_mstEdges := ks_mstEdges s;
               k_unionFindState := ufState; k_totalCost := ks_totalCost s;
               k_action := a; k_wouldCreateCycle := wcc |}] |}.
Proof.
  intros [Hu Hm Ht Hs Hf Hma Hh] [Hwf Hlen] Hget Hsorted.
  destruct h as [σ v log]. cbn [kh_store kh_live kh_log] in *.
  unfold kruskal_push, alloc. cbn [kh_store kh_live kh_log].
  set (c1 := CSEdges sortedEdges). set (c2 := CSEdges (ks_mstEdges s)).
  assert (Hu2 : ((σ ++ [c1]) ++ [c2]) !! kl_uf v = Some (CUF (ks_uf s))) by lookups.
  rewrite (get_uf_hold _ _ _ Hu2), Hget. cbn [mbind option_bind].
  assert (Hle : (length (nodes g) ≤ length (UnionFind.parent (ks_uf s)))%nat)
    by (rewrite Hlen; done).
  destruct (getUnionFindState_again _ _ _ _ Hwf Hle Hget)
    as (Hwf1 & Hp1 & u2 & Hagain).
  set (σ3 := write (kl_uf v) (CUF u1) ((σ ++ [c1]) ++ [c2])).
  set (c3 := CComps ufState). set (σ4 := σ3 ++ [c3]).
  eexists. split; [done|].
  assert (Hlu : (kl_uf v < length σ)%nat) by by eapply lookup_lt_Some.
  assert (Hlm : (kl_mst v < length σ)%nat) by by eapply lookup_lt_Some.
  assert (Hl1 : length (σ ++ [c1]) = S (length σ)).
  { rewrite length_app. simpl. lia. }
  assert (Hl3 : length σ3 = S (S (length σ))).
  { subst σ3. rewrite length_write, !length_app. simpl. lia. }
  assert (Hlen4 : length σ4 = S (S (S (length σ)))).
  { subst σ4. rewrite length_app, Hl3. simpl. lia. }
  assert (Hneq : kl_uf v ≠ kl_mst v) by (intros E; congruence).
  assert (Hu4 : σ4 !! kl_uf v = Some (CUF u1)) by (subst σ4 σ3; lookups).
  assert (Hm4 : σ4 !! kl_mst v = Some (CSEdges (ks_mstEdges s))).
  { subst σ4 σ3. lookups. }
  assert (L1 : σ4 !! length σ = Some c1).
  { subst σ4 σ3. apply hold_alloc_old. eapply hold_write_ne; [|lia]. lookups. }
  assert (L2 : σ4 !! length (σ ++ [c1]) = Some c2).
  { subst σ4 σ3. apply hold_alloc_old. eapply hold_write_ne; [|lia]. lookups. }
  assert (L3 : σ4 !! length σ3 = Some c3) by (subst σ4; lookups).
  assert (Hmod : modifies (klive_locs v) σ σ4).
  { subst σ4 σ3. apply modifies_alloc.
    apply modifies_write; [|left; unfold klive_locs; in_list].
    do 2 apply modifies_alloc. apply modifies_refl. }
  set (r := {| kr_step := n; kr_currentEdge := cur; kr_sortedEdges := length σ;
               kr_mstEdges := length (σ ++ [c1]);
               kr_unionFindState := length σ3; kr_totalCost := ks_totalCost s;
               kr_action := a; kr_wouldCreateCycle := wcc |}).
  assert (Hstep : kderef σ4 r =
      {| k_step := n; k_currentEdge := cur;
         k_sortedEdges := sortedEdges; k_mstEdges := ks_mstEdges s;
         k_unionFindState := ufState; k_totalCost := ks_totalCost s;
         k_action := a; k_wouldCreateCycle := wcc |}).
  { unfold kderef, r. cbn [kr_step kr_currentEdge kr_sortedEdges kr_mstEdges
      kr_unionFindState kr_totalCost kr_action kr_wouldCreateCycle].
    by rewrite (get_sedges_hold _ _ _ L1), (get_sedges_hold _ _ _ L2),
      (get_comps_hold _ _ _ L3). }
  split; cbn [kh_store kh_live kh_log ks_uf ks_mstEdges ks_totalCost ks_steps].
  - done.
  - done.
  - done.
  - rewrite map_app, Hs. cbn [map ken_store ken_ref]. fold r. by rewrite Hstep.
  - apply Forall_app. split.
    + eapply Forall_impl; [exact Hf|]. intros e He. unfold kentry_frozen in *.
      cbn [kh_store kh_live] in *. eapply frozen_step; [exact He|exact Hmod|].
      intros l Hl. by left.
    + apply Forall_singleton. unfold kentry_frozen.
      cbn [kh_store kh_live ken_ref ken_store]. apply frozen_new.
      intros l Hl. unfold klocs in Hl. subst r.
      cbn [kr_sortedEdges kr_mstEdges kr_unionFindState] in Hl.
      unfold klive_locs. rewrite Hlen4. rewrite !elem_of_cons in Hl.
      rewrite !not_elem_of_cons. rewrite Hl1, Hl3 in Hl.
      destruct Hl as [->|[->|[->|Hl]]];
        try (split; [lia|]; split_and!; try lia; apply not_elem_of_nil).
      by apply elem_of_nil in Hl.
  - apply Forall_app. split; [done|]. apply Forall_singleton.
    unfold kentry_matches. cbn [ken_store ken_ref ken_live]. fold r.
    rewrite Hstep. cbn [k_sortedEdges k_mstEdges k_unionFindState k_totalCost].
    rewrite (get_sedges_hold _ _ _ Hm4), (get_uf_hold _ _ _ Hu4).
    split_and!; eauto.
  - intros i j ei ej Hij Hi Hj.
    destruct (decide (j < length log)%nat) as [Hlt|Hge].
    { assert (i < length log)%nat by lia.
      rewrite lookup_app_l in Hi by done. rewrite lookup_app_l in Hj by done.
      exact (Hh i j ei ej Hij Hi Hj). }
    rewrite lookup_app_r in Hj by lia.
    apply list_lookup_singleton_Some in Hj as [Hj <-].
    cbn [ken_store]. destruct (decide (i < length log)%nat) as [Hlt|Hge'].
    + rewrite lookup_app_l in Hi by lia.
      rewrite Forall_forall in Hf. apply list_elem_of_lookup_2 in Hi.
      specialize (Hf _ Hi). unfold kentry_frozen in Hf. cbn [kh_store kh_live] in Hf.
      eapply kderef_frozen. eapply frozen_step; [exact Hf|exact Hmod|].
      intros l Hl. left. exact Hl.
    + rewrite lookup_app_r in Hi by lia.
      apply list_lookup_singleton_Some in Hi as [Hi <-]. done.
Qed.


Lemma kruskal_push_live ns h n cur se mst total a wcc h' :
  kruskal_push ns h n cur se mst total a wcc = Some h' → kh_live h' = kh_live h.
Proof.
  unfold kruskal_push, alloc.
  destruct (getUnionFindState _ _) as [[u1 st]|]; [|done].
  simpl. by intros [= <-].
Qed.

Lemma kruskal_pushes_rel h u2 mst total steps index e wcc s' :
  let s2 := {| ks_uf := u2; ks_mstEdges := mst; ks_totalCost := total;
               ks_steps := steps |} in
  krel h s2 → ks_inv g s2 →
  ('(u3, ufState) ← getUnionFindState u2 (nodes g);
   let examined := examined_step sorted index e mst total wcc ufState in
   if decide (Z.of_nat (length mst) = Z.of_nat (length (nodes g)) - 1) then
     '(u4, ufState') ← getUnionFindState u3 (nodes g);
     Some {| ks_uf := u4; ks_mstEdges := mst; ks_totalCost := total;
             ks_steps := steps ++
               [examined; complete_step sorted index mst total ufState'] |}
   else
     Some {| ks_uf := u3; ks_mstEdges := mst; ks_totalCost := total;
             ks_steps := steps ++ [examined] |}) = Some s' →
  ∃ h', kruskal_pushes g sorted h index e wcc = Some h' ∧ krel h' s'.
Proof.
  intros s2 R Hinv Hrun. pose proof Hinv as [Hwf Hlen].
  cbn [s2 ks_uf] in Hwf, Hlen.
  destruct (getUnionFindState u2 (nodes g)) as [[u3 st]|] eqn:Hget; [|done].
  cbn [mbind option_bind] in Hrun.
  assert (Hle : (length (nodes g) ≤ length (UnionFind.parent u2))%nat)
    by (rewrite Hlen; done).
  destruct (getUnionFindState_again _ _ _ _ Hwf Hle Hget) as (Hwf3 & Hp3 & _).
  unfold kruskal_pushes.
  rewrite (get_sedges_hold _ _ _ (krel_mst _ _ R)), (krel_total _ _ R).
  cbn [s2 ks_mstEdges ks_totalCost].
  destruct (kruskal_push_rel h s2 (index + 1)
    (Some {| se_edge := e; se_status := if wcc then rejected else accepted |})
    (annotate_at mst index (if wcc then rejected else accepted) sorted)
    (if wcc then reject else accept) (Some wcc) u3 st R Hinv Hget
    (annotate_at_edges _ _ _ _)) as (h1 & Hpush & R1).
  cbn [s2 ks_mstEdges ks_totalCost ks_steps] in Hpush, R1.
  rewrite Hpush. cbn [mbind option_bind].
  pose proof (kruskal_push_live _ _ _ _ _ _ _ _ _ _ Hpush) as Hlive.
  pose proof (krel_mst _ _ R1) as Hm1. rewrite Hlive in Hm1.
  cbn [ks_mstEdges] in Hm1. rewrite (get_sedges_hold _ _ _ Hm1).
  fold (examined_step sorted index e mst total wcc st) in R1.
  destruct (decide _) as [Hc|Hc].
  - destruct (getUnionFindState u3 (nodes g)) as [[u4 st']|] eqn:Hget'; [|done].
    cbn [mbind option_bind] in Hrun. injection Hrun as <-.
    assert (Hinv1 : ks_inv g
      {| ks_uf := u3; ks_mstEdges := mst; ks_totalCost := total;
         ks_steps := steps ++ [examined_step sorted index e mst total wcc st] |}).
    { split; cbn [ks_uf]; [done|]. by rewrite (proj1 Hp3). }
    destruct (kruskal_push_rel h1 _ (index + 2) None
      (annotate_upto mst index sorted) complete None u4 st' R1 Hinv1 Hget'
      (annotate_upto_edges _ _ _)) as (h2 & Hpush2 & R2).
    cbn [ks_mstEdges ks_totalCost ks_steps] in Hpush2, R2.
    exists h2. split; [exact Hpush2|].
    rewrite <- app_assoc in R2. exact R2.
  - injection Hrun as <-. exists h1. split; [done|]. exact R1.
Qed.

Lemma kruskal_body_h_rel h s index e s' :
  krel h s → ks_inv g s →
  kruskal_body g sorted (nodeMap_of g) s index e = Some s' →
  ∃ h', kruskal_body_h g sorted (nodeMap_of g) h index e = Some h' ∧ krel h' s'.
Proof.
  intros R Hinv. pose proof R as [Hu Hm Ht Hs Hf Hma Hh].
  pose proof Hinv as [Hwf Hlen].
  destruct h as [σ v log]. cbn [kh_store kh_live kh_log] in *.
  unfold kruskal_body_h, kruskal_body. cbn [kh_store kh_live kh_log].
  destruct (negb (truthy (from e)) || negb (truthy (to e))).
  { intros [= <-]. eauto. }
  destruct (nodeMap_of g !! from e) as [fromNode|] eqn:Efrom.
  2:{ intros [= <-]. eauto. }
  destruct (nodeMap_of g !! to e) as [toNode|] eqn:Eto.
  2:{ intros [= <-]. eauto. }
  pose proof (nodeMap_of_lt _ _ _ Efrom) as Hfl.
  pose proof (nodeMap_of_lt _ _ _ Eto) as Htl.
  rewrite (get_uf_hold _ _ _ Hu).
  destruct (UF.connected_spec (ks_uf s) fromNode toNode Hwf)
    as (u1 & b & -> & Hu1 & Hp1 & Hb); [lia..|].
  cbn [mbind option_bind]. cbv zeta.
  set (σ1 := write (kl_uf v) (CUF u1) σ).
  assert (Hneq : kl_uf v ≠ kl_mst v) by (intros E; congruence).
  assert (Hu1' : σ1 !! kl_uf v = Some (CUF u1)) by (subst σ1; lookups).
  assert (Hm1 : σ1 !! kl_mst v = Some (CSEdges (ks_mstEdges s)))
    by (subst σ1; lookups).
  assert (Hmod1 : modifies (klive_locs v) σ σ1).
  { subst σ1. apply modifies_write; [apply modifies_refl|].
    left. unfold klive_locs. in_list. }
  destruct b.
  - cbn [mbind option_bind]. intros Hrun.
    apply (kruskal_pushes_rel _ u1 (ks_mstEdges s) (ks_totalCost s) (ks_steps s)
             index e true s'); [| |exact Hrun].
    + split; cbn [kh_store kh_live kh_log kl_uf kl_mst kl_total ks_uf ks_mstEdges
        ks_totalCost ks_steps]; try done.
      eapply Forall_impl; [exact Hf|]. intros x Hx. unfold kentry_frozen in *.
      cbn [kh_store kh_live] in *. eapply frozen_step; [exact Hx|exact Hmod1|].
      intros l Hl. by left.
    + split; cbn [ks_uf]; [done|]. by rewrite (proj1 Hp1).
  - rewrite (get_uf_hold _ _ _ Hu1').
    destruct (UF.union_spec u1 fromNode toNode Hu1)
      as (u2 & b' & -> & Hu2 & Hl2 & _).
    1,2: rewrite (proj1 Hp1); lia.
    cbn [mbind option_bind].
    set (σ2 := write (kl_uf v) (CUF u2) σ1).
    assert (Hu2' : σ2 !! kl_uf v = Some (CUF u2)) by (subst σ2; lookups).
    assert (Hm2 : σ2 !! kl_mst v = Some (CSEdges (ks_mstEdges s)))
      by (subst σ2; lookups).
    rewrite (get_sedges_hold _ _ _ Hm2).
    set (mst := ks_mstEdges s ++ _).
    set (σ3 := write (kl_mst v) (CSEdges mst) σ2).
    assert (Hu3' : σ3 !! kl_uf v = Some (CUF u2)) by (subst σ3; lookups).
    assert (Hm3 : σ3 !! kl_mst v = Some (CSEdges mst)) by (subst σ3; lookups).
    assert (Hmod3 : modifies (klive_locs v) σ σ3).
    { subst σ3 σ2. unfold klive_locs.
      do 2 (apply modifies_write; [|left; in_list]). exact Hmod1. }
    intros Hrun.
    apply (kruskal_pushes_rel _ u2 mst (num_add (ks_totalCost s) (or0 (weight e))) (ks_steps s)
             index e false s'); [| |exact Hrun].
    + split; cbn [kh_store kh_live kh_log kl_uf kl_mst kl_total ks_uf ks_mstEdges
        ks_totalCost ks_steps]; try done.
      * by rewrite Ht.
      * eapply Forall_impl; [exact Hf|]. intros x Hx. unfold kentry_frozen in *.
        cbn [kh_store kh_live] in *. eapply frozen_step; [exact Hx|exact Hmod3|].
        intros l Hl. by left.
    + split; cbn [ks_uf]; [done|]. by rewrite Hl2, (proj1 Hp1).
Qed.

Lemma kruskal_forEach_h_rel es h s index s' :
  krel h s → ks_inv g s →
  kruskal_forEach g sorted (nodeMap_of g) s index es = Some s' →
  ∃ h', kruskal_forEach_h g sorted (nodeMap_of g) h index es = Some h' ∧ krel h' s'.
Proof.
  revert h s index. induction es as [|e es IH]; intros h s index R Hinv; simpl.
  - intros [= <-]. eauto.
  - destruct (kruskal_body_spec g sorted s index e Hinv) as (s1 & Hb & Hinv1 & _).
    rewrite Hb. cbn [mbind option_bind]. intros Hrun.
    destruct (kruskal_body_h_rel h s index e s1 R Hinv Hb) as (h1 & -> & R1).
    cbn [mbind option_bind]. by eapply IH.
Qed.

End KruskalStoreRel.

(** ** Steps are snapshots *)

(** What the run leaves in [steps], read in the store in which the engine
    returns: the steps of the result; every step reads as it did when it
    was pushed, there and at every push after its own; and its collections
    were copies of the live ones. *)
Definition ksnapshots (g : Graph) (h : KHeap) (steps : list KStep) : Prop :=
  map (λ e, kderef (kh_store h) (ken_ref e)) (kh_log h) = steps ∧
  Forall (λ e, kderef (kh_store h) (ken_ref e)
               = kderef (ken_store e) (ken_ref e)) (kh_log h) ∧
  khist (kh_log h) ∧
  Forall (kentry_matches g (sort_by edge_le (edges g))) (kh_log h).

Definition psnapshots (g : Graph) (h : PHeap) (steps : list PStep) : Prop :=
  map (λ e, pderef (ph_store h) (pen_ref e)) (ph_log h) = steps ∧
  Forall (λ e, pderef (ph_store h) (pen_ref e)
               = pderef (pen_store e) (pen_ref e)) (ph_log h) ∧
  phist (ph_log h) ∧
  Forall (pentry_matches g) (ph_log h).

Definition dsnapshots (h : DHeap) (steps : list DStep) : Prop :=
  map (λ e, dderef (dh_store h) (den_ref e)) (dh_log h) = steps ∧
  Forall (λ e, dderef (dh_store h) (den_ref e)
               = dderef (den_store e) (den_ref e)) (dh_log h) ∧
  dhist (dh_log h) ∧
  Forall dentry_matches (dh_log h).

Lemma krel_snapshots g h s :
  krel g (sort_by edge_le (edges g)) h s → ksnapshots g h (ks_steps s).
Proof.
  intros [_ _ _ Hs Hf Hma Hh].
  assert (F : Forall (λ e, kderef (kh_store h) (ken_ref e)
                           = kderef (ken_store e) (ken_ref e)) (kh_log h)).
  { eapply Forall_impl; [exact Hf|]. intros e He. by eapply kderef_frozen. }
  split_and!; try done. rewrite <- Hs. apply map_ext_Forall.
  exact F.
Qed.

Lemma prel_snapshots g h s : prel g h s → psnapshots g h (ps_steps s).
Proof.
  intros [_ _ _ _ _ Hs Hf Hma Hh].
  assert (F : Forall (λ e, pderef (ph_store h) (pen_ref e)
                           = pderef (pen_store e) (pen_ref e)) (ph_log h)).
  { eapply Forall_impl; [exact Hf|]. intros e He. by eapply pderef_frozen. }
  split_and!; try done. rewrite <- Hs. apply map_ext_Forall.
  exact F.
Qed.

Lemma drel_snapshots h s : drel h s → dsnapshots h (ds_steps s).
Proof.
  intros [_ _ _ _ _ Hs Hf Hma Hh].
  assert (F : Forall (λ e, dderef (dh_store h) (den_ref e)
                           = dderef (den_store e) (den_ref e)) (dh_log h)).
  { eapply Forall_impl; [exact Hf|]. intros e He. by eapply dderef_frozen. }
  split_and!; try done. rewrite <- Hs. apply map_ext_Forall.
  exact F.
Qed.

(** *** Kruskal *)

Lemma kruskal_run_h_rel g r :
  kruskal_run g = Some r →
  ∃ h s, kruskal_run_h g = Some h ∧
         krel g (sort_by edge_le (edges g)) h s ∧
         k_steps r = ks_steps s ∧
         kf_mstEdges (k_finalResult r) = ks_mstEdges s.
Proof.
  unfold kruskal_run, kruskal_run_h, alloc. cbn [length app].
  set (sorted := sort_by edge_le (edges g)).
  set (uf := UnionFind.make (length (nodes g))).
  destruct (getUnionFindState uf (nodes g)) as [[uf0 st0]|] eqn:Hget; [|done].
  cbn [mbind option_bind].
  set (s0 := {| ks_uf := uf; ks_mstEdges := []; ks_totalCost := Fin 0; ks_steps := [] |}).
  assert (Hinv0 : ks_inv g s0).
  { split; cbn [s0 ks_uf]; [apply UF.wf_make|]. subst uf. simpl.
    by rewrite length_seq. }
  assert (R0 : krel g sorted
    {| kh_store := [CSEdges []; CUF uf];
       kh_live := {| kl_uf := 1%nat; kl_mst := 0%nat; kl_total := Fin 0 |};
       kh_log := [] |} s0).
  { split; try done; constructor. }
  destruct (kruskal_push_rel g sorted _ s0 0%nat None
    (map (λ e, {| se_edge := e; se_status := pending |}) sorted)
    initialize None uf0 st0 R0 Hinv0 Hget (pending_edges _)) as (h0 & Hpush & R1).
  cbn [s0 ks_mstEdges ks_totalCost ks_steps app] in Hpush, R1.
  rewrite Hpush. cbn [mbind option_bind].
  destruct (kruskal_forEach g sorted (nodeMap_of g) _ 0 sorted) as [s|] eqn:Hrun;
    [|done].
  cbn [mbind option_bind]. intros [= <-].
  destruct (getUnionFindState_again _ _ _ _ (proj1 Hinv0)
    ltac:(rewrite (proj2 Hinv0); done) Hget) as (Hwf0 & Hp0 & _).
  destruct (kruskal_forEach_h_rel g sorted sorted h0 _ 0%nat s R1) as (h & Hh & R);
    [|exact Hrun|].
  { split; cbn [ks_uf]; [done|]. rewrite (proj1 Hp0). apply Hinv0. }
  exists h, s. done.
Qed.

(** *** Prim *)

Lemma prim_foreign_start_queue g startNode s :
  startNode ∉ node_ids g → prim_final_state g startNode = Some s →
  ps_queue s = [].
Proof.
  intros Hn Hrun.
  eapply (prim_final_state_invariant g (λ s, ps_queue s = [])) in Hrun as [H _];
    [done|].
  intros adjList Hadj. split.
  - unfold prim_first. cbn [ps_queue].
    destruct (adjList !! startNode) as [l|] eqn:E; [|done].
    assert (is_Some (adjList !! startNode)) as Hs by eauto.
    apply (createAdjacencyList_keys g _ _ Hadj) in Hs as [_ Hs]. done.
  - intros s0 cur rest Hs0 Hq. congruence.
Qed.

(** When every node is visited the queue is empty: the [complete] step of
    Prim copies the live queue, too.  This needs the edges to lead to
    nodes: an edge to an id that is no node but a name that objects
    inherit stays in the queue. *)
Lemma prim_complete_queue_empty g startNode s :
  plain_ids g →
  prim_final_state g startNode = Some s →
  length (ps_visited s) = length (nodes g) → ps_queue s = [].
Proof.
  intros Hp Hrun Hlen.
  destruct (decide (startNode ∈ node_ids g)) as [Hin|Hout];
    [|by eapply prim_foreign_start_queue].
  destruct (pbasic_final_plain g startNode s Hp Hrun)
    as [[Hnd _ Hvis Hq _ _ _ _ _ _] _].
  pose proof (pruned_final g startNode s Hrun) as [Hfresh _].
  destruct (ps_queue s) as [|e q] eqn:E; [done|]. exfalso.
  assert (Hto : pe_to e ∈ node_ids g) by (apply Hq; left).
  apply Forall_cons in Hfresh as [[_ Hnv] _].
  assert (Hsub : ps_visited s ⊆+ node_ids g).
  { apply NoDup_submseteq; [done|]. intros x Hx.
    destruct (Hvis x Hx) as [->|?]; done. }
  apply submseteq_length_Permutation in Hsub.
  - apply Hnv. by rewrite Hsub.
  - rewrite node_ids_length. lia.
Qed.

Lemma prim_run_h_rel g startNode s :
  prim_final_state g startNode = Some s →
  ∃ h, prim_run_h g startNode = Some h ∧
       prel g h {| ps_visited := ps_visited s; ps_queue := ps_queue s;
                   ps_mstEdges := ps_mstEdges s; ps_totalCost := ps_totalCost s;
                   ps_steps := prim_finish g s; ps_stepCount := ps_stepCount s |}.
Proof.
  intros Hrun. pose proof Hrun as (adjList & Hadj & Hsearch)%prim_final_state_Some.
  unfold prim_search in Hsearch. apply rbind_Ok in Hsearch as (s0 & Hinit & Hloop).
  destruct (prim_init_rel g adjList startNode s0 Hinit) as (h0 & Hh0 & R0).
  destruct (prim_loop_rel g adjList (loop_fuel g) h0 s0 s R0 Hloop) as (h & Hh & R).
  unfold prim_run_h. rewrite Hadj, Hh0. cbn [mbind option_bind]. rewrite Hh.
  cbn [fmap option_fmap option_map].
  eexists. split; [done|]. apply prim_finish_rel; [done|].
  intros Hp. by apply (prim_complete_queue_empty g startNode).
Qed.

(** *** Dijkstra *)

Lemma dijkstra_run_h_rel g src tgt s :
  dijkstra_final_state g src tgt = Some s →
  ∃ f, dijkstra_run_h g src tgt = Some f ∧
       dsnapshots f.1.1 (d_steps (dijkstra_finish g src tgt s)) ∧
       get_dists (dh_store f.1.1) f.1.2
         = df_distances (d_finalResult (dijkstra_finish g src tgt s)) ∧
       get_paths (dh_store f.1.1) f.2
         = df_shortestPaths (d_finalResult (dijkstra_finish g src tgt s)) ∧
       (dr_shortestPaths ∘ den_ref) <$> last (dh_log f.1.1) = Some f.2.
Proof.
  intros (lists & Hadj & Hrun)%dijkstra_final_state_loop. unfold dijkstra_run_h.
  rewrite Hadj.
  destruct (dijkstra_loop_rel lists src tgt (loop_fuel g) _ _ s
    (dijkstra_init_rel g src) Hrun) as (h & -> & R).
  eexists. split; [done|].
  destruct (dijkstra_finish_rel g src tgt h s R) as (R' & Hd & Hp & Hl).
  split_and!; try done. by apply drel_snapshots in R'.
Qed.

(** Two nodes joined by an edge, and a one-way edge from [A] to
    [constructor], which is no node but a name that every object
    inherits. *)
Definition stray_arc : Graph :=
  {| nodes := [{| nid := "A" |}; {| nid := "B" |}];
     edges :=
       [{| eid := Some "A-B"; from := "A"; to := "B"; weight := int 1;
           directed := false |};
        {| eid := Some "x"; from := "A"; to := "constructor"; weight := int 2;
           directed := true |}] |}.

(** C4, as the spec words it, fails for the last step of Dijkstra and of
    Prim.  On the triangle, from [A] to the target [B], the loop of
    Dijkstra stops at [B] with [C] still in the queue; the [complete] step
    pushed then, read in the store of that moment, has an empty
    [priorityQueue], and the live queue holds [C] at distance 3.  On
    [stray_arc] the loop of Prim stops when [A] and [B] are visited, with
    the edge to [constructor] still in the queue; the [complete] step has
    an empty [priorityQueue] again. *)
Theorem complete_step_drops_queue :
  (match dijkstraAlgorithm triangle (Some "A") (Some "B") with
   | Ok r => d_priorityQueue <$> last (d_steps r) = Some []
   | _ => False
   end ∧
   ds_queue <$> dijkstra_final_state triangle "A" (Some "B")
     = Some [{| q_nodeId := "C"; q_distance := int 3 |}] ∧
   match dijkstra_run_h triangle "A" (Some "B") with
   | Some f =>
       match last (dh_log f.1.1) with
       | Some e =>
           d_action (dderef (den_store e) (den_ref e)) = complete ∧
           d_priorityQueue (dderef (den_store e) (den_ref e)) = [] ∧
           get_queue (den_store e) (dl_queue (den_live e))
             = [{| q_nodeId := "C"; q_distance := int 3 |}]
       | None => False
       end
   | None => False
   end) ∧
  (validateGraph stray_arc = Ok tt ∧
   match primAlgorithm stray_arc (Some "A") with
   | Ok r => p_priorityQueue <$> last (p_steps r) = Some []
   | _ => False
   end ∧
   ps_queue <$> prim_final_state stray_arc "A"
     = Some [{| pe_from := "A"; pe_to := "constructor"; pe_weight := int 2;
                pe_edgeId := "x" |}] ∧
   match prim_run_h stray_arc "A" with
   | Some h =>
       match last (ph_log h) with
       | Some e =>
           p_action (pderef (pen_store e) (pen_ref e)) = complete ∧
           p_priorityQueue (pderef (pen_store e) (pen_ref e)) = [] ∧
           get_pedges (pen_store e) (pl_queue (pen_live e))
             = [{| pe_from := "A"; pe_to := "constructor"; pe_weight := int 2;
                   pe_edgeId := "x" |}]
       | None => False
       end
   | None => False
   end).
Proof. split; split_and!; vm_compute; done. Qed.

(** C4, amended.  Run over a store in which every array, [Set] and
    dictionary is a cell, each engine that returns a result leaves in
    [steps] exactly the steps of that result; every step, read in the
    store of any later push or in the store in which the engine returns,
    is what it was when it was pushed; and at that moment its collections
    were equal to the live ones ([sortedEdges] lists the sorted edges,
    [unionFindState] is what [getUnionFindState] reads off [uf]) — except
    the [priorityQueue] of the [complete] step of Dijkstra, which is
    empty whatever the live queue holds, and the [priorityQueue] of the
    [complete] step of Prim on a graph in which some id is a name that
    objects inherit. *)
Theorem steps_are_isolated_snapshots g :
  (∀ r, kruskalAlgorithm g = Ok r →
     ∃ h, kruskal_run_h g = Some h ∧ ksnapshots g h (k_steps r)) ∧
  (∀ startNodeId r, primAlgorithm g startNodeId = Ok r →
     ∃ h, prim_run_h g (pf_startNode (p_finalResult r)) = Some h ∧
          psnapshots g h (p_steps r)) ∧
  (∀ sourceNodeId targetNodeId r,
     dijkstraAlgorithm g sourceNodeId targetNodeId = Ok r →
     ∃ f, dijkstra_run_h g (df_sourceNode (d_finalResult r)) targetNodeId = Some f ∧
          dsnapshots f.1.1 (d_steps r)).
Proof.
  split_and!.
  - intros r [_ Hrun]%kruskalAlgorithm_Ok.
    destruct (kruskal_run_h_rel g r Hrun) as (h & s & Hh & R & -> & _).
    exists h. split; [done|]. by apply krel_snapshots.
  - intros startNodeId r (_ & startNode & s & _ & _ & Hs & ->)%primAlgorithm_Ok.
    cbn [p_finalResult pf_startNode p_steps].
    destruct (prim_run_h_rel g startNode s Hs) as (h & Hh & R).
    exists h. split; [done|]. by apply prel_snapshots in R.
  - intros sourceNodeId targetNodeId r
      (_ & src & s & _ & _ & _ & Hs & ->)%dijkstraAlgorithm_Ok.
    destruct (dijkstra_run_h_rel g src targetNodeId s Hs) as (f & Hf & Hsnap & _).
    exists f. split; [done|]. done.
Qed.

Lemma steps_are_isolated_snapshots_witness :
  (∃ r h, kruskalAlgorithm triangle = Ok r ∧
          kruskal_run_h triangle = Some h ∧ ksnapshots triangle h (k_steps r)) ∧
  (∃ r h, primAlgorithm triangle (Some "C") = Ok r ∧
          prim_run_h triangle "C" = Some h ∧
          psnapshots triangle h (p_steps r)) ∧
  (∃ r f, dijkstraAlgorithm triangle (Some "A") (Some "B") = Ok r ∧
          dijkstra_run_h triangle "A" (Some "B") = Some f ∧
          dsnapshots f.1.1 (d_steps r)).
Proof.
  destruct (steps_are_isolated_snapshots triangle) as (K & P & D).
  split_and!.
  - assert (∃ r, kruskalAlgorithm triangle = Ok r) as [r E]
      by (eexists; vm_compute; reflexivity).
    destruct (K r E) as (h & Hh & Hs).
    exists r, h. split; [exact E|]. split; [exact Hh|exact Hs].
  - assert (∃ r, primAlgorithm triangle (Some "C") = Ok r
                 ∧ pf_startNode (p_finalResult r) = "C") as (r & E & Es)
      by (eexists; split; vm_compute; reflexivity).
    destruct (P (Some "C") r E) as (h & Hh & Hs). rewrite Es in Hh.
    exists r, h. split; [exact E|]. split; [exact Hh|exact Hs].
  - assert (∃ r, dijkstraAlgorithm triangle (Some "A") (Some "B") = Ok r
                 ∧ df_sourceNode (d_finalResult r) = "A") as (r & E & Es)
      by (eexists; split; vm_compute; reflexivity).
    destruct (D (Some "A") (Some "B") r E) as (f & Hf & Hs). rewrite Es in Hf.
    exists r, f. split; [exact E|]. split; [exact Hf|exact Hs].
Defined.

(** * More of the code *)

(** ** [validateGraph] *)

(** The weight is not below zero: [NaN], which compares false with every
    number, passes. *)
Definition edge_valid (e : Edge) : Prop :=
  truthy (from e) = true ∧ truthy (to e) = true ∧
  num_lt (weight e) (Fin 0) = false.

Lemma edge_ok_Ok e : edge_ok e = Ok tt ↔ edge_valid e.
Proof.
  unfold edge_ok, edge_valid.
  destruct (truthy (from e)), (truthy (to e)); simpl;
    try (split; [done|intros (? & ? & ?); done]).
  destruct (num_lt (weight e) (Fin 0)) eqn:E.
  - split; [done|]. intros (_ & _ & ?). done.
  - done.
Qed.

Lemma edge_ok_not_Stuck e : edge_ok e ≠ Stuck.
Proof.
  unfold edge_ok. destruct (_ || _); [done|]. by destruct (num_lt (weight e) (Fin 0)).
Qed.

Lemma edges_ok_Ok es : edges_ok es = Ok tt ↔ Forall edge_valid es.
Proof.
  induction es as [|e es IH]; simpl; [split; [constructor|done]|].
  rewrite Forall_cons, <- IH, <- edge_ok_Ok.
  destruct (edge_ok e) as [[]| |]; simpl; split; try done; intros []; done.
Qed.

(** The error is that of the first edge that fails its checks. *)
Lemma edges_ok_Throw es m :
  edges_ok es = Throw m ↔
  ∃ good e rest, es = good ++ e :: rest ∧ Forall edge_valid good ∧
                 edge_ok e = Throw m.
Proof.
  induction es as [|e es IH]; simpl.
  - split; [done|]. intros (good & e & rest & Hes & _).
    by destruct good.
  - destruct (edge_ok e) as [[]| |] eqn:E; simpl.
    + rewrite IH. split.
      * intros (good & e' & rest & -> & Hg & He').
        exists (e :: good), e', rest. split; [done|]. split; [|done].
        constructor; [by apply edge_ok_Ok|done].
      * intros (good & e' & rest & Hes & Hg & He').
        destruct good as [|x good]; simpl in Hes; injection Hes as <- ->.
        { congruence. }
        apply Forall_cons in Hg as [_ Hg]. eauto 6.
    + split.
      * intros [= ->]. exists [], e, es. split; [done|]. split; [constructor|done].
      * intros (good & e' & rest & Hes & Hg & He').
        destruct good as [|x good]; simpl in Hes; injection Hes as <- ->.
        { congruence. }
        apply Forall_cons in Hg as [Hx _]. apply edge_ok_Ok in Hx. congruence.
    + by destruct (edge_ok_not_Stuck e).
Qed.

Lemma validateGraph_Ok g :
  validateGraph g = Ok tt ↔ nodes g ≠ [] ∧ Forall edge_valid (edges g).
Proof.
  unfold validateGraph. destruct (decide _) as [Hz|Hz].
  - apply length_zero_iff_nil in Hz. split; [done|]. intros [? _]. done.
  - rewrite edges_ok_Ok. split; [|tauto]. intros H. split; [|done].
    intros Hn. by rewrite Hn in Hz.
Qed.

Lemma validateGraph_not_Stuck g : validateGraph g ≠ Stuck.
Proof.
  unfold validateGraph. destruct (decide _); [done|].
  induction (edges g) as [|e es IH]; simpl; [done|].
  destruct (edge_ok e) as [[]| |] eqn:E; simpl; [done|done|].
  by destruct (edge_ok_not_Stuck e).
Qed.

(** X1.  [validateGraph] passes exactly the graphs with at least one node
    whose edges all have a non-empty [from], a non-empty [to] and a weight
    that is not negative.  No node is looked at, and no edge is compared
    with the nodes: an edge between ids that no node carries passes.  On
    any other graph it throws: a graph without nodes is reported as such
    whatever its edges are, and otherwise the message is the one of the
    first edge that fails. *)
Theorem validateGraph_accepts g :
  (validateGraph g = Ok tt ↔ nodes g ≠ [] ∧ Forall edge_valid (edges g)) ∧
  (nodes g = [] → validateGraph g = Throw "Graph must have at least one node") ∧
  (∀ good e rest,
     nodes g ≠ [] → edges g = good ++ e :: rest → Forall edge_valid good →
     ¬ edge_valid e →
     validateGraph g = Throw
       (if negb (truthy (from e)) || negb (truthy (to e))
        then "Each edge must have from, to, and weight properties"
        else "Edge weights must be non-negative numbers")).
Proof.
  split; [apply validateGraph_Ok|]. split.
  - intros Hn. unfold validateGraph. by rewrite Hn.
  - intros good e rest Hn Hes Hgood Hbad. unfold validateGraph.
    rewrite decide_False.
    2:{ intros Hz. by apply length_zero_iff_nil in Hz. }
    apply edges_ok_Throw. exists good, e, rest. split; [done|]. split; [done|].
    unfold edge_ok. destruct (_ || _) eqn:E; [done|].
    destruct (num_lt (weight e) (Fin 0)) eqn:Ew; [done|]. exfalso. apply Hbad.
    apply orb_false_iff in E as [E1 E2].
    apply negb_false_iff in E1, E2. done.
Qed.

Definition dangling : Graph :=
  {| nodes := [{| nid := "A" |}];
     edges := [{| eid := None; from := "P"; to := "Q"; weight := int 1;
                  directed := false |};
               {| eid := None; from := "A"; to := EmptyString; weight := int (-1);
                  directed := false |}] |}.

Lemma validateGraph_accepts_witness :
  validateGraph dangling
  = Throw "Each edge must have from, to, and weight properties".
Proof.
  destruct (validateGraph_accepts dangling) as (_ & _ & H).
  apply (H [{| eid := None; from := "P"; to := "Q"; weight := int 1;
               directed := false |}]
           {| eid := None; from := "A"; to := EmptyString; weight := int (-1);
              directed := false |} []).
  - done.
  - reflexivity.
  - apply Forall_singleton. unfold edge_valid. simpl. split_and!; done.
  - unfold edge_valid. simpl. intros (_ & ? & _). done.
Defined.

(** ** The route handlers *)

Lemma validateGraph_cases g :
  validateGraph g = Ok tt ∨ ∃ m, validateGraph g = Throw m.
Proof.
  pose proof (validateGraph_not_Stuck g).
  destruct (validateGraph g) as [[]|m|]; eauto. done.
Qed.

(** X2.  [POST /api/kruskal] always answers.  Without a graph it refuses
    with "Missing graph data"; with a graph that [validateGraph] rejects
    it refuses with "Kruskal algorithm failed" and the message of
    [validateGraph] behind the prefix of the engine; with any graph that
    [validateGraph] passes it sends the result of [kruskalAlgorithm]. *)
Theorem kruskal_post_answers graph :
  match graph with
  | None =>
      kruskal_post graph
      = Refused "Missing graph data" "Please provide graph data in request body"
  | Some g =>
      match validateGraph g with
      | Ok _ => ∃ r, kruskalAlgorithm g = Ok r ∧ kruskal_post graph = Sent r
      | Throw m =>
          kruskal_post graph
          = Refused "Kruskal algorithm failed" ("Kruskal algorithm error: " +:+ m)
      | Stuck => False
      end
  end.
Proof.
  destruct graph as [g|]; [|done].
  destruct (validateGraph g) as [[]|m|] eqn:Hv.
  - destruct (kruskalAlgorithm_total g Hv) as [r Hr]. exists r. split; [done|].
    unfold kruskal_post. by rewrite Hr.
  - unfold kruskal_post, kruskalAlgorithm. by rewrite Hv.
  - by destruct (validateGraph_not_Stuck g).
Qed.

(** X3.  [POST /api/prim] always answers when the adjacency list can be
    built.  The graph is checked first, then the adjacency list is built,
    and a failure of either is reported.  Else the start is [startNode],
    or the id of the first node when [startNode] is missing or empty; the
    request is refused with "No valid start node found" exactly when that
    id is empty as well.  A start that is no node but a name that objects
    inherit is refused, since what is found under it in the adjacency list
    is no array.  On a graph in which no id is such a name the result of
    [primAlgorithm] is sent for any other start, whether or not a node
    carries the start id. *)
Theorem prim_post_answers graph startNode :
  match graph with
  | None =>
      prim_post graph startNode
      = Refused "Missing graph data" "Please provide graph data in request body"
  | Some g =>
      match validateGraph g with
      | Ok _ =>
          match createAdjacencyList g with
          | Ok _ =>
              let start := if truthy_opt startNode then default EmptyString startNode
                           else default EmptyString (nid <$> head (nodes g)) in
              if truthy start then
                if inherited start && negb (bool_decide (start ∈ node_ids g)) then
                  prim_post graph startNode
                  = Refused "Prim algorithm failed"
                      "Prim algorithm error: startNeighbors.forEach is not a function"
                else
                  plain_ids g →
                  ∃ r, primAlgorithm g startNode = Ok r ∧
                       pf_startNode (p_finalResult r) = start ∧
                       prim_post graph startNode = Sent r
              else
                prim_post graph startNode
                = Refused "Prim algorithm failed"
                    "Prim algorithm error: No valid start node found"
          | Throw m =>
              prim_post graph startNode
              = Refused "Prim algorithm failed" ("Prim algorithm error: " +:+ m)
          | Stuck => True
          end
      | Throw m =>
          prim_post graph startNode
          = Refused "Prim algorithm failed" ("Prim algorithm error: " +:+ m)
      | Stuck => False
      end
  end.
Proof.
  destruct graph as [g|]; [|done].
  destruct (validateGraph g) as [[]|m|] eqn:Hv.
  - pose proof Hv as [Hn _]%validateGraph_Ok.
    assert (length (nodes g) ≠ 0%nat) as Hz.
    { intros Hz. by apply length_zero_iff_nil in Hz. }
    destruct (createAdjacencyList g) as [adjList|m|] eqn:Hadj; [| |done].
    2:{ unfold prim_post, primAlgorithm, prim_run. rewrite Hv. cbn [rbind].
        rewrite decide_False by done. by rewrite Hadj. }
    assert (Hstart : prim_start g startNode = Some
      (if truthy_opt startNode then default EmptyString startNode
       else default EmptyString (nid <$> head (nodes g)))).
    { unfold prim_start. destruct (truthy_opt startNode) eqn:E.
      - destruct startNode; [done|done].
      - destruct (nodes g); [done|done]. }
    cbv zeta. set (start := if truthy_opt startNode then _ else _) in *.
    destruct (truthy start) eqn:Ht.
    + destruct (inherited start && negb (bool_decide (start ∈ node_ids g))) eqn:Hi.
      * apply andb_true_iff in Hi as [Hi Hout].
        apply negb_true_iff, bool_decide_eq_false in Hout.
        assert (adjList !! start = None) as Hnone.
        { destruct (adjList !! start) eqn:E; [|done].
          assert (is_Some (adjList !! start)) as Hs by eauto.
          apply (createAdjacencyList_keys g _ _ Hadj) in Hs as [_ Hs]. done. }
        unfold prim_post, primAlgorithm, prim_run. rewrite Hv. cbn [rbind].
        rewrite decide_False by done. rewrite Hadj. cbn [rbind].
        rewrite Hstart, Ht. unfold prim_search, prim_init, neighbours.
        rewrite Hnone, Hi. done.
      * intros Hp.
        assert (inherited start = false) as Hni.
        { apply andb_false_iff in Hi as [Hi|Hi]; [done|].
          apply negb_false_iff, bool_decide_eq_true in Hi.
          by eapply plain_node_ids. }
        destruct (prim_final_state_total g start Hp Hni) as [s Hs].
        assert (primAlgorithm g startNode = Ok
          {| p_steps := prim_finish g s;
             p_finalResult :=
               {| pf_mstEdges := ps_mstEdges s; pf_totalCost := ps_totalCost s;
                  pf_edgeCount := length (ps_mstEdges s);
                  pf_startNode := start |} |}) as Hr.
        { apply primAlgorithm_Ok. split; [done|]. exists start, s. done. }
        eexists. split; [exact Hr|]. split; [done|].
        unfold prim_post. by rewrite Hr.
    + unfold prim_post, primAlgorithm, prim_run. rewrite Hv. cbn [rbind].
      rewrite decide_False by done. rewrite Hadj. cbn [rbind].
      rewrite Hstart, Ht. done.
  - unfold prim_post, primAlgorithm. by rewrite Hv.
  - by destruct (validateGraph_not_Stuck g).
Qed.

Lemma prim_post_answers_witness :
  ∃ r, primAlgorithm triangle (Some "C") = Ok r ∧
       pf_startNode (p_finalResult r) = "C" ∧
       prim_post (Some triangle) (Some "C") = Sent r.
Proof.
  apply (prim_post_answers (Some triangle) (Some "C")
         <: plain_ids triangle →
            ∃ r, primAlgorithm triangle (Some "C") = Ok r ∧
                 pf_startNode (p_finalResult r) = "C" ∧
                 prim_post (Some triangle) (Some "C") = Sent r).
  by_decide.
Defined.

(** X4.  [POST /api/dijkstra] always answers when the adjacency list can
    be built, and checks in this order: the graph is there, the source is
    there and not empty, the graph is valid, a node carries the source
    id, the adjacency list is built.  A missing source is reported by the
    handler itself, also for a graph that is not valid.  When all hold
    the result of [dijkstraAlgorithm] is sent, whatever the target is. *)
Theorem dijkstra_post_answers graph sourceNode targetNode :
  match graph with
  | None =>
      dijkstra_post graph sourceNode targetNode
      = Refused "Missing graph data" "Please provide graph data in request body"
  | Some g =>
      if negb (truthy_opt sourceNode) then
        dijkstra_post graph sourceNode targetNode
        = Refused "Source node is required"
            "Please specify a source node for Dijkstra's algorithm"
      else
        let src := default EmptyString sourceNode in
        match validateGraph g with
        | Ok _ =>
            if bool_decide (src ∈ node_ids g) then
              match createAdjacencyList g with
              | Ok _ =>
                  ∃ r, dijkstraAlgorithm g sourceNode targetNode = Ok r ∧
                       dijkstra_post graph sourceNode targetNode = Sent r
              | Throw m =>
                  dijkstra_post graph sourceNode targetNode
                  = Refused "Dijkstra algorithm failed"
                      ("Dijkstra algorithm error: " +:+ m)
              | Stuck => True
              end
            else
              dijkstra_post graph sourceNode targetNode
              = Refused "Dijkstra algorithm failed"
                  ("Dijkstra algorithm error: Source node '" +:+ src
                   +:+ "' not found in graph")
        | Throw m =>
            dijkstra_post graph sourceNode targetNode
            = Refused "Dijkstra algorithm failed"
                ("Dijkstra algorithm error: " +:+ m)
        | Stuck => False
        end
  end.
Proof.
  destruct graph as [g|]; [|done].
  destruct sourceNode as [src|]; [|done].
  unfold dijkstra_post. cbn [truthy_opt].
  change (default EmptyString (Some src)) with src.
  destruct (truthy src) eqn:Ht; [|done]. cbn [negb]. cbv zeta.
  destruct (validateGraph g) as [[]|m|] eqn:Hv.
  - destruct (bool_decide (src ∈ node_ids g)) eqn:Hin.
    + apply bool_decide_eq_true in Hin.
      destruct (createAdjacencyList g) as [lists|m|] eqn:Hadj; [| |done].
      * destruct (dijkstra_final_state_returns g src targetNode lists Hadj Ht Hin)
          as [s Hs].
        assert (∃ r, dijkstraAlgorithm g (Some src) targetNode = Ok r) as [r Hr].
        { eexists. apply dijkstraAlgorithm_Ok. split; [done|]. by exists src, s. }
        exists r. split; [done|]. by rewrite Hr.
      * assert (existsb (λ node, bool_decide (nid node = src)) (nodes g) = true)
          as He by (by apply source_exists).
        unfold dijkstraAlgorithm, dijkstra_run.
        rewrite Hv. cbn [negb rbind]. rewrite Ht, He, Hadj. done.
    + apply bool_decide_eq_false in Hin.
      assert (existsb (λ node, bool_decide (nid node = src)) (nodes g) = false) as He.
      { destruct (existsb _ _) eqn:E; [|done]. by apply source_exists in E. }
      unfold dijkstraAlgorithm, dijkstra_run.
      rewrite Hv. cbn [negb rbind]. rewrite Ht, He. done.
  - unfold dijkstraAlgorithm. rewrite Hv. done.
  - by destruct (validateGraph_not_Stuck g).
Qed.

(** ** [createAdjacencyList] *)

Lemma adj_lists_entries g k :
  default [] (adj_lists g !! k)
  = concat (map (λ e, if decide (known_edge g e) then arcs_of e k else [])
                (edges g)).
Proof.
  unfold adj_lists. rewrite lists_edges_entries.
  rewrite lists_init_entries by (intros; by rewrite lookup_empty).
  rewrite app_nil_l. f_equal. apply map_ext. intros e.
  destruct (decide (known_edge g e)) as [Hk|Hk].
  - apply edge_known_in_init in Hk. by rewrite Hk.
  - destruct (edge_known_in _ e) eqn:E; [|done].
    by apply edge_known_in_init in E.
Qed.

(** X5.  On a graph in which no id is a name that objects inherit,
    [createAdjacencyList] returns, and the adjacency list has a key for
    every non-empty node id and no other key.  The list of [k] holds, in
    the order of [graph.edges], for every edge whose two ends are such
    ids: an entry to [to] when the edge starts at [k], and then, unless
    the edge is directed, an entry to [from] when it ends at [k]; an
    undirected loop at [k] is listed twice.  Edges with an end that no
    node carries leave no entry.  Every entry leads to a key, so the
    engines never miss a list when they follow one. *)
Theorem createAdjacencyList_lists g :
  plain_ids g →
  ∃ m, createAdjacencyList g = Ok m ∧
    ∀ k,
      m !! k
      = (if truthy k && bool_decide (k ∈ node_ids g) then
           Some (concat (map (λ e, if decide (known_edge g e) then arcs_of e k
                                   else [])
                             (edges g)))
         else None) ∧
      ∀ a, a ∈ default [] (m !! k) → is_Some (m !! adj_to a).
Proof.
  intros Hp. exists (adj_lists g). split; [by apply createAdjacencyList_plain|].
  intros k. split.
  - pose proof (adjList_keys g k) as Hkeys.
    pose proof (adj_lists_entries g k) as Hent.
    destruct (adj_lists g !! k) as [l|] eqn:E.
    + destruct (proj1 Hkeys) as [Ht Hin]; [eauto|].
      rewrite Ht, bool_decide_eq_true_2 by done. simpl in *. by rewrite Hent.
    + destruct (truthy k && bool_decide (k ∈ node_ids g)) eqn:Hc; [|done].
      apply andb_true_iff in Hc as [Ht Hin]. apply bool_decide_eq_true in Hin.
      destruct (proj2 Hkeys) as [? [=]]. done.
  - intros a Ha. apply adjList_keys. by eapply neighbors_known.
Qed.

Lemma createAdjacencyList_lists_witness :
  ∃ m, createAdjacencyList triangle = Ok m ∧
       m !! "B" = Some [{| adj_to := "A"; adj_weight := int 1; adj_edgeId := "A-B" |};
                        {| adj_to := "C"; adj_weight := int 2; adj_edgeId := "B-C" |}] ∧
       m !! "Z" = None.
Proof.
  destruct (createAdjacencyList_lists triangle) as (m & Hm & Hk); [by_decide|].
  exists m. split; [exact Hm|]. split.
  - rewrite (proj1 (Hk "B")). vm_compute. reflexivity.
  - rewrite (proj1 (Hk "Z")). vm_compute. reflexivity.
Defined.

(** X6.  In a graph without directed edges the adjacency list is
    symmetric: [b] is listed under [a] with a weight and an edge id
    exactly when [a] is listed under [b] with the same weight and the same
    edge id. *)
Theorem createAdjacencyList_symmetric g m a b w i :
  createAdjacencyList g = Ok m →
  (∀ e, e ∈ edges g → directed e = false) →
  {| adj_to := b; adj_weight := w; adj_edgeId := i |}
    ∈ default [] (m !! a) ↔
  {| adj_to := a; adj_weight := w; adj_edgeId := i |}
    ∈ default [] (m !! b).
Proof.
  intros Hm Hund. rewrite (createAdjacencyList_undirected g m Hund Hm).
  assert (∀ a b, {| adj_to := b; adj_weight := w; adj_edgeId := i |}
                   ∈ default [] (adj_lists g !! a) →
                 {| adj_to := a; adj_weight := w; adj_edgeId := i |}
                   ∈ default [] (adj_lists g !! b)) as Hone.
  { clear a b. intros a b (e & He & Hk & Harc)%neighbors_spec.
    apply neighbors_spec. exists e. split; [done|]. split; [done|].
    unfold arc, arc_entry in *. rewrite (Hund e He).
    destruct Harc as [[<- [= -> -> ->]]|(_ & <- & [= -> -> ->])]; auto. }
  split; apply Hone.
Qed.

Lemma createAdjacencyList_symmetric_witness :
  ∃ m, createAdjacencyList triangle = Ok m ∧
    ({| adj_to := "C"; adj_weight := int 2; adj_edgeId := "B-C" |}
       ∈ default [] (m !! "B") ↔
     {| adj_to := "B"; adj_weight := int 2; adj_edgeId := "B-C" |}
       ∈ default [] (m !! "C")).
Proof.
  eexists. split; [vm_compute; reflexivity|].
  apply (createAdjacencyList_symmetric triangle _ "B" "C" (int 2) "B-C").
  - vm_compute. reflexivity.
  - intros e He. simpl in He. rewrite !elem_of_cons in He.
    destruct He as [->|[->|[->|He]]]; try reflexivity. by apply elem_of_nil in He.
Defined.

(** ** [UnionFind] *)

Section UnionFindUse.
Import UnionFind.
Local Open Scope nat_scope.

(** [built n u]: [u] is [new UnionFind(n)] after some calls of its three
    methods on indices below [n]. *)
Inductive built (n : nat) : UnionFind.t → Prop :=
| built_make : built n (make n)
| built_find u x u' r :
    built n u → x < n → find u x = Some (u', r) → built n u'
| built_union u x y u' b :
    built n u → x < n → y < n → union u x y = Some (u', b) → built n u'
| built_connected u x y u' b :
    built n u → x < n → y < n → connected u x y = Some (u', b) → built n u'.

Lemma built_wf n u : built n u → UF.wf u ∧ length (parent u) = n.
Proof.
  induction 1 as [|u x u' r _ [Hu Hn] Hx Hf|u x y u' b _ [Hu Hn] Hx Hy Hun
                  |u x y u' b _ [Hu Hn] Hx Hy Hc].
  - split; [apply UF.wf_make|]. simpl. by rewrite length_seq.
  - destruct (UF.find_spec u x Hu) as (res & Hres & Hpost); [lia|].
    rewrite Hf in Hres. injection Hres as <-.
    split; [apply Hpost|].
    pose proof (UF.find_post_length _ _ _ Hu Hpost) as Hl. simpl in Hl. congruence.
  - destruct (UF.union_spec u x y Hu) as (u2 & b2 & Hres & Hu2 & Hl & _); [lia..|].
    rewrite Hun in Hres. injection Hres as <- <-. split; [done|congruence].
  - destruct (UF.connected_spec u x y Hu) as (u2 & b2 & Hres & Hu2 & Hp & _);
      [lia..|].
    rewrite Hc in Hres. injection Hres as <- <-. split; [done|].
    rewrite (proj1 Hp). done.
Qed.

Lemma find_rec_points fuel u x u' r :
  find_rec fuel u x = Some (u', r) → parent u' !! x = Some r.
Proof.
  destruct fuel as [|fuel]; [done|]. simpl.
  destruct (parent u !! x) as [p|] eqn:Hp; [|done]. simpl.
  destruct (decide (p ≠ x)) as [Hne|Heq].
  - destruct (find_rec fuel u p) as [[u1 r1]|]; [|done]. simpl.
    destruct (<[x:=r1]> (parent u1) !! x) as [r'|] eqn:E; [|done]. simpl.
    intros [= <- <-]. done.
  - intros [= <- <-]. done.
Qed.

Lemma pres_roots u u' :
  UF.wf u → UF.pres u u' → ∀ y ry, UF.repr u' y ry ↔ UF.repr u y ry.
Proof.
  intros Hu [Hl Hp] y ry. split; [|apply Hp].
  intros Hr. destruct (UF.repr_total u y Hu) as [r0 Hr0].
  { rewrite <- Hl. by eapply UF.repr_lt. }
  by rewrite (UF.repr_fun _ _ _ _ Hr (Hp _ _ Hr0)).
Qed.

(** X7.  On a [UnionFind] built by its own methods, [find(x)] for an index
    of the structure returns: its answer is the root that the parent
    chain of [x] ends in, [x] points at that root afterwards, no rank
    changes, and every index has the root it had before (path compression
    moves nodes up inside their tree only). *)
Theorem find_returns_root n u x :
  built n u → x < n →
  ∃ u' r, find u x = Some (u', r) ∧
          UF.repr u x r ∧
          parent u' !! x = Some r ∧
          rank u' = rank u ∧
          ∀ y ry, UF.repr u' y ry ↔ UF.repr u y ry.
Proof.
  intros [Hu Hn]%built_wf Hx.
  destruct (UF.find_spec u x Hu) as ([u' r] & Hres & Hpost); [lia|].
  exists u', r. split; [done|].
  pose proof (UF.find_pres _ _ _ Hu Hpost) as Hp.
  destruct Hpost as (_ & Hrk & Hr & _). simpl in *.
  split; [done|]. split; [by eapply find_rec_points|]. split; [done|].
  by apply pres_roots.
Qed.

Lemma find_returns_root_witness :
  ∃ u' r, find (make 3) 1 = Some (u', r) ∧
          UF.repr (make 3) 1 r ∧
          parent u' !! 1 = Some r ∧
          rank u' = rank (make 3) ∧
          ∀ y ry, UF.repr u' y ry ↔ UF.repr (make 3) y ry.
Proof. apply (find_returns_root 3 (make 3) 1); [constructor|lia]. Defined.

Lemma merged_same u x y z w :
  UF.same u x y → UF.merged u x y z w ↔ UF.same u z w.
Proof.
  intros Hxy. unfold UF.merged. split; [|auto].
  intros [H|[[Hz Hw]|[Hz Hw]]]; [done| |].
  - eapply UF.same_trans; [exact Hz|]. eapply UF.same_trans; [exact Hxy|].
    by apply UF.same_sym.
  - eapply UF.same_trans; [exact Hz|]. eapply UF.same_trans; [|by apply UF.same_sym].
    by apply UF.same_sym.
Qed.

(** X8.  [union(x, y)] returns [false] exactly when [x] and [y] already
    have the same root, and [true] otherwise.  Afterwards two indices have
    the same root exactly when they had before, or one was with [x] and
    the other with [y]: the two sets are merged and no other set
    changes. *)
Theorem union_merges n u x y :
  built n u → x < n → y < n →
  ∃ u' b, union u x y = Some (u', b) ∧
          (b = false ↔ UF.same u x y) ∧
          ∀ z w, UF.same u' z w ↔
                 UF.same u z w ∨ (UF.same u z x ∧ UF.same u w y)
                 ∨ (UF.same u z y ∧ UF.same u w x).
Proof.
  intros [Hu Hn]%built_wf Hx Hy.
  destruct (UF.union_spec u x y Hu) as (u' & b & Hres & Hu' & Hl & Hf & Ht); [lia..|].
  exists u', b. split; [done|]. destruct b.
  - destruct (Ht eq_refl) as [Hns Hm]. split; [|exact Hm]. split; [done|tauto].
  - destruct (Hf eq_refl) as [Hs Hp]. split; [tauto|]. intros z w.
    rewrite (UF.pres_same u u') by done.
    symmetry. apply (merged_same u x y z w Hs).
Qed.

Lemma union_merges_witness :
  ∃ u' b, union (make 3) 0 2 = Some (u', b) ∧
          (b = false ↔ UF.same (make 3) 0 2) ∧
          ∀ z w, UF.same u' z w ↔
                 UF.same (make 3) z w ∨ (UF.same (make 3) z 0 ∧ UF.same (make 3) w 2)
                 ∨ (UF.same (make 3) z 2 ∧ UF.same (make 3) w 0).
Proof. apply (union_merges 3 (make 3) 0 2); [constructor|lia|lia]. Defined.

(** X9.  [connected(x, y)] answers whether [x] and [y] have the same
    root, and merges nothing: every index has the root it had before. *)
Theorem connected_decides n u x y :
  built n u → x < n → y < n →
  ∃ u' b, connected u x y = Some (u', b) ∧
          (b = true ↔ UF.same u x y) ∧
          ∀ z rz, UF.repr u' z rz ↔ UF.repr u z rz.
Proof.
  intros [Hu Hn]%built_wf Hx Hy.
  destruct (UF.connected_spec u x y Hu) as (u' & b & Hres & Hu' & Hp & Hb); [lia..|].
  exists u', b. split; [done|]. split; [done|]. by apply pres_roots.
Qed.

Lemma connected_decides_witness :
  ∃ u' b, connected (make 3) 0 2 = Some (u', b) ∧
          (b = true ↔ UF.same (make 3) 0 2) ∧
          ∀ z rz, UF.repr u' z rz ↔ UF.repr (make 3) z rz.
Proof. apply (connected_decides 3 (make 3) 0 2); [constructor|lia|lia]. Defined.

End UnionFindUse.

(** ** Minimum spanning forests *)

(** *** More entries below every threshold give a smaller sum *)

Definition count_le (W : list Z) (w : Z) : nat :=
  length (filter (λ x, x ≤ w) W).

(** [tally lo n f] is [f lo + f (lo + 1) + ... + f (lo + n - 1)]. *)
Fixpoint tally (lo : Z) (n : nat) (f : Z → Z) : Z :=
  match n with
  | O => 0
  | S n' => f lo + tally (lo + 1) n' f
  end.

Lemma tally_add lo n f1 f2 :
  tally lo n (λ w, f1 w + f2 w) = tally lo n f1 + tally lo n f2.
Proof. revert lo. induction n as [|n IH]; intros lo; simpl; [done|]. rewrite IH. lia. Qed.

Lemma tally_le lo n f1 f2 :
  (∀ w, f1 w ≤ f2 w) → tally lo n f1 ≤ tally lo n f2.
Proof.
  intros Hle. revert lo. induction n as [|n IH]; intros lo; simpl; [done|].
  specialize (IH (lo + 1)). specialize (Hle lo). lia.
Qed.

Lemma tally_ext lo n f1 f2 :
  (∀ w, f1 w = f2 w) → tally lo n f1 = tally lo n f2.
Proof.
  intros Heq. revert lo. induction n as [|n IH]; intros lo; simpl; [done|].
  by rewrite IH, Heq.
Qed.

Lemma tally_indicator lo n x :
  tally lo n (λ w, if decide (x ≤ w) then 1 else 0)
  = Z.max 0 (Z.min (Z.of_nat n) (lo + Z.of_nat n - x)).
Proof.
  revert lo. induction n as [|n IH]; intros lo; simpl tally; [lia|].
  rewrite IH. destruct (decide (x ≤ lo)); lia.
Qed.

Lemma count_le_cons x W w :
  Z.of_nat (count_le (x :: W) w)
  = (if decide (x ≤ w) then 1 else 0) + Z.of_nat (count_le W w).
Proof.
  unfold count_le. rewrite filter_cons. destruct (decide (x ≤ w)); simpl; lia.
Qed.

(** With [lo] below and [lo + n] above every entry, the sum of the list
    is read off its counts. *)
Lemma sumZ_tally lo n W :
  Forall (λ x, lo ≤ x ≤ lo + Z.of_nat n) W →
  sumZ W = (lo + Z.of_nat n) * Z.of_nat (length W)
           - tally lo n (λ w, Z.of_nat (count_le W w)).
Proof.
  induction 1 as [|x W Hx HW IH].
  - assert (∀ lo, tally lo n (λ _, 0) = 0) as Hz.
    { clear. induction n as [|n IH]; intros lo; simpl; [done|]. by rewrite IH. }
    rewrite (tally_ext _ _ _ (λ _, 0)) by done. rewrite Hz. simpl. lia.
  - rewrite (tally_ext _ _ _ _ (count_le_cons x W)), tally_add.
    rewrite tally_indicator. simpl sumZ. simpl length. rewrite IH. lia.
Qed.

Lemma sumZ_counts_le (W1 W2 : list Z) :
  length W1 = length W2 →
  (∀ w, (count_le W2 w ≤ count_le W1 w)%nat) →
  sumZ W1 ≤ sumZ W2.
Proof.
  intros Hlen Hcount.
  set (B := sumZ (Z.abs <$> (W1 ++ W2))).
  assert (∀ W, 0 ≤ sumZ (Z.abs <$> W)) as Hpos.
  { induction W as [|x W IH]; [done|].
    rewrite fmap_cons. change (0 ≤ Z.abs x + sumZ (Z.abs <$> W)). lia. }
  assert (∀ W x, x ∈ W → Z.abs x ≤ sumZ (Z.abs <$> W)) as Hbound.
  { induction W as [|y W IH]; intros x Hx; [by apply elem_of_nil in Hx|].
    rewrite fmap_cons. change (Z.abs x ≤ Z.abs y + sumZ (Z.abs <$> W)).
    apply elem_of_cons in Hx as [->|Hx].
    - specialize (Hpos W). lia.
    - specialize (IH x Hx). lia. }
  assert (∀ W, W ⊆ W1 ++ W2 →
               Forall (λ x, - B ≤ x ≤ - B + Z.of_nat (Z.to_nat (2 * B))) W) as Hall.
  { intros W Hsub. apply Forall_forall. intros x Hx.
    specialize (Hbound _ x (Hsub x Hx)). fold B in Hbound.
    specialize (Hpos (W1 ++ W2)). fold B in Hpos. lia. }
  rewrite (sumZ_tally (- B) (Z.to_nat (2 * B)) W1)
    by (apply Hall; intros x Hx; apply elem_of_app; auto).
  rewrite (sumZ_tally (- B) (Z.to_nat (2 * B)) W2)
    by (apply Hall; intros x Hx; apply elem_of_app; auto).
  rewrite Hlen.
  pose proof (tally_le (- B) (Z.to_nat (2 * B))
    (λ w, Z.of_nat (count_le W2 w)) (λ w, Z.of_nat (count_le W1 w))) as Ht.
  assert (∀ w, Z.of_nat (count_le W2 w) ≤ Z.of_nat (count_le W1 w)) as Hc.
  { intros w. specialize (Hcount w). lia. }
  specialize (Ht Hc). lia.
Qed.

(** *** A coarser partition has fewer classes *)

Lemma size_classes_le `{Countable T} (c1 c2 : T → T) (l : list T) :
  (∀ x y, x ∈ l → y ∈ l → c1 x = c1 y → c2 x = c2 y) →
  (size (classes c2 l) ≤ size (classes c1 l))%nat.
Proof.
  induction l as [|x l IH]; intros Hrel; [done|].
  rewrite !size_classes_cons.
  assert (size (classes c2 l) ≤ size (classes c1 l))%nat as Hl.
  { apply IH. intros a b Ha Hb. apply Hrel; by right. }
  assert (Exists (λ y, c1 y = c1 x) l → Exists (λ y, c2 y = c2 x) l) as Hex.
  { rewrite !Exists_exists. intros (y & Hy & Heq). exists y. split; [done|].
    apply (Hrel y x); auto; by constructor. }
  destruct (decide (Exists (λ y, c1 y = c1 x) l)),
           (decide (Exists (λ y, c2 y = c2 x) l)); try tauto; lia.
Qed.

(** *** The lightest spanning forests *)

Lemma within_conn G F x y : within G F → conn F x y → conn G x y.
Proof.
  intros Hin. apply conn_mono_joins. intros u v [w Hj].
  assert (∀ a b, (a, b, w) ∈ F → joins G a b) as Hone.
  { intros a b He. destruct (Hin _ He) as ([[a' b'] w'] & He' & Hw' & Hends).
    simpl in *. subst w'. exists w. destruct Hends as [[-> ->]|[-> ->]]; auto. }
  destruct Hj as [Hj|Hj]; [by apply Hone|by apply joins_sym, Hone].
Qed.

Lemma within_light G F w0 : within G F → within (light w0 G) (light w0 F).
Proof.
  intros Hin e [Hw He]%elem_of_light.
  destruct (Hin e He) as (e' & He' & Hw' & Hends). exists e'.
  split; [|done]. apply elem_of_light. split; [lia|done].
Qed.

Lemma spans_conn G F x y : spans G F → conn G x y → conn F x y.
Proof.
  intros Hspan. induction 1 as [|x y z _ IH [w Hj]]; [apply conn_refl|].
  eapply conn_trans; [exact IH|].
  assert (∀ e, e ∈ G → conn F e.1.1 e.1.2) as Hone.
  { intros e He. eapply conn_mono; [|apply (Hspan e He)].
    by intros e' [_ ?]%elem_of_light. }
  destruct Hj as [He|He]; [apply (Hone _ He)|apply conn_sym, (Hone _ He)].
Qed.

(** A forest of [G] that connects the ends of every edge of [G] by edges
    that are not heavier weighs no more than any forest of [G] that
    connects what [G] connects. *)
Lemma lightest_forest (l : list string) (G K F : list (@wedge string)) :
  NoDup l →
  forest l K → spans G K → within G K →
  forest l F → within G F → (∀ x y, conn G x y → conn F x y) →
  sumZ (weights K) ≤ sumZ (weights F).
Proof.
  intros Hnd HK Hspan HinK HF HinF Hall.
  assert (∀ w0, (length (light w0 F) ≤ length (light w0 K))%nat) as Hcount.
  { intros w0.
    pose proof (forest_count l _ Hnd (forest_light w0 l K HK)) as H1.
    pose proof (forest_count l _ Hnd (forest_light w0 l F HF)) as H2.
    assert (size (classes (cls (light w0 K)) l)
            ≤ size (classes (cls (light w0 F)) l))%nat; [|lia].
    apply size_classes_le. intros x y _ _. rewrite !cls_conn. intros Hc.
    apply (spans_same_conn G K w0 x y Hspan HinK).
    by apply (within_conn _ _ x y (within_light G F w0 HinF)). }
  assert (length K = length F) as Hlen.
  { pose proof (forest_count l _ Hnd HK) as H1.
    pose proof (forest_count l _ Hnd HF) as H2.
    assert (size (classes (cls K) l) = size (classes (cls F) l)); [|lia].
    apply size_classes_ext. intros x y _ _. rewrite !cls_conn. split.
    - intros Hc. apply Hall. by apply (within_conn G K).
    - intros Hc. apply (spans_conn G K); [done|]. by apply (within_conn G F). }
  apply sumZ_counts_le.
  - unfold weights. by rewrite !length_fmap.
  - intros w0. unfold count_le. rewrite !weights_light. unfold weights.
    rewrite !length_fmap. apply Hcount.
Qed.

(** X10.  On a graph in which no id is a name that objects inherit and
    whose weights add up without rounding, the edges that Kruskal accepts
    form a spanning forest of the graph: each is an edge of the graph
    between two of its nodes, none closes a cycle with the edges accepted
    before it, and two ids are joined by accepted edges exactly when they
    are joined by edges of the graph.  The reported total is the sum of
    their weights. *)
Theorem kruskal_spanning_forest j W g r :
  plain_ids g → exact_weights j W g →
  kruskalAlgorithm g = Ok r →
  forest (node_ids g) (kruskal_forest r) ∧
  within (graph_edges g) (kruskal_forest r) ∧
  (∀ x y, conn (kruskal_forest r) x y ↔ conn (graph_edges g) x y) ∧
  kf_totalCost (k_finalResult r) = Fin (sumZ (weights (kruskal_forest r))).
Proof.
  intros _ Hex Hrun.
  destruct (kruskal_forest_spec g r (exact_weights_finite _ _ _ Hex) Hrun)
    as (_ & _ & HF & Hs & Hw).
  split; [done|]. split; [done|]. split; [|by eapply kruskal_total_exact].
  intros x y. split; [by apply within_conn|by apply spans_conn].
Qed.

Lemma triangle_plain : plain_ids triangle.
Proof. by_decide. Qed.

Lemma triangle_exact : exact_weights 1074 3 triangle.
Proof. by_decide. Qed.

Lemma kruskal_spanning_forest_witness :
  ∃ r, kruskalAlgorithm triangle = Ok r ∧
       forest (node_ids triangle) (kruskal_forest r) ∧
       within (graph_edges triangle) (kruskal_forest r) ∧
       (∀ x y, conn (kruskal_forest r) x y ↔ conn (graph_edges triangle) x y) ∧
       kf_totalCost (k_finalResult r) = Fin (sumZ (weights (kruskal_forest r))).
Proof.
  destruct (kruskalAlgorithm_total triangle eq_refl) as [r Hr].
  exists r. split; [exact Hr|].
  exact (kruskal_spanning_forest 1074 3 triangle r triangle_plain triangle_exact Hr).
Defined.

(** X11.  On such a graph Kruskal's total is minimal: no set of edges of
    the graph that is free of cycles and joins whatever the graph joins
    has a smaller sum of weights. *)
Theorem kruskal_total_is_minimal j W g r F :
  plain_ids g → exact_weights j W g →
  kruskalAlgorithm g = Ok r →
  forest (node_ids g) F → within (graph_edges g) F →
  (∀ x y, conn (graph_edges g) x y → conn F x y) →
  ∃ t, kf_totalCost (k_finalResult r) = Fin t ∧ t ≤ sumZ (weights F).
Proof.
  intros _ Hex Hrun HF HinF Hall.
  destruct (kruskal_forest_spec g r (exact_weights_finite _ _ _ Hex) Hrun)
    as (_ & _ & HK & Hs & Hw).
  eexists. split; [by eapply kruskal_total_exact|].
  apply (lightest_forest (remove_dups (node_ids g)) (graph_edges g)); try done.
  - apply NoDup_remove_dups.
  - by apply forest_remove_dups.
  - by apply forest_remove_dups.
Qed.

Lemma conn_via `{Countable T} (G F : list (@wedge T)) x y :
  (∀ e, e ∈ G → conn F e.1.1 e.1.2) → conn G x y → conn F x y.
Proof.
  intros Hone. induction 1 as [|x y z _ IH [w Hj]]; [apply conn_refl|].
  eapply conn_trans; [exact IH|].
  destruct Hj as [He|He]; [apply (Hone _ He)|apply conn_sym, (Hone _ He)].
Qed.

Lemma triangle_undirected e : e ∈ edges triangle → directed e = false.
Proof.
  intros He. unfold triangle in He. cbn [edges] in He. rewrite !elem_of_cons in He.
  destruct He as [->|[->|[->|He]]]; try reflexivity. by apply elem_of_nil in He.
Qed.

Lemma triangle_connected : connected_graph triangle.
Proof.
  intros a b Ha Hb. change (node_ids triangle) with ["A"; "B"; "C"] in Ha, Hb.
  rewrite !elem_of_cons in Ha, Hb.
  destruct Ha as [->|[->|[->|Ha]]]; [| | |by apply elem_of_nil in Ha];
    (destruct Hb as [->|[->|[->|Hb]]]; [| | |by apply elem_of_nil in Hb]);
    apply cls_conn; vm_compute; reflexivity.
Qed.

Lemma triangle_graph_edges :
  graph_edges triangle
  = [("A", "B", 1 * 2 ^ 1074); ("B", "C", 2 * 2 ^ 1074); ("A", "C", 3 * 2 ^ 1074)].
Proof. vm_compute. reflexivity. Qed.

(** The edges [A-B] and [A-C] of the triangle. *)
Definition triangle_tree : list (@wedge string) :=
  [("A", "C", 3 * 2 ^ 1074); ("A", "B", 1 * 2 ^ 1074)].

Lemma triangle_tree_forest : forest (node_ids triangle) triangle_tree.
Proof.
  unfold triangle_tree. constructor; [constructor; [constructor|..]|..];
    try (change (node_ids triangle) with ["A"; "B"; "C"];
         rewrite !elem_of_cons; tauto);
    rewrite <- cls_conn; vm_compute; discriminate.
Qed.

Lemma triangle_tree_within : within (graph_edges triangle) triangle_tree.
Proof.
  intros e He. unfold triangle_tree in He. rewrite !elem_of_cons in He.
  destruct He as [->|[->|He]]; [| |by apply elem_of_nil in He].
  - exists ("A", "C", 3 * 2 ^ 1074).
    split; [rewrite triangle_graph_edges, !elem_of_cons; tauto|].
    split; [done|]. by left.
  - exists ("A", "B", 1 * 2 ^ 1074).
    split; [rewrite triangle_graph_edges, !elem_of_cons; tauto|].
    split; [done|]. by left.
Qed.

Lemma triangle_tree_spans x y :
  conn (graph_edges triangle) x y → conn triangle_tree x y.
Proof.
  apply conn_via. intros e He.
  rewrite triangle_graph_edges, !elem_of_cons in He.
  destruct He as [->|[->|[->|He]]]; [| | |by apply elem_of_nil in He];
    apply cls_conn; vm_compute; reflexivity.
Qed.

Lemma kruskal_total_is_minimal_witness :
  ∃ r t, kruskalAlgorithm triangle = Ok r ∧
         kf_totalCost (k_finalResult r) = Fin t ∧
         t ≤ sumZ (weights triangle_tree).
Proof.
  destruct (kruskalAlgorithm_total triangle eq_refl) as [r Hr].
  destruct (kruskal_total_is_minimal 1074 3 triangle r triangle_tree
              triangle_plain triangle_exact Hr triangle_tree_forest
              triangle_tree_within triangle_tree_spans) as (t & Ht & Hle).
  exists r, t. split; [exact Hr|]. split; [exact Ht|exact Hle].
Defined.

(** X12.  On a connected graph without directed edges whose weights add
    up without rounding, when Prim, started at a node of the graph,
    returns, it has accepted a spanning tree: every accepted edge is an
    edge of the graph, none closes a cycle with the edges accepted before
    it, the accepted edges join every two nodes, and the reported total
    is the sum of their weights. *)
Theorem prim_spanning_tree j W g startNodeId r :
  exact_weights j W g →
  (∀ e, e ∈ edges g → directed e = false) →
  connected_graph g →
  primAlgorithm g startNodeId = Ok r →
  pf_startNode (p_finalResult r) ∈ node_ids g →
  forest (node_ids g) (prim_forest r) ∧
  within (graph_edges g) (prim_forest r) ∧
  (∀ x y, x ∈ node_ids g → y ∈ node_ids g → conn (prim_forest r) x y) ∧
  pf_totalCost (p_finalResult r) = Fin (sumZ (weights (prim_forest r))).
Proof.
  intros Hex Hund Hconn Hrun Hin.
  pose proof (prim_returns_lists g startNodeId r Hund Hrun) as Hp.
  pose proof Hrun as (_ & start & s & Hstart & _ & _ & Hr)%primAlgorithm_Ok.
  assert (pf_startNode (p_finalResult r) = start) as Es by (by rewrite Hr).
  rewrite Es in Hin.
  destruct (prim_forest_spec g startNodeId start r Hp
              (exact_weights_finite _ _ _ Hex) Hund Hconn Hstart Hin Hrun)
    as (_ & _ & HF & Hs & Hw).
  split; [done|]. split; [done|]. split; [|by eapply prim_total_exact].
  intros x y Hx Hy. apply (spans_conn (graph_edges g)); [done|]. by apply Hconn.
Qed.

Lemma triangle_prim_from_C :
  ∃ r, primAlgorithm triangle (Some "C") = Ok r ∧
       pf_startNode (p_finalResult r) = "C".
Proof. eexists. split; vm_compute; reflexivity. Qed.

Lemma prim_spanning_tree_witness :
  ∃ r, primAlgorithm triangle (Some "C") = Ok r ∧
       forest (node_ids triangle) (prim_forest r) ∧
       within (graph_edges triangle) (prim_forest r) ∧
       (∀ x y, x ∈ node_ids triangle → y ∈ node_ids triangle →
               conn (prim_forest r) x y) ∧
       pf_totalCost (p_finalResult r) = Fin (sumZ (weights (prim_forest r))).
Proof.
  destruct triangle_prim_from_C as (r & Hr & Hs).
  exists r. split; [exact Hr|].
  apply (prim_spanning_tree 1074 3 triangle (Some "C") r
           triangle_exact triangle_undirected triangle_connected Hr).
  rewrite Hs. change (node_ids triangle) with ["A"; "B"; "C"].
  rewrite !elem_of_cons. tauto.
Defined.

(** X13.  On such a graph Prim's total is minimal: no set of edges of the
    graph that is free of cycles and joins whatever the graph joins has a
    smaller sum of weights. *)
Theorem prim_total_is_minimal j W g startNodeId r F :
  exact_weights j W g →
  (∀ e, e ∈ edges g → directed e = false) →
  connected_graph g →
  primAlgorithm g startNodeId = Ok r →
  pf_startNode (p_finalResult r) ∈ node_ids g →
  forest (node_ids g) F → within (graph_edges g) F →
  (∀ x y, conn (graph_edges g) x y → conn F x y) →
  ∃ t, pf_totalCost (p_finalResult r) = Fin t ∧ t ≤ sumZ (weights F).
Proof.
  intros Hex Hund Hconn Hrun Hin HF HinF Hall.
  pose proof (prim_returns_lists g startNodeId r Hund Hrun) as Hp.
  pose proof Hrun as (_ & start & s & Hstart & _ & _ & Hr)%primAlgorithm_Ok.
  assert (pf_startNode (p_finalResult r) = start) as Es by (by rewrite Hr).
  rewrite Es in Hin.
  destruct (prim_forest_spec g startNodeId start r Hp
              (exact_weights_finite _ _ _ Hex) Hund Hconn Hstart Hin Hrun)
    as (_ & _ & HK & Hs & Hw).
  eexists. split; [by eapply prim_total_exact|].
  apply (lightest_forest (remove_dups (node_ids g)) (graph_edges g)); try done.
  - apply NoDup_remove_dups.
  - by apply forest_remove_dups.
  - by apply forest_remove_dups.
Qed.

Lemma prim_total_is_minimal_witness :
  ∃ r t, primAlgorithm triangle (Some "C") = Ok r ∧
         pf_totalCost (p_finalResult r) = Fin t ∧
         t ≤ sumZ (weights triangle_tree).
Proof.
  destruct triangle_prim_from_C as (r & Hr & Hs).
  destruct (prim_total_is_minimal 1074 3 triangle (Some "C") r triangle_tree
              triangle_exact triangle_undirected
              triangle_connected Hr) as (t & Ht & Hle).
  - rewrite Hs. change (node_ids triangle) with ["A"; "B"; "C"].
    rewrite !elem_of_cons. tauto.
  - exact triangle_tree_forest.
  - exact triangle_tree_within.
  - exact triangle_tree_spans.
  - exists r, t. split; [exact Hr|]. split; [exact Ht|exact Hle].
Defined.

(** ** Dijkstra: the distances are the shortest ones *)

(** *** The queue is served in order of distance *)

Lemma qentry_le_finite a b :
  finite (q_distance a) = true → finite (q_distance b) = true →
  qentry_le a b = (num_z (q_distance a) <=? num_z (q_distance b)).
Proof. apply keeps_order_finite. Qed.

(** In a sorted queue of finite distances the head is the nearest. *)
Lemma sort_by_queue_head l cur rest :
  Forall (λ q, finite (q_distance q) = true) l →
  sort_by qentry_le l = cur :: rest →
  ∀ q, q ∈ rest → num_z (q_distance cur) ≤ num_z (q_distance q).
Proof.
  intros Hfin Hs q Hq.
  pose proof (sort_by_sorted qentry_le (λ q, num_z (q_distance q)) _
                qentry_le_finite l Hfin) as Hsorted.
  rewrite Hs in Hsorted. apply StronglySorted_inv in Hsorted as [_ Hall].
  rewrite Forall_forall in Hall. by apply Hall.
Qed.

(** *** Walks along the adjacency list *)

(** [walk g u v d]: following entries of the adjacency list from [u]
    leads to [v], and their weights add up to [d] units of [2^-1074]. *)
Inductive walk (g : Graph) (u : string) : string → Z → Prop :=
| walk_here : walk g u u 0
| walk_on v a d :
    walk g u v d → a ∈ nbrs g v → walk g u (adj_to a) (d + num_z (adj_weight a)).

(** [d] is the length of a shortest walk from [u] to [v]. *)
Definition shortest (g : Graph) (u v : string) (d : Z) : Prop :=
  walk g u v d ∧ ∀ d', walk g u v d' → d ≤ d'.

Lemma nbrs_nonneg g k a :
  validateGraph g = Ok tt → a ∈ nbrs g k → 0 ≤ num_z (adj_weight a).
Proof.
  intros [_ Hv]%validateGraph_Ok (e & He & _ & Harc)%neighbors_spec.
  rewrite Forall_forall in Hv. destruct (Hv e He) as (_ & _ & Hw).
  assert (0 ≤ num_z (or0 (weight e))) as H0.
  { destruct (weight e) as [n| | |]; simpl in *; try done.
    apply Z.ltb_ge in Hw. lia. }
  destruct Harc as [[_ ->]|(_ & _ & ->)]; done.
Qed.

Lemma walk_nonneg g u v d : validateGraph g = Ok tt → walk g u v d → 0 ≤ d.
Proof.
  intros Hv. induction 1 as [|v a d _ IH Ha]; [done|].
  pose proof (nbrs_nonneg g v a Hv Ha). lia.
Qed.

Lemma walk_known g u v d :
  walk g u v d → v = u ∨ (truthy v = true ∧ v ∈ node_ids g).
Proof.
  destruct 1 as [|v a d _ Ha]; [by left|]. right. by eapply neighbors_known.
Qed.

Lemma scaled_mono j B B' x : B ≤ B' → 0 ≤ j → scaled j B x → scaled j B' x.
Proof.
  intros HB Hj. destruct x as [n| | |]; try done. intros [Hm [Hlo Hhi]].
  assert (0 < 2 ^ j) by (apply Z.pow_pos_nonneg; lia).
  split; [done|]. split; [done|]. nia.
Qed.

(** A distance that is [m * 2^j] units, increased by a weight of
    [w * 2^j] units, is computed exactly as long as [m + w] stays within
    [2^53]. *)
Lemma dist_add_exact j B W du w :
  0 ≤ j ≤ 2044 → 0 ≤ W → B + W ≤ 2 ^ 53 →
  scaled j B (Fin du) → scaled j W w →
  dist_add (Fin du) w = Fin (du + num_z w) ∧ scaled j (B + W) (Fin (du + num_z w)).
Proof.
  intros Hj HW HB Hd Hw.
  apply scaled_spec in Hd as (m & Hm & [= ->]); [|lia].
  apply scaled_spec in Hw as (mw & Hmw & ->); [|lia].
  assert (0 < 2 ^ j) by (apply Z.pow_pos_nonneg; lia).
  cbn [dist_add or0 num_add num_z]. rewrite <- Z.mul_add_distr_r.
  split; [apply to_double_exact; lia|].
  split; [apply Z.mod_mul; lia|]. split; [nia|]. nia.
Qed.

(** *** What the loop keeps *)

(** [u] was visited before [v]. *)
Definition before (l : list string) (u v : string) : Prop :=
  ∃ i j, l !! i = Some u ∧ l !! j = Some v ∧ (i < j)%nat.

Lemma before_app l u v x : before l u v → before (l ++ [x]) u v.
Proof.
  intros (i & j & Hi & Hj & Hij). exists i, j.
  split; [by apply lookup_app_l_Some|]. split; [by apply lookup_app_l_Some|done].
Qed.

Lemma before_last l u x : u ∈ l → before (l ++ [x]) u x.
Proof.
  intros [i Hi]%list_elem_of_lookup. exists i, (length l).
  split; [by apply lookup_app_l_Some|]. split.
  - rewrite lookup_app_r by done. by rewrite Nat.sub_diag.
  - by eapply lookup_lt_Some.
Qed.

Lemma NoDup_fmap_filter {A B} (f : A → B) (P : A → Prop) `{∀ x, Decision (P x)} l :
  NoDup (f <$> l) → NoDup (f <$> filter P l).
Proof.
  induction l as [|x l IH]; [done|]. rewrite fmap_cons, NoDup_cons.
  intros [Hx Hl]. rewrite filter_cons. destruct (decide (P x)); [|by apply IH].
  rewrite fmap_cons. apply NoDup_cons. split; [|by apply IH].
  intros Hin. apply Hx. apply list_elem_of_fmap in Hin as (y & -> & Hy).
  apply list_elem_of_fmap. exists y. split; [done|].
  by apply list_elem_of_filter in Hy as [_ ?].
Qed.

Section DijkstraCorrect.
Variables (g : Graph) (src : string) (tgt : option string) (j W : Z).
Hypothesis Hvalid : validateGraph g = Ok tt.
Hypothesis Hplain : plain_ids g.
Hypothesis Hexact : exact_weights j W g.
Hypothesis Hsrc_truthy : truthy src = true.
Hypothesis Hsrc_node : src ∈ node_ids g.

(** The bound on the distances when [n] nodes are visited. *)
Definition reach (n : nat) : Z := Z.of_nat n * W.

Lemma exact_j : 0 ≤ j ≤ 2044.
Proof. apply Hexact. Qed.

Lemma exact_W : 0 ≤ W.
Proof. apply Hexact. Qed.

Lemma reach_nodes n : (n ≤ length (nodes g))%nat → reach n ≤ 2 ^ 53.
Proof.
  intros Hn. destruct Hexact as (_ & HW & Hlen & _). unfold reach. nia.
Qed.

Lemma nbrs_scaled k a : a ∈ nbrs g k → scaled j W (adj_weight a).
Proof.
  intros (e & He & ->)%(nbrs_weight g (exact_weights_finite _ _ _ Hexact)).
  destruct Hexact as (_ & _ & _ & Hall). rewrite Forall_forall in Hall. auto.
Qed.

(** How a node with a finite distance got it: through its entry in
    [previous], a visited node one edge away. *)
Definition reached_from (distances : gmap string Num)
    (previous : gmap string (option string)) (visited : list string)
    (v : string) (d : Z) : Prop :=
  ∃ p a dp,
    previous !! v = Some (Some p) ∧ p ∈ visited ∧ a ∈ nbrs g p ∧ adj_to a = v ∧
    distances !! p = Some (Fin dp) ∧ d = dp + num_z (adj_weight a) ∧
    (v ∈ visited → before visited p v).

(** What holds whenever the loop has ended, by [break] or not. *)
Record dcore (s : DState) : Prop := {
  dc_dom : ∀ k, is_Some (ds_distances s !! k) ↔ truthy k = true ∧ k ∈ node_ids g;
  dc_vis : NoDup (ds_visited s);
  dc_src : ds_distances s !! src = Some (Fin 0);
  dc_walk : ∀ v d, ds_distances s !! v = Some (Fin d) → walk g src v d;
  dc_done : ∀ u, u ∈ ds_visited s →
    ∃ d, ds_distances s !! u = Some (Fin d) ∧ ∀ d', walk g src u d' → d ≤ d';
  dc_prev : ∀ v d, ds_distances s !! v = Some (Fin d) → v ≠ src →
    reached_from (ds_distances s) (ds_previous s) (ds_visited s) v d;
  dc_unreached : ∀ v, ds_distances s !! v = Some Inf →
    mjoin (ds_previous s !! v) = None;
  dc_scaled : ∀ k d, ds_distances s !! k = Some d →
    d = Inf ∨ scaled j (reach (length (ds_visited s))) d
}.

(** What holds between two iterations. *)
Record dij (s : DState) : Prop := {
  dj_core : dcore s;
  dj_relaxed : ∀ u a, u ∈ ds_visited s → a ∈ nbrs g u →
    ∃ du dv, ds_distances s !! u = Some (Fin du) ∧
             ds_distances s !! adj_to a = Some (Fin dv) ∧
             dv ≤ du + num_z (adj_weight a);
  dj_queue : ∀ q, q ∈ ds_queue s →
    (q_nodeId q ∉ ds_visited s) ∧
    ∃ d, q_distance q = Fin d ∧ ds_distances s !! q_nodeId q = Some (Fin d);
  dj_nodup : NoDup (q_nodeId <$> ds_queue s);
  dj_pending : ∀ v d, ds_distances s !! v = Some (Fin d) → v ∉ ds_visited s →
    v ∈ q_nodeId <$> ds_queue s
}.

(** *** One pass over the neighbours *)

Section Relax.
Variables (V : list string) (u : string) (du : Z) (B : Z).
Variable dist0 : gmap string Num.
Hypothesis HuV : u ∈ V.
Hypothesis Hdu : dist0 !! u = Some (Fin du).
Hypothesis HduB : scaled j B (Fin du).
Hypothesis HB : B + W ≤ 2 ^ 53.
Hypothesis HVdone : ∀ x, x ∈ V →
  ∃ d, dist0 !! x = Some (Fin d) ∧ ∀ d', walk g src x d' → d ≤ d'.

Record rinv (r : Relax) (seen : list AdjEntry) : Prop := {
  ri_dom : ∀ k, is_Some (rx_distances r !! k) ↔ truthy k = true ∧ k ∈ node_ids g;
  ri_vis : ∀ x, x ∈ V → rx_distances r !! x = dist0 !! x;
  ri_src : rx_distances r !! src = Some (Fin 0);
  ri_walk : ∀ v d, rx_distances r !! v = Some (Fin d) → walk g src v d;
  ri_queue : ∀ q, q ∈ rx_queue r →
    (q_nodeId q ∉ V) ∧
    ∃ d, q_distance q = Fin d ∧ rx_distances r !! q_nodeId q = Some (Fin d);
  ri_nodup : NoDup (q_nodeId <$> rx_queue r);
  ri_pending : ∀ v d, rx_distances r !! v = Some (Fin d) → v ∉ V →
    v ∈ q_nodeId <$> rx_queue r;
  ri_old : ∀ x a, x ∈ V → x ≠ u → a ∈ nbrs g x →
    ∃ dx dv, rx_distances r !! x = Some (Fin dx) ∧
             rx_distances r !! adj_to a = Some (Fin dv) ∧
             dv ≤ dx + num_z (adj_weight a);
  ri_seen : ∀ a, a ∈ seen →
    ∃ dv, rx_distances r !! adj_to a = Some (Fin dv) ∧
          dv ≤ du + num_z (adj_weight a);
  ri_prev : ∀ v d, rx_distances r !! v = Some (Fin d) → v ≠ src →
    reached_from (rx_distances r) (rx_previous r) V v d;
  ri_unreached : ∀ v, rx_distances r !! v = Some Inf →
    mjoin (rx_previous r !! v) = None;
  ri_scaled : ∀ k d, rx_distances r !! k = Some d → d = Inf ∨ scaled j (B + W) d
}.

Lemma relax_edge_keeps r seen a :
  rinv r seen → a ∈ nbrs g u → rinv (relax_edge V u r a) (seen ++ [a]).
Proof.
  intros R Ha.
  pose proof R as [Hdom Hvis Hs Hwalk Hq Hnd Hpend Hold Hseen Hprev Hun Hsc].
  pose proof (neighbors_known g u a Ha) as [Hta Hna].
  pose proof (nbrs_nonneg g u a Hvalid Ha) as Hw.
  destruct (dist_add_exact j B W du (adj_weight a) exact_j exact_W HB HduB
              (nbrs_scaled u a Ha)) as [Hadd Haddsc].
  assert (Hru : rx_distances r !! u = Some (Fin du)) by (by rewrite Hvis).
  assert (Hwu : walk g src u du) by (by apply Hwalk).
  pose proof (walk_nonneg g src u du Hvalid Hwu) as Hdu0.
  assert (Hseen_same : ∀ dv, rx_distances r !! adj_to a = Some (Fin dv) →
            dv ≤ du + num_z (adj_weight a) → rinv r (seen ++ [a])).
  { intros dv Hdv Hle. split; try done. intros a' [Ha'| ->%list_elem_of_singleton]%elem_of_app.
    - by apply Hseen.
    - eauto. }
  unfold relax_edge. rewrite Hta. cbn [negb].
  destruct (set_has V (adj_to a)) eqn:Hhas.
  { apply set_has_true in Hhas. destruct (HVdone _ Hhas) as (dv & Hdv & Hmin).
    apply (Hseen_same dv); [by rewrite Hvis|].
    apply Hmin. by apply (walk_on g src u a du). }
  apply set_has_false in Hhas. rewrite Hru.
  destruct (rx_distances r !! adj_to a) as [old|] eqn:Hold_v.
  2:{ destruct (proj2 (Hdom (adj_to a))) as [? ?]; [done|congruence]. }
  rewrite Hadd.
  assert (old = Inf ∨ ∃ o, old = Fin o) as Hshape.
  { destruct (Hsc _ _ Hold_v) as [->|Ho]; [by left|]. right.
    destruct old; try done. eauto. }
  destruct (dist_lt (Fin (du + num_z (adj_weight a))) old) eqn:Hlt.
  2:{ destruct Hshape as [->|[o ->]]; [done|]. simpl in Hlt.
      apply Z.ltb_ge in Hlt. by apply (Hseen_same o). }
  set (v := adj_to a) in *. set (nd := du + num_z (adj_weight a)) in *.
  assert (Hvu : v ≠ u) by (intros ->; done).
  assert (Hvs : v ≠ src).
  { intros E. rewrite E, Hs in Hold_v. injection Hold_v as <-.
    simpl in Hlt. apply Z.ltb_lt in Hlt. lia. }
  assert (Hless : ∀ o, old = Fin o → nd < o).
  { intros o ->. simpl in Hlt. by apply Z.ltb_lt in Hlt. }
  assert (Hget : ∀ k dk, <[v := Fin nd]> (rx_distances r) !! k = Some (Fin dk) →
            (k = v ∧ dk = nd) ∨ (k ≠ v ∧ rx_distances r !! k = Some (Fin dk))).
  { intros k dk. destruct (decide (v = k)) as [<-|Hne].
    - rewrite lookup_insert_eq. intros [= <-]. by left.
    - rewrite lookup_insert_ne by done. by right. }
  assert (Hkeep : ∀ k dk, rx_distances r !! k = Some (Fin dk) →
            ∃ dk', <[v := Fin nd]> (rx_distances r) !! k = Some (Fin dk') ∧ dk' ≤ dk).
  { intros k dk Hk. destruct (decide (v = k)) as [<-|Hne].
    - rewrite lookup_insert_eq. exists nd. split; [done|].
      rewrite Hold_v in Hk. injection Hk as ->. specialize (Hless dk eq_refl). lia.
    - rewrite lookup_insert_ne by done. exists dk. split; [done|lia]. }
  assert (HinV : ∀ x, x ∈ V → <[v := Fin nd]> (rx_distances r) !! x
                                = rx_distances r !! x).
  { intros x Hx. apply lookup_insert_ne. intros <-. done. }
  split; cbn [rx_distances rx_previous rx_queue rx_updated].
  - intros k. rewrite <- Hdom. destruct (decide (v = k)) as [<-|Hne].
    + rewrite lookup_insert_eq, Hold_v. split; eauto.
    + by rewrite lookup_insert_ne.
  - intros x Hx. rewrite HinV by done. by apply Hvis.
  - by rewrite lookup_insert_ne.
  - intros k dk [[-> ->]|[_ Hk]]%Hget; [|by apply Hwalk].
    by apply (walk_on g src u a du).
  - intros q [Hq1|Hq2]%elem_of_app.
    + apply list_elem_of_filter in Hq1 as [Hne Hq1].
      destruct (Hq q Hq1) as (HqV & d & Hd & Hdist). split; [done|].
      exists d. split; [done|]. by rewrite lookup_insert_ne.
    + apply list_elem_of_singleton in Hq2 as ->. simpl. split; [done|].
      exists nd. split; [done|]. by rewrite lookup_insert_eq.
  - rewrite fmap_app. apply NoDup_app. split; [by apply NoDup_fmap_filter|].
    split; [|apply NoDup_singleton].
    intros x Hx ->%list_elem_of_singleton. simpl in Hx.
    apply list_elem_of_fmap in Hx as (q & Heq & [Hne _]%list_elem_of_filter).
    congruence.
  - intros k dk Hk HkV. rewrite fmap_app, elem_of_app.
    apply Hget in Hk as [[-> ->]|[Hne Hk]].
    + right. simpl. by apply list_elem_of_singleton.
    + left. specialize (Hpend k dk Hk HkV).
      apply list_elem_of_fmap in Hpend as (q & -> & Hq1).
      apply list_elem_of_fmap. exists q. split; [done|].
      apply list_elem_of_filter. split; [congruence|done].
  - intros x a' Hx Hxu Ha'. destruct (Hold x a' Hx Hxu Ha') as (dx & dv & Hdx & Hdv & Hle).
    destruct (Hkeep _ _ Hdv) as (dv' & Hdv' & Hle').
    exists dx, dv'. split; [by rewrite HinV|]. split; [done|lia].
  - intros a' [Ha'| ->%list_elem_of_singleton]%elem_of_app.
    + destruct (Hseen a' Ha') as (dv & Hdv & Hle).
      destruct (Hkeep _ _ Hdv) as (dv' & Hdv' & Hle').
      exists dv'. split; [done|lia].
    + exists nd. fold v. rewrite lookup_insert_eq. split; [done|]. subst nd. lia.
  - intros k dk Hk Hks. apply Hget in Hk as [[-> ->]|[Hne Hk]].
    + exists u, a, du. rewrite lookup_insert_eq.
      split; [done|]. split; [done|]. split; [done|]. split; [done|].
      split; [by rewrite HinV|]. split; [done|]. intros ?. done.
    + destruct (Hprev k dk Hk Hks) as (p & a' & dp & Hp & HpV & Ha' & Hto & Hdp & Hd & Hb).
      exists p, a', dp. rewrite lookup_insert_ne by done.
      split; [done|]. split; [done|]. split; [done|]. split; [done|].
      split; [by rewrite HinV|]. done.
  - intros k Hk. destruct (decide (v = k)) as [<-|Hne].
    + by rewrite lookup_insert_eq in Hk.
    + rewrite lookup_insert_ne in Hk by done. rewrite lookup_insert_ne by done.
      by apply Hun.
  - intros k d. destruct (decide (v = k)) as [<-|Hne].
    + rewrite lookup_insert_eq. intros [= <-]. by right.
    + rewrite lookup_insert_ne by done. apply Hsc.
Qed.

Lemma relax_fold_keeps ns r seen :
  rinv r seen → (∀ a, a ∈ ns → a ∈ nbrs g u) →
  rinv (foldl (relax_edge V u) r ns) (seen ++ ns).
Proof.
  revert r seen. induction ns as [|a ns IH]; intros r seen R Hns; simpl.
  - by rewrite app_nil_r.
  - rewrite (cons_middle a seen ns), app_assoc. apply IH.
    + apply relax_edge_keeps; [done|]. apply Hns. by left.
    + intros a' Ha'. apply Hns. by right.
Qed.

End Relax.

(** *** One iteration *)

Lemma reached_from_grow dist prev S x v d :
  x ∉ S → reached_from dist prev S v d → reached_from dist prev (S ++ [x]) v d.
Proof.
  intros Hx (p & a & dp & Hp & HpS & Ha & Hto & Hdp & Hd & Hb).
  exists p, a, dp. split; [done|]. split; [apply elem_of_app; by left|].
  split; [done|]. split; [done|]. split; [done|]. split; [done|].
  intros [Hv| ->%list_elem_of_singleton]%elem_of_app.
  - by apply before_app, Hb.
  - by apply before_last.
Qed.

(** Every walk that leaves the visited nodes passes a queued node, so the
    head of the sorted queue is at most as far as the walk is long. *)
Lemma queue_bounds_walks s v d' :
  dij s → walk g src v d' → v ∉ ds_visited s →
  ∃ q dq, q ∈ ds_queue s ∧ q_distance q = Fin dq ∧ dq ≤ d'.
Proof.
  intros [[Hdom Hvis Hs Hwalk Hdone Hprev Hun Hsc] Hrel Hq Hnd Hpend].
  assert (∀ x dx, ds_distances s !! x = Some (Fin dx) → x ∉ ds_visited s →
            ∃ q, q ∈ ds_queue s ∧ q_distance q = Fin dx) as Hqueued.
  { intros x dx Hx HxS. specialize (Hpend x dx Hx HxS).
    apply list_elem_of_fmap in Hpend as (q & Heq & Hin). exists q. split; [done|].
    destruct (Hq q Hin) as (_ & d & Hd & Hdist). rewrite <- Heq in Hdist.
    congruence. }
  induction 1 as [|x a d1 Hw IH Ha]; intros HvS.
  - destruct (Hqueued src 0 Hs HvS) as (q & Hin & Hd). exists q, 0. done.
  - pose proof (nbrs_nonneg g x a Hvalid Ha) as Hw0.
    destruct (decide (x ∈ ds_visited s)) as [HxS|HxS].
    + destruct (Hdone x HxS) as (dx & Hdx & Hmin).
      destruct (Hrel x a HxS Ha) as (dx' & dv & Hdx' & Hdv & Hle).
      assert (dx' = dx) as -> by congruence.
      destruct (Hqueued _ dv Hdv HvS) as (q & Hin & Hd).
      exists q, dv. split; [done|]. split; [done|]. specialize (Hmin d1 Hw). lia.
    + destruct (IH HxS) as (q & dq & Hin & Hd & Hle). exists q, dq.
      split; [done|]. split; [done|]. lia.
Qed.

Lemma dijkstra_body_keeps s cur rest :
  dij s → sort_by qentry_le (ds_queue s) = cur :: rest →
  let b := dijkstra_body (adj_lists g) src tgt s cur rest in
  if b.2 then dcore b.1 ∧ tgt = Some (q_nodeId cur) ∧ q_nodeId cur ∈ ds_visited b.1
  else dij b.1.
Proof.
  intros D Hsort.
  pose proof D as [[Hdom Hvis Hs Hwalk Hdone Hprev Hun Hsc] Hrel Hq Hnd Hpend].
  pose proof exact_j as Hj. pose proof exact_W as HW.
  assert (Hfinq : Forall (λ q, finite (q_distance q) = true) (ds_queue s)).
  { apply Forall_forall. intros q Hin. destruct (Hq q Hin) as (_ & d & -> & _). done. }
  assert (Hperm : cur :: rest ≡ₚ ds_queue s).
  { rewrite <- Hsort. apply sort_by_Permutation. }
  assert (Hcur : cur ∈ ds_queue s) by (rewrite <- Hperm; by left).
  destruct (Hq cur Hcur) as (HcS & dc & Hdc & Hdist).
  set (u := q_nodeId cur) in *.
  assert (Htu : truthy u = true).
  { apply (Hdom u). eauto. }
  assert (Hnd' : NoDup (q_nodeId <$> cur :: rest)) by (by rewrite Hperm).
  rewrite fmap_cons in Hnd'. apply NoDup_cons in Hnd' as [Hu_rest Hnd_rest].
  fold u in Hu_rest.
  assert (Hmin : ∀ d', walk g src u d' → dc ≤ d').
  { intros d' Hw. destruct (queue_bounds_walks s u d' D Hw HcS) as (q & dq & Hin & Hd & Hle).
    rewrite <- Hperm in Hin. apply elem_of_cons in Hin as [->|Hin].
    - assert (dq = dc) by congruence. lia.
    - pose proof (sort_by_queue_head _ _ _ Hfinq Hsort q Hin) as Hcq.
      rewrite Hdc, Hd in Hcq. simpl in Hcq. lia. }
  set (V := set_add (ds_visited s) u).
  assert (HV : V = ds_visited s ++ [u]).
  { unfold V, set_add. by rewrite (proj2 (set_has_false _ _) HcS). }
  assert (HuV : u ∈ V) by (rewrite HV; apply elem_of_app; right; by left).
  assert (HVdone : ∀ x, x ∈ V →
    ∃ d, ds_distances s !! x = Some (Fin d) ∧ ∀ d', walk g src x d' → d ≤ d').
  { intros x. rewrite HV. intros [Hx| ->%list_elem_of_singleton]%elem_of_app.
    - by apply Hdone.
    - exists dc. done. }
  assert (HVnd : NoDup V).
  { rewrite HV. apply NoDup_app. split; [done|]. split; [|apply NoDup_singleton].
    intros x Hx ->%list_elem_of_singleton. done. }
  assert (HVprev : ∀ v d, ds_distances s !! v = Some (Fin d) → v ≠ src →
    reached_from (ds_distances s) (ds_previous s) V v d).
  { intros v d Hv Hvs. rewrite HV. apply reached_from_grow; [done|]. by apply Hprev. }
  set (B := reach (length (ds_visited s))).
  assert (HBV : reach (length V) = B + W).
  { rewrite HV, length_app. unfold B, reach. simpl length. lia. }
  assert (HB : B + W ≤ 2 ^ 53).
  { rewrite <- HBV. apply reach_nodes. rewrite <- node_ids_length.
    apply submseteq_length, NoDup_submseteq; [done|].
    intros x Hx. destruct (HVdone x Hx) as (d & Hd & _). apply Hdom. eauto. }
  assert (HduB : scaled j B (Fin dc)).
  { by destruct (Hsc _ _ Hdist) as [?|?]. }
  assert (HscV : ∀ k d, ds_distances s !! k = Some d → d = Inf ∨ scaled j (B + W) d).
  { intros k d Hk. destruct (Hsc _ _ Hk) as [?|Hd]; [by left|right].
    apply (scaled_mono j B); [lia|lia|done]. }
  unfold dijkstra_body. cbv zeta. fold u. rewrite Htu. cbn [negb].
  rewrite (proj2 (set_has_false _ _) HcS). fold V.
  destruct (truthy_opt tgt && bool_decide (tgt = Some u)) eqn:Hbreak.
  { cbn [fst snd]. apply andb_true_iff in Hbreak as [_ Ht%bool_decide_eq_true].
    split; [|done]. split; cbn [ds_distances ds_previous ds_visited]; try done.
    by rewrite HBV. }
  set (r0 := {| rx_distances := ds_distances s; rx_previous := ds_previous s;
                rx_queue := rest; rx_updated := [] |}).
  assert (R0 : rinv V u dc B (ds_distances s) r0 []).
  { split; cbn [r0 rx_distances rx_previous rx_queue]; try done.
    - intros q Hin. destruct (Hq q) as (HqS & d & Hd & Hdq).
      { rewrite <- Hperm. by right. }
      split; [|eauto]. rewrite HV. intros [?|Heq%list_elem_of_singleton]%elem_of_app.
      + done.
      + apply Hu_rest. apply list_elem_of_fmap. eauto.
    - intros v d Hv HvV. rewrite HV in HvV.
      apply not_elem_of_app in HvV as [HvS Hvu].
      specialize (Hpend v d Hv HvS). rewrite <- Hperm, fmap_cons in Hpend.
      apply elem_of_cons in Hpend as [->|?]; [|done].
      destruct Hvu. by left.
    - intros x a. rewrite HV. intros [Hx| ->%list_elem_of_singleton]%elem_of_app Hxu Ha.
      + by apply Hrel.
      + done.
    - intros a Ha. by apply elem_of_nil in Ha. }
  assert (R : rinv V u dc B (ds_distances s)
                (foldl (relax_edge V u) r0 (default [] (adj_lists g !! u)))
                ([] ++ default [] (adj_lists g !! u))).
  { apply relax_fold_keeps; try done. }
  rewrite app_nil_l in R.
  set (r := foldl (relax_edge V u) r0 _) in *.
  destruct R as [Rdom Rvis Rs Rwalk Rq Rnd Rpend Rold Rseen Rprev Run Rsc].
  assert (dij {| ds_distances := rx_distances r; ds_previous := rx_previous r;
                 ds_visited := V; ds_queue := rx_queue r;
                 ds_steps := []; ds_stepCount := 0 |}) as Dnew.
  { split; [split|..]; cbn [ds_distances ds_previous ds_visited ds_queue]; try done.
    - intros x Hx. destruct (HVdone x Hx) as (d & Hd & Hm). exists d.
      split; [|done]. by rewrite Rvis.
    - by rewrite HBV.
    - intros x a Hx Ha. destruct (decide (x = u)) as [->|Hne].
      + destruct (Rseen a Ha) as (dv & Hdv & Hle). exists dc, dv.
        split; [by rewrite Rvis|]. done.
      + by apply Rold. }
  assert (∀ steps count,
    dij {| ds_distances := rx_distances r; ds_previous := rx_previous r;
           ds_visited := V; ds_queue := rx_queue r;
           ds_steps := steps; ds_stepCount := count |}) as Dany.
  { intros steps count. destruct Dnew as [[? ? ? ? ? ? ? ?] ? ? ? ?].
    split; [split|..]; done. }
  destruct (decide _); cbn [fst snd]; apply Dany.
Qed.

(** *** The whole loop *)

Lemma dijkstra_loop_keeps fuel s s' :
  dij s →
  dijkstra_loop (adj_lists g) src tgt fuel s = Some s' →
  (dij s' ∧ ds_queue s' = []) ∨
  (dcore s' ∧ ∃ t, tgt = Some t ∧ t ∈ ds_visited s').
Proof.
  revert s. induction fuel as [|fuel IH]; intros s D; simpl.
  - destruct (sort_by qentry_le (ds_queue s)) as [|cur rest] eqn:Hq; [|done].
    intros [= <-]. left. split; [done|].
    apply Permutation_nil_r. rewrite <- Hq. symmetry. apply sort_by_Permutation.
  - destruct (sort_by qentry_le (ds_queue s)) as [|cur rest] eqn:Hq.
    { intros [= <-]. left. split; [done|].
      apply Permutation_nil_r. rewrite <- Hq. symmetry. apply sort_by_Permutation. }
    pose proof (dijkstra_body_keeps s cur rest D Hq) as Hb. cbv zeta in Hb.
    destruct (dijkstra_body _ src tgt s cur rest) as [s1 stop].
    cbn [fst snd] in Hb. destruct stop.
    + intros [= <-]. right. destruct Hb as (Hc & Ht & Hin). eauto.
    + intros Hrun. by apply (IH s1).
Qed.

Lemma init_node_value acc nd k v :
  (∀ k v, acc.1 !! k = Some v → v = if decide (k = src) then Fin 0 else Inf) →
  (init_node src acc nd).1 !! k = Some v →
  v = if decide (k = src) then Fin 0 else Inf.
Proof.
  intros Hacc. unfold init_node. destruct (truthy (nid nd)); [|apply Hacc].
  simpl. destruct (decide (nid nd = k)) as [<-|Hne].
  - rewrite lookup_insert_eq. by intros [= <-].
  - rewrite lookup_insert_ne by done. apply Hacc.
Qed.

Lemma dijkstra_init_value k v :
  ds_distances (dijkstra_init g src) !! k = Some v →
  v = if decide (k = src) then Fin 0 else Inf.
Proof.
  unfold dijkstra_init, dijkstra_init_maps.
  assert (∀ ns acc,
    (∀ k v, acc.1 !! k = Some v → v = if decide (k = src) then Fin 0 else Inf) →
    ∀ k v, (foldl (init_node src) acc ns).1 !! k = Some v →
           v = if decide (k = src) then Fin 0 else Inf) as Hfold.
  { induction ns as [|nd ns IH]; intros acc Hacc; simpl; [done|].
    apply IH. intros k' v'. by apply init_node_value. }
  specialize (Hfold (nodes g) (∅, ∅)).
  destruct (foldl _ _ _) as [d p]. simpl in *. apply Hfold.
  intros k' v'. by rewrite lookup_empty.
Qed.

Lemma dijkstra_init_previous k :
  mjoin (ds_previous (dijkstra_init g src) !! k) = None.
Proof.
  unfold dijkstra_init, dijkstra_init_maps.
  assert (∀ ns acc, (∀ k, mjoin (acc.2 !! k) = None) →
    ∀ k, mjoin ((foldl (init_node src) acc ns).2 !! k) = None) as Hfold.
  { induction ns as [|nd ns IH]; intros acc Hacc; simpl; [done|].
    apply IH. intros k'. unfold init_node. destruct (truthy (nid nd)); [|apply Hacc].
    simpl. destruct (decide (nid nd = k')) as [<-|Hne].
    - by rewrite lookup_insert_eq.
    - rewrite lookup_insert_ne by done. apply Hacc. }
  specialize (Hfold (nodes g) (∅, ∅)).
  destruct (foldl _ _ _) as [d p]. simpl in *. apply Hfold.
  intros k'. by rewrite lookup_empty.
Qed.

Lemma dij_init : dij (dijkstra_init g src).
Proof.
  destruct (dijkstra_init_queue g src) as [Hq Hv].
  pose proof (dijkstra_init_distances g src) as Hdom.
  assert (Hs : ds_distances (dijkstra_init g src) !! src = Some (Fin 0)).
  { destruct (proj2 (Hdom src)) as [v Hv']; [done|].
    rewrite Hv'. f_equal. apply dijkstra_init_value in Hv'.
    by rewrite decide_True in Hv'. }
  assert (Hfin : ∀ v d, ds_distances (dijkstra_init g src) !! v = Some (Fin d) →
                        v = src ∧ d = 0).
  { intros v d Hd. apply dijkstra_init_value in Hd.
    destruct (decide (v = src)); [|done]. by injection Hd as ->. }
  split; [split|..]; rewrite ?Hq, ?Hv.
  - done.
  - constructor.
  - done.
  - intros v d [-> ->]%Hfin. constructor.
  - intros x Hx. by apply elem_of_nil in Hx.
  - intros v d [-> ->]%Hfin Hne. done.
  - intros v _. apply dijkstra_init_previous.
  - intros k d Hd. apply dijkstra_init_value in Hd.
    destruct (decide (k = src)); [right|by left]. subst d.
    pose proof exact_j. assert (0 < 2 ^ j) by (apply Z.pow_pos_nonneg; lia).
    unfold reach. simpl. split; [by apply Z.mod_0_l; lia|lia].
  - intros x a Hx. by apply elem_of_nil in Hx.
  - intros q ->%list_elem_of_singleton. simpl. split; [apply not_elem_of_nil|].
    exists 0. done.
  - simpl. apply NoDup_singleton.
  - intros v d [-> ->]%Hfin _. simpl. by left.
Qed.

(** The state in which the loop ends: either the queue is empty and every
    edge out of a visited node has been relaxed, or the loop stopped at
    the target. *)
Lemma dijkstra_final_dij s :
  dijkstra_final_state g src tgt = Some s →
  (dij s ∧ ds_queue s = []) ∨ (dcore s ∧ ∃ t, tgt = Some t ∧ t ∈ ds_visited s).
Proof.
  intros (lists & Hadj & Hrun)%dijkstra_final_state_loop.
  rewrite (createAdjacencyList_plain g Hplain) in Hadj. injection Hadj as <-.
  eapply dijkstra_loop_keeps; [apply dij_init|exact Hrun].
Qed.

End DijkstraCorrect.

(** *** The result *)

Lemma dij_reachable_finite g src j W s v d :
  dij g src j W s → ds_queue s = [] → walk g src v d →
  v ∈ ds_visited s ∧ ∃ d', ds_distances s !! v = Some (Fin d').
Proof.
  intros [[Hdom Hvis Hs Hwalk Hdone Hprev Hun Hsc] Hrel Hq Hnd Hpend] Hempty.
  assert (∀ x dx, ds_distances s !! x = Some (Fin dx) → x ∈ ds_visited s) as Hall.
  { intros x dx Hx. destruct (decide (x ∈ ds_visited s)) as [|Hn]; [done|].
    specialize (Hpend x dx Hx Hn). rewrite Hempty in Hpend.
    by apply elem_of_nil in Hpend. }
  induction 1 as [|x a d1 _ [HxS _] Ha].
  - split; [by eapply Hall|eauto].
  - destruct (Hrel x a HxS Ha) as (dx & dv & _ & Hdv & _).
    split; [by eapply Hall|eauto].
Qed.

Lemma dcore_visited_shortest g src j W s v :
  dcore g src j W s → v ∈ ds_visited s →
  ∃ d, ds_distances s !! v = Some (Fin d) ∧ shortest g src v d.
Proof.
  intros [Hdom Hvis Hs Hwalk Hdone Hprev Hun Hsc] Hv.
  destruct (Hdone v Hv) as (d & Hd & Hmin). exists d. split; [done|].
  split; [by apply Hwalk|done].
Qed.

(** A distance is a number of units or [Infinity]. *)
Lemma dcore_shape g src j W s k d :
  dcore g src j W s → ds_distances s !! k = Some d → d = Inf ∨ ∃ n, d = Fin n.
Proof.
  intros C Hd. destruct (dc_scaled _ _ _ _ _ C k d Hd) as [->|Hs]; [by left|].
  right. destruct d; try done. eauto.
Qed.

Lemma shortest_unique g u v d1 d2 : shortest g u v d1 → shortest g u v d2 → d1 = d2.
Proof. intros [H1 M1] [H2 M2]. specialize (M1 _ H2). specialize (M2 _ H1). lia. Qed.

(** X14.  On a graph in which no id is a name that objects inherit and
    whose weights add up without rounding, run without a target,
    Dijkstra reports for every node of the graph the length of a shortest
    walk from the source along the adjacency list, and [Infinity] exactly
    for the nodes that no walk reaches. *)
Theorem dijkstra_distances_are_shortest j W g src r v :
  plain_ids g → exact_weights j W g →
  dijkstraAlgorithm g (Some src) None = Ok r →
  truthy v = true → v ∈ node_ids g →
  match df_distances (d_finalResult r) !! v with
  | Some (Fin d) => shortest g src v d
  | Some Inf => ∀ d, ¬ walk g src v d
  | _ => False
  end.
Proof.
  intros Hp Hex
    (Hvalid & src' & s & [= <-] & Ht & Hin & Hs & ->)%dijkstraAlgorithm_Ok Hv Hvn.
  cbn [dijkstra_finish d_finalResult df_distances]. rewrite safeCloneDistances_eq.
  destruct (dijkstra_final_dij g src None j W Hvalid Hp Hex Ht Hin s Hs)
    as [[D Hempty]|[_ (t & [=] & _)]].
  pose proof (dj_core _ _ _ _ _ D) as C.
  destruct (ds_distances s !! v) as [d0|] eqn:E.
  2:{ destruct (proj2 (dc_dom _ _ _ _ _ C v)) as [? ?]; [done|congruence]. }
  destruct (dcore_shape g src j W s v d0 C E) as [->|[d ->]].
  - intros d Hw.
    destruct (dij_reachable_finite g src j W s v d D Hempty Hw) as (_ & d' & Hd').
    congruence.
  - assert (v ∈ ds_visited s) as HvS.
    { destruct (decide (v ∈ ds_visited s)) as [|Hn]; [done|].
      pose proof (dj_pending _ _ _ _ _ D v d E Hn) as Hq. rewrite Hempty in Hq.
      by apply elem_of_nil in Hq. }
    destruct (dcore_visited_shortest g src j W s v C HvS) as (d' & Hd' & Hsh).
    congruence.
Qed.

(** A chain [A - B - C] with weights 1 and 2 and a node [D] apart. *)
Definition chain_and_island : Graph :=
  {| nodes := [{| nid := "A" |}; {| nid := "B" |}; {| nid := "C" |}; {| nid := "D" |}];
     edges :=
       [{| eid := Some "A-B"; from := "A"; to := "B"; weight := int 1;
           directed := false |};
        {| eid := Some "B-C"; from := "B"; to := "C"; weight := int 2;
           directed := false |}] |}.

Lemma chain_and_island_plain : plain_ids chain_and_island.
Proof. by_decide. Qed.

Lemma chain_and_island_exact : exact_weights 1074 2 chain_and_island.
Proof. by_decide. Qed.

Lemma dijkstra_distances_are_shortest_witness :
  ∃ r, dijkstraAlgorithm chain_and_island (Some "A") None = Ok r ∧
       match df_distances (d_finalResult r) !! "C" with
       | Some (Fin d) => shortest chain_and_island "A" "C" d
       | Some Inf => ∀ d, ¬ walk chain_and_island "A" "C" d
       | _ => False
       end.
Proof.
  assert ("A" ∈ node_ids chain_and_island) as HA.
  { change (node_ids chain_and_island) with ["A"; "B"; "C"; "D"].
    rewrite !elem_of_cons. tauto. }
  destruct (dijkstraAlgorithm_total chain_and_island "A" None eq_refl
              chain_and_island_plain eq_refl HA) as [r Hr].
  exists r. split; [exact Hr|].
  apply (dijkstra_distances_are_shortest 1074 2 chain_and_island "A" r "C"
           chain_and_island_plain chain_and_island_exact Hr eq_refl).
  change (node_ids chain_and_island) with ["A"; "B"; "C"; "D"].
  rewrite !elem_of_cons. tauto.
Defined.

(** X15.  On such a graph, run with a target that is a node of the graph,
    Dijkstra reports [pathExists] exactly when a walk leads from the
    source to the target, and then the distance it reports for the target
    is the length of a shortest such walk, whether the loop stopped at
    the target or ran until the queue was empty. *)
Theorem dijkstra_target_is_exact j W g src t r :
  plain_ids g → exact_weights j W g →
  dijkstraAlgorithm g (Some src) (Some t) = Ok r →
  truthy t = true → t ∈ node_ids g →
  (df_pathExists (d_finalResult r) = true ↔ ∃ d, walk g src t d) ∧
  ∀ d, df_distances (d_finalResult r) !! t = Some (Fin d) ↔ shortest g src t d.
Proof.
  intros Hp Hex
    (Hvalid & src' & s & [= <-] & Ht & Hin & Hs & ->)%dijkstraAlgorithm_Ok Htt Htn.
  cbn [dijkstra_finish d_finalResult df_distances df_pathExists].
  rewrite safeCloneDistances_eq, Htt.
  pose proof (dijkstra_final_dij g src (Some t) j W Hvalid Hp Hex Ht Hin s Hs)
    as Hend.
  assert (dcore g src j W s) as C.
  { destruct Hend as [[D _]|[C _]]; [apply (dj_core _ _ _ _ _ D)|done]. }
  assert (∀ d, ds_distances s !! t = Some (Fin d) → shortest g src t d) as Hexact.
  { intros d Hd. destruct Hend as [[D Hempty]|[_ (t' & [= <-] & HtS)]].
    - assert (t ∈ ds_visited s) as HtS.
      { destruct (decide (t ∈ ds_visited s)) as [|Hn]; [done|].
        pose proof (dj_pending _ _ _ _ _ D t d Hd Hn) as Hq. rewrite Hempty in Hq.
        by apply elem_of_nil in Hq. }
      destruct (dcore_visited_shortest g src j W s t C HtS) as (d' & Hd' & Hsh).
      congruence.
    - destruct (dcore_visited_shortest g src j W s t C HtS) as (d' & Hd' & Hsh).
      congruence. }
  assert (∀ d, walk g src t d → ∃ d', ds_distances s !! t = Some (Fin d')) as Hfin.
  { intros d Hw. destruct Hend as [[D Hempty]|[_ (t' & [= <-] & HtS)]].
    - by destruct (dij_reachable_finite g src j W s t d D Hempty Hw) as (_ & Hd').
    - destruct (dcore_visited_shortest g src j W s t C HtS) as (d' & Hd' & _). eauto. }
  split.
  - rewrite bool_decide_eq_true. split.
    + intros Hne. destruct (ds_distances s !! t) as [d0|] eqn:E.
      2:{ destruct (proj2 (dc_dom _ _ _ _ _ C t)) as [? ?]; [done|congruence]. }
      destruct (dcore_shape g src j W s t d0 C E) as [->|[d ->]]; [done|].
      exists d. by apply (Hexact d).
    + intros [d Hw]. destruct (Hfin d Hw) as [d' Hd']. congruence.
  - intros d. split; [apply Hexact|].
    intros Hsh. destruct (Hfin d (proj1 Hsh)) as [d' Hd'].
    rewrite Hd'. do 2 f_equal. eapply shortest_unique; [|exact Hsh]. by apply Hexact.
Qed.

Lemma triangle_nodes x : x ∈ ["A"; "B"; "C"] → x ∈ node_ids triangle.
Proof. done. Qed.

Lemma dijkstra_target_is_exact_witness :
  ∃ r, dijkstraAlgorithm triangle (Some "A") (Some "B") = Ok r ∧
       (df_pathExists (d_finalResult r) = true ↔ ∃ d, walk triangle "A" "B" d) ∧
       ∀ d, df_distances (d_finalResult r) !! "B" = Some (Fin d)
            ↔ shortest triangle "A" "B" d.
Proof.
  assert ("A" ∈ node_ids triangle) as HA
    by (apply triangle_nodes; rewrite !elem_of_cons; tauto).
  assert ("B" ∈ node_ids triangle) as HB
    by (apply triangle_nodes; rewrite !elem_of_cons; tauto).
  destruct (dijkstraAlgorithm_total triangle "A" (Some "B") eq_refl
              triangle_plain eq_refl HA) as [r Hr].
  exists r. split; [exact Hr|].
  exact (dijkstra_target_is_exact 1074 3 triangle "A" "B" r triangle_plain
           triangle_exact Hr eq_refl HB).
Defined.

(** *** The reconstructed paths *)

(** [route g u v l d]: the list [l] goes from [u] to [v] along entries of
    the adjacency list whose weights add up to [d]. *)
Inductive route (g : Graph) (u : string) : string → list string → Z → Prop :=
  | route_here : route g u u [u] 0
  | route_on v a l d :
      route g u v l d → a ∈ nbrs g v →
      route g u (adj_to a) (l ++ [adj_to a]) (d + num_z (adj_weight a)).

Lemma route_walk g u v l d : route g u v l d → walk g u v d.
Proof.
  induction 1 as [|v a l d _ IH Ha]; [constructor|].
  by apply (walk_on g u v a d).
Qed.

Lemma route_ends g u v l d : route g u v l d → head l = Some u ∧ last l = Some v.
Proof.
  induction 1 as [|v a l d _ [IHh IHl] Ha]; [done|]. split.
  - destruct l; [done|]. done.
  - apply last_snoc.
Qed.

Lemma visited_within_nodes g src j W s :
  dcore g src j W s → (length (ds_visited s) ≤ length (nodes g))%nat.
Proof.
  intros C. rewrite <- node_ids_length. apply submseteq_length.
  apply NoDup_submseteq; [apply (dc_vis _ _ _ _ _ C)|].
  intros x Hx. destruct (dc_done _ _ _ _ _ C x Hx) as (d & Hd & _).
  by apply (dc_dom _ _ _ _ _ C x).
Qed.

(** From a visited node, [walk_back] climbs [previous] through nodes
    visited ever earlier, so a budget above the node's rank is enough. *)
Lemma walk_back_visited g src j W s :
  dcore g src j W s →
  ∀ i c d budget acc,
    ds_visited s !! i = Some c → ds_distances s !! c = Some (Fin d) →
    (i < budget)%nat →
    ∃ l, walk_back (ds_previous s) src budget (Some c) acc = l ++ acc ∧
         route g src c l d.
Proof.
  intros C i. induction i as [i IH] using lt_wf_ind.
  intros c d budget acc Hi Hd Hb.
  destruct budget as [|b]; [lia|]. cbn [walk_back].
  destruct (decide (c = src)) as [->|Hne].
  - exists [src]. split; [done|].
    pose proof (dc_src _ _ _ _ _ C) as H0. rewrite H0 in Hd. injection Hd as <-.
    constructor.
  - destruct (dc_prev _ _ _ _ _ C c d Hd Hne)
      as (p & a & dp & Hp & HpV & Ha & Hto & Hdp & Heq & Hbef).
    destruct Hbef as (i' & j' & Hi' & Hj' & Hlt).
    { by eapply list_elem_of_lookup_2. }
    assert (j' = i) as ->.
    { eapply NoDup_lookup; [apply (dc_vis _ _ _ _ _ C)|done..]. }
    rewrite Hp. cbn [mjoin option_join mbind option_bind].
    destruct (IH i' Hlt p dp b (c :: acc) Hi' Hdp) as (l & Hl & Hr); [lia|].
    exists (l ++ [c]). split.
    + change (mjoin (Some (Some p))) with (Some p). rewrite Hl.
      by rewrite <- app_assoc.
    + rewrite Heq, <- Hto. by apply (route_on g src p a l dp).
Qed.

Lemma walk_back_finite g src j W s c d budget :
  dcore g src j W s → ds_distances s !! c = Some (Fin d) →
  (length (ds_visited s) < budget)%nat →
  ∃ l, walk_back (ds_previous s) src budget (Some c) [] = l ∧ route g src c l d.
Proof.
  intros C Hd Hb. destruct budget as [|b]; [lia|]. cbn [walk_back].
  destruct (decide (c = src)) as [->|Hne].
  - exists [src]. split; [done|].
    pose proof (dc_src _ _ _ _ _ C) as H0. rewrite H0 in Hd. injection Hd as <-.
    constructor.
  - destruct (dc_prev _ _ _ _ _ C c d Hd Hne)
      as (p & a & dp & Hp & HpV & Ha & Hto & Hdp & Heq & _).
    apply list_elem_of_lookup in HpV as [i Hi].
    pose proof (lookup_lt_Some _ _ _ Hi) as Hlen.
    destruct (walk_back_visited g src j W s C i p dp b [c] Hi Hdp) as (l & Hl & Hr);
      [lia|].
    rewrite Hp. change (mjoin (Some (Some p))) with (Some p).
    exists (l ++ [c]). split; [done|].
    rewrite Heq, <- Hto. by apply (route_on g src p a l dp).
Qed.

Lemma path_entry_finite g src j W s c d maxSteps :
  dcore g src j W s → ds_distances s !! c = Some (Fin d) →
  (length (ds_visited s) < maxSteps)%nat →
  ∃ l, path_entry (ds_previous s) src maxSteps (ds_distances s) c
         = {| path := l; distance := Fin d |} ∧ route g src c l d.
Proof.
  intros C Hd Hb. unfold path_entry.
  destruct (decide (c = src)) as [->|Hne].
  - pose proof (dc_src _ _ _ _ _ C) as H0. rewrite H0 in Hd. injection Hd as <-.
    exists [src]. split; [done|constructor].
  - destruct (walk_back_finite g src j W s c d maxSteps C Hd Hb) as (l & -> & Hr).
    exists l. rewrite bool_decide_eq_true_2 by apply (route_ends _ _ _ _ _ Hr).
    by rewrite Hd.
Qed.

Lemma path_entry_unreached g src j W s c maxSteps :
  dcore g src j W s → ds_distances s !! c = Some Inf →
  path_entry (ds_previous s) src maxSteps (ds_distances s) c
    = {| path := []; distance := Inf |}.
Proof.
  intros C Hd. unfold path_entry.
  assert (c ≠ src) as Hne.
  { intros ->. pose proof (dc_src _ _ _ _ _ C). congruence. }
  rewrite decide_False by done.
  pose proof (dc_unreached _ _ _ _ _ C c Hd) as Hp.
  destruct maxSteps as [|b]; [done|]. cbn [walk_back].
  rewrite decide_False by done. rewrite Hp.
  destruct b; cbn [walk_back];
    by rewrite bool_decide_eq_false_2 by (cbn [head]; congruence).
Qed.

Lemma getShortestPaths_lookup previous source processedNodes distances v :
  truthy source = true → truthy v = true → v ∈ processedNodes →
  getShortestPaths previous source processedNodes distances !! v
    = Some (path_entry previous source (length processedNodes + 1) distances v).
Proof.
  intros Hs Hv. unfold getShortestPaths. rewrite Hs. cbn [negb].
  generalize (length processedNodes + 1)%nat. intros maxSteps.
  assert (∀ l paths,
    (v ∈ l ∨ paths !! v = Some (path_entry previous source maxSteps distances v)) →
    foldl (add_path previous source maxSteps distances) paths l !! v
      = Some (path_entry previous source maxSteps distances v)) as H.
  { induction l as [|x l IH]; intros paths Hor; simpl.
    - destruct Hor as [Hin|Hp]; [by apply elem_of_nil in Hin|done].
    - apply IH. unfold add_path.
      destruct (decide (x = v)) as [->|Hne].
      + right. rewrite Hv. cbn [negb]. by rewrite lookup_insert_eq.
      + destruct Hor as [Hin|Hp].
        * left. apply elem_of_cons in Hin as [?|?]; [congruence|done].
        * right. destruct (negb (truthy x)); [done|]. by rewrite lookup_insert_ne. }
  intros Hin. apply H. by left.
Qed.

Lemma dijkstra_final_dcore g src tgt j W s :
  validateGraph g = Ok tt → plain_ids g → exact_weights j W g →
  truthy src = true → src ∈ node_ids g →
  dijkstra_final_state g src tgt = Some s → dcore g src j W s.
Proof.
  intros Hvalid Hp Hex Ht Hin Hs.
  destruct (dijkstra_final_dij g src tgt j W Hvalid Hp Hex Ht Hin s Hs)
    as [[D _]|[C _]]; [apply (dj_core _ _ _ _ _ D)|done].
Qed.

(** X16.  On a graph in which no id is a name that objects inherit and
    whose weights add up without rounding, every node of the graph has
    an entry in [shortestPaths] of the final result; when its distance is
    finite the path listed there starts at the source, ends at the node,
    follows entries of the adjacency list, and the weights along it add
    up to the distance reported for the node; a node whose distance is
    [Infinity] has the empty path. *)
Theorem dijkstra_paths_follow_edges j W g src tgt r v :
  plain_ids g → exact_weights j W g →
  dijkstraAlgorithm g (Some src) tgt = Ok r →
  truthy v = true → v ∈ node_ids g →
  ∃ pi, df_shortestPaths (d_finalResult r) !! v = Some pi ∧
        df_distances (d_finalResult r) !! v = Some (distance pi) ∧
        match distance pi with
        | Fin d => route g src v (path pi) d
        | Inf => path pi = []
        | _ => False
        end.
Proof.
  intros Hp Hex
    (Hvalid & src' & s & [= <-] & Ht & Hin & Hs & ->)%dijkstraAlgorithm_Ok Hv Hvn.
  cbn [dijkstra_finish d_finalResult df_distances df_shortestPaths].
  rewrite safeCloneDistances_eq.
  pose proof (dijkstra_final_dcore g src tgt j W s Hvalid Hp Hex Ht Hin Hs) as C.
  rewrite getShortestPaths_lookup by done.
  destruct (ds_distances s !! v) as [d0|] eqn:E.
  2:{ destruct (proj2 (dc_dom _ _ _ _ _ C v)) as [? ?]; [done|congruence]. }
  destruct (dcore_shape g src j W s v d0 C E) as [->|[d ->]].
  - rewrite (path_entry_unreached g src j W s v _ C E). by eexists.
  - destruct (path_entry_finite g src j W s v d (length (map nid (nodes g)) + 1) C E)
      as (l & -> & Hr).
    { pose proof (visited_within_nodes g src j W s C). rewrite length_map. lia. }
    by eexists.
Qed.

Lemma dijkstra_paths_follow_edges_witness :
  ∃ r, dijkstraAlgorithm triangle (Some "A") (Some "C") = Ok r ∧
  ∃ pi, df_shortestPaths (d_finalResult r) !! "C" = Some pi ∧
        df_distances (d_finalResult r) !! "C" = Some (distance pi) ∧
        match distance pi with
        | Fin d => route triangle "A" "C" (path pi) d
        | Inf => path pi = []
        | _ => False
        end.
Proof.
  assert ("A" ∈ node_ids triangle) as HA
    by (apply triangle_nodes; rewrite !elem_of_cons; tauto).
  assert ("C" ∈ node_ids triangle) as HC
    by (apply triangle_nodes; rewrite !elem_of_cons; tauto).
  destruct (dijkstraAlgorithm_total triangle "A" (Some "C") eq_refl
              triangle_plain eq_refl HA) as [r Hr].
  exists r. split; [exact Hr|].
  exact (dijkstra_paths_follow_edges 1074 3 triangle "A" (Some "C") r "C"
           triangle_plain triangle_exact Hr eq_refl HC).
Defined.

(** ** [getUnionFindState] *)

Section UnionFindState.
Import UnionFind.
Local Open Scope nat_scope.

(** The ids of the nodes of [ns], numbered from [i], whose index has the
    root [r]; nodes without a usable id are left out. *)
Fixpoint ids_from (root : nat → nat) (i : nat) (ns : list Node) (r : nat)
  : list string :=
  match ns with
  | [] => []
  | n :: ns' =>
      (if truthy (nid n) && bool_decide (root i = r) then [nid n] else [])
      ++ ids_from root (S i) ns' r
  end.

Definition nonempty {A} (l : list A) : option (list A) :=
  match l with [] => None | _ => Some l end.

Lemma nonempty_snoc {A} (l : list A) x : nonempty (l ++ [x]) = Some (l ++ [x]).
Proof. by destruct l. Qed.

Lemma default_nonempty {A} (l : list A) : default [] (nonempty l) = l.
Proof. by destruct l. Qed.

Lemma omap_nonempty {A B} (f : A → list B) (l : list A) :
  omap (λ x, nonempty (f x)) l = filter (λ grp, grp ≠ []) (f <$> l).
Proof.
  induction l as [|x l IH]; [done|]. rewrite fmap_cons, filter_cons. csimpl.
  rewrite IH. destruct (f x) as [|b bs]; cbn [nonempty].
  - by destruct (decide (@nil B ≠ [])).
  - by destruct (decide (b :: bs ≠ [])) as [|Hn]; [|destruct Hn].
Qed.

Lemma components_from_groups root ns i u comps acc u' comps' :
  UF.wf u → i + length ns ≤ length (parent u) →
  (∀ k, i ≤ k < i + length ns → UF.repr u k (root k)) →
  (∀ r, comps !! r = nonempty (acc r)) →
  components_from i ns u comps = Some (u', comps') →
  ∀ r, comps' !! r = nonempty (acc r ++ ids_from root i ns r).
Proof.
  revert i u comps acc.
  induction ns as [|nd ns IH]; intros i u comps acc Hu Hlen Hroot Hacc; simpl.
  - intros [= <- <-] r. by rewrite app_nil_r.
  - simpl in Hlen. destruct (truthy (nid nd)) eqn:Ht; cbn [andb].
    + destruct (UF.find_spec u i Hu) as ([u1 rt] & Hf & Hpost); [lia|].
      rewrite Hf. simpl.
      pose proof (UF.find_pres _ _ _ Hu Hpost) as [Hl1 Hp1].
      destruct Hpost as (Hu1 & _ & Hr & _). simpl in *.
      assert (rt = root i) as ->.
      { eapply UF.repr_fun; [exact Hr|]. apply Hroot. lia. }
      pose (acc' := λ r : nat,
              acc r ++ if bool_decide (root i = r) then [nid nd] else []).
      assert (S i + length ns ≤ length (parent u1)) as Hlen1 by lia.
      assert (∀ k, S i ≤ k < S i + length ns → UF.repr u1 k (root k)) as Hroot1.
      { intros k Hk. apply Hp1. apply Hroot. lia. }
      assert (∀ r, <[root i:=default [] (comps !! root i) ++ [nid nd]]> comps !! r
                   = nonempty (acc' r)) as Hacc1.
      { intros r. unfold acc'. destruct (decide (root i = r)) as [<-|Hne].
        - rewrite lookup_insert_eq, bool_decide_eq_true_2 by done.
          by rewrite Hacc, default_nonempty, nonempty_snoc.
        - rewrite lookup_insert_ne, bool_decide_eq_false_2 by done.
          by rewrite app_nil_r. }
      intros Hc r. rewrite app_assoc.
      exact (IH (S i) u1 _ acc' Hu1 Hlen1 Hroot1 Hacc1 Hc r).
    + assert (S i + length ns ≤ length (parent u)) as Hlen1 by lia.
      assert (∀ k, S i ≤ k < S i + length ns → UF.repr u k (root k)) as Hroot1.
      { intros k Hk. apply Hroot. cbn [length]. lia. }
      intros Hc r. exact (IH (S i) u comps acc Hu Hlen1 Hroot1 Hacc Hc r).
Qed.

(** X17.  On a [UnionFind] built by its own methods over as many indices
    as there are nodes, [getUnionFindState] returns one group for every
    root that some node with a usable id has: the groups come in
    ascending order of the root index, and each lists, in node order, the
    ids of the nodes whose index has that root.  The call compresses
    paths and keeps every root. *)
Theorem getUnionFindState_groups u ns :
  built (length ns) u →
  ∃ u' st root,
    getUnionFindState u ns = Some (u', st) ∧
    (∀ k, k < length ns → UF.repr u k (root k)) ∧
    st = filter (λ grp, grp ≠ [])
           ((λ r, ids_from root 0 ns r) <$> seq 0 (length ns)) ∧
    ∀ y ry, UF.repr u' y ry ↔ UF.repr u y ry.
Proof.
  intros [Hu Hn]%built_wf.
  destruct (components_from_spec ns 0 u ∅ Hu) as (u' & comps & Hc & Hu' & Hp);
    [lia|].
  set (root := λ k, default 0 (snd <$> find u k)).
  assert (∀ k, k < length ns → UF.repr u k (root k)) as Hroot.
  { intros k Hk. unfold root.
    destruct (UF.find_spec u k Hu) as (res & -> & _ & _ & Hr & _); [lia|done]. }
  exists u', (object_values (length (parent u)) comps), root.
  split; [unfold getUnionFindState; by rewrite Hc|].
  split; [done|]. split; [|by apply pres_roots].
  rewrite Hn. unfold object_values. rewrite <- omap_nonempty.
  pose proof (components_from_groups root ns 0 u ∅ (λ _, []) u' comps Hu
                ltac:(lia) ltac:(intros k Hk; apply Hroot; lia)
                ltac:(intros r; apply lookup_empty) Hc) as Hall.
  apply list_omap_ext, Forall2_same_length_lookup_2; [done|].
  intros i x y Hx Hy. assert (x = y) as <- by congruence. apply Hall.
Qed.

Definition two_and_one : UnionFind.t :=
  {| parent := [0; 0; 2]; rank := [1; 0; 0] |}.

Lemma two_and_one_built : built 3 two_and_one.
Proof. by apply (built_union 3 (make 3) 0 1 two_and_one true); [constructor|lia..|]. Qed.

Lemma getUnionFindState_groups_witness :
  ∃ u' st root,
    getUnionFindState two_and_one (nodes triangle) = Some (u', st) ∧
    (∀ k, k < 3 → UF.repr two_and_one k (root k)) ∧
    st = filter (λ grp, grp ≠ [])
           ((λ r, ids_from root 0 (nodes triangle) r) <$> seq 0 3) ∧
    ∀ y ry, UF.repr u' y ry ↔ UF.repr two_and_one y ry.
Proof.
  exact (getUnionFindState_groups two_and_one (nodes triangle)
           two_and_one_built).
Defined.

End UnionFindState.
